(** * NEATNNG: a shallow embedding of the evolutionary engine of [NEATNNG.py]

    The development follows the source file class by class:
    - Python dictionaries are association lists that keep insertion order
      (the order is observable through [enumerate], [next] and
      [random.choice(list(d.keys()))]);
    - Python floats are idealised as rationals [Q];
    - the module-level [random] generator is a tape of draws that the
      functions consume in the order the source calls it;
    - the [InnovationManager] object shared by every genome is threaded
      through the calls together with the tape (a small state monad). *)

From Stdlib Require Import String.
From Stdlib Require Import List Arith ZArith QArith Qabs Bool Lia.
From Stdlib Require Import Permutation Sorting.Sorted Sorting.Mergesort.
Import ListNotations.

Local Open Scope nat_scope.
Local Open Scope list_scope.

(* ------------------------------------------------------------------ *)
(** ** Python dictionaries *)

Section PyDict.
Context {K V : Type}.
Variable keq : K -> K -> bool.

(** [d.get(k)]: the value bound to [k], if any. *)
Fixpoint dget (k : K) (d : list (K * V)) : option V :=
  match d with
  | [] => None
  | (k', v) :: r => if keq k k' then Some v else dget k r
  end.

(** [k in d]. *)
Definition dmem (k : K) (d : list (K * V)) : bool :=
  match dget k d with Some _ => true | None => false end.

(** [d[k] = v]: an existing key keeps its place, a new key goes last. *)
Fixpoint dset (k : K) (v : V) (d : list (K * V)) : list (K * V) :=
  match d with
  | [] => [(k, v)]
  | (k', v') :: r =>
      if keq k k' then (k', v) :: r else (k', v') :: dset k v r
  end.

(** [del d[k]] / [d.pop(k, None)]. *)
Definition ddel (k : K) (d : list (K * V)) : list (K * V) :=
  filter (fun e => negb (keq k (fst e))) d.

(** [list(d.keys())]. *)
Definition dkeys (d : list (K * V)) : list K := map fst d.

End PyDict.

(* ------------------------------------------------------------------ *)
(** ** The [random] module and the shared innovation manager *)

(** Keys of [InnovationManager.innovations]:
    [(innovation_type, gene_in_id, gene_out_id)], the last one [None] for a
    node gene. *)
Definition InnovKey : Type := (string * nat * option nat)%type.

Definition option_nat_eqb (a b : option nat) : bool :=
  match a, b with
  | Some x, Some y => Nat.eqb x y
  | None, None => true
  | _, _ => false
  end.

Definition innov_key_eqb (a b : InnovKey) : bool :=
  let '(t1, i1, o1) := a in
  let '(t2, i2, o2) := b in
  String.eqb t1 t2 && Nat.eqb i1 i2 && option_nat_eqb o1 o2.

Record InnovationManager := mkIM {
  innovations : list (InnovKey * nat);
  next_innovation_number : nat;
  next_genome_id_counter : nat
}.

(** [InnovationManager.__init__]. *)
Definition new_manager : InnovationManager :=
  {| innovations := []; next_innovation_number := 1; next_genome_id_counter := 0 |}.

(** [InnovationManager.get_innovation_number]. *)
Definition get_innovation_number (innovation_type : string) (gene_in_id : nat)
    (gene_out_id : option nat) (m : InnovationManager) : option nat :=
  dget innov_key_eqb (innovation_type, gene_in_id, gene_out_id) (innovations m).

(** [InnovationManager.create_innovation]: when no number is passed the
    counter is read and advanced; the table is written in both cases and is
    never read. *)
Definition create_innovation (innovation_type : string) (gene_in_id : nat)
    (gene_out_id : option nat) (innovation_number : option nat)
    (m : InnovationManager) : nat * InnovationManager :=
  let '(number, next) :=
    match innovation_number with
    | None => (next_innovation_number m, S (next_innovation_number m))
    | Some n => (n, next_innovation_number m)
    end in
  (number,
   {| innovations :=
        dset innov_key_eqb (innovation_type, gene_in_id, gene_out_id) number
             (innovations m);
      next_innovation_number := next;
      next_genome_id_counter := next_genome_id_counter m |}).

(** [InnovationManager.next_genome_id]: returns the counter and advances it. *)
Definition next_genome_id (m : InnovationManager) : nat * InnovationManager :=
  (next_genome_id_counter m,
   {| innovations := innovations m;
      next_innovation_number := next_innovation_number m;
      next_genome_id_counter := S (next_genome_id_counter m) |}).

(** [InnovationManager.increment_genome_id]. *)
Definition increment_genome_id (m : InnovationManager) : InnovationManager :=
  {| innovations := innovations m;
     next_innovation_number := next_innovation_number m;
     next_genome_id_counter := S (next_genome_id_counter m) |}.

(** The generator: [ints] feeds [_randbelow] (used by [random.choice] and
    [random.shuffle]), [reals] feeds [random.random] (used by
    [random.uniform] too).  An exhausted tape yields 0. *)
Record Rng := mkRng { rand_ints : list nat; rand_reals : list Q }.

Record World := mkWorld { w_rng : Rng; w_im : InnovationManager }.

Definition M (A : Type) : Type := World -> A * World.

Definition ret {A} (a : A) : M A := fun w => (a, w).

Definition bind {A B} (c : M A) (k : A -> M B) : M B :=
  fun w => let (a, w') := c w in k a w'.

Declare Scope py_scope.
Delimit Scope py_scope with py.
Notation "x <- c ;; k" := (bind c (fun x => k))
  (at level 61, c at next level, right associativity) : py_scope.
Notation "c ;;; k" := (bind c (fun _ => k))
  (at level 61, right associativity) : py_scope.
Local Open Scope py_scope.

(** [random._randbelow(n)]. *)
Definition randbelow (n : nat) : M nat := fun w =>
  match rand_ints (w_rng w) with
  | [] => (0, w)
  | r :: t =>
      (r mod n,
       {| w_rng := {| rand_ints := t; rand_reals := rand_reals (w_rng w) |};
          w_im := w_im w |})
  end.

(** [random.random()]. *)
Definition random_random : M Q := fun w =>
  match rand_reals (w_rng w) with
  | [] => (0%Q, w)
  | x :: t =>
      (x,
       {| w_rng := {| rand_ints := rand_ints (w_rng w); rand_reals := t |};
          w_im := w_im w |})
  end.

(** [random.uniform(a, b)] is [a + (b - a) * random()]. *)
Definition random_uniform (a b : Q) : M Q :=
  x <- random_random ;; ret (a + (b - a) * x)%Q.

(** [random.choice(seq)] on a non-empty [seq]; every caller guards the empty
    case, and [default] only fills the type. *)
Definition random_choice {A} (default : A) (seq : list A) : M A :=
  i <- randbelow (length seq) ;; ret (nth i seq default).

(** [innovation_manager.create_innovation(ty, a, b)] on the shared manager. *)
Definition im_create_innovation (ty : string) (a : nat) (b : option nat) : M nat :=
  fun w =>
    let (n, m') := create_innovation ty a b None (w_im w) in
    (n, {| w_rng := w_rng w; w_im := m' |}).


(** Loops of the source: [for _ in range(n)] and [for x in xs], threading the
    object the loop body mutates. *)
Fixpoint for_range {S : Type} (n : nat) (body : S -> M S) (s : S) : M S :=
  match n with
  | 0 => ret s
  | Datatypes.S n' => s' <- body s ;; for_range n' body s'
  end.

Fixpoint for_each {A S : Type} (xs : list A) (body : A -> S -> M S) (s : S) : M S :=
  match xs with
  | [] => ret s
  | x :: r => s' <- body x s ;; for_each r body s'
  end.

(** [x[i] = v] on a list, for [i] in range. *)
Fixpoint list_set {A} (i : nat) (v : A) (l : list A) : list A :=
  match l, i with
  | [], _ => []
  | _ :: r, 0 => v :: r
  | a :: r, Datatypes.S i' => a :: list_set i' v r
  end.

(** [x[i], x[j] = x[j], x[i]]. *)
Definition list_swap {A} (i j : nat) (l : list A) : list A :=
  match nth_error l i, nth_error l j with
  | Some a, Some b => list_set j a (list_set i b l)
  | _, _ => l
  end.

(** [random.shuffle(x)]:
    [for i in reversed(range(1, len(x))): j = randbelow(i + 1); swap]. *)
Fixpoint shuffle_from {A} (i : nat) (x : list A) : M (list A) :=
  match i with
  | 0 => ret x
  | Datatypes.S i' => j <- randbelow (Datatypes.S i) ;; shuffle_from i' (list_swap i j x)
  end.

Definition random_shuffle {A} (x : list A) : M (list A) :=
  shuffle_from (length x - 1) x.

(* ------------------------------------------------------------------ *)
(** ** [FeedforwardGenome] *)

Inductive NodeType := Input | Hidden | Output.

Inductive Activation := Identity | Relu | Sigmoid | Tanh.

(** A value of [genes]: the tuple [(type, activation, innovation_number)]
    with an optional fourth component, the bias ([gi_bias = None] is the
    3-tuple the constructor stores for input nodes). *)
Record GeneInfo := mkGene {
  gi_type : NodeType;
  gi_activation : Activation;
  gi_innovation : nat;
  gi_bias : option Q
}.

(** A key of [connections]: [(in_node_id, out_node_id, innovation_number)]. *)
Definition ConnKey : Type := (nat * nat * nat)%type.

Definition conn_key_eqb (a b : ConnKey) : bool :=
  let '(i1, o1, n1) := a in
  let '(i2, o2, n2) := b in
  Nat.eqb i1 i2 && Nat.eqb o1 o2 && Nat.eqb n1 n2.

Definition conn_in (k : ConnKey) : nat := fst (fst k).
Definition conn_out (k : ConnKey) : nat := snd (fst k).
Definition conn_innov (k : ConnKey) : nat := snd k.

(** The attributes of a genome; [innovation_manager] is the shared manager of
    the [World]. *)
Record FeedforwardGenome := mkGenome {
  genome_id : nat;
  genes : list (nat * GeneInfo);
  connections : list (ConnKey * Q);
  next_node_id : nat;
  fitness : option Q;
  output_nodes : list nat
}.

Definition set_genes (x : list (nat * GeneInfo)) (g : FeedforwardGenome) :=
  mkGenome (genome_id g) x (connections g) (next_node_id g) (fitness g) (output_nodes g).
Definition set_connections (x : list (ConnKey * Q)) (g : FeedforwardGenome) :=
  mkGenome (genome_id g) (genes g) x (next_node_id g) (fitness g) (output_nodes g).
Definition set_next_node_id (x : nat) (g : FeedforwardGenome) :=
  mkGenome (genome_id g) (genes g) (connections g) x (fitness g) (output_nodes g).
Definition set_fitness (x : option Q) (g : FeedforwardGenome) :=
  mkGenome (genome_id g) (genes g) (connections g) (next_node_id g) x (output_nodes g).
Definition set_output_nodes (x : list nat) (g : FeedforwardGenome) :=
  mkGenome (genome_id g) (genes g) (connections g) (next_node_id g) (fitness g) x.

Definition node_type_eqb (a b : NodeType) : bool :=
  match a, b with
  | Input, Input | Hidden, Hidden | Output, Output => true
  | _, _ => false
  end.

Definition is_type (t : NodeType) (gi : GeneInfo) : bool := node_type_eqb (gi_type gi) t.

(** [[node_id for node_id, info in self.genes.items() if info[0] == t]]. *)
Definition nodes_of_type (t : NodeType) (g : FeedforwardGenome) : list nat :=
  map fst (filter (fun e => is_type t (snd e)) (genes g)).

(** [get_num_inputs], [get_num_outputs], [get_num_hidden_nodes]. *)
Definition get_num_inputs (g : FeedforwardGenome) : nat :=
  length (filter (fun e => is_type Input (snd e)) (genes g)).
Definition get_num_outputs (g : FeedforwardGenome) : nat := length (output_nodes g).
Definition get_num_hidden_nodes (g : FeedforwardGenome) : nat :=
  length (filter (fun e => is_type Hidden (snd e)) (genes g)).

(** The three node loops of [__init__]. *)
Definition init_input_node (g : FeedforwardGenome) : M FeedforwardGenome :=
  innovation_number <- im_create_innovation "gene" (next_node_id g) None ;;
  ret (set_next_node_id (Datatypes.S (next_node_id g))
        (set_genes (dset Nat.eqb (next_node_id g)
                      (mkGene Input Identity innovation_number None) (genes g)) g)).

Definition init_hidden_node (g : FeedforwardGenome) : M FeedforwardGenome :=
  innovation_number <- im_create_innovation "gene" (next_node_id g) None ;;
  act <- random_choice Relu [Relu; Sigmoid; Tanh] ;;
  b <- random_uniform (-1)%Q 1%Q ;;
  ret (set_next_node_id (Datatypes.S (next_node_id g))
        (set_genes (dset Nat.eqb (next_node_id g)
                      (mkGene Hidden act innovation_number (Some b)) (genes g)) g)).

Definition init_output_node (g : FeedforwardGenome) : M FeedforwardGenome :=
  innovation_number <- im_create_innovation "gene" (next_node_id g) None ;;
  b <- random_uniform (-1)%Q 1%Q ;;
  ret (set_next_node_id (Datatypes.S (next_node_id g))
        (set_output_nodes (output_nodes g ++ [next_node_id g])
          (set_genes (dset Nat.eqb (next_node_id g)
                        (mkGene Output Identity innovation_number (Some b)) (genes g)) g))).

(** The body of the connection loop of [__init__].  [self.genes[i]] and
    [self.genes[out_node]] are always bound there ([i] ranges over the ids
    just created, [out_node] is drawn from the keys); the last branch only
    completes the match. *)
Definition init_connection (i : nat) (g : FeedforwardGenome) : M FeedforwardGenome :=
  out_node <- random_choice 0 (dkeys (genes g)) ;;
  match dget Nat.eqb i (genes g), dget Nat.eqb out_node (genes g) with
  | Some gi, Some go =>
      if negb (is_type Output gi) && negb (is_type Input go) && negb (Nat.eqb i out_node)
      then
        innovation_number <- im_create_innovation "connection" i (Some out_node) ;;
        w <- random_uniform (-1)%Q 1%Q ;;
        ret (set_connections
               (dset conn_key_eqb (i, out_node, innovation_number) w (connections g)) g)
      else ret g
  | _, _ => ret g
  end.

(** [FeedforwardGenome.__init__]. *)
Definition genome_init (gid num_inputs num_outputs initial_hidden_nodes : nat)
  : M FeedforwardGenome :=
  g1 <- for_range num_inputs init_input_node (mkGenome gid [] [] 0 None []) ;;
  g2 <- for_range initial_hidden_nodes init_hidden_node g1 ;;
  g3 <- for_range num_outputs init_output_node (set_output_nodes [] g2) ;;
  for_each (seq 0 (num_inputs + initial_hidden_nodes)) init_connection g3.

(** [add_node(new_type, activation, innovation_number)], with the innovation
    number every caller passes; returns the id used. *)
Definition add_node (new_type : NodeType) (activation : Activation)
    (innovation_number : nat) (g : FeedforwardGenome) : M (nat * FeedforwardGenome) :=
  initial_bias <-
    (match new_type with Input => ret 0%Q | _ => random_uniform (-1)%Q 1%Q end) ;;
  ret (next_node_id g,
       set_next_node_id (Datatypes.S (next_node_id g))
         (set_genes (dset Nat.eqb (next_node_id g)
                       (mkGene new_type activation innovation_number (Some initial_bias))
                       (genes g)) g)).

(** [add_connection(in_node_id, out_node_id, weight, innovation_number)]. *)
Definition add_connection (in_node_id out_node_id : nat) (weight : option Q)
    (innovation_number : nat) (g : FeedforwardGenome) : M (bool * FeedforwardGenome) :=
  if dmem conn_key_eqb (in_node_id, out_node_id, innovation_number) (connections g)
  then ret (false, g)
  else
    w <- (match weight with Some w => ret w | None => random_uniform (-1)%Q 1%Q end) ;;
    ret (true,
         set_connections
           (dset conn_key_eqb (in_node_id, out_node_id, innovation_number) w
                 (connections g)) g).

(** [mutate_add_node]: the two list arguments of the source are not read. *)
Definition mutate_add_node (g : FeedforwardGenome) : M FeedforwardGenome :=
  match connections g with
  | [] => ret g
  | (k0, _) :: _ =>
      connection_to_split <- random_choice k0 (dkeys (connections g)) ;;
      match dget conn_key_eqb connection_to_split (connections g) with
      | None => ret g
      | Some weight =>
          let g := set_connections (ddel conn_key_eqb connection_to_split (connections g)) g in
          let '(in_node, out_node, _) := connection_to_split in
          let new_node_id := next_node_id g in
          let g := set_next_node_id (Datatypes.S (next_node_id g)) g in
          new_node_innovation <- im_create_innovation "gene" new_node_id None ;;
          act <- random_choice Relu [Relu; Sigmoid; Tanh] ;;
          r <- add_node Hidden act new_node_innovation g ;;
          let g := snd r in
          innovation_in_to_new <- im_create_innovation "connection" in_node (Some new_node_id) ;;
          r <- add_connection in_node new_node_id (Some 1%Q) innovation_in_to_new g ;;
          let g := snd r in
          innovation_new_to_out <- im_create_innovation "connection" new_node_id (Some out_node) ;;
          r <- add_connection new_node_id out_node (Some weight) innovation_new_to_out g ;;
          ret (snd r)
      end
  end.

(** [mutate_add_connection]. *)
Definition mutate_add_connection (possible_in_nodes possible_out_nodes : list nat)
    (g : FeedforwardGenome) : M FeedforwardGenome :=
  match possible_in_nodes, possible_out_nodes with
  | i0 :: _, o0 :: _ =>
      in_node <- random_choice i0 possible_in_nodes ;;
      out_node <- random_choice o0 possible_out_nodes ;;
      let connection_exists :=
        existsb (fun k => Nat.eqb (conn_in k) in_node && Nat.eqb (conn_out k) out_node)
                (dkeys (connections g)) in
      if negb (Nat.eqb in_node out_node) && negb connection_exists
         && Nat.ltb in_node out_node
      then
        innovation_number <- im_create_innovation "connection" in_node (Some out_node) ;;
        r <- add_connection in_node out_node None innovation_number g ;;
        ret (snd r)
      else ret g
  | _, _ => ret g
  end.

(** [mutate_eliminate_node]: the loop returns in its first iteration. *)
Definition mutate_eliminate_node (g : FeedforwardGenome) : M FeedforwardGenome :=
  match nodes_of_type Hidden g with
  | [] => ret g
  | hidden_nodes =>
      shuffled <- random_shuffle hidden_nodes ;;
      match shuffled with
      | [] => ret g
      | node_id :: _ =>
          let connected_in :=
            filter (fun k => Nat.eqb (conn_out k) node_id) (dkeys (connections g)) in
          let connected_out :=
            filter (fun k => Nat.eqb (conn_in k) node_id) (dkeys (connections g)) in
          let conns :=
            fold_left (fun c k => ddel conn_key_eqb k c) (connected_in ++ connected_out)
                      (connections g) in
          ret (set_genes (ddel Nat.eqb node_id (genes g)) (set_connections conns g))
      end
  end.

(** [prune_orphan_nodes]. *)
Definition is_orphan (conns : list (ConnKey * Q)) (node : nat) : bool :=
  negb (existsb (fun k => Nat.eqb (conn_in k) node) (dkeys conns))
  && negb (existsb (fun k => Nat.eqb (conn_out k) node) (dkeys conns)).

Definition prune_orphan_nodes (g : FeedforwardGenome) : FeedforwardGenome :=
  let orphan_nodes := filter (is_orphan (connections g)) (dkeys (genes g)) in
  fold_left
    (fun g orphan =>
       set_connections
         (filter (fun e => negb (Nat.eqb (conn_in (fst e)) orphan)
                           && negb (Nat.eqb (conn_out (fst e)) orphan))
                 (connections g))
         (set_genes (ddel Nat.eqb orphan (genes g)) g))
    orphan_nodes g.

(** [mutate_eliminate_connection]: the candidates are tried in shuffled
    order; a reverted key is re-inserted, so it moves to the end of the
    dictionary.  A candidate is always still bound when it is popped (the
    loop stops at its first removal that is kept), so the [None] branch only
    completes the match. *)
Fixpoint eliminate_connection_loop (candidates : list (ConnKey * Q))
    (g : FeedforwardGenome) : FeedforwardGenome :=
  match candidates with
  | [] => g
  | ((in_node, out_node, innov), _) :: rest =>
      match dget Nat.eqb in_node (genes g), dget Nat.eqb out_node (genes g) with
      | Some gin, Some gout =>
          match dget conn_key_eqb (in_node, out_node, innov) (connections g) with
          | None => eliminate_connection_loop rest g
          | Some backup_weight =>
              let conns := ddel conn_key_eqb (in_node, out_node, innov) (connections g) in
              let in_has_other_outputs :=
                existsb (fun k => (negb (Nat.eqb (conn_in k) in_node)
                                   || negb (Nat.eqb (conn_out k) out_node))
                                  && Nat.eqb (conn_in k) in_node) (dkeys conns) in
              let out_has_other_inputs :=
                existsb (fun k => (negb (Nat.eqb (conn_in k) in_node)
                                   || negb (Nat.eqb (conn_out k) out_node))
                                  && Nat.eqb (conn_out k) out_node) (dkeys conns) in
              let in_is_hidden := is_type Hidden gin in
              let out_is_hidden := is_type Hidden gout in
              if (in_is_hidden && negb in_has_other_outputs)
                 || (out_is_hidden && negb out_has_other_inputs)
              then
                eliminate_connection_loop rest
                  (set_connections
                     (dset conn_key_eqb (in_node, out_node, innov) backup_weight conns) g)
              else prune_orphan_nodes (set_connections conns g)
          end
      | _, _ => eliminate_connection_loop rest g
      end
  end.

Definition mutate_eliminate_connection (g : FeedforwardGenome) : M FeedforwardGenome :=
  shuffled <- random_shuffle (connections g) ;;
  ret (eliminate_connection_loop shuffled g).

(** [prune_disconnected_inputs]: [connected_sources] is computed once, before
    the loop. *)
Definition prune_disconnected_inputs (g : FeedforwardGenome) : M FeedforwardGenome :=
  let input_nodes := nodes_of_type Input g in
  let connected_sources := map conn_in (dkeys (connections g)) in
  for_each input_nodes
    (fun input_node g =>
       if existsb (Nat.eqb input_node) connected_sources then ret g
       else
         match map fst (filter (fun e => is_type Hidden (snd e) || is_type Output (snd e))
                               (genes g)) with
         | [] => ret g
         | (t0 :: _) as targets =>
             target <- random_choice t0 targets ;;
             innov <- im_create_innovation "connection" input_node (Some target) ;;
             r <- add_connection input_node target None innov g ;;
             ret (snd r)
         end)
    g.

(** [copy]: the clone is built by the constructor (with
    [initial_hidden_nodes = 0]) and its attributes are then overwritten by
    deep copies, which are plain values here. *)
Definition copy (g : FeedforwardGenome) : M FeedforwardGenome :=
  new_genome <- genome_init (genome_id g) (get_num_inputs g) (get_num_outputs g) 0 ;;
  ret (set_output_nodes (output_nodes g)
        (set_fitness (fitness g)
          (set_next_node_id (next_node_id g)
            (set_connections (connections g)
              (set_genes (genes g) new_genome))))).

(** What a call of the source returns or raises. *)
Inductive PyResult (A : Type) : Type :=
| Ok (a : A)
| ValueError
| IndexError
| TypeError.
Arguments Ok {A} a.
Arguments ValueError {A}.
Arguments IndexError {A}.
Arguments TypeError {A}.

(** [a < b] and [max(a, b)] on floats. *)
Definition Qlt_bool (a b : Q) : bool := negb (Qle_bool b a).
Definition py_max (a b : Q) : Q := if Qlt_bool a b then b else a.

Section Activate.
(** [torch.exp] and [torch.tanh] on a scalar tensor, read back with
    [.item()]. *)
Variables torch_exp torch_tanh : Q -> Q.

Definition apply_activation (activation_type : Activation) (incoming_sum : Q) : Q :=
  match activation_type with
  | Relu => py_max 0%Q incoming_sum
  | Sigmoid => (1 / (1 + torch_exp (- incoming_sum)))%Q
  | Tanh => torch_tanh incoming_sum
  | Identity => incoming_sum
  end.

(** [{node_id: index for index, (node_id, gene_info)
      in enumerate(self.genes.items()) if gene_info[0] == 'input'}]:
    the index counts every gene, not only the input ones. *)
Definition input_index_map (g : FeedforwardGenome) : list (nat * nat) :=
  map (fun e => (fst (snd e), fst e))
      (filter (fun e => is_type Input (snd (snd e)))
              (combine (seq 0 (length (genes g))) (genes g))).

(** [for node_id, input_index in input_nodes.items():
       node_values[node_id] = inputs[input_index]]. *)
Fixpoint set_input_values (input_nodes : list (nat * nat)) (inputs : list Q)
    (node_values : list (nat * Q)) : PyResult (list (nat * Q)) :=
  match input_nodes with
  | [] => Ok node_values
  | (node_id, input_index) :: r =>
      match nth_error inputs input_index with
      | Some v => set_input_values r inputs (dset Nat.eqb node_id v node_values)
      | None => IndexError
      end
  end.

(** The inner loop over [self.connections.items()]. *)
Definition incoming (conns : list (ConnKey * Q)) (node_values : list (nat * Q))
    (node_id : nat) : Q :=
  fold_left
    (fun incoming_sum e =>
       if Nat.eqb (conn_out (fst e)) node_id then
         match dget Nat.eqb (conn_in (fst e)) node_values with
         | Some v => (incoming_sum + v * snd e)%Q
         | None => incoming_sum
         end
       else incoming_sum)
    conns 0%Q.

Definition bias_or_0 (gi : GeneInfo) : Q :=
  match gi_bias gi with Some b => b | None => 0%Q end.

(** The body of the loop over [sorted_nodes]; [node_id] is a key of
    [self.genes]. *)
Definition activate_node (g : FeedforwardGenome) (node_values : list (nat * Q))
    (node_id : nat) : list (nat * Q) :=
  match dget Nat.eqb node_id (genes g) with
  | Some gi =>
      if is_type Input gi then node_values
      else
        let incoming_sum := incoming (connections g) node_values node_id in
        let incoming_sum := (incoming_sum + bias_or_0 gi)%Q in
        dset Nat.eqb node_id (apply_activation (gi_activation gi) incoming_sum) node_values
  | None => node_values
  end.

(** [activate(inputs)]; it assigns to no attribute of [self]. *)
Definition activate (g : FeedforwardGenome) (inputs : list Q) : PyResult (list Q) :=
  if negb (Nat.eqb (length inputs) (get_num_inputs g)) then ValueError
  else
    match set_input_values (input_index_map g) inputs [] with
    | Ok node_values =>
        let sorted_nodes := NatSort.sort (dkeys (genes g)) in
        let node_values := fold_left (activate_node g) sorted_nodes node_values in
        Ok (map (fun node_id =>
                   match dget Nat.eqb node_id node_values with
                   | Some v => v
                   | None => 0%Q
                   end)
                (output_nodes g))
    | ValueError => ValueError
    | IndexError => IndexError
    | TypeError => TypeError
    end.


End Activate.

(* ------------------------------------------------------------------ *)
(** ** [Population] and [crossover] *)

Definition im_next_genome_id : M nat := fun w =>
  let (n, m') := next_genome_id (w_im w) in
  (n, {| w_rng := w_rng w; w_im := m' |}).

Definition im_increment_genome_id : M unit := fun w =>
  (tt, {| w_rng := w_rng w; w_im := increment_genome_id (w_im w) |}).

(** [Population.create_initial_genome_population]. *)
Definition create_initial_genome_population
    (num_inputs num_outputs initial_hidden_nodes : nat) : M FeedforwardGenome :=
  gid <- im_next_genome_id ;;
  genome <- genome_init gid num_inputs num_outputs initial_hidden_nodes ;;
  im_increment_genome_id ;;;
  ret genome.

(** [next(((node_id, gene_info) for ... if gene_info[2] == innovation), None)]. *)
Definition gene_with_innovation (innovation : nat) (gs : list (nat * GeneInfo))
  : option (nat * GeneInfo) :=
  find (fun e => Nat.eqb (gi_innovation (snd e)) innovation) gs.

Definition conn_with_innovation (innovation : nat) (cs : list (ConnKey * Q))
  : option (ConnKey * Q) :=
  find (fun e => Nat.eqb (conn_innov (fst e)) innovation) cs.

(** [(gene[0], gene[1], gene[2], gene[3] if len(gene) > 3 else 0)]. *)
Definition with_bias (gi : GeneInfo) : GeneInfo :=
  mkGene (gi_type gi) (gi_activation gi) (gi_innovation gi) (Some (bias_or_0 gi)).

(** The innovation numbers of the node genes and of the connections. *)
Definition gene_innovation_numbers (gs : list (nat * GeneInfo)) : list nat :=
  map (fun e => gi_innovation (snd e)) gs.

Definition connection_innovation_numbers (cs : list (ConnKey * Q)) : list nat :=
  map conn_innov (dkeys cs).

(** [sorted(list(set(a) | set(b)))]. *)
Definition sorted_union (a b : list nat) : list nat :=
  NatSort.sort (nodup Nat.eq_dec (a ++ b)).

(** One iteration of the gene loop of [crossover].  [parent1_fittest] is
    [parent1.fitness > parent2.fitness]; in the two branches that read
    [fittest_parent == parentN] one parent lacks the gene, so the parents are
    two objects and the test is that comparison (or its negation). *)
Definition crossover_gene (genes1 genes2 : list (nat * GeneInfo)) (parent1_fittest : bool)
    (innovation : nat) (child_genes : list (nat * GeneInfo)) : M (list (nat * GeneInfo)) :=
  match gene_with_innovation innovation genes1, gene_with_innovation innovation genes2 with
  | Some (node_id1, gene1), Some (node_id2, gene2) =>
      r <- random_random ;;
      if Qlt_bool r (1 # 2)%Q
      then ret (dset Nat.eqb node_id1 (with_bias gene1) child_genes)
      else ret (dset Nat.eqb node_id2 (with_bias gene2) child_genes)
  | Some (node_id, gene1), None =>
      if parent1_fittest then ret (dset Nat.eqb node_id gene1 child_genes)
      else ret child_genes
  | None, Some (node_id, gene2) =>
      if negb parent1_fittest then ret (dset Nat.eqb node_id gene2 child_genes)
      else ret child_genes
  | None, None => ret child_genes
  end.

(** One iteration of the connection loop of [crossover]. *)
Definition crossover_connection (connections1 connections2 : list (ConnKey * Q))
    (parent1_fittest : bool) (innovation : nat) (child_connections : list (ConnKey * Q))
  : M (list (ConnKey * Q)) :=
  match conn_with_innovation innovation connections1,
        conn_with_innovation innovation connections2 with
  | Some conn1, Some conn2 =>
      r <- random_random ;;
      let '(chosen_conn, weight) := if Qlt_bool r (1 # 2)%Q then conn1 else conn2 in
      ret (dset conn_key_eqb (conn_in chosen_conn, conn_out chosen_conn, innovation) weight
                child_connections)
  | Some conn1, None =>
      if parent1_fittest
      then ret (dset conn_key_eqb (fst conn1) (snd conn1) child_connections)
      else ret child_connections
  | None, Some conn2 =>
      if negb parent1_fittest
      then ret (dset conn_key_eqb (fst conn2) (snd conn2) child_connections)
      else ret child_connections
  | None, None => ret child_connections
  end.

(** [crossover(parent1, parent2, innovation_manager)]; comparing an
    unevaluated fitness ([None]) raises [TypeError] before anything else
    happens. *)
Definition crossover (parent1 parent2 : FeedforwardGenome) : M (PyResult FeedforwardGenome) :=
  match fitness parent1, fitness parent2 with
  | Some f1, Some f2 =>
      let parent1_fittest := Qlt_bool f2 f1 in
      gid <- im_next_genome_id ;;
      child <- genome_init gid
                 (length (filter (fun e => is_type Input (snd e)) (genes parent1)))
                 (length (filter (fun e => is_type Output (snd e)) (genes parent1)))
                 8 ;;
      im_increment_genome_id ;;;
      let all_gene_innovations :=
        sorted_union (gene_innovation_numbers (genes parent1))
                     (gene_innovation_numbers (genes parent2)) in
      child_genes <- for_each all_gene_innovations
                       (crossover_gene (genes parent1) (genes parent2) parent1_fittest) [] ;;
      let all_connection_innovations :=
        sorted_union (connection_innovation_numbers (connections parent1))
                     (connection_innovation_numbers (connections parent2)) in
      child_connections <- for_each all_connection_innovations
                             (crossover_connection (connections parent1) (connections parent2)
                                parent1_fittest) [] ;;
      let next :=
        match child_genes with
        | [] => 0
        | _ => list_max (dkeys child_genes) + 1
        end in
      ret (Ok (set_next_node_id next
                 (set_connections child_connections (set_genes child_genes child))))
  | _, _ => ret TypeError
  end.

(* ------------------------------------------------------------------ *)
(** ** [Species.calculate_compatibility_distance] *)

(** The counters the two loops update.  [weight_diff] and [matching] of the
    source are set to 0 before the loops and never assigned again. *)
Record DistanceCounters := mkCounters {
  excess : nat;
  disjoint : nat;
  total_weight_diff : Q;
  matching_connections : nat
}.

(** The loop over [range(1, max_innovation_genes + 1)]. *)
Definition distance_gene_step (numbers1 numbers2 : list nat) (max1 max2 : nat)
    (c : DistanceCounters) (innovation_number : nat) : DistanceCounters :=
  let in1 := existsb (Nat.eqb innovation_number) numbers1 in
  let in2 := existsb (Nat.eqb innovation_number) numbers2 in
  if in1 && in2 then c
  else if in1 || in2 then
    if Nat.ltb (Nat.min max1 max2) innovation_number
    then mkCounters (S (excess c)) (disjoint c) (total_weight_diff c) (matching_connections c)
    else mkCounters (excess c) (S (disjoint c)) (total_weight_diff c) (matching_connections c)
  else c.

(** The loop over [range(1, max_innovation_conn + 1)]; a key taken from a
    dictionary is bound in it, so the inner [None] branch only completes the
    match. *)
Definition distance_connection_step (connections1 connections2 : list (ConnKey * Q))
    (max1 max2 : nat) (c : DistanceCounters) (innovation_number : nat) : DistanceCounters :=
  let conn1_list :=
    filter (fun k => Nat.eqb (conn_innov k) innovation_number) (dkeys connections1) in
  let conn2_list :=
    filter (fun k => Nat.eqb (conn_innov k) innovation_number) (dkeys connections2) in
  match conn1_list, conn2_list with
  | conn1_key :: _, conn2_key :: _ =>
      match dget conn_key_eqb conn1_key connections1,
            dget conn_key_eqb conn2_key connections2 with
      | Some w1, Some w2 =>
          mkCounters (excess c) (disjoint c)
                     (total_weight_diff c + Qabs (w1 - w2))%Q
                     (S (matching_connections c))
      | _, _ => c
      end
  | [], [] => c
  | _, _ =>
      if Nat.ltb (Nat.min max1 max2) innovation_number
      then mkCounters (S (excess c)) (disjoint c) (total_weight_diff c) (matching_connections c)
      else mkCounters (excess c) (S (disjoint c)) (total_weight_diff c) (matching_connections c)
  end.

(** The counters after both loops. *)
Definition distance_counters (genes1 genes2 : list (nat * GeneInfo))
    (connections1 connections2 : list (ConnKey * Q)) : DistanceCounters :=
  let numbers1 := gene_innovation_numbers genes1 in
  let numbers2 := gene_innovation_numbers genes2 in
  let max1 := list_max numbers1 in
  let max2 := list_max numbers2 in
  let c := fold_left (distance_gene_step numbers1 numbers2 max1 max2)
                     (seq 1 (Nat.max max1 max2)) (mkCounters 0 0 0%Q 0) in
  let cmax1 := list_max (connection_innovation_numbers connections1) in
  let cmax2 := list_max (connection_innovation_numbers connections2) in
  fold_left (distance_connection_step connections1 connections2 cmax1 cmax2)
            (seq 1 (Nat.max cmax1 cmax2)) c.

Definition Qnat (n : nat) : Q := inject_Z (Z.of_nat n).

(** [N = max(len(genes1), len(genes2), len(connections1), len(connections2))],
    set to 1 when it is 0. *)
Definition distance_N (genes1 genes2 : list (nat * GeneInfo))
    (connections1 connections2 : list (ConnKey * Q)) : nat :=
  let N := Nat.max (Nat.max (Nat.max (length genes1) (length genes2))
                            (length connections1)) (length connections2) in
  if Nat.eqb N 0 then 1 else N.

(** [calculate_compatibility_distance(genome, c1, c2, c3)] of the species
    whose representative is [representative_genome]. *)
Definition calculate_compatibility_distance (representative_genome genome : FeedforwardGenome)
    (c1 c2 c3 : Q) : Q :=
  let weight_diff := 0%Q in
  let genes1 := genes representative_genome in
  let genes2 := genes genome in
  let connections1 := connections representative_genome in
  let connections2 := connections genome in
  let c := distance_counters genes1 genes2 connections1 connections2 in
  let N := Qnat (distance_N genes1 genes2 connections1 connections2) in
  ((c1 * Qnat (excess c) / N) + (c2 * Qnat (disjoint c) / N) + (c3 * weight_diff / N))%Q.

(* ------------------------------------------------------------------ *)
(** ** [StagnationManager] *)

(** The attributes of a species that the manager reads or writes.  The
    members are represented by their fitness, the one attribute read
    ([g.fitness for g in members]), a number once the population has been
    evaluated. *)
Record Species := mkSpecies {
  members : list Q;
  best_fitness : Q;
  historical_best_fitness : Q
}.

(** Species are objects: dictionaries and the sorted list hold references,
    and the manager writes [historical_best_fitness] through them. *)
Definition SpeciesRef : Type := nat.
Definition SpeciesHeap : Type := SpeciesRef -> Species.

(** [sorted_species] is a [SortedList] of the sortedcontainers library with
    [key = lambda spec: spec.best_fitness].  Such a list stores every element
    beside the key it computed when the element was added, in ascending key
    order; [in] and [remove] compute the key of their argument anew and search
    among the elements stored under that key. *)
Record StagnationManager := mkStagnation {
  max_stagnation : Z;
  elitism : Z;
  species_last_improved : list (SpeciesRef * Z);
  sorted_species : list (Q * SpeciesRef)
}.

(** [spec in sorted_species]: looked up under the current key. *)
Definition sl_contains (key : Q) (spec : SpeciesRef) (l : list (Q * SpeciesRef)) : bool :=
  existsb (fun e => Qeq_bool (fst e) key && Nat.eqb (snd e) spec) l.

(** [sorted_species.remove(spec)]. *)
Fixpoint sl_remove (key : Q) (spec : SpeciesRef) (l : list (Q * SpeciesRef))
  : list (Q * SpeciesRef) :=
  match l with
  | [] => []
  | e :: r =>
      if Qeq_bool (fst e) key && Nat.eqb (snd e) spec then r
      else e :: sl_remove key spec r
  end.

(** [sorted_species.add(spec)]: after the elements whose key is not greater. *)
Fixpoint sl_add (key : Q) (spec : SpeciesRef) (l : list (Q * SpeciesRef))
  : list (Q * SpeciesRef) :=
  match l with
  | [] => [(key, spec)]
  | e :: r =>
      if Qle_bool (fst e) key then e :: sl_add key spec r
      else (key, spec) :: e :: r
  end.

(** The first loop of [update]. *)
Definition track_species (heap : SpeciesHeap) (l : list (Q * SpeciesRef))
    (spec : SpeciesRef) : list (Q * SpeciesRef) :=
  let key := best_fitness (heap spec) in
  if sl_contains key spec l
  then sl_add key spec (sl_remove key spec l)
  else sl_add key spec l.

Definition heap_set (heap : SpeciesHeap) (spec : SpeciesRef) (s : Species) : SpeciesHeap :=
  fun r => if Nat.eqb r spec then s else heap r.

(** [get_historical_best_fitness] / [update_historical_best_fitness]. *)
Definition get_historical_best_fitness (heap : SpeciesHeap) (spec : SpeciesRef) : Q :=
  historical_best_fitness (heap spec).

Definition update_historical_best_fitness (heap : SpeciesHeap) (spec : SpeciesRef)
    (f : Q) : SpeciesHeap :=
  heap_set heap spec
    (mkSpecies (members (heap spec)) (best_fitness (heap spec))
               (py_max (get_historical_best_fitness heap spec) f)).

(** The state of the second loop. *)
Record Stagnating := mkStagnating {
  st_last_improved : list (SpeciesRef * Z);
  st_heap : SpeciesHeap;
  st_status : list (SpeciesRef * bool);
  st_results : list (SpeciesRef * bool)
}.

(** The body of the second loop. *)
Definition judge_species (max_stagnation generation : Z) (st : Stagnating)
    (spec : SpeciesRef) : Stagnating :=
  match dget Nat.eqb spec (st_last_improved st) with
  | None =>
      mkStagnating
        (dset Nat.eqb spec generation (st_last_improved st))
        (update_historical_best_fitness (st_heap st) spec (best_fitness (st_heap st spec)))
        (dset Nat.eqb spec false (st_status st))
        (st_results st ++ [(spec, false)])
  | Some last =>
      if Qlt_bool (get_historical_best_fitness (st_heap st) spec)
                  (best_fitness (st_heap st spec))
      then
        mkStagnating
          (dset Nat.eqb spec generation (st_last_improved st))
          (update_historical_best_fitness (st_heap st) spec (best_fitness (st_heap st spec)))
          (dset Nat.eqb spec false (st_status st))
          (st_results st ++ [(spec, false)])
      else
        let flag := Z.leb max_stagnation (generation - last)%Z in
        mkStagnating
          (st_last_improved st) (st_heap st)
          (dset Nat.eqb spec flag (st_status st))
          (st_results st ++ [(spec, flag)])
  end.

(** [max(g.fitness for g in members) if members else -float('inf')];
    [None] is minus infinity. *)
Definition best_member (s : Species) : option Q :=
  match members s with
  | [] => None
  | f :: r => Some (fold_left py_max r f)
  end.

Definition key_lt (a b : option Q) : bool :=
  match a, b with
  | None, Some _ => true
  | Some x, Some y => Qlt_bool x y
  | _, None => false
  end.

(** [results.sort(key=..., reverse=True)]: a stable sort, largest key first. *)
Fixpoint insert_desc (heap : SpeciesHeap) (x : SpeciesRef * bool)
    (l : list (SpeciesRef * bool)) : list (SpeciesRef * bool) :=
  match l with
  | [] => [x]
  | y :: r =>
      if key_lt (best_member (heap (fst x))) (best_member (heap (fst y)))
      then y :: insert_desc heap x r
      else x :: y :: r
  end.

Fixpoint sort_desc (heap : SpeciesHeap) (l : list (SpeciesRef * bool))
  : list (SpeciesRef * bool) :=
  match l with
  | [] => []
  | x :: r => insert_desc heap x (sort_desc heap r)
  end.

(** [StagnationManager.update(species_list, generation)]: the manager and
    the species after the call, and the dictionary returned. *)
Definition update (mgr : StagnationManager) (heap : SpeciesHeap)
    (species_list : list SpeciesRef) (generation : Z)
  : StagnationManager * SpeciesHeap * list (SpeciesRef * bool) :=
  let tracked := fold_left (track_species heap) species_list (sorted_species mgr) in
  let st := fold_left (judge_species (max_stagnation mgr) generation) (map snd tracked)
                      (mkStagnating (species_last_improved mgr) heap [] []) in
  let results := sort_desc (st_heap st) (st_results st) in
  let top := firstn (Z.to_nat (Z.min (elitism mgr) (Z.of_nat (length results)))) results in
  let status := fold_left (fun status r => dset Nat.eqb (fst r) false status) top
                          (st_status st) in
  (mkStagnation (max_stagnation mgr) (elitism mgr) (st_last_improved st) tracked,
   st_heap st, status).

(* ------------------------------------------------------------------ *)
(** ** The structural properties the specification names *)

(** Every hidden node has an incoming and an outgoing connection. *)
Definition hidden_bridged (g : FeedforwardGenome) : bool :=
  forallb
    (fun h =>
       existsb (fun k => Nat.eqb (conn_out k) h) (dkeys (connections g))
       && existsb (fun k => Nat.eqb (conn_in k) h) (dkeys (connections g)))
    (nodes_of_type Hidden g).

(** Every connection goes from a smaller node id to a larger one. *)
Definition feed_forward (g : FeedforwardGenome) : bool :=
  forallb (fun k => Nat.ltb (conn_in k) (conn_out k)) (dkeys (connections g)).

(** A run of the constructor for one input, two hidden nodes and one
    output on a fresh manager, with draws that yield the chain
    0 -> 1 -> 2 -> 3 (weights 1, 2, 3). *)
Definition chain_construction : FeedforwardGenome * World :=
  genome_init 0 1 1 2
    (mkWorld (mkRng [0; 0; 1; 2; 3]
                    [(3 # 4)%Q; (3 # 4)%Q; (5 # 8)%Q; 1%Q; (3 # 2)%Q; 2%Q])
             new_manager).

Definition chain_genome : FeedforwardGenome := fst chain_construction.

(** The world after that construction, with a new tape of draws. *)
Definition chain_world (ints : list nat) : World :=
  mkWorld (mkRng ints [(1 # 2)%Q; (1 # 2)%Q; (1 # 2)%Q]) (w_im (snd chain_construction)).

(** Two genomes with the same genes and one connection of the same
    innovation number, whose weights are 0 and 1. *)
Definition twin_genome (gid : nat) (weight : Q) : FeedforwardGenome :=
  mkGenome gid
    [(0, mkGene Input Identity 1 None); (1, mkGene Output Identity 2 (Some 0%Q))]
    [((0, 1, 3), weight)]
    2 None [1].

(** The input genes come first in [genes], as the constructor creates them
    (and as pruning and crossover, which orders by innovation number, keep
    them). *)
Fixpoint inputs_lead (gs : list (nat * GeneInfo)) : bool :=
  match gs with
  | [] => true
  | e :: r =>
      if is_type Input (snd e) then inputs_lead r
      else forallb (fun e' => negb (is_type Input (snd e'))) r
  end.


(** A run of the constructor for one input and one output in which the
    draw for the input's connection picks the input itself, so that no
    connection is created; the output node gets bias 1/2. *)
Definition lonely_construction : FeedforwardGenome * World :=
  genome_init 0 1 1 0 (mkWorld (mkRng [0] [(3 # 4)%Q]) new_manager).

Definition lonely_genome : FeedforwardGenome := fst lonely_construction.

(** The chain genome after [mutate_eliminate_node] removed the hidden node 2
    and [prune_orphan_nodes] ran: the output node 3 is gone from [genes] and
    still listed in [output_nodes]. *)
Definition pruned_chain : FeedforwardGenome :=
  prune_orphan_nodes (fst (mutate_eliminate_node chain_genome (chain_world [0]))).

(** Stands for [torch.exp] and [torch.tanh] in examples whose genomes have
    no sigmoid or tanh node. *)
Definition torch_not_called (x : Q) : Q := x.

(** An innovation number found in both parents marks the same node id in
    both: a number is issued once, for one node id, and copies and children
    keep each gene under its id. *)
Definition innovations_aligned (genes1 genes2 : list (nat * GeneInfo)) : bool :=
  forallb
    (fun e1 =>
       forallb
         (fun e2 =>
            implb (Nat.eqb (gi_innovation (snd e1)) (gi_innovation (snd e2)))
                  (Nat.eqb (fst e1) (fst e2)))
         genes2)
    genes1.

(** The child holds a gene / a connection with this innovation number. *)
Definition inherits_gene (innovation : nat) (child : FeedforwardGenome) : Prop :=
  exists node_id gi,
    dget Nat.eqb node_id (genes child) = Some gi /\ gi_innovation gi = innovation.

Definition inherits_connection (innovation : nat) (child : FeedforwardGenome) : Prop :=
  exists key weight,
    dget conn_key_eqb key (connections child) = Some weight /\ conn_innov key = innovation.

(** Two descendants of the chain genome, each after one [mutate_add_node]
    on the shared manager: they share the genes of the chain and each has a
    hidden node of its own (both under node id 5, with innovation numbers 8
    and 11). *)
Definition parent_a : FeedforwardGenome :=
  set_fitness (Some 2%Q) (fst (mutate_add_node chain_genome (chain_world [1; 0; 0; 0]))).

Definition parent_b : FeedforwardGenome :=
  set_fitness (Some 1%Q)
    (fst (mutate_add_node chain_genome
            (snd (mutate_add_node chain_genome (chain_world [1; 0; 0; 0]))))).

(** The flag the second loop of [update] computes for a species, read off
    the state before the call: not stagnant when seen for the first time or
    when its best fitness exceeds its historical best, otherwise stagnant
    iff [generation - last_improved >= max_stagnation]. *)
Definition raw_stagnant (mgr : StagnationManager) (heap : SpeciesHeap)
    (generation : Z) (spec : SpeciesRef) : bool :=
  match dget Nat.eqb spec (species_last_improved mgr) with
  | None => false
  | Some last =>
      if Qlt_bool (historical_best_fitness (heap spec)) (best_fitness (heap spec))
      then false
      else Z.leb (max_stagnation mgr) (generation - last)%Z
  end.

(** The species [update] iterates over: those of [sorted_species] after the
    first loop, in its order. *)
Definition tracked_species (mgr : StagnationManager) (heap : SpeciesHeap)
    (species_list : list SpeciesRef) : list SpeciesRef :=
  map snd (fold_left (track_species heap) species_list (sorted_species mgr)).

(** The first [min(elitism, len(results))] species of the tracked ones
    ranked by their best member, largest first. *)
Definition protected_species (mgr : StagnationManager) (heap : SpeciesHeap)
    (generation : Z) (tracked : list SpeciesRef) : list SpeciesRef :=
  map fst
    (firstn (Z.to_nat (Z.min (elitism mgr) (Z.of_nat (length tracked))))
            (sort_desc heap (map (fun s => (s, raw_stagnant mgr heap generation s)) tracked))).

(** Three species A = 0, B = 1, C = 2 whose best members have fitness 10,
    5 and 1, and a manager with [max_stagnation = 1] and [elitism = 2]. *)
Definition three_species : SpeciesHeap := fun r =>
  match r with
  | 0 => mkSpecies [10%Q] 10%Q 10%Q
  | 1 => mkSpecies [5%Q] 5%Q 5%Q
  | _ => mkSpecies [1%Q] 1%Q 1%Q
  end.

Definition fresh_stagnation_manager : StagnationManager := mkStagnation 1 2 [] [].

(** Generation 0: the first call of [update]. *)
Definition generation_0 : StagnationManager * SpeciesHeap * list (SpeciesRef * bool) :=
  update fresh_stagnation_manager three_species [0; 1; 2] 0.

(** Before generation 1 the best member of A reaches fitness 11 and
    [Species.update_best_fitness(11)] raises [best_fitness] and
    [historical_best_fitness] of A to 11. *)
Definition three_species_later : SpeciesHeap :=
  heap_set (snd (fst generation_0)) 0 (mkSpecies [11%Q] 11%Q 11%Q).

(** Generation 1: the second call. *)
Definition generation_1 : StagnationManager * SpeciesHeap * list (SpeciesRef * bool) :=
  update (fst (fst generation_0)) three_species_later [0; 1; 2] 1.

(* ------------------------------------------------------------------ *)
(** ** Auxiliary notions used in the proofs *)

(** The manager after the node genes [start .. start + count - 1] have been
    registered one by one. *)
Fixpoint register_genes (start count : nat) (m : InnovationManager) : InnovationManager :=
  match count with
  | 0 => m
  | S c => register_genes (S start) c (snd (create_innovation "gene" start None None m))
  end.

(** A loop body that creates one node: it registers a gene innovation for
    [next_node_id] and advances [next_node_id]. *)
Definition node_body (b : FeedforwardGenome -> M FeedforwardGenome) : Prop :=
  forall g w,
    next_node_id (fst (b g w)) = S (next_node_id g)
    /\ genome_id (fst (b g w)) = genome_id g
    /\ w_im (snd (b g w))
       = snd (create_innovation "gene" (next_node_id g) None None (w_im w)).

(** What the connection loop of the constructor may do to the manager:
    [k] connection innovations were registered. *)
Definition connections_registered (k : nat) (m m' : InnovationManager) : Prop :=
  next_innovation_number m' = next_innovation_number m + k
  /\ next_genome_id_counter m' = next_genome_id_counter m
  /\ forall i, get_innovation_number "gene" i None m'
               = get_innovation_number "gene" i None m.

(** The state of a loop that has handled the innovation numbers [done]:
    every entry of [child] was written for one of them, and every number
    for which something is to be written has its entry. *)
Definition inherited_so_far {K V : Type} (keq : K -> K -> bool)
    (written : K -> V -> nat -> Prop) (done : list nat) (child : list (K * V)) : Prop :=
  (forall k v, dget keq k child = Some v -> exists i, In i done /\ written k v i)
  /\ (forall i, In i done -> (exists k v, written k v i) ->
        exists k v, dget keq k child = Some v /\ written k v i).

(** What the gene loop writes for an innovation number. *)
Definition gene_written (genes1 genes2 : list (nat * GeneInfo)) (parent1_fittest : bool)
    (k : nat) (g : GeneInfo) (i : nat) : Prop :=
  match gene_with_innovation i genes1, gene_with_innovation i genes2 with
  | Some (k1, g1), Some (k2, g2) =>
      (k = k1 /\ g = with_bias g1) \/ (k = k2 /\ g = with_bias g2)
  | Some (k1, g1), None => parent1_fittest = true /\ k = k1 /\ g = g1
  | None, Some (k2, g2) => parent1_fittest = false /\ k = k2 /\ g = g2
  | None, None => False
  end.

(** What the connection loop writes for an innovation number. *)
Definition conn_written (connections1 connections2 : list (ConnKey * Q))
    (parent1_fittest : bool) (key : ConnKey) (weight : Q) (i : nat) : Prop :=
  match conn_with_innovation i connections1, conn_with_innovation i connections2 with
  | Some e1, Some e2 => (key, weight) = e1 \/ (key, weight) = e2
  | Some e1, None => parent1_fittest = true /\ (key, weight) = e1
  | None, Some e2 => parent1_fittest = false /\ (key, weight) = e2
  | None, None => False
  end.

(** The flag the loop body computes for [spec] in a given loop state. *)
Definition flag_of (max_stag generation : Z) (last_improved : list (SpeciesRef * Z))
    (heap : SpeciesHeap) (spec : SpeciesRef) : bool :=
  match dget Nat.eqb spec last_improved with
  | None => false
  | Some last =>
      if Qlt_bool (historical_best_fitness (heap spec)) (best_fitness (heap spec))
      then false
      else Z.leb max_stag (generation - last)%Z
  end.

(** The species is new to the manager or has improved on its historical
    best. *)
Definition refreshed (last_improved : list (SpeciesRef * Z)) (heap : SpeciesHeap)
    (spec : SpeciesRef) : Prop :=
  dget Nat.eqb spec last_improved = None
  \/ Qlt_bool (historical_best_fitness (heap spec)) (best_fitness (heap spec)) = true.

From Stdlib Require Import Lqa.

(* ------------------------------------------------------------------ *)
(** ** The weight and bias mutations, [mutate] and [Species.is_compatible] *)

(** The truth value of a list or dictionary: [bool(x)]. *)
Definition truthy {A} (x : list A) : bool :=
  match x with
  | [] => false
  | _ :: _ => true
  end.

(** The body of the loop of [mutate_weights]; [connection] is a key of the
    dictionary it iterates over, so the [None] branch only completes the
    match. *)
Definition mutate_weight (mutation_rate weight_mutation_power : Q) (connection : ConnKey)
    (conns : list (ConnKey * Q)) : M (list (ConnKey * Q)) :=
  r <- random_random ;;
  if Qlt_bool r mutation_rate then
    match dget conn_key_eqb connection conns with
    | Some weight =>
        d <- random_uniform (- weight_mutation_power)%Q weight_mutation_power ;;
        ret (dset conn_key_eqb connection (weight + d)%Q conns)
    | None => ret conns
    end
  else ret conns.

(** [mutate_weights(mutation_rate, weight_mutation_power)]. *)
Definition mutate_weights (mutation_rate weight_mutation_power : Q) (g : FeedforwardGenome)
  : M FeedforwardGenome :=
  conns <- for_each (dkeys (connections g))
             (mutate_weight mutation_rate weight_mutation_power) (connections g) ;;
  ret (set_connections conns g).

(** The body of the loop of [mutate_biases]: [random.random()] is drawn only
    for a gene that is no input and has a bias ([and] short-circuits). *)
Definition mutate_bias (mutation_rate bias_mutation_power : Q) (item : nat * GeneInfo)
    (gs : list (nat * GeneInfo)) : M (list (nat * GeneInfo)) :=
  let '(node_id, gene_info) := item in
  if negb (is_type Input gene_info) then
    match gi_bias gene_info with
    | Some bias =>
        r <- random_random ;;
        if Qlt_bool r mutation_rate then
          d <- random_uniform (- bias_mutation_power)%Q bias_mutation_power ;;
          ret (dset Nat.eqb node_id
                 (mkGene (gi_type gene_info) (gi_activation gene_info)
                         (gi_innovation gene_info) (Some (bias + d)%Q)) gs)
        else ret gs
    | None => ret gs
    end
  else ret gs.

(** [mutate_biases(mutation_rate, bias_mutation_power)]. *)
Definition mutate_biases (mutation_rate bias_mutation_power : Q) (g : FeedforwardGenome)
  : M FeedforwardGenome :=
  gs <- for_each (genes g) (mutate_bias mutation_rate bias_mutation_power) (genes g) ;;
  ret (set_genes gs g).

(** [[node_id for node_id in genome.genes if genome.genes[node_id][0] != t]]. *)
Definition nodes_not_of_type (t : NodeType) (g : FeedforwardGenome) : list nat :=
  map fst (filter (fun e => negb (is_type t (snd e))) (genes g)).

(** [mutate(genome, innovation_manager, mutation_rate, weight_mutation_rate,
    add_node_rate, add_connection_rate, eliminate_node_rate,
    eliminate_connection_rate)]; [innovation_manager] is the shared manager.
    Each of the six tests draws [random.random()] first. *)
Definition mutate (genome : FeedforwardGenome)
    (mutation_rate weight_mutation_rate add_node_rate add_connection_rate
     eliminate_node_rate eliminate_connection_rate : Q) : M FeedforwardGenome :=
  r <- random_random ;;
  genome <- (if Qlt_bool r weight_mutation_rate && truthy (connections genome)
             then mutate_weights (1 # 2) (1 # 5) genome else ret genome) ;;
  r <- random_random ;;
  genome <- (if Qlt_bool r mutation_rate
             then mutate_biases (1 # 2) (1 # 5) genome else ret genome) ;;
  r <- random_random ;;
  genome <- (if Qlt_bool r add_node_rate && truthy (connections genome)
             then mutate_add_node genome else ret genome) ;;
  r <- random_random ;;
  genome <- (if Qlt_bool r add_connection_rate && Nat.leb 2 (length (genes genome))
             then mutate_add_connection (nodes_not_of_type Output genome)
                                        (nodes_not_of_type Input genome) genome
             else ret genome) ;;
  r <- random_random ;;
  genome <- (if Qlt_bool r eliminate_node_rate && Nat.ltb 0 (get_num_hidden_nodes genome)
             then mutate_eliminate_node genome else ret genome) ;;
  r <- random_random ;;
  (if Qlt_bool r eliminate_connection_rate && truthy (connections genome)
   then mutate_eliminate_connection genome else ret genome).

(** [Species.is_compatible(genome, compatibility_threshold)] of the species
    whose representative is [representative_genome]; the distance is taken
    with the default coefficients. *)
Definition is_compatible (representative_genome genome : FeedforwardGenome)
    (compatibility_threshold : Q) : bool :=
  Qle_bool (calculate_compatibility_distance representative_genome genome 1 1 1)
           compatibility_threshold.

(* ------------------------------------------------------------------ *)
(** ** Sorting by a key, largest first *)

(** [sorted(xs, key=k, reverse=True)] and [xs.sort(key=k, reverse=True)]:
    a stable sort, largest key first; [lt a b] stands for [k(a) < k(b)].
    An element goes behind the elements with a larger key and before those
    with an equal or smaller one that followed it in [xs]. *)
Fixpoint insert_reverse {A} (lt : A -> A -> bool) (x : A) (l : list A) : list A :=
  match l with
  | [] => [x]
  | y :: r => if lt x y then y :: insert_reverse lt x r else x :: y :: r
  end.

Fixpoint sorted_reverse {A} (lt : A -> A -> bool) (l : list A) : list A :=
  match l with
  | [] => []
  | x :: r => insert_reverse lt x (sorted_reverse lt r)
  end.

(* ------------------------------------------------------------------ *)
(** ** [Population] *)

(** The attributes the methods below read or write.  ([fitness_scores],
    [best_genome] and [best_fitness] are written by [evaluate_fitness]
    only, which runs the PyTorch network.) *)
Record Population := mkPopulation {
  population_size : nat;
  population : list FeedforwardGenome
}.

(** [Population.create_initial_population]. *)
Definition create_initial_population (num_inputs num_outputs initial_hidden_nodes : nat)
    (p : Population) : M Population :=
  for_range (population_size p)
    (fun p =>
       genome <- create_initial_genome_population num_inputs num_outputs
                   initial_hidden_nodes ;;
       ret (mkPopulation (population_size p) (population p ++ [genome])))
    p.

(** [a.fitness < b.fitness] on evaluated genomes. *)
Definition fitness_lt (a b : FeedforwardGenome) : bool :=
  match fitness a, fitness b with
  | Some x, Some y => Qlt_bool x y
  | _, _ => false
  end.

Definition unevaluated (g : FeedforwardGenome) : bool :=
  match fitness g with
  | None => true
  | Some _ => false
  end.

(** [Population.select_genomes].  Sorting two or more genomes compares
    every one of them with another, and a comparison with the fitness [None]
    raises [TypeError]. *)
Definition select_genomes (p : Population) : PyResult (list FeedforwardGenome) :=
  if Nat.leb 2 (length (population p)) && existsb unevaluated (population p)
  then TypeError
  else
    let sorted_population := sorted_reverse fitness_lt (population p) in
    let num_selected := Nat.max 1 (population_size p / 5) in
    Ok (firstn num_selected sorted_population).

Section Reproduce.
(** The two callables passed to [reproduce_and_mutate]; the shared manager
    is in the state, and a genome they return is a new object. *)
Variable crossover_function :
  FeedforwardGenome -> FeedforwardGenome -> M (PyResult FeedforwardGenome).
Variable mutate_function : FeedforwardGenome -> Q -> M FeedforwardGenome.

(** The [while len(new_population) < population_size] loop: each iteration
    that returns appends one child, so it runs [fuel] times, [fuel] being
    the number of places left.  [random.choice] raises [IndexError] on an
    empty list. *)
Fixpoint reproduce_loop (fuel : nat) (selected_genomes : list FeedforwardGenome)
    (mutation_rate bias_mutation_rate bias_mutation_power : Q)
    (new_population : list FeedforwardGenome) : M (PyResult (list FeedforwardGenome)) :=
  match fuel with
  | 0 => ret (Ok new_population)
  | S fuel' =>
      match selected_genomes with
      | [] => ret IndexError
      | g0 :: _ =>
          parent1 <- random_choice g0 selected_genomes ;;
          parent2 <- random_choice g0 selected_genomes ;;
          c <- crossover_function parent1 parent2 ;;
          match c with
          | Ok child =>
              child <- mutate_function child mutation_rate ;;
              child <- mutate_biases bias_mutation_rate bias_mutation_power child ;;
              reproduce_loop fuel' selected_genomes mutation_rate bias_mutation_rate
                bias_mutation_power (new_population ++ [child])
          | ValueError => ret ValueError
          | IndexError => ret IndexError
          | TypeError => ret TypeError
          end
      end
  end.

(** [Population.reproduce_and_mutate(population_size, mutation_rate,
    crossover_function, mutate_function, bias_mutation_rate,
    bias_mutation_power)]; [self.population] is assigned only when the loop
    ends without raising. *)
Definition reproduce_and_mutate (size : nat)
    (mutation_rate bias_mutation_rate bias_mutation_power : Q) (p : Population)
  : M (PyResult Population) :=
  match select_genomes p with
  | Ok selected_genomes =>
      r <- reproduce_loop (size - length selected_genomes) selected_genomes
             mutation_rate bias_mutation_rate bias_mutation_power selected_genomes ;;
      match r with
      | Ok new_population => ret (Ok (mkPopulation (population_size p) new_population))
      | ValueError => ret ValueError
      | IndexError => ret IndexError
      | TypeError => ret TypeError
      end
  | ValueError => ret ValueError
  | IndexError => ret IndexError
  | TypeError => ret TypeError
  end.

End Reproduce.

(** [mutate(child, innovation_manager, mutation_rate)]: the call
    [reproduce_and_mutate] makes when it is given the module's [mutate];
    the other five rates take their defaults. *)
Definition mutate_with_defaults (genome : FeedforwardGenome) (mutation_rate : Q)
  : M FeedforwardGenome :=
  mutate genome mutation_rate (1 # 5) (3 # 10) (3 # 10) (1 # 5) (1 # 5).

(* ------------------------------------------------------------------ *)
(** ** [Species], the class *)

(** The class with all its attributes.  (The record [Species] above keeps
    what [StagnationManager] reads.)  Genomes are objects: a species holds
    references to them, [adjusted_fitnesses] is keyed by them, and
    [fitness_of] gives the [fitness] attribute of each. *)
Module SpeciesClass.

Definition GenomeRef : Type := nat.

Record Species := mkSpecies {
  representative_genome : GenomeRef;
  members : list GenomeRef;
  adjusted_fitnesses : list (GenomeRef * Q);
  best_fitness : option Q;
  last_improved : nat;
  historical_best_fitness : option Q
}.

Section Methods.
Variable fitness_of : GenomeRef -> option Q.

(** [Species.__init__]; a genome always has the attribute [fitness]. *)
Definition init (representative : GenomeRef) : Species :=
  mkSpecies representative [representative] [] (fitness_of representative) 0
            (fitness_of representative).

(** [add_member]. *)
Definition add_member (genome : GenomeRef) (s : Species) : Species :=
  mkSpecies (representative_genome s) (members s ++ [genome]) (adjusted_fitnesses s)
            (best_fitness s) (last_improved s) (historical_best_fitness s).

(** The loop of [adjust_fitnesses]; [None / species_size] raises
    [TypeError]. *)
Fixpoint adjust_loop (species_size : nat) (genomes : list GenomeRef)
    (adjusted : list (GenomeRef * Q)) : PyResult (list (GenomeRef * Q)) :=
  match genomes with
  | [] => Ok adjusted
  | genome :: rest =>
      match fitness_of genome with
      | Some f =>
          adjust_loop species_size rest
            (dset Nat.eqb genome (f / Qnat species_size)%Q adjusted)
      | None => TypeError
      end
  end.

(** [adjust_fitnesses]. *)
Definition adjust_fitnesses (s : Species) : PyResult Species :=
  match adjust_loop (length (members s)) (members s) [] with
  | Ok adjusted =>
      Ok (mkSpecies (representative_genome s) (members s) adjusted
                    (best_fitness s) (last_improved s) (historical_best_fitness s))
  | ValueError => ValueError
  | IndexError => IndexError
  | TypeError => TypeError
  end.

(** [get_adjusted_fitness]: [self.adjusted_fitnesses.get(genome,
    genome.fitness)]. *)
Definition get_adjusted_fitness (s : Species) (genome : GenomeRef) : option Q :=
  match dget Nat.eqb genome (adjusted_fitnesses s) with
  | Some a => Some a
  | None => fitness_of genome
  end.

Definition member_lt (a b : GenomeRef) : bool :=
  match fitness_of a, fitness_of b with
  | Some x, Some y => Qlt_bool x y
  | _, _ => false
  end.

Definition member_unevaluated (g : GenomeRef) : bool :=
  match fitness_of g with
  | None => true
  | Some _ => false
  end.

(** [clear]: the members are sorted by fitness, largest first, and the
    first one becomes the representative and the only member.  (A sorted
    non-empty list is not empty; the inner [[]] branch only completes the
    match.) *)
Definition clear (s : Species) : PyResult Species :=
  match members s with
  | [] => Ok s
  | _ :: _ =>
      if Nat.leb 2 (length (members s)) && existsb member_unevaluated (members s)
      then TypeError
      else
        match sorted_reverse member_lt (members s) with
        | [] => Ok s
        | best :: _ =>
            Ok (mkSpecies best [best] (adjusted_fitnesses s) (best_fitness s)
                          (last_improved s) (historical_best_fitness s))
        end
  end.

End Methods.

(** How a call of [update_best_fitness] ends: it returns, or it raises with
    the species in the state reached. *)
Inductive Outcome : Type :=
| Returns (s : Species)
| RaisesTypeError (s : Species)
| RaisesNameError (s : Species).

(** [update_best_fitness(fitness)].  [current_generation] is the module
    global of that name, [None] when no such global is defined (the file
    defines none); it is read after the two fitness attributes have been
    assigned.  Comparing with a fitness [None] raises [TypeError]. *)
Definition update_best_fitness (current_generation : option nat) (fitness : Q)
    (s : Species) : Outcome :=
  match best_fitness s with
  | None => RaisesTypeError s
  | Some best =>
      if Qlt_bool best fitness then
        let s1 := mkSpecies (representative_genome s) (members s) (adjusted_fitnesses s)
                            (Some fitness) (last_improved s) (historical_best_fitness s) in
        match historical_best_fitness s with
        | None => RaisesTypeError s1
        | Some historical =>
            let s2 := mkSpecies (representative_genome s) (members s) (adjusted_fitnesses s)
                                (Some fitness) (last_improved s)
                                (Some (py_max historical fitness)) in
            match current_generation with
            | None => RaisesNameError s2
            | Some generation =>
                Returns (mkSpecies (representative_genome s) (members s)
                           (adjusted_fitnesses s) (Some fitness) generation
                           (Some (py_max historical fitness)))
            end
        end
      else Returns s
  end.

End SpeciesClass.

(* ------------------------------------------------------------------ *)
(** ** The draws of [crossover] *)

(** [sorted(list(all_gene_innovations))] and
    [sorted(list(all_connection_innovations))]. *)
Definition all_gene_innovations (parent1 parent2 : FeedforwardGenome) : list nat :=
  sorted_union (gene_innovation_numbers (genes parent1))
               (gene_innovation_numbers (genes parent2)).

Definition all_connection_innovations (parent1 parent2 : FeedforwardGenome) : list nat :=
  sorted_union (connection_innovation_numbers (connections parent1))
               (connection_innovation_numbers (connections parent2)).

(** The first statements of [crossover]: the child object is built. *)
Definition crossover_construction (parent1 parent2 : FeedforwardGenome)
  : M FeedforwardGenome :=
  gid <- im_next_genome_id ;;
  child <- genome_init gid
             (length (filter (fun e => is_type Input (snd e)) (genes parent1)))
             (length (filter (fun e => is_type Output (snd e)) (genes parent1)))
             8 ;;
  im_increment_genome_id ;;;
  ret child.

(** The values [random.random()] returns, in order, once the child object
    has been built; after the last one it returns 0. *)
Definition crossover_draws (parent1 parent2 : FeedforwardGenome) (w : World) : list Q :=
  rand_reals (w_rng (snd (crossover_construction parent1 parent2 w))).

(** [gene1_item and gene2_item] / [conn1 and conn2]: the innovation number
    marks a node gene (a connection) of both parents. *)
Definition in_both_genes (parent1 parent2 : FeedforwardGenome) (i : nat) : bool :=
  match gene_with_innovation i (genes parent1), gene_with_innovation i (genes parent2) with
  | Some _, Some _ => true
  | _, _ => false
  end.

Definition in_both_connections (parent1 parent2 : FeedforwardGenome) (i : nat) : bool :=
  match conn_with_innovation i (connections parent1),
        conn_with_innovation i (connections parent2) with
  | Some _, Some _ => true
  | _, _ => false
  end.

(** The innovation numbers for which the two loops call [random.random()],
    in the order of the loops. *)
Definition shared_gene_innovations (parent1 parent2 : FeedforwardGenome) : list nat :=
  filter (in_both_genes parent1 parent2) (all_gene_innovations parent1 parent2).

Definition shared_connection_innovations (parent1 parent2 : FeedforwardGenome) : list nat :=
  filter (in_both_connections parent1 parent2) (all_connection_innovations parent1 parent2).

(** How many times [random.random()] has been called, since the child
    object was built, when the gene loop (the connection loop) examines the
    innovation number [i]: once for every shared innovation number below
    [i]; the connection loop starts when the gene loop is over. *)
Definition draws_before_gene (parent1 parent2 : FeedforwardGenome) (i : nat) : nat :=
  length (filter (fun j => Nat.ltb j i) (shared_gene_innovations parent1 parent2)).

Definition draws_before_connection (parent1 parent2 : FeedforwardGenome) (i : nat) : nat :=
  length (shared_gene_innovations parent1 parent2)
  + length (filter (fun j => Nat.ltb j i) (shared_connection_innovations parent1 parent2)).

(** The value of [random.random()] in the iteration of the gene loop (the
    connection loop) for the shared innovation number [i]. *)
Definition gene_draw (parent1 parent2 : FeedforwardGenome) (w : World) (i : nat) : Q :=
  nth (draws_before_gene parent1 parent2 i) (crossover_draws parent1 parent2 w) 0%Q.

Definition connection_draw (parent1 parent2 : FeedforwardGenome) (w : World) (i : nat) : Q :=
  nth (draws_before_connection parent1 parent2 i) (crossover_draws parent1 parent2 w) 0%Q.

(** The innovation numbers of the node genes of what [crossover] returns
    (none when it raises). *)
Definition child_gene_innovations (r : PyResult FeedforwardGenome) : list nat :=
  match r with
  | Ok child => gene_innovation_numbers (genes child)
  | _ => []
  end.

(** [parent_a] with the fitness of [parent_b]: a tie. *)
Definition parent_a_tied : FeedforwardGenome := set_fitness (Some 1%Q) parent_a.

(** [parent_b] after its biases and weights have moved: the hidden nodes 1
    and 2 have the bias 1 and the connection 2 -> 3 has the weight 5, where
    [parent_a] has 1/2, 1/2 and 3. *)
Definition parent_b_moved : FeedforwardGenome :=
  set_connections (dset conn_key_eqb (2, 3, 7) 5%Q (connections parent_b))
    (set_genes (dset Nat.eqb 1 (mkGene Hidden Relu 2 (Some 1%Q))
                  (dset Nat.eqb 2 (mkGene Hidden Relu 3 (Some 1%Q)) (genes parent_b)))
       parent_b).

(** A state in which the construction of the child uses up nine values of
    [random.random()] and the two loops then draw 0, 1/4, 3/4, 0 (for the
    gene innovations 1, 2, 3, 4) and 3/4 (for the connection innovation
    7). *)
Definition crossover_world : World :=
  mkWorld (mkRng [] (repeat 0%Q 9 ++ [0%Q; (1 # 4)%Q; (3 # 4)%Q; 0%Q; (3 # 4)%Q]))
          (w_im (chain_world [])).

(* ------------------------------------------------------------------ *)
(** ** What the constructor stores for a node of each kind *)

(** The gene of an input node: the 3-tuple [('input', 'identity', n)]. *)
Definition input_gene (gi : GeneInfo) : Prop :=
  gi_type gi = Input /\ gi_activation gi = Identity /\ gi_bias gi = None.

(** The gene of a hidden node: one of the three drawn activations and a
    bias. *)
Definition hidden_gene (gi : GeneInfo) : Prop :=
  gi_type gi = Hidden
  /\ In (gi_activation gi) [Relu; Sigmoid; Tanh]
  /\ exists b, gi_bias gi = Some b.

(** The gene of an output node: the identity activation and a bias. *)
Definition output_gene (gi : GeneInfo) : Prop :=
  gi_type gi = Output /\ gi_activation gi = Identity /\ exists b, gi_bias gi = Some b.

(** A loop body of the constructor: it stores one gene of shape [shape]
    under [next_node_id], with the innovation number the manager issues, and
    appends the id to [output_nodes] when [listed]. *)
Definition stores_gene (shape : GeneInfo -> Prop) (listed : bool)
    (b : FeedforwardGenome -> M FeedforwardGenome) : Prop :=
  forall g w, exists gi,
    genes (fst (b g w)) = dset Nat.eqb (next_node_id g) gi (genes g)
    /\ shape gi
    /\ gi_innovation gi = next_innovation_number (w_im w)
    /\ connections (fst (b g w)) = connections g
    /\ fitness (fst (b g w)) = fitness g
    /\ output_nodes (fst (b g w))
       = output_nodes g ++ (if listed then [next_node_id g] else []).

(** The genes [new] are stored under the ids [start .. start + n - 1], have
    shape [shape], and the gene of id [i] has innovation number [base + i]. *)
Definition gene_block (shape : GeneInfo -> Prop) (base start n : nat)
    (new : list (nat * GeneInfo)) : Prop :=
  dkeys new = seq start n
  /\ Forall (fun e => shape (snd e) /\ gi_innovation (snd e) = base + fst e) new.

(** A connection the constructor may create among the nodes
    [0 .. num_inputs + initial_hidden_nodes + num_outputs - 1]: it leaves an
    input or hidden node, enters a hidden or output node, and is no loop. *)
Definition initial_connection (num_inputs initial_hidden_nodes num_outputs : nat)
    (k : ConnKey) : Prop :=
  conn_in k < num_inputs + initial_hidden_nodes
  /\ num_inputs <= conn_out k < num_inputs + initial_hidden_nodes + num_outputs
  /\ conn_in k <> conn_out k.

(** The body of the loop of [prune_disconnected_inputs], for the
    [connected_sources] computed before the loop. *)
Definition reconnect_input (connected_sources : list nat) (input_node : nat)
    (g : FeedforwardGenome) : M FeedforwardGenome :=
  if existsb (Nat.eqb input_node) connected_sources then ret g
  else
    match map fst (filter (fun e => is_type Hidden (snd e) || is_type Output (snd e))
                          (genes g)) with
    | [] => ret g
    | (t0 :: _) as targets =>
        target <- random_choice t0 targets ;;
        innov <- im_create_innovation "connection" input_node (Some target) ;;
        r <- add_connection input_node target None innov g ;;
        ret (snd r)
    end.

(** A run of the constructor for two inputs, one hidden node and one output
    whose draws create the connections 0 -> 2, 1 -> 3 and 2 -> 3. *)
Definition bridge_genome : FeedforwardGenome :=
  fst (genome_init 0 2 1 1 (mkWorld (mkRng [0; 2; 3; 3] []) new_manager)).

(** [x] is a value [random.random()] can return from the state [w] on: an
    element of the tape, or 0 once the tape is exhausted. *)
Definition drawn (w : World) (x : Q) : Prop :=
  x = 0%Q \/ In x (rand_reals (w_rng w)).

(** The state [w'] is reached from [w] by drawing: its tape of reals is a
    part of the tape of [w]. *)
Definition drawn_from (w w' : World) : Prop :=
  forall x, drawn w' x -> drawn w x.

(** Every value on the tape of reals lies in [0, 1], as the values of
    [random.random()] do. *)
Definition unit_draws (w : World) : Prop :=
  Forall (fun x => (0 <= x)%Q /\ (x <= 1)%Q) (rand_reals (w_rng w)).

(** The value [a] moved by [random.uniform(-power, power)], for some draw
    of the tape of [w]. *)
Definition perturbed (w : World) (power a a' : Q) : Prop :=
  exists x, drawn w x /\ a' = (a + (- power + (power - - power) * x))%Q.


(** What no mutation changes: the genome keeps its id, its fitness and its
    [output_nodes], and [next_node_id] grows by at most [n]. *)
Definition keeps_identity (n : nat) (g g' : FeedforwardGenome) : Prop :=
  genome_id g' = genome_id g
  /\ fitness g' = fitness g
  /\ output_nodes g' = output_nodes g
  /\ next_node_id g <= next_node_id g' <= next_node_id g + n.

(** The manager issued at most [k] innovation numbers and no genome id. *)
Definition issues_at_most (k : nat) (m m' : InnovationManager) : Prop :=
  next_genome_id_counter m' = next_genome_id_counter m
  /\ next_innovation_number m <= next_innovation_number m' <= next_innovation_number m + k.

(** A mutation that keeps the identity of the genome, lets [next_node_id]
    grow by at most [n] and takes at most [k] innovation numbers. *)
Definition bounded_mutation (n k : nat) (c : FeedforwardGenome -> M FeedforwardGenome) : Prop :=
  forall g w,
    keeps_identity n g (fst (c g w))
    /\ issues_at_most k (w_im w) (w_im (snd (c g w))).

(** The species [a] ranks not below the species [b] by best member: every
    member of [b] has at most the fitness of some member of [a] (so a
    species without members ranks below every species with one). *)
Definition ranks_not_below (heap : SpeciesHeap) (a b : SpeciesRef) : Prop :=
  forall fb, In fb (members (heap b)) ->
    exists fa, In fa (members (heap a)) /\ (fb <= fa)%Q.

(** Generation 1 of the three species when nothing has changed since
    generation 0: the second call of [update] on the manager and the
    species the first call left. *)
Definition generation_1_unchanged
  : StagnationManager * SpeciesHeap * list (SpeciesRef * bool) :=
  update (fst (fst generation_0)) (snd (fst generation_0)) [0; 1; 2] 1.

(** The species as a call of [update_best_fitness] leaves it, whether the
    call returns or raises. *)
Definition species_after (o : SpeciesClass.Outcome) : SpeciesClass.Species :=
  match o with
  | SpeciesClass.Returns s => s
  | SpeciesClass.RaisesTypeError s => s
  | SpeciesClass.RaisesNameError s => s
  end.

(** A population of the two evaluated genomes [parent_b] (fitness 1) and
    [parent_a] (fitness 2), with [population_size = 2]. *)
Definition two_parents : Population := mkPopulation 2 [parent_b; parent_a].

(** Four genomes as a species sees them: the genomes 0, 1 and 2 have the
    fitness 3, 6 and 3, the genome 3 (and every other) has not been
    evaluated. *)
Definition member_fitness (genome : SpeciesClass.GenomeRef) : option Q :=
  match genome with
  | 0 => Some 3%Q
  | 1 => Some 6%Q
  | 2 => Some 3%Q
  | _ => None
  end.

(** The species of representative 0 with the members 0, 1 and 2. *)
Definition three_members : SpeciesClass.Species :=
  SpeciesClass.add_member 2
    (SpeciesClass.add_member 1 (SpeciesClass.init member_fitness 0)).

(* ------------------------------------------------------------------ *)
(** ** [ConnectionMatrix] *)

Module ConnectionMatrix.

(** How a method ends: it returns, or it raises [KeyError] (a dictionary
    has no such key) or [IndexError] (an index outside the array, or the
    [raise IndexError] of [eliminar_conexiones_nodo]). *)
Inductive Result (A : Type) : Type :=
| Return (a : A)
| RaiseKeyError
| RaiseIndexError.
Arguments Return {A} a.
Arguments RaiseKeyError {A}.
Arguments RaiseIndexError {A}.

Definition and_then {A B} (r : Result A) (k : A -> Result B) : Result B :=
  match r with
  | Return a => k a
  | RaiseKeyError => RaiseKeyError
  | RaiseIndexError => RaiseIndexError
  end.

(** A loop whose body may raise. *)
Fixpoint for_each_result {A S : Type} (xs : list A) (body : A -> S -> Result S) (s : S)
  : Result S :=
  match xs with
  | [] => Return s
  | x :: r => and_then (body x s) (for_each_result r body)
  end.

(** [d[k]] on a dictionary from integers to integers. *)
Definition lookup (k : nat) (d : list (nat * nat)) : Result nat :=
  match dget Nat.eqb k d with
  | Some v => Return v
  | None => RaiseKeyError
  end.

(** A two-dimensional numpy array of booleans, as the list of its rows.
    The arrays of this class are [np.empty((0, 0))] and [np.zeros((n, n))],
    changed in place; the number of columns is read off the first row. *)
Definition Matrix : Type := list (list bool).

Definition zeros (n : nat) : Matrix := repeat (repeat false n) n.

Definition n_columns (a : Matrix) : nat :=
  match a with
  | [] => 0
  | row :: _ => length row
  end.

(** [a[i, j]]. *)
Definition cell (a : Matrix) (i j : nat) : Result bool :=
  match nth_error a i with
  | Some row =>
      match nth_error row j with
      | Some v => Return v
      | None => RaiseIndexError
      end
  | None => RaiseIndexError
  end.

(** [a[i, j] = v]. *)
Definition set_cell (a : Matrix) (i j : nat) (v : bool) : Result Matrix :=
  match nth_error a i with
  | Some row =>
      if Nat.ltb j (length row) then Return (list_set i (list_set j v row) a)
      else RaiseIndexError
  | None => RaiseIndexError
  end.

(** [a[i, :] = v]. *)
Definition set_row (a : Matrix) (i : nat) (v : bool) : Result Matrix :=
  match nth_error a i with
  | Some row => Return (list_set i (repeat v (length row)) a)
  | None => RaiseIndexError
  end.

(** [a[:, j] = v]. *)
Definition set_column (a : Matrix) (j : nat) (v : bool) : Result Matrix :=
  if Nat.ltb j (n_columns a) then Return (map (list_set j v) a) else RaiseIndexError.

(** An array of [n] rows and [n] columns. *)
Definition square (n : nat) (a : Matrix) : Prop :=
  length a = n /\ Forall (fun row => length row = n) a.

(** A Python set of integers, as a list of its elements: [x in s],
    [s.add(x)], [s.remove(x)] (every call is guarded by [x in s]),
    [len(s)] and [sorted(list(s))]. *)
Definition in_set (x : nat) (s : list nat) : bool := existsb (Nat.eqb x) s.

Definition set_add (x : nat) (s : list nat) : list nat :=
  if in_set x s then s else s ++ [x].

Definition set_remove (x : nat) (s : list nat) : list nat :=
  filter (fun y => negb (Nat.eqb y x)) s.

Definition set_len (s : list nat) : nat := length (nodup Nat.eq_dec s).

Definition sorted_set (s : list nat) : list nat := NatSort.sort (nodup Nat.eq_dec s).

(** The attributes of a [ConnectionMatrix]. *)
Record t := mk {
  matriz : Matrix;
  nodo_a_indice : list (nat * nat);
  indice_a_nodo : list (nat * nat);
  siguiente_indice : nat;
  nodos : list nat
}.

(** [ConnectionMatrix.__init__]. *)
Definition init : t := mk [] [] [] 0 [].

(** The body of the [enumerate] loop of [reindexar_nodos], on the pair of
    the two new dictionaries. *)
Definition number_node (item : nat * nat) (maps : list (nat * nat) * list (nat * nat))
  : list (nat * nat) * list (nat * nat) :=
  let '(i, nodo_id) := item in
  (dset Nat.eqb nodo_id i (fst maps), dset Nat.eqb i nodo_id (snd maps)).

(** The body of the inner loop of [reindexar_nodos]: a connection of the
    old array is carried over to the new one. *)
Definition carry_over (m : t) (nuevo_nodo_a_indice : list (nat * nat))
    (indice_origen indice_destino : nat) (nueva_matriz : Matrix) : Result Matrix :=
  and_then (cell (matriz m) indice_origen indice_destino) (fun connected =>
  if connected then
    and_then (lookup indice_origen (indice_a_nodo m)) (fun nodo_origen =>
    and_then (lookup indice_destino (indice_a_nodo m)) (fun nodo_destino =>
    and_then (lookup nodo_origen nuevo_nodo_a_indice) (fun nuevo_indice_origen =>
    and_then (lookup nodo_destino nuevo_nodo_a_indice) (fun nuevo_indice_destino =>
    set_cell nueva_matriz nuevo_indice_origen nuevo_indice_destino true))))
  else Return nueva_matriz).

(** What the loops of [reindexar_nodos] have done to the new array when
    they have examined the cells [processed] of the old one: the new array
    connects the new indices of the end nodes of every connection found so
    far, and nothing else. *)
Definition carried (m : t) (nuevo_nodo_a_indice : list (nat * nat)) (n : nat)
    (processed : nat -> nat -> Prop) (nueva_matriz : Matrix) : Prop :=
  square n nueva_matriz
  /\ forall i j, i < n -> j < n ->
       (cell nueva_matriz i j = Return true
        <-> exists o d x y,
              processed o d
              /\ cell (matriz m) o d = Return true
              /\ dget Nat.eqb o (indice_a_nodo m) = Some x
              /\ dget Nat.eqb d (indice_a_nodo m) = Some y
              /\ dget Nat.eqb x nuevo_nodo_a_indice = Some i
              /\ dget Nat.eqb y nuevo_nodo_a_indice = Some j).

(** [reindexar_nodos]. *)
Definition reindexar_nodos (m : t) : Result t :=
  let nodos_ordenados := sorted_set (nodos m) in
  let nuevo_tamano := length nodos_ordenados in
  let nueva_matriz := zeros nuevo_tamano in
  let maps :=
    fold_left (fun maps item => number_node item maps)
              (combine (seq 0 nuevo_tamano) nodos_ordenados) ([], []) in
  let nuevo_nodo_a_indice := fst maps in
  let nuevo_indice_a_nodo := snd maps in
  and_then
    (for_each_result (seq 0 (length (matriz m)))
       (fun indice_origen =>
          for_each_result (seq 0 (length (matriz m)))
            (carry_over m nuevo_nodo_a_indice indice_origen))
       nueva_matriz)
    (fun nueva_matriz =>
       Return (mk nueva_matriz nuevo_nodo_a_indice nuevo_indice_a_nodo nuevo_tamano
                  (nodos m))).

(** [agregar_nodo(nodo_id)]. *)
Definition agregar_nodo (nodo_id : nat) (m : t) : Result t :=
  if negb (in_set nodo_id (nodos m)) then
    reindexar_nodos
      (mk (matriz m)
          (dset Nat.eqb nodo_id (siguiente_indice m) (nodo_a_indice m))
          (dset Nat.eqb (siguiente_indice m) nodo_id (indice_a_nodo m))
          (siguiente_indice m + 1)
          (set_add nodo_id (nodos m)))
  else Return m.

Definition set_matriz (a : Matrix) (m : t) : t :=
  mk a (nodo_a_indice m) (indice_a_nodo m) (siguiente_indice m) (nodos m).

(** [agregar_conexion(nodo_desde, nodo_hasta)]. *)
Definition agregar_conexion (nodo_desde nodo_hasta : nat) (m : t) : Result t :=
  if in_set nodo_desde (nodos m) && in_set nodo_hasta (nodos m) then
    and_then (lookup nodo_desde (nodo_a_indice m)) (fun indice_desde =>
    and_then (lookup nodo_hasta (nodo_a_indice m)) (fun indice_hasta =>
    and_then (set_cell (matriz m) indice_desde indice_hasta true) (fun a =>
    Return (set_matriz a m))))
  else Return m.

(** [eliminar_conexiones_nodo(nodo_id)]. *)
Definition eliminar_conexiones_nodo (nodo_id : nat) (m : t) : Result t :=
  if negb (in_set nodo_id (nodos m)) then RaiseIndexError
  else
    and_then (lookup nodo_id (nodo_a_indice m)) (fun indice =>
    and_then (set_row (matriz m) indice false) (fun a =>
    and_then (set_column a indice false) (fun a =>
    Return (set_matriz a m)))).

(** [eliminar_nodo(nodo_id)]. *)
Definition eliminar_nodo (nodo_id : nat) (m : t) : Result t :=
  if in_set nodo_id (nodos m) then
    if Nat.eqb (set_len (nodos m)) 1 then Return init
    else
      and_then (eliminar_conexiones_nodo nodo_id m) (fun m =>
      reindexar_nodos
        (mk (matriz m) (nodo_a_indice m) (indice_a_nodo m) (siguiente_indice m)
            (set_remove nodo_id (nodos m))))
  else Return m.

(** [existe_conexion(nodo_desde, nodo_hasta)]. *)
Definition existe_conexion (nodo_desde nodo_hasta : nat) (m : t) : Result bool :=
  if negb (in_set nodo_desde (nodos m)) || negb (in_set nodo_hasta (nodos m))
  then Return false
  else
    and_then (lookup nodo_desde (nodo_a_indice m)) (fun indice_desde =>
    and_then (lookup nodo_hasta (nodo_a_indice m)) (fun indice_hasta =>
    cell (matriz m) indice_desde indice_hasta)).

(** [obtener_matriz()]. *)
Definition obtener_matriz (m : t) : Matrix := matriz m.

(** The bodies of the two loops of [modificar_conexiones_nodo]; the truth
    value of [valor_conexion] is what the boolean array stores. *)
Definition modificar_entrante (m : t) (indice_nodo : nat) (item : nat * bool) (a : Matrix)
  : Result Matrix :=
  let '(nodo_conectado, valor_conexion) := item in
  if in_set nodo_conectado (nodos m) then
    and_then (lookup nodo_conectado (nodo_a_indice m)) (fun indice_conectado =>
    set_cell a indice_conectado indice_nodo valor_conexion)
  else Return a.

Definition modificar_saliente (m : t) (indice_nodo : nat) (item : nat * bool) (a : Matrix)
  : Result Matrix :=
  let '(nodo_conectado, valor_conexion) := item in
  if in_set nodo_conectado (nodos m) then
    and_then (lookup nodo_conectado (nodo_a_indice m)) (fun indice_conectado =>
    set_cell a indice_nodo indice_conectado valor_conexion)
  else Return a.

(** [modificar_conexiones_nodo(nodo_id, nuevas_conexiones_entrantes,
    nuevas_conexiones_salientes)]; the two dictionaries are given by their
    items. *)
Definition modificar_conexiones_nodo (nodo_id : nat)
    (nuevas_conexiones_entrantes nuevas_conexiones_salientes : list (nat * bool)) (m : t)
  : Result t :=
  if in_set nodo_id (nodos m) then
    and_then (lookup nodo_id (nodo_a_indice m)) (fun indice_nodo =>
    and_then (for_each_result nuevas_conexiones_entrantes (modificar_entrante m indice_nodo)
                (matriz m)) (fun a =>
    and_then (for_each_result nuevas_conexiones_salientes (modificar_saliente m indice_nodo)
                a) (fun a =>
    Return (set_matriz a m))))
  else Return m.

Section Iteration.
(** The order in which [for nodo in self.nodos] visits the elements of the
    set; Python leaves it unspecified. *)
Variable iteration_order : list nat -> list nat.

(** [conexiones_entrantes(nodo_id)]. *)
Definition conexiones_entrantes (nodo_id : nat) (m : t) : Result (list nat) :=
  if negb (in_set nodo_id (nodos m)) then Return []
  else
    and_then (lookup nodo_id (nodo_a_indice m)) (fun indice_nodo =>
    for_each_result (iteration_order (nodos m))
      (fun nodo_desde nodos_entrantes =>
         and_then (lookup nodo_desde (nodo_a_indice m)) (fun indice_desde =>
         and_then (cell (matriz m) indice_desde indice_nodo) (fun connected =>
         Return (if connected then nodos_entrantes ++ [nodo_desde] else nodos_entrantes))))
      []).

(** [conexiones_salientes(nodo_id)]. *)
Definition conexiones_salientes (nodo_id : nat) (m : t) : Result (list nat) :=
  if negb (in_set nodo_id (nodos m)) then Return []
  else
    and_then (lookup nodo_id (nodo_a_indice m)) (fun indice_nodo =>
    for_each_result (iteration_order (nodos m))
      (fun nodo_hasta nodos_salientes =>
         and_then (lookup nodo_hasta (nodo_a_indice m)) (fun indice_hasta =>
         and_then (cell (matriz m) indice_nodo indice_hasta) (fun connected =>
         Return (if connected then nodos_salientes ++ [nodo_hasta] else nodos_salientes))))
      []).

End Iteration.

(** The class invariant: the array is square, of the size of the set of
    nodes; the two dictionaries number the nodes in ascending order, and
    [siguiente_indice] is their number. *)
Definition consistent (m : t) : Prop :=
  let nodos_ordenados := sorted_set (nodos m) in
  let n := length nodos_ordenados in
  square n (matriz m)
  /\ nodo_a_indice m = combine nodos_ordenados (seq 0 n)
  /\ indice_a_nodo m = combine (seq 0 n) nodos_ordenados
  /\ siguiente_indice m = n.

(** The graph a matrix stands for: there is a connection from [a] to [b]. *)
Definition connected (m : t) (a b : nat) : Prop := existe_conexion a b m = Return true.



End ConnectionMatrix.


(** That matrix: the nodes 1, 2 and 3 at the indices 0, 1 and 2, with the
    connections 1 -> 3 and 3 -> 2. *)
Definition three_nodes : ConnectionMatrix.t :=
  ConnectionMatrix.mk
    [[false; false; true]; [false; false; false]; [false; true; false]]
    [(1, 0); (2, 1); (3, 2)] [(0, 1); (1, 2); (2, 3)] 3 [3; 1; 2].

(** An order of iteration over a set: the order of insertion. *)
Definition insertion_order (s : list nat) : list nat := nodup Nat.eq_dec s.
(* ------------------------------------------------------------------ *)
(** * Facts about dictionaries *)

Section PyDictFacts.
Context {K V : Type}.
Variable keq : K -> K -> bool.
Hypothesis keq_spec : forall a b, keq a b = true <-> a = b.

Lemma keq_refl : forall a, keq a a = true.
Proof. intro a. apply keq_spec. reflexivity. Qed.

Lemma keq_neq : forall a b, a <> b -> keq a b = false.
Proof.
  intros a b Hab. destruct (keq a b) eqn:E; [|reflexivity].
  apply keq_spec in E. contradiction.
Qed.

Lemma dget_dset_same : forall k v (d : list (K * V)), dget keq k (dset keq k v d) = Some v.
Proof.
  intros k v d. induction d as [|[k' v'] r IH]; simpl.
  - now rewrite keq_refl.
  - destruct (keq k k') eqn:E; simpl; rewrite E; auto.
Qed.

Lemma dget_dset_other : forall k k' v (d : list (K * V)),
  k <> k' -> dget keq k (dset keq k' v d) = dget keq k d.
Proof.
  intros k k' v d Hne. induction d as [|[k0 v0] r IH]; simpl.
  - now rewrite (keq_neq _ _ Hne).
  - destruct (keq k' k0) eqn:E; simpl.
    + apply keq_spec in E. subst k0. now rewrite (keq_neq _ _ Hne).
    + destruct (keq k k0); auto.
Qed.

Lemma dget_ddel_same : forall k (d : list (K * V)), dget keq k (ddel keq k d) = None.
Proof.
  intros k d. unfold ddel. induction d as [|[k' v'] r IH]; simpl; auto.
  destruct (keq k k') eqn:E; simpl; auto. now rewrite E.
Qed.

Lemma dget_ddel_other : forall k k' (d : list (K * V)),
  k <> k' -> dget keq k (ddel keq k' d) = dget keq k d.
Proof.
  intros k k' d Hne. unfold ddel. induction d as [|[k0 v0] r IH]; simpl; auto.
  destruct (keq k' k0) eqn:E; simpl.
  - apply keq_spec in E. subst k0. now rewrite (keq_neq _ _ Hne).
  - destruct (keq k k0); auto.
Qed.

Lemma dget_Some_In : forall k v (d : list (K * V)), dget keq k d = Some v -> In (k, v) d.
Proof.
  intros k v d. induction d as [|[k' v'] r IH]; simpl; [discriminate|].
  destruct (keq k k') eqn:E.
  - intros [= ->]. apply keq_spec in E. subst. now left.
  - intro H. right. auto.
Qed.

Lemma dget_None_not_key : forall k (d : list (K * V)), dget keq k d = None -> ~ In k (dkeys d).
Proof.
  intros k d. induction d as [|[k' v'] r IH]; simpl; [tauto|].
  destruct (keq k k') eqn:E; [discriminate|].
  intros H [Hk|Hk]; [|now apply IH].
  subst k'. rewrite keq_refl in E. discriminate.
Qed.

Lemma dget_In_key : forall k (d : list (K * V)), In k (dkeys d) -> exists v, dget keq k d = Some v.
Proof.
  intros k d. induction d as [|[k' v'] r IH]; simpl; [tauto|].
  intros [Hk|Hk].
  - subst k'. rewrite keq_refl. eauto.
  - destruct (keq k k'); eauto.
Qed.

Lemma In_dget_NoDup : forall k v (d : list (K * V)),
  NoDup (dkeys d) -> In (k, v) d -> dget keq k d = Some v.
Proof.
  intros k v d. induction d as [|[k' v'] r IH]; simpl; [tauto|].
  intros Hnd [Hin|Hin].
  - injection Hin as -> ->. now rewrite keq_refl.
  - inversion Hnd as [|? ? Hnot Hnd']; subst.
    destruct (keq k k') eqn:E.
    + apply keq_spec in E. subst k'. exfalso. apply Hnot.
      change (In k (dkeys r)). unfold dkeys.
      change k with (fst (k, v)). now apply in_map.
    + auto.
Qed.

Lemma dkeys_dset : forall k v (d : list (K * V)),
  dkeys (dset keq k v d) = if dmem keq k d then dkeys d else dkeys d ++ [k].
Proof.
  intros k v d. unfold dmem. induction d as [|[k' v'] r IH]; simpl; auto.
  destruct (keq k k') eqn:E; simpl; auto.
  rewrite IH. destruct (dget keq k r); auto.
Qed.

End PyDictFacts.

Lemma option_nat_eqb_spec : forall a b, option_nat_eqb a b = true <-> a = b.
Proof.
  intros [x|] [y|]; simpl; split; intro H; try discriminate; auto.
  - apply Nat.eqb_eq in H. now subst.
  - injection H as ->. apply Nat.eqb_refl.
Qed.

Lemma innov_key_eqb_spec : forall a b, innov_key_eqb a b = true <-> a = b.
Proof.
  intros [[t1 i1] o1] [[t2 i2] o2]. unfold innov_key_eqb.
  rewrite !andb_true_iff, String.eqb_eq, Nat.eqb_eq, option_nat_eqb_spec.
  split.
  - intros [[-> ->] ->]. reflexivity.
  - intros [= -> -> ->]. auto.
Qed.

(* ------------------------------------------------------------------ *)
(** ** Claim C1: [create_innovation] and key reuse *)

(** C1, as stated, fails: on a fresh manager two calls with the identical key
    ("connection", 0, 1) and no explicit number return 1 and then 2, and the
    counter has advanced twice. *)
Lemma create_innovation_same_key_twice :
  fst (create_innovation "connection" 0 (Some 1) None new_manager) = 1
  /\ fst (create_innovation "connection" 0 (Some 1) None
            (snd (create_innovation "connection" 0 (Some 1) None new_manager))) = 2
  /\ next_innovation_number
       (snd (create_innovation "connection" 0 (Some 1) None
            (snd (create_innovation "connection" 0 (Some 1) None new_manager)))) = 3.
Proof. repeat split. Qed.

(** C1, amended: every call without an explicit number returns the current
    counter and advances it by one, whether or not the key was used before.
    Two successive such calls (same key or not) return consecutive, strictly
    increasing numbers, and the table then maps the key to the number
    returned last.  A call with an explicit number returns it verbatim and
    leaves the counter alone. *)
Theorem create_innovation_always_fresh :
  forall (m : InnovationManager) ty1 in1 out1 ty2 in2 out2,
    let r1 := create_innovation ty1 in1 out1 None m in
    let r2 := create_innovation ty2 in2 out2 None (snd r1) in
    fst r1 = next_innovation_number m
    /\ next_innovation_number (snd r1) = S (next_innovation_number m)
    /\ fst r2 = S (fst r1)
    /\ fst r1 < fst r2
    /\ next_innovation_number (snd r2) = next_innovation_number m + 2
    /\ get_innovation_number ty1 in1 out1 (snd r1) = Some (fst r1)
    /\ get_innovation_number ty2 in2 out2 (snd r2) = Some (fst r2)
    /\ (forall n,
          let r := create_innovation ty1 in1 out1 (Some n) m in
          fst r = n
          /\ next_innovation_number (snd r) = next_innovation_number m
          /\ get_innovation_number ty1 in1 out1 (snd r) = Some n).
Proof.
  intros m ty1 in1 out1 ty2 in2 out2. cbv zeta.
  unfold create_innovation, get_innovation_number; simpl.
  repeat split; try lia;
    apply (dget_dset_same innov_key_eqb innov_key_eqb_spec).
Qed.

(* ------------------------------------------------------------------ *)
(** * The state monad and the effect of the constructor on the manager *)

Lemma bind_eq : forall {A B} (c : M A) (k : A -> M B) w,
  bind c k w = k (fst (c w)) (snd (c w)).
Proof. intros A B c k w. unfold bind. destruct (c w). reflexivity. Qed.

Lemma randbelow_im : forall n w, w_im (snd (randbelow n w)) = w_im w.
Proof. intros n w. unfold randbelow. destruct (rand_ints (w_rng w)); reflexivity. Qed.

Lemma random_random_im : forall w, w_im (snd (random_random w)) = w_im w.
Proof. intros w. unfold random_random. destruct (rand_reals (w_rng w)); reflexivity. Qed.

Lemma random_uniform_im : forall a b w, w_im (snd (random_uniform a b w)) = w_im w.
Proof.
  intros a b w. unfold random_uniform. rewrite bind_eq. simpl.
  apply random_random_im.
Qed.

Lemma random_choice_im : forall {A} (d : A) l w, w_im (snd (random_choice d l w)) = w_im w.
Proof.
  intros A d l w. unfold random_choice. rewrite bind_eq. simpl.
  apply randbelow_im.
Qed.

Lemma im_create_innovation_im : forall ty a b w,
  w_im (snd (im_create_innovation ty a b w)) = snd (create_innovation ty a b None (w_im w)).
Proof. reflexivity. Qed.

Lemma im_create_innovation_val : forall ty a b w,
  fst (im_create_innovation ty a b w) = next_innovation_number (w_im w).
Proof. reflexivity. Qed.


Lemma register_genes_counter : forall count start m,
  next_innovation_number (register_genes start count m) = next_innovation_number m + count.
Proof.
  induction count as [|c IH]; intros start m; simpl.
  - lia.
  - rewrite IH. simpl. lia.
Qed.

Lemma register_genes_genome_counter : forall count start m,
  next_genome_id_counter (register_genes start count m) = next_genome_id_counter m.
Proof.
  induction count as [|c IH]; intros start m; simpl; auto.
  rewrite IH. reflexivity.
Qed.

Lemma register_genes_app : forall a b start m,
  register_genes start (a + b) m = register_genes (start + a) b (register_genes start a m).
Proof.
  induction a as [|a IH]; intros b start m; simpl.
  - now rewrite Nat.add_0_r.
  - rewrite IH. f_equal. lia.
Qed.

Lemma get_create_other : forall ty a b ty' a' b' m,
  (ty', a', b') <> (ty, a, b) ->
  get_innovation_number ty' a' b' (snd (create_innovation ty a b None m))
  = get_innovation_number ty' a' b' m.
Proof.
  intros. unfold get_innovation_number, create_innovation. simpl.
  now apply (dget_dset_other innov_key_eqb innov_key_eqb_spec).
Qed.

Lemma get_create_same : forall ty a b m,
  get_innovation_number ty a b (snd (create_innovation ty a b None m))
  = Some (next_innovation_number m).
Proof.
  intros. unfold get_innovation_number, create_innovation. simpl.
  apply (dget_dset_same innov_key_eqb innov_key_eqb_spec).
Qed.

Lemma register_genes_get_outside : forall count start m i,
  i < start \/ start + count <= i ->
  get_innovation_number "gene" i None (register_genes start count m)
  = get_innovation_number "gene" i None m.
Proof.
  induction count as [|c IH]; intros start m i Hi; cbn [register_genes]; auto.
  rewrite IH by lia. apply get_create_other.
  intros [= E]. lia.
Qed.

Lemma register_genes_get_inside : forall count start m i,
  start <= i < start + count ->
  get_innovation_number "gene" i None (register_genes start count m)
  = Some (next_innovation_number m + (i - start)).
Proof.
  induction count as [|c IH]; intros start m i Hi; cbn [register_genes]; [lia|].
  destruct (Nat.eq_dec i start) as [->|Hne].
  - rewrite register_genes_get_outside by lia.
    rewrite get_create_same. f_equal. lia.
  - rewrite IH by lia. cbn. f_equal. lia.
Qed.


Lemma init_input_node_body : node_body init_input_node.
Proof. intros g w. unfold init_input_node. rewrite bind_eq. simpl. auto. Qed.

Lemma init_hidden_node_body : node_body init_hidden_node.
Proof.
  intros g w. unfold init_hidden_node. rewrite !bind_eq. simpl.
  rewrite random_uniform_im, random_choice_im. auto.
Qed.

Lemma init_output_node_body : node_body init_output_node.
Proof.
  intros g w. unfold init_output_node. rewrite !bind_eq. simpl.
  rewrite random_uniform_im. auto.
Qed.

Lemma for_range_node_body : forall b, node_body b ->
  forall n g w,
    next_node_id (fst (for_range n b g w)) = next_node_id g + n
    /\ genome_id (fst (for_range n b g w)) = genome_id g
    /\ w_im (snd (for_range n b g w)) = register_genes (next_node_id g) n (w_im w).
Proof.
  intros b Hb. induction n as [|n IH]; intros g w; simpl.
  - repeat split; lia.
  - rewrite bind_eq. destruct (Hb g w) as (Hn & Hid & Him).
    destruct (IH (fst (b g w)) (snd (b g w))) as (Hn' & Hid' & Him').
    rewrite Hn', Hid', Him', Hn, Hid, Him. repeat split; lia.
Qed.


Lemma connections_registered_refl : forall m, connections_registered 0 m m.
Proof. intro m. repeat split; lia. Qed.

Lemma connections_registered_trans : forall a b m1 m2 m3,
  connections_registered a m1 m2 -> connections_registered b m2 m3 ->
  connections_registered (a + b) m1 m3.
Proof.
  intros a b m1 m2 m3 (H1 & H2 & H3) (H4 & H5 & H6). repeat split.
  - lia.
  - congruence.
  - intro i. now rewrite H6, H3.
Qed.

Lemma connections_registered_create : forall a b m,
  connections_registered 1 m (snd (create_innovation "connection" a (Some b) None m)).
Proof.
  intros a b m. repeat split.
  - simpl. lia.
  - intro i. apply get_create_other. discriminate.
Qed.

Lemma init_connection_spec : forall i g w,
  genome_id (fst (init_connection i g w)) = genome_id g
  /\ exists k, k <= 1
       /\ connections_registered k (w_im w) (w_im (snd (init_connection i g w))).
Proof.
  intros i g w. unfold init_connection. rewrite bind_eq.
  set (w1 := snd (random_choice 0 (dkeys (genes g)) w)).
  assert (Hw1 : w_im w1 = w_im w) by apply random_choice_im.
  set (out_node := fst (random_choice 0 (dkeys (genes g)) w)).
  assert (Hstay : genome_id g = genome_id g
                  /\ exists k, k <= 1 /\ connections_registered k (w_im w) (w_im w1)).
  { split; [reflexivity|]. exists 0. split; [lia|]. rewrite Hw1.
    apply connections_registered_refl. }
  destruct (dget Nat.eqb i (genes g)) as [gi|]; [|exact Hstay].
  destruct (dget Nat.eqb out_node (genes g)) as [go|]; [|exact Hstay].
  destruct (negb (is_type Output gi) && negb (is_type Input go) && negb (i =? out_node));
    [|exact Hstay].
  rewrite !bind_eq. unfold ret. cbn [fst snd]. split; [reflexivity|].
  exists 1. split; [lia|].
  rewrite random_uniform_im, im_create_innovation_im, Hw1.
  apply connections_registered_create.
Qed.

Lemma for_each_init_connection : forall xs g w,
  genome_id (fst (for_each xs init_connection g w)) = genome_id g
  /\ exists k, k <= length xs
       /\ connections_registered k (w_im w)
            (w_im (snd (for_each xs init_connection g w))).
Proof.
  induction xs as [|x xs IH]; intros g w; simpl.
  - split; [reflexivity|]. exists 0. split; [lia|]. apply connections_registered_refl.
  - rewrite bind_eq.
    destruct (init_connection_spec x g w) as (Hid & k1 & Hk1 & H1).
    destruct (IH (fst (init_connection x g w)) (snd (init_connection x g w)))
      as (Hid' & k2 & Hk2 & H2).
    split; [congruence|].
    exists (k1 + k2). split; [lia|].
    eapply connections_registered_trans; eassumption.
Qed.

(** The constructor: the genome id is the one passed, the genome-id counter
    is not touched, one gene innovation is registered per node (in id
    order, from the current counter on), and at most one connection
    innovation per input and hidden node. *)
Lemma genome_init_spec : forall gid num_inputs num_outputs initial_hidden_nodes w,
  let r := genome_init gid num_inputs num_outputs initial_hidden_nodes w in
  let nodes := num_inputs + initial_hidden_nodes + num_outputs in
  genome_id (fst r) = gid
  /\ next_genome_id_counter (w_im (snd r)) = next_genome_id_counter (w_im w)
  /\ (exists k, k <= num_inputs + initial_hidden_nodes
        /\ next_innovation_number (w_im (snd r))
           = next_innovation_number (w_im w) + nodes + k)
  /\ (forall i, i < nodes ->
        get_innovation_number "gene" i None (w_im (snd r))
        = Some (next_innovation_number (w_im w) + i)).
Proof.
  intros gid ni no nh w. cbv zeta. unfold genome_init. rewrite !bind_eq.
  set (g0 := mkGenome gid [] [] 0 None []).
  destruct (for_range_node_body _ init_input_node_body ni g0 w) as (N1 & I1 & M1).
  set (r1 := for_range ni init_input_node g0 w) in *.
  destruct (for_range_node_body _ init_hidden_node_body nh (fst r1) (snd r1))
    as (N2 & I2 & M2).
  set (r2 := for_range nh init_hidden_node (fst r1) (snd r1)) in *.
  destruct (for_range_node_body _ init_output_node_body no
              (set_output_nodes [] (fst r2)) (snd r2)) as (N3 & I3 & M3).
  set (r3 := for_range no init_output_node (set_output_nodes [] (fst r2)) (snd r2)) in *.
  destruct (for_each_init_connection (seq 0 (ni + nh)) (fst r3) (snd r3))
    as (I4 & k & Hk & (C1 & C2 & C3)).
  set (r4 := for_each (seq 0 (ni + nh)) init_connection (fst r3) (snd r3)) in *.
  rewrite length_seq in Hk. simpl in N1, I1, M1, N3, I3, M3.
  assert (M : w_im (snd r3) = register_genes 0 (ni + nh + no) (w_im w)).
  { rewrite M3, N2, N1, M2, N1, M1.
    rewrite (register_genes_app (ni + nh) no), (register_genes_app ni nh). reflexivity. }
  repeat split.
  - congruence.
  - rewrite C2, M. apply register_genes_genome_counter.
  - exists k. split; [exact Hk|]. rewrite C1, M, register_genes_counter. lia.
  - intros i Hi. rewrite C3, M, register_genes_get_inside by lia. f_equal. lia.
Qed.

(* ------------------------------------------------------------------ *)
(** * Genome ids and the side effect of [copy] (claims C5 and C9) *)

Lemma for_each_im_preserved : forall {A S} (body : A -> S -> M S),
  (forall x s w, w_im (snd (body x s w)) = w_im w) ->
  forall xs s w, w_im (snd (for_each xs body s w)) = w_im w.
Proof.
  intros A S body Hb. induction xs as [|x xs IH]; intros s w; simpl; auto.
  rewrite bind_eq, IH. apply Hb.
Qed.

Lemma crossover_gene_im : forall genes1 genes2 fit innovation child w,
  w_im (snd (crossover_gene genes1 genes2 fit innovation child w)) = w_im w.
Proof.
  intros. unfold crossover_gene.
  destruct (gene_with_innovation innovation genes1) as [[k1 g1]|];
    destruct (gene_with_innovation innovation genes2) as [[k2 g2]|];
    try (destruct fit; reflexivity).
  rewrite bind_eq.
  destruct (Qlt_bool _ _); unfold ret; cbn [snd]; apply random_random_im.
Qed.

Lemma crossover_connection_im : forall conns1 conns2 fit innovation child w,
  w_im (snd (crossover_connection conns1 conns2 fit innovation child w)) = w_im w.
Proof.
  intros. unfold crossover_connection.
  destruct (conn_with_innovation innovation conns1) as [c1|];
    destruct (conn_with_innovation innovation conns2) as [c2|];
    try (destruct fit; reflexivity).
  rewrite bind_eq.
  destruct (if Qlt_bool _ _ then c1 else c2) as [chosen weight].
  unfold ret; cbn [snd]; apply random_random_im.
Qed.

(** [crossover] advances the genome-id counter by two when both parents
    have a fitness, and leaves it alone when it raises. *)
Lemma crossover_genome_counter : forall parent1 parent2 w,
  next_genome_id_counter (w_im (snd (crossover parent1 parent2 w)))
  = next_genome_id_counter (w_im w)
    + match fitness parent1, fitness parent2 with
      | Some _, Some _ => 2
      | _, _ => 0
      end.
Proof.
  intros p1 p2 w. unfold crossover.
  destruct (fitness p1) as [f1|]; [|simpl; lia].
  destruct (fitness p2) as [f2|]; [|simpl; lia].
  rewrite !bind_eq. unfold ret. cbn [snd].
  rewrite (for_each_im_preserved _ (crossover_connection_im _ _ _)).
  rewrite (for_each_im_preserved _ (crossover_gene_im _ _ _)).
  cbn [im_increment_genome_id snd w_im increment_genome_id next_genome_id_counter].
  match goal with
  | |- context [genome_init ?a ?b ?c ?d ?w0] =>
      destruct (genome_init_spec a b c d w0) as (_ & Hc & _)
  end.
  rewrite Hc. simpl. lia.
Qed.

(** C5 (the code departs from the claim): building a genome takes two ids
    from the genome-id counter, not one.  The new genome gets the current
    counter value, [next_genome_id] advances the counter, and the caller then
    calls [increment_genome_id], which advances it again; both construction
    paths, [create_initial_genome_population] and [crossover], do so. *)
Theorem genome_construction_advances_counter_twice :
  forall num_inputs num_outputs initial_hidden_nodes parent1 parent2 f1 f2 w,
    let r := create_initial_genome_population num_inputs num_outputs initial_hidden_nodes w in
    let p1 := set_fitness (Some f1) parent1 in
    let p2 := set_fitness (Some f2) parent2 in
    genome_id (fst r) = next_genome_id_counter (w_im w)
    /\ next_genome_id_counter (w_im (snd r)) = next_genome_id_counter (w_im w) + 2
    /\ next_genome_id_counter (w_im (snd (crossover p1 p2 w)))
       = next_genome_id_counter (w_im w) + 2.
Proof.
  intros ni no nh parent1 parent2 f1 f2 w. cbv zeta.
  split; [|split].
  - unfold create_initial_genome_population. rewrite !bind_eq. unfold ret. cbn [fst].
    match goal with
    | |- context [genome_init ?a ?b ?c ?d ?w0] =>
        destruct (genome_init_spec a b c d w0) as (Hid & _)
    end.
    rewrite Hid. reflexivity.
  - unfold create_initial_genome_population. rewrite !bind_eq. unfold ret. cbn [snd].
    cbn [im_increment_genome_id snd w_im increment_genome_id next_genome_id_counter].
    match goal with
    | |- context [genome_init ?a ?b ?c ?d ?w0] =>
        destruct (genome_init_spec a b c d w0) as (_ & Hc & _)
    end.
    rewrite Hc. simpl. lia.
  - rewrite crossover_genome_counter. reflexivity.
Qed.

(** C5 at a concrete input: on a fresh manager one construction leaves the
    counter at 2, and the second genome built gets id 2. *)
Example two_genomes_get_ids_0_and_2 :
  let w0 := mkWorld (mkRng [] []) new_manager in
  let r1 := create_initial_genome_population 1 1 0 w0 in
  let r2 := create_initial_genome_population 1 1 0 (snd r1) in
  genome_id (fst r1) = 0
  /\ next_genome_id_counter (w_im (snd r1)) = 2
  /\ genome_id (fst r2) = 2
  /\ next_genome_id_counter (w_im (snd r2)) = 4.
Proof. vm_compute. repeat split. Qed.

(** C9: [copy] returns a genome with the attributes of [g] (as values: all
    six are equal), and it runs the constructor on the shared manager first.
    That registers one fresh gene innovation per input node and per output
    node, under the keys ("gene", 0), ("gene", 1), ..., and at most one
    connection innovation per input node, so the innovation counter advances
    by at least [get_num_inputs g + get_num_outputs g].  The genome-id
    counter is left alone. *)
Theorem copy_registers_innovations : forall g w,
  let r := copy g w in
  let n := get_num_inputs g + get_num_outputs g in
  fst r = g
  /\ next_genome_id_counter (w_im (snd r)) = next_genome_id_counter (w_im w)
  /\ (exists k, k <= get_num_inputs g
        /\ next_innovation_number (w_im (snd r))
           = next_innovation_number (w_im w) + n + k)
  /\ (forall i, i < n ->
        get_innovation_number "gene" i None (w_im (snd r))
        = Some (next_innovation_number (w_im w) + i)).
Proof.
  intros g w. cbv zeta. unfold copy. rewrite bind_eq. unfold ret. cbn [fst snd].
  destruct (genome_init_spec (genome_id g) (get_num_inputs g) (get_num_outputs g) 0 w)
    as (Hid & Hc & (k & Hk & Hn) & Hget).
  cbv zeta in Hid, Hc, Hn, Hget.
  rewrite Nat.add_0_r in *.
  repeat split.
  - destruct g as [gid gs cs nn f outs]. unfold set_output_nodes, set_fitness,
      set_next_node_id, set_connections, set_genes. cbn. cbn in Hid. now rewrite Hid.
  - exact Hc.
  - exists k. split; [exact Hk|exact Hn].
  - exact Hget.
Qed.

(** C9 at the chain genome: the copy equals the genome, and the key
    ("gene", 0) is registered anew, under the counter value at the call. *)
Lemma copy_registers_innovations_chain :
  fst (copy chain_genome (chain_world [])) = chain_genome
  /\ 0 < get_num_inputs chain_genome + get_num_outputs chain_genome
  /\ get_innovation_number "gene" 0 None (w_im (snd (copy chain_genome (chain_world []))))
     = Some (next_innovation_number (w_im (chain_world [])) + 0).
Proof.
  assert (H : 0 < get_num_inputs chain_genome + get_num_outputs chain_genome)
    by (vm_compute; lia).
  pose proof (copy_registers_innovations chain_genome (chain_world [])) as (P1 & _ & _ & P4).
  split; [exact P1|]. split; [exact H|]. exact (P4 0 H).
Defined.

(* ------------------------------------------------------------------ *)
(** * The structural mutations (claims C2 and C6) *)

Lemma conn_key_eqb_spec : forall a b, conn_key_eqb a b = true <-> a = b.
Proof.
  intros [[i1 o1] n1] [[i2 o2] n2]. unfold conn_key_eqb.
  rewrite !andb_true_iff, !Nat.eqb_eq. split.
  - intros [[-> ->] ->]. reflexivity.
  - intros [= -> -> ->]. auto.
Qed.

Lemma randbelow_lt : forall n w, 0 < n -> fst (randbelow n w) < n.
Proof.
  intros n w Hn. unfold randbelow.
  destruct (rand_ints (w_rng w)) as [|r t]; cbn [fst]; [exact Hn|].
  apply Nat.mod_upper_bound. lia.
Qed.

Lemma random_choice_In : forall {A} (d : A) l w,
  l <> [] -> In (fst (random_choice d l w)) l.
Proof.
  intros A d l w Hl. unfold random_choice. rewrite bind_eq. unfold ret. cbn [fst].
  apply nth_In. apply randbelow_lt. destruct l; [congruence|simpl; lia].
Qed.

Lemma dmem_dset_same : forall k v (d : list (ConnKey * Q)),
  dmem conn_key_eqb k (dset conn_key_eqb k v d) = true.
Proof.
  intros. unfold dmem. now rewrite (dget_dset_same conn_key_eqb conn_key_eqb_spec).
Qed.

Lemma dmem_dset_mono : forall k k' v (d : list (ConnKey * Q)),
  dmem conn_key_eqb k d = true -> dmem conn_key_eqb k (dset conn_key_eqb k' v d) = true.
Proof.
  intros k k' v d H. unfold dmem in *.
  destruct (conn_key_eqb k k') eqn:E.
  - apply conn_key_eqb_spec in E. subst.
    now rewrite (dget_dset_same conn_key_eqb conn_key_eqb_spec).
  - rewrite (dget_dset_other conn_key_eqb conn_key_eqb_spec); [exact H|].
    intro Heq. subst. rewrite (keq_refl conn_key_eqb conn_key_eqb_spec) in E. discriminate.
Qed.

(** [add_connection] touches the connections only, and afterwards the key
    is bound (newly or as before). *)
Lemma add_connection_spec : forall i o wt n g w,
  let g' := snd (fst (add_connection i o wt n g w)) in
  genes g' = genes g
  /\ next_node_id g' = next_node_id g
  /\ dmem conn_key_eqb (i, o, n) (connections g') = true
  /\ (forall k, dmem conn_key_eqb k (connections g) = true ->
                dmem conn_key_eqb k (connections g') = true).
Proof.
  intros i o wt n g w. cbv zeta. unfold add_connection.
  destruct (dmem conn_key_eqb (i, o, n) (connections g)) eqn:E.
  - unfold ret. cbn [fst snd]. auto.
  - rewrite bind_eq. unfold ret. cbn [fst snd set_connections genes next_node_id connections].
    repeat split.
    + apply dmem_dset_same.
    + intros k Hk. now apply dmem_dset_mono.
Qed.

Lemma add_connection_im : forall i o wt n g w,
  w_im (snd (add_connection i o wt n g w)) = w_im w.
Proof.
  intros i o wt n g w. unfold add_connection.
  destruct (dmem conn_key_eqb (i, o, n) (connections g)); [reflexivity|].
  rewrite bind_eq. unfold ret. cbn [snd].
  destruct wt; [reflexivity|apply random_uniform_im].
Qed.

Lemma add_node_im : forall t a n g w, w_im (snd (add_node t a n g w)) = w_im w.
Proof.
  intros t a n g w. unfold add_node. rewrite bind_eq. unfold ret. cbn [snd].
  destruct t; try apply random_uniform_im; reflexivity.
Qed.

(** [add_node] stores the gene under the current [next_node_id]. *)
Lemma add_node_spec : forall t a n g w,
  let g' := snd (fst (add_node t a n g w)) in
  next_node_id g' = S (next_node_id g)
  /\ connections g' = connections g
  /\ (exists gi, dget Nat.eqb (next_node_id g) (genes g') = Some gi
                 /\ gi_type gi = t /\ gi_innovation gi = n)
  /\ (forall k, k <> next_node_id g -> dget Nat.eqb k (genes g') = dget Nat.eqb k (genes g)).
Proof.
  intros t a n g w. cbv zeta. unfold add_node. rewrite bind_eq. unfold ret.
  cbn [fst snd set_next_node_id set_genes genes next_node_id connections].
  repeat split.
  - eexists. split; [apply (dget_dset_same Nat.eqb Nat.eqb_eq)|]. split; reflexivity.
  - intros k Hk. now apply (dget_dset_other Nat.eqb Nat.eqb_eq).
Qed.

(** C6 (the code departs from the claim): [mutate_add_node] reserves the id
    [next_node_id] for the new node and advances the counter, and [add_node]
    then stores the hidden gene under the *next* id.  So the two replacement
    connections run through the id [new_node_id = next_node_id g], whose
    entry in [genes] is whatever it was before (none, for a fresh id), while
    the new hidden gene sits under [new_node_id + 1] with no connection, and
    the counter has advanced by two. *)
Theorem mutate_add_node_new_gene_off_by_one : forall g w,
  connections g <> [] ->
  let g' := fst (mutate_add_node g w) in
  let new_node_id := next_node_id g in
  let innov := next_innovation_number (w_im w) in
  next_node_id g' = new_node_id + 2
  /\ (exists gi, dget Nat.eqb (S new_node_id) (genes g') = Some gi
                 /\ gi_type gi = Hidden /\ gi_innovation gi = innov)
  /\ dget Nat.eqb new_node_id (genes g') = dget Nat.eqb new_node_id (genes g)
  /\ (exists a b n, In (a, b, n) (dkeys (connections g))
        /\ dmem conn_key_eqb (a, new_node_id, innov + 1) (connections g') = true
        /\ dmem conn_key_eqb (new_node_id, b, innov + 2) (connections g') = true).
Proof.
  intros g w Hne. cbv zeta. unfold mutate_add_node.
  destruct (connections g) as [|[k0 wt0] cs] eqn:Ec; [congruence|].
  rewrite bind_eq.
  assert (Hin : In (fst (random_choice k0 (dkeys ((k0, wt0) :: cs)) w))
                   (dkeys ((k0, wt0) :: cs))) by (apply random_choice_In; discriminate).
  assert (Hw1 : w_im (snd (random_choice k0 (dkeys ((k0, wt0) :: cs)) w)) = w_im w)
    by apply random_choice_im.
  set (chosen := fst (random_choice k0 (dkeys ((k0, wt0) :: cs)) w)) in *.
  set (w1 := snd (random_choice k0 (dkeys ((k0, wt0) :: cs)) w)) in *.
  destruct (dget_In_key conn_key_eqb conn_key_eqb_spec _ _ Hin) as [weight Hwt].
  rewrite Hwt. clearbody chosen w1. destruct chosen as [[a b] n].
  cbv beta iota zeta. repeat (rewrite bind_eq; cbv beta iota zeta).
  unfold ret. cbn [fst snd].
  replace (next_node_id (set_connections
             (ddel conn_key_eqb (a, b, n) ((k0, wt0) :: cs)) g))
    with (next_node_id g) by reflexivity.
  set (g1 := set_next_node_id (S (next_node_id g))
               (set_connections (ddel conn_key_eqb (a, b, n) ((k0, wt0) :: cs)) g)).
  set (wA := snd (im_create_innovation "gene" (next_node_id g) None w1)).
  set (iA := fst (im_create_innovation "gene" (next_node_id g) None w1)).
  assert (HiA : iA = next_innovation_number (w_im w)).
  { unfold iA. rewrite im_create_innovation_val. now rewrite Hw1. }
  assert (HwA : next_innovation_number (w_im wA) = S (next_innovation_number (w_im w))).
  { unfold wA. rewrite im_create_innovation_im. simpl. now rewrite Hw1. }
  set (wB := snd (random_choice Relu [Relu; Sigmoid; Tanh] wA)).
  assert (HwB : w_im wB = w_im wA) by apply random_choice_im.
  set (act := fst (random_choice Relu [Relu; Sigmoid; Tanh] wA)).
  destruct (add_node_spec Hidden act iA g1 wB) as (N2 & C2 & (gi & G2 & T2 & I2) & O2).
  set (rN := add_node Hidden act iA g1 wB) in *.
  assert (HwC : w_im (snd rN) = w_im wB) by apply add_node_im.
  set (wD := snd (im_create_innovation "connection" a (Some (next_node_id g)) (snd rN))).
  set (iD := fst (im_create_innovation "connection" a (Some (next_node_id g)) (snd rN))).
  assert (HiD : iD = next_innovation_number (w_im w) + 1).
  { unfold iD. rewrite im_create_innovation_val, HwC, HwB, HwA. lia. }
  assert (HwD : next_innovation_number (w_im wD) = next_innovation_number (w_im w) + 2).
  { unfold wD. rewrite im_create_innovation_im. simpl. rewrite HwC, HwB, HwA. lia. }
  destruct (add_connection_spec a (next_node_id g) (Some 1%Q) iD (snd (fst rN)) wD)
    as (G3 & N3 & M3 & K3).
  set (rC := add_connection a (next_node_id g) (Some 1%Q) iD (snd (fst rN)) wD) in *.
  assert (HwE : w_im (snd rC) = w_im wD) by apply add_connection_im.
  set (wF := snd (im_create_innovation "connection" (next_node_id g) (Some b) (snd rC))).
  set (iF := fst (im_create_innovation "connection" (next_node_id g) (Some b) (snd rC))).
  assert (HiF : iF = next_innovation_number (w_im w) + 2).
  { unfold iF. rewrite im_create_innovation_val, HwE, HwD. lia. }
  destruct (add_connection_spec (next_node_id g) b (Some weight) iF (snd (fst rC)) wF)
    as (G4 & N4 & M4 & K4).
  set (rF := add_connection (next_node_id g) b (Some weight) iF (snd (fst rC)) wF) in *.
  unfold g1 in N2, G2, O2. cbn [next_node_id set_next_node_id set_connections genes] in N2, G2, O2.
  split; [|split; [|split]].
  - rewrite N4, N3, N2. lia.
  - exists gi. rewrite G4, G3. rewrite <- HiA. auto.
  - rewrite G4, G3. rewrite O2 by lia. reflexivity.
  - exists a, b, n. split; [exact Hin|]. split.
    + apply K4. rewrite <- HiD. exact M3.
    + rewrite <- HiF. exact M4.
Qed.

(** The theorem applies to the chain genome the constructor returns; there
    the connection 1 -> 2 (weight 2) is split. *)
Lemma mutate_add_node_new_gene_off_by_one_chain :
  connections chain_genome <> []
  /\ next_node_id (fst (mutate_add_node chain_genome (chain_world [1; 0]))) = 4 + 2.
Proof.
  assert (H : connections chain_genome <> []) by (vm_compute; discriminate).
  split; [exact H|].
  exact (proj1 (mutate_add_node_new_gene_off_by_one chain_genome (chain_world [1; 0]) H)).
Defined.

(** C6 at that input, in full: the connection (1, 2) of weight 2 is replaced
    by (1, 4) of weight 1 and (4, 2) of weight 2, but no gene has id 4; the
    new hidden gene has id 5 and no connection. *)
Example mutate_add_node_on_chain :
  let g' := fst (mutate_add_node chain_genome (chain_world [1; 0])) in
  dkeys (connections chain_genome) = [(0, 1, 5); (1, 2, 6); (2, 3, 7)]
  /\ next_node_id chain_genome = 4
  /\ dkeys (connections g') = [(0, 1, 5); (2, 3, 7); (1, 4, 9); (4, 2, 10)]
  /\ dget conn_key_eqb (1, 4, 9) (connections g') = Some 1%Q
  /\ dget conn_key_eqb (4, 2, 10) (connections g')
     = dget conn_key_eqb (1, 2, 6) (connections chain_genome)
  /\ dkeys (genes g') = [0; 1; 2; 3; 5]
  /\ dget Nat.eqb 4 (genes g') = None
  /\ option_map gi_type (dget Nat.eqb 5 (genes g')) = Some Hidden
  /\ is_orphan (connections g') 5 = true
  /\ next_node_id g' = 6.
Proof. vm_compute. repeat split. Qed.

(** C2 (the code departs from the claim).  The chain genome satisfies both
    properties.  Removing the hidden node 2 with [mutate_eliminate_node]
    leaves the hidden node 1 without an outgoing connection, and the two
    pruning passes do not repair it (they even delete the output node 3).
    Splitting a connection with [mutate_add_node] adds the connection
    (4, 2), whose source id exceeds its target id, and leaves the new hidden
    node 5 unconnected; pruning removes node 5 and keeps the connection. *)
Theorem mutations_break_structure :
  let prune := fun g w =>
    fst (prune_disconnected_inputs (prune_orphan_nodes g) w) in
  let removed :=
    mutate_eliminate_node chain_genome (chain_world [0]) in
  let split :=
    mutate_add_node chain_genome (chain_world [1; 0]) in
  hidden_bridged chain_genome = true
  /\ feed_forward chain_genome = true
  /\ hidden_bridged (fst removed) = false
  /\ hidden_bridged (prune (fst removed) (snd removed)) = false
  /\ dkeys (genes (prune (fst removed) (snd removed))) = [0; 1]
  /\ dkeys (connections (prune (fst removed) (snd removed))) = [(0, 1, 5)]
  /\ hidden_bridged (fst split) = false
  /\ feed_forward (fst split) = false
  /\ feed_forward (prune (fst split) (snd split)) = false
  /\ dkeys (connections (prune (fst split) (snd split)))
     = [(0, 1, 5); (2, 3, 7); (1, 4, 9); (4, 2, 10)].
Proof. vm_compute. repeat split. Qed.

(* ------------------------------------------------------------------ *)
(** * The compatibility distance (claim C3) *)

(** C3 (the code departs from the claim): the loop over the connection
    innovations adds [|w1 - w2|] of every matching pair to
    [total_weight_diff], but the value returned is computed from
    [weight_diff], which is still 0.  So the distance is
    [c1 * excess / N + c2 * disjoint / N] whatever the weights are.  For the
    two twin genomes (one matching connection, weights 0 and 1, N = 2) the
    accumulated difference is 1 and the claimed distance is 1/2; the code
    returns 0. *)
Theorem compatibility_distance_drops_weight_term :
  (forall representative_genome genome c1 c2 c3,
     let c := distance_counters (genes representative_genome) (genes genome)
                (connections representative_genome) (connections genome) in
     let N := Qnat (distance_N (genes representative_genome) (genes genome)
                      (connections representative_genome) (connections genome)) in
     calculate_compatibility_distance representative_genome genome c1 c2 c3
     == c1 * Qnat (excess c) / N + c2 * Qnat (disjoint c) / N)
  /\ (let a := twin_genome 0 0 in
      let b := twin_genome 1 1 in
      let c := distance_counters (genes a) (genes b) (connections a) (connections b) in
      let N := Qnat (distance_N (genes a) (genes b) (connections a) (connections b)) in
      excess c = 0 /\ disjoint c = 0 /\ matching_connections c = 1
      /\ total_weight_diff c == 1
      /\ N == 2
      /\ 1 * Qnat (excess c) / N + 1 * Qnat (disjoint c) / N + 1 * total_weight_diff c / N
         == 1 # 2
      /\ calculate_compatibility_distance a b 1 1 1 == 0).
Proof.
  split.
  - intros rep g c1 c2 c3. cbv zeta. unfold calculate_compatibility_distance.
    cbv zeta. unfold Qdiv. ring.
  - vm_compute. repeat split.
Qed.

(* ------------------------------------------------------------------ *)
(** * [activate] (claims C7 and C10) *)

(** [prune_orphan_nodes] deletes from [genes] only. *)
Lemma prune_fold_output_nodes : forall orphans g,
  output_nodes
    (fold_left
       (fun g orphan =>
          set_connections
            (filter (fun e => negb (Nat.eqb (conn_in (fst e)) orphan)
                              && negb (Nat.eqb (conn_out (fst e)) orphan))
                    (connections g))
            (set_genes (ddel Nat.eqb orphan (genes g)) g))
       orphans g)
  = output_nodes g.
Proof.
  induction orphans as [|o r IH]; intro g; simpl; auto.
  rewrite IH. reflexivity.
Qed.

Lemma prune_fold_genes : forall orphans g id,
  In id orphans \/ dget Nat.eqb id (genes g) = None ->
  dget Nat.eqb id
    (genes
       (fold_left
          (fun g orphan =>
             set_connections
               (filter (fun e => negb (Nat.eqb (conn_in (fst e)) orphan)
                                 && negb (Nat.eqb (conn_out (fst e)) orphan))
                       (connections g))
               (set_genes (ddel Nat.eqb orphan (genes g)) g))
          orphans g))
  = None.
Proof.
  induction orphans as [|o r IH]; intros g id H; simpl.
  - destruct H as [[]|H]. exact H.
  - apply IH. cbn [genes set_connections set_genes].
    destruct (Nat.eq_dec id o) as [->|Hne].
    + right. apply (dget_ddel_same Nat.eqb).
    + destruct H as [[Ho|Hr]|Hn].
      * congruence.
      * now left.
      * right. rewrite (dget_ddel_other Nat.eqb Nat.eqb_eq) by exact Hne. exact Hn.
Qed.

Lemma prune_orphan_nodes_removes : forall g id,
  is_orphan (connections g) id = true ->
  output_nodes (prune_orphan_nodes g) = output_nodes g
  /\ dget Nat.eqb id (genes (prune_orphan_nodes g)) = None.
Proof.
  intros g id Ho. unfold prune_orphan_nodes. split.
  - apply prune_fold_output_nodes.
  - apply prune_fold_genes.
    destruct (dget Nat.eqb id (genes g)) as [gi|] eqn:E; [left|now right].
    apply filter_In. split; [|exact Ho].
    apply (dget_Some_In Nat.eqb Nat.eqb_eq) in E.
    unfold dkeys. change id with (fst (id, gi)). now apply in_map.
Qed.

(** The indices of the input genes when they lead the dictionary. *)
Lemma input_indices_bound : forall gs start e,
  inputs_lead gs = true ->
  In e (filter (fun e => is_type Input (snd (snd e)))
               (combine (seq start (length gs)) gs)) ->
  fst e < start + length (filter (fun e => is_type Input (snd e)) gs).
Proof.
  induction gs as [|[k gi] r IH]; intros start e Hl Hin; simpl in *; [tauto|].
  destruct (is_type Input gi) eqn:Et; simpl in *.
  - destruct Hin as [<-|Hin]; simpl; [lia|].
    specialize (IH (S start) e Hl Hin). lia.
  - exfalso. clear IH. revert start Hin.
    induction r as [|[k' gi'] r IHr]; intros start Hin; simpl in *; [tauto|].
    apply andb_true_iff in Hl. destruct Hl as [Hh Hr].
    destruct (is_type Input gi'); simpl in *; [discriminate|].
    eapply IHr; eauto.
Qed.

Lemma set_input_values_cases : forall m inputs nv,
  (exists nv', set_input_values m inputs nv = Ok nv')
  \/ set_input_values m inputs nv = IndexError.
Proof.
  induction m as [|[k i] r IH]; intros inputs nv; simpl.
  - left. eauto.
  - destruct (nth_error inputs i); [apply IH|now right].
Qed.

Lemma set_input_values_ok : forall m inputs nv,
  (forall e, In e m -> snd e < length inputs) ->
  exists nv', set_input_values m inputs nv = Ok nv'.
Proof.
  induction m as [|[k i] r IH]; intros inputs nv H; simpl.
  - eauto.
  - destruct (nth_error inputs i) eqn:E.
    + apply IH. intros e He. apply H. now right.
    + apply nth_error_None in E. specialize (H (k, i) (or_introl eq_refl)).
      simpl in H. lia.
Qed.

Lemma set_input_values_absent : forall m inputs nv nv' k,
  set_input_values m inputs nv = Ok nv' ->
  ~ In k (map fst m) -> dget Nat.eqb k nv = None -> dget Nat.eqb k nv' = None.
Proof.
  induction m as [|[k0 i] r IH]; intros inputs nv nv' k H Hk Hn; simpl in *.
  - injection H as <-. exact Hn.
  - destruct (nth_error inputs i) as [v|]; [|discriminate].
    eapply IH; eauto.
    rewrite (dget_dset_other Nat.eqb Nat.eqb_eq); [exact Hn|]. intuition.
Qed.

Lemma input_index_map_keys : forall g k,
  In k (map fst (input_index_map g)) -> In k (dkeys (genes g)).
Proof.
  intros g k H. unfold input_index_map in H. rewrite map_map in H. simpl in H.
  apply in_map_iff in H. destruct H as ([i [k' gi]] & <- & Hin).
  apply filter_In in Hin. destruct Hin as [Hin _].
  apply in_combine_r in Hin. simpl. unfold dkeys.
  change k' with (fst (k', gi)). now apply in_map.
Qed.

Section ActivateFacts.
Variables torch_exp torch_tanh : Q -> Q.

Lemma activate_node_absent : forall g nv n k,
  dget Nat.eqb k (genes g) = None ->
  dget Nat.eqb k nv = None ->
  dget Nat.eqb k (activate_node torch_exp torch_tanh g nv n) = None.
Proof.
  intros g nv n k Hg Hn. unfold activate_node.
  destruct (dget Nat.eqb n (genes g)) as [gi|] eqn:E; [|exact Hn].
  destruct (is_type Input gi); [exact Hn|].
  rewrite (dget_dset_other Nat.eqb Nat.eqb_eq); [exact Hn|].
  intros ->. congruence.
Qed.

Lemma fold_activate_node_absent : forall g l nv k,
  dget Nat.eqb k (genes g) = None ->
  dget Nat.eqb k nv = None ->
  dget Nat.eqb k (fold_left (activate_node torch_exp torch_tanh g) l nv) = None.
Proof.
  intros g. induction l as [|n r IH]; intros nv k Hg Hn; simpl; auto.
  apply IH; auto. now apply activate_node_absent.
Qed.





Lemma activate_ValueError_iff : forall g inputs,
  activate torch_exp torch_tanh g inputs = ValueError
  <-> length inputs <> get_num_inputs g.
Proof.
  intros g inputs. unfold activate.
  destruct (Nat.eqb (length inputs) (get_num_inputs g)) eqn:E; simpl.
  - apply Nat.eqb_eq in E. split; [|contradiction].
    destruct (set_input_values_cases (input_index_map g) inputs []) as [[nv' ->]| ->];
      discriminate.
  - apply Nat.eqb_neq in E. tauto.
Qed.

Lemma activate_returns : forall g inputs,
  length inputs = get_num_inputs g ->
  inputs_lead (genes g) = true ->
  exists nv,
    set_input_values (input_index_map g) inputs [] = Ok nv
    /\ activate torch_exp torch_tanh g inputs
       = Ok (map (fun node_id =>
                    match dget Nat.eqb node_id
                            (fold_left (activate_node torch_exp torch_tanh g)
                                       (NatSort.sort (dkeys (genes g))) nv) with
                    | Some v => v
                    | None => 0%Q
                    end)
                 (output_nodes g)).
Proof.
  intros g inputs Hlen Hlead. unfold activate.
  rewrite Hlen, Nat.eqb_refl. simpl.
  destruct (set_input_values_ok (input_index_map g) inputs []) as [nv Hnv].
  { intros e He. unfold input_index_map in He. apply in_map_iff in He.
    destruct He as (x & <- & Hx). simpl.
    pose proof (input_indices_bound (genes g) 0 x Hlead Hx) as Hb.
    unfold get_num_inputs in Hlen. lia. }
  exists nv. rewrite Hnv. auto.
Qed.

Lemma activate_inv : forall g inputs vs,
  activate torch_exp torch_tanh g inputs = Ok vs ->
  exists nv,
    set_input_values (input_index_map g) inputs [] = Ok nv
    /\ vs = map (fun node_id =>
                   match dget Nat.eqb node_id
                           (fold_left (activate_node torch_exp torch_tanh g)
                                      (NatSort.sort (dkeys (genes g))) nv) with
                   | Some v => v
                   | None => 0%Q
                   end)
                (output_nodes g).
Proof.
  intros g inputs vs. unfold activate.
  destruct (negb (Nat.eqb (length inputs) (get_num_inputs g))); [discriminate|].
  destruct (set_input_values (input_index_map g) inputs []) as [nv| | |];
    try discriminate.
  intros [= <-]. eauto.
Qed.

Lemma activate_missing_output : forall g inputs vs j id,
  activate torch_exp torch_tanh g inputs = Ok vs ->
  nth_error (output_nodes g) j = Some id ->
  dget Nat.eqb id (genes g) = None ->
  nth_error vs j = Some 0%Q.
Proof.
  intros g inputs vs j id H Hj Hg.
  destruct (activate_inv g inputs vs H) as (nv & Hnv & ->).
  rewrite nth_error_map, Hj. simpl.
  rewrite fold_activate_node_absent; auto.
  eapply set_input_values_absent; eauto.
  intro Hin. apply input_index_map_keys in Hin.
  now apply (dget_None_not_key Nat.eqb Nat.eqb_eq) in Hg.
Qed.



(** C10: whenever [activate] returns, the list has one entry per element of
    [output_nodes], and the entry of an id that is no key of [genes] is 0;
    it does return when the inputs fit and the input genes lead the
    dictionary.  [prune_orphan_nodes] produces such ids: it deletes an
    isolated node from [genes] and leaves [output_nodes] as it was. *)
Theorem activate_length_with_missing_outputs : forall g inputs,
  (length inputs = get_num_inputs g -> inputs_lead (genes g) = true ->
   exists vs, activate torch_exp torch_tanh g inputs = Ok vs)
  /\ (forall vs,
        activate torch_exp torch_tanh g inputs = Ok vs ->
        length vs = length (output_nodes g)
        /\ forall j id,
             nth_error (output_nodes g) j = Some id ->
             dget Nat.eqb id (genes g) = None ->
             nth_error vs j = Some 0%Q)
  /\ (forall id,
        is_orphan (connections g) id = true ->
        output_nodes (prune_orphan_nodes g) = output_nodes g
        /\ dget Nat.eqb id (genes (prune_orphan_nodes g)) = None).
Proof.
  intros g inputs. split; [|split].
  - intros Hlen Hlead.
    destruct (activate_returns g inputs Hlen Hlead) as (nv & _ & Hact). eauto.
  - intros vs H. split.
    + destruct (activate_inv g inputs vs H) as (nv & _ & ->). apply length_map.
    + intros j id Hj Hg. eapply activate_missing_output; eauto.
  - intros id Ho. now apply prune_orphan_nodes_removes.
Qed.

End ActivateFacts.



(** C10 at the chain genome: after [mutate_eliminate_node] removed the
    hidden node 2, the output node 3 is isolated; [prune_orphan_nodes]
    deletes it from [genes] and keeps it in [output_nodes], and [activate]
    on the result, [pruned_chain], returns one entry, 0. *)
Lemma activate_length_with_missing_outputs_pruned :
  let removed := fst (mutate_eliminate_node chain_genome (chain_world [0])) in
  is_orphan (connections removed) 3 = true
  /\ output_nodes (prune_orphan_nodes removed) = output_nodes removed
  /\ dget Nat.eqb 3 (genes pruned_chain) = None
  /\ length [3%Q] = get_num_inputs pruned_chain
  /\ inputs_lead (genes pruned_chain) = true
  /\ (exists vs, activate torch_not_called torch_not_called pruned_chain [3%Q] = Ok vs)
  /\ activate torch_not_called torch_not_called pruned_chain [3%Q] = Ok [0%Q]
  /\ length [0%Q] = length (output_nodes pruned_chain)
  /\ nth_error [0%Q] 0 = Some 0%Q.
Proof.
  cbv zeta.
  assert (Ho : is_orphan
                 (connections (fst (mutate_eliminate_node chain_genome (chain_world [0]))))
                 3 = true) by (vm_compute; reflexivity).
  assert (Hlen : length [3%Q] = get_num_inputs pruned_chain) by reflexivity.
  assert (Hlead : inputs_lead (genes pruned_chain) = true) by reflexivity.
  assert (H : activate torch_not_called torch_not_called pruned_chain [3%Q] = Ok [0%Q])
    by (vm_compute; reflexivity).
  assert (Hj : nth_error (output_nodes pruned_chain) 0 = Some 3) by reflexivity.
  assert (Hg : dget Nat.eqb 3 (genes pruned_chain) = None) by reflexivity.
  pose proof (activate_length_with_missing_outputs torch_not_called torch_not_called
                (fst (mutate_eliminate_node chain_genome (chain_world [0]))) [3%Q])
    as (_ & _ & P3).
  pose proof (activate_length_with_missing_outputs torch_not_called torch_not_called
                pruned_chain [3%Q]) as (P1 & P2 & _).
  destruct (P3 3 Ho) as (Hout & Hgone).
  destruct (P2 [0%Q] H) as (Hl & Hz).
  split; [exact Ho|]. split; [exact Hout|]. split; [exact Hgone|].
  split; [exact Hlen|]. split; [exact Hlead|].
  split; [exact (P1 Hlen Hlead)|]. split; [exact H|]. split; [exact Hl|].
  exact (Hz 0 3 Hj Hg).
Defined.

(* ------------------------------------------------------------------ *)
(** * [crossover] (claim C4) *)

Lemma sorted_union_In : forall a b x, In x (sorted_union a b) <-> In x a \/ In x b.
Proof.
  intros a b x. unfold sorted_union.
  rewrite <- in_app_iff, <- (nodup_In Nat.eq_dec (a ++ b)).
  split; apply Permutation_in;
    [apply Permutation_sym|]; apply NatSort.Permuted_sort.
Qed.

Lemma sorted_union_NoDup : forall a b, NoDup (sorted_union a b).
Proof.
  intros a b. unfold sorted_union.
  eapply Permutation_NoDup; [apply NatSort.Permuted_sort|apply NoDup_nodup].
Qed.

(** A loop that, for each innovation number of a duplicate-free list,
    either writes one entry chosen for that number or writes nothing; no
    two numbers ever choose the same key. *)
Section InheritLoop.
Context {K V : Type}.
Variable keq : K -> K -> bool.
Hypothesis keq_spec : forall a b, keq a b = true <-> a = b.
Variable written : K -> V -> nat -> Prop.
Variable body : nat -> list (K * V) -> M (list (K * V)).
Hypothesis written_key :
  forall k v v' i i', written k v i -> written k v' i' -> i = i'.
Hypothesis body_cases : forall i child w,
  (fst (body i child w) = child /\ forall k v, ~ written k v i)
  \/ (exists k v, written k v i /\ fst (body i child w) = dset keq k v child).


Lemma inherited_step : forall done child i w,
  ~ In i done ->
  inherited_so_far keq written done child ->
  inherited_so_far keq written (done ++ [i]) (fst (body i child w)).
Proof.
  intros done child i w Hnew [H1 H2].
  destruct (body_cases i child w) as [[-> Hno]|(k & v & Hw & ->)]; split.
  - intros k v Hk. destruct (H1 k v Hk) as (i0 & Hi0 & Hw0).
    exists i0. split; [apply in_or_app; now left|exact Hw0].
  - intros i0 Hi0 Hex. apply in_app_or in Hi0. destruct Hi0 as [Hi0|[<-|[]]].
    + now apply H2.
    + destruct Hex as (k & v & Hw). now apply Hno in Hw.
  - intros k0 v0 Hk. destruct (keq k0 k) eqn:E.
    + apply keq_spec in E. subst k0.
      rewrite (dget_dset_same keq keq_spec) in Hk. injection Hk as <-.
      exists i. split; [apply in_or_app; right; now left|exact Hw].
    + rewrite (dget_dset_other keq keq_spec) in Hk.
      2:{ intros ->. rewrite (keq_refl keq keq_spec) in E. discriminate. }
      destruct (H1 k0 v0 Hk) as (i0 & Hi0 & Hw0).
      exists i0. split; [apply in_or_app; now left|exact Hw0].
  - intros i0 Hi0 Hex. apply in_app_or in Hi0. destruct Hi0 as [Hi0|[<-|[]]].
    + destruct (H2 i0 Hi0 Hex) as (k0 & v0 & Hk & Hw0).
      exists k0, v0. split; [|exact Hw0].
      rewrite (dget_dset_other keq keq_spec); [exact Hk|].
      intros ->. apply Hnew. now rewrite <- (written_key _ _ _ _ _ Hw0 Hw).
    + exists k, v. split; [apply (dget_dset_same keq keq_spec)|exact Hw].
Qed.

Lemma inherited_loop : forall todo done child w,
  NoDup todo ->
  (forall i, In i todo -> ~ In i done) ->
  inherited_so_far keq written done child ->
  inherited_so_far keq written (done ++ todo) (fst (for_each todo body child w)).
Proof.
  induction todo as [|i r IH]; intros done child w Hnd Hdis Hinv; simpl.
  - now rewrite app_nil_r.
  - rewrite bind_eq. inversion Hnd as [|? ? Hi Hr]; subst.
    replace (done ++ i :: r) with ((done ++ [i]) ++ r)
      by (rewrite <- app_assoc; reflexivity).
    apply IH; [exact Hr| |].
    + intros j Hj Hin. apply in_app_or in Hin. destruct Hin as [Hin|[<-|[]]].
      * apply (Hdis j); [now right|exact Hin].
      * contradiction.
    + apply inherited_step; [|exact Hinv]. apply Hdis. now left.
Qed.

Lemma inherited_all : forall todo w,
  NoDup todo -> inherited_so_far keq written todo (fst (for_each todo body [] w)).
Proof.
  intros todo w Hnd. apply (inherited_loop todo [] [] w Hnd).
  - intros i _ [].
  - split; [intros k v H; discriminate H|intros i []].
Qed.

End InheritLoop.

Lemma gene_with_innovation_Some : forall i gs k g,
  gene_with_innovation i gs = Some (k, g) -> In (k, g) gs /\ gi_innovation g = i.
Proof.
  intros i gs k g H. unfold gene_with_innovation in H. apply find_some in H.
  destruct H as [Hin He]. now apply Nat.eqb_eq in He.
Qed.

Lemma gene_with_innovation_None : forall i gs k g,
  gene_with_innovation i gs = None -> In (k, g) gs -> gi_innovation g <> i.
Proof.
  intros i gs k g H Hin He. unfold gene_with_innovation in H.
  apply (find_none _ _ H) in Hin. simpl in Hin. apply Nat.eqb_neq in Hin. contradiction.
Qed.

Lemma conn_with_innovation_Some : forall i cs e,
  conn_with_innovation i cs = Some e -> In e cs /\ conn_innov (fst e) = i.
Proof.
  intros i cs e H. unfold conn_with_innovation in H. apply find_some in H.
  destruct H as [Hin He]. now apply Nat.eqb_eq in He.
Qed.

Lemma conn_with_innovation_None : forall i cs e,
  conn_with_innovation i cs = None -> In e cs -> conn_innov (fst e) <> i.
Proof.
  intros i cs e H Hin He. unfold conn_with_innovation in H.
  apply (find_none _ _ H) in Hin. apply Nat.eqb_neq in Hin. contradiction.
Qed.

Lemma innovations_aligned_spec : forall genes1 genes2 k1 g1 k2 g2,
  innovations_aligned genes1 genes2 = true ->
  In (k1, g1) genes1 -> In (k2, g2) genes2 ->
  gi_innovation g1 = gi_innovation g2 -> k1 = k2.
Proof.
  intros genes1 genes2 k1 g1 k2 g2 H H1 H2 He. unfold innovations_aligned in H.
  rewrite forallb_forall in H. specialize (H _ H1).
  rewrite forallb_forall in H. specialize (H _ H2). simpl in H.
  rewrite He, Nat.eqb_refl in H. simpl in H. now apply Nat.eqb_eq.
Qed.

Lemma with_bias_innovation : forall g, gi_innovation (with_bias g) = gi_innovation g.
Proof. reflexivity. Qed.

Section CrossoverGenes.
Variables genes1 genes2 : list (nat * GeneInfo).
Variable parent1_fittest : bool.
Hypothesis unique1 : NoDup (dkeys genes1).
Hypothesis unique2 : NoDup (dkeys genes2).
Hypothesis aligned : innovations_aligned genes1 genes2 = true.


Lemma gene_written_innovation : forall k g i, gene_written genes1 genes2 parent1_fittest k g i -> gi_innovation g = i.
Proof.
  intros k g i. unfold gene_written.
  destruct (gene_with_innovation i genes1) as [[k1 g1]|] eqn:E1;
    destruct (gene_with_innovation i genes2) as [[k2 g2]|] eqn:E2;
    try (apply gene_with_innovation_Some in E1; destruct E1 as [_ E1]);
    try (apply gene_with_innovation_Some in E2; destruct E2 as [_ E2]);
    intuition (subst; auto).
Qed.

(** Where the written gene comes from. *)
Lemma gene_written_source : forall k g i,
  gene_written genes1 genes2 parent1_fittest k g i ->
  (exists g1, In (k, g1) genes1 /\ gi_innovation g1 = i
              /\ (parent1_fittest = true
                  \/ exists g2, In (k, g2) genes2 /\ gi_innovation g2 = i))
  \/ (exists g2, In (k, g2) genes2 /\ gi_innovation g2 = i
                 /\ (parent1_fittest = false
                     \/ exists g1, In (k, g1) genes1 /\ gi_innovation g1 = i)).
Proof.
  intros k g i. unfold gene_written.
  destruct (gene_with_innovation i genes1) as [[k1 g1]|] eqn:E1;
    destruct (gene_with_innovation i genes2) as [[k2 g2]|] eqn:E2;
    try (apply gene_with_innovation_Some in E1; destruct E1 as [I1 E1]);
    try (apply gene_with_innovation_Some in E2; destruct E2 as [I2 E2]).
  - assert (k1 = k2) by (eapply innovations_aligned_spec; eauto; congruence).
    subst k2. intros [[-> _]|[-> _]]; left; exists g1; eauto 6.
  - intros (Hf & -> & ->). left. exists g1. auto.
  - intros (Hf & -> & ->). right. exists g2. auto.
  - tauto.
Qed.

Lemma innovation_at_key : forall (gs : list (nat * GeneInfo)) k g g',
  NoDup (dkeys gs) -> In (k, g) gs -> In (k, g') gs -> g = g'.
Proof.
  intros gs k g g' Hnd H H'.
  apply (In_dget_NoDup Nat.eqb Nat.eqb_eq) in H; auto.
  apply (In_dget_NoDup Nat.eqb Nat.eqb_eq) in H'; auto. congruence.
Qed.

Lemma gene_written_key : forall k g g' i i',
  gene_written genes1 genes2 parent1_fittest k g i -> gene_written genes1 genes2 parent1_fittest k g' i' -> i = i'.
Proof.
  intros k g g' i i' H H'.
  apply gene_written_source in H. apply gene_written_source in H'.
  assert (S1 : forall a b, In (k, a) genes1 -> In (k, b) genes1 -> a = b)
    by (intros a b; apply innovation_at_key; exact unique1).
  assert (S2 : forall a b, In (k, a) genes2 -> In (k, b) genes2 -> a = b)
    by (intros a b; apply innovation_at_key; exact unique2).
  destruct H as [(a & Ia & Ea & Ha)|(a & Ia & Ea & Ha)];
    destruct H' as [(b & Ib & Eb & Hb)|(b & Ib & Eb & Hb)].
  - rewrite (S1 a b Ia Ib) in Ea. congruence.
  - destruct Ha as [Ha|(c & Ic & Ec)].
    + destruct Hb as [Hb|(c & Ic & Ec)]; [congruence|].
      rewrite (S1 a c Ia Ic) in Ea. congruence.
    + rewrite (S2 c b Ic Ib) in Ec. congruence.
  - destruct Ha as [Ha|(c & Ic & Ec)].
    + destruct Hb as [Hb|(c & Ic & Ec)]; [congruence|].
      rewrite (S2 a c Ia Ic) in Ea. congruence.
    + rewrite (S1 c b Ic Ib) in Ec. congruence.
  - rewrite (S2 a b Ia Ib) in Ea. congruence.
Qed.

Lemma crossover_gene_cases : forall i child w,
  (fst (crossover_gene genes1 genes2 parent1_fittest i child w) = child
   /\ forall k g, ~ gene_written genes1 genes2 parent1_fittest k g i)
  \/ (exists k g, gene_written genes1 genes2 parent1_fittest k g i
        /\ fst (crossover_gene genes1 genes2 parent1_fittest i child w)
           = dset Nat.eqb k g child).
Proof.
  intros i child w. unfold crossover_gene, gene_written.
  destruct (gene_with_innovation i genes1) as [[k1 g1]|];
    destruct (gene_with_innovation i genes2) as [[k2 g2]|].
  - right. rewrite bind_eq.
    destruct (Qlt_bool (fst (random_random w)) (1 # 2)).
    + exists k1, (with_bias g1). split; [now left|reflexivity].
    + exists k2, (with_bias g2). split; [now right|reflexivity].
  - destruct parent1_fittest.
    + right. exists k1, g1. split; [auto|reflexivity].
    + left. split; [reflexivity|]. intros k g (Hf & _). discriminate.
  - destruct parent1_fittest.
    + left. split; [reflexivity|]. intros k g (Hf & _). discriminate.
    + right. exists k2, g2. split; [auto|reflexivity].
  - left. split; [reflexivity|]. tauto.
Qed.

Lemma crossover_genes_inherited : forall w,
  inherited_so_far Nat.eqb (gene_written genes1 genes2 parent1_fittest)
    (sorted_union (gene_innovation_numbers genes1) (gene_innovation_numbers genes2))
    (fst (for_each
            (sorted_union (gene_innovation_numbers genes1) (gene_innovation_numbers genes2))
            (crossover_gene genes1 genes2 parent1_fittest) [] w)).
Proof.
  intro w. apply inherited_all.
  - exact Nat.eqb_eq.
  - exact gene_written_key.
  - exact crossover_gene_cases.
  - apply sorted_union_NoDup.
Qed.

End CrossoverGenes.

Section CrossoverGenesResult.
Variables genes1 genes2 : list (nat * GeneInfo).
Variable parent1_fittest : bool.
Variable child_genes : list (nat * GeneInfo).
Hypothesis inherited :
  inherited_so_far Nat.eqb (gene_written genes1 genes2 parent1_fittest)
    (sorted_union (gene_innovation_numbers genes1) (gene_innovation_numbers genes2))
    child_genes.

Lemma gene_innovation_listed : forall i k g (gs : list (nat * GeneInfo)),
  gene_with_innovation i gs = Some (k, g) -> In i (gene_innovation_numbers gs).
Proof.
  intros i k g gs H. apply gene_with_innovation_Some in H. destruct H as [Hin <-].
  unfold gene_innovation_numbers.
  change (gi_innovation g) with ((fun e : nat * GeneInfo => gi_innovation (snd e)) (k, g)).
  now apply in_map.
Qed.

Lemma child_gene_in_both : forall i k1 g1 k2 g2,
  gene_with_innovation i genes1 = Some (k1, g1) ->
  gene_with_innovation i genes2 = Some (k2, g2) ->
  dget Nat.eqb k1 child_genes = Some (with_bias g1)
  \/ dget Nat.eqb k2 child_genes = Some (with_bias g2).
Proof.
  intros i k1 g1 k2 g2 E1 E2. destruct inherited as [_ H2].
  destruct (H2 i) as (k & g & Hk & Hw).
  - apply sorted_union_In. left. eapply gene_innovation_listed; eauto.
  - exists k1, (with_bias g1). unfold gene_written. rewrite E1, E2. now left.
  - unfold gene_written in Hw. rewrite E1, E2 in Hw.
    destruct Hw as [[-> ->]|[-> ->]]; auto.
Qed.

Lemma child_gene_only_in_1 : forall i k1 g1,
  gene_with_innovation i genes1 = Some (k1, g1) ->
  gene_with_innovation i genes2 = None ->
  ((exists k g, dget Nat.eqb k child_genes = Some g /\ gi_innovation g = i)
   <-> parent1_fittest = true)
  /\ (parent1_fittest = true -> dget Nat.eqb k1 child_genes = Some g1).
Proof.
  intros i k1 g1 E1 E2. destruct inherited as [H1 H2].
  assert (Hin : forall k g, gene_written genes1 genes2 parent1_fittest k g i ->
                  parent1_fittest = true /\ k = k1 /\ g = g1).
  { intros k g Hw. unfold gene_written in Hw. now rewrite E1, E2 in Hw. }
  assert (Hget : parent1_fittest = true -> dget Nat.eqb k1 child_genes = Some g1).
  { intro Hf. destruct (H2 i) as (k & g & Hk & Hw).
    - apply sorted_union_In. left. eapply gene_innovation_listed; eauto.
    - exists k1, g1. unfold gene_written. rewrite E1, E2. auto.
    - apply Hin in Hw. destruct Hw as (_ & -> & ->). exact Hk. }
  split; [split|exact Hget].
  - intros (k & g & Hk & Hi). destruct (H1 k g Hk) as (i' & _ & Hw).
    pose proof (gene_written_innovation _ _ _ _ _ _ Hw) as Hi'.
    rewrite Hi in Hi'. subst i'. now apply Hin in Hw.
  - intro Hf. exists k1, g1. split; [now apply Hget|].
    now apply gene_with_innovation_Some in E1.
Qed.

Lemma child_gene_only_in_2 : forall i k2 g2,
  gene_with_innovation i genes1 = None ->
  gene_with_innovation i genes2 = Some (k2, g2) ->
  ((exists k g, dget Nat.eqb k child_genes = Some g /\ gi_innovation g = i)
   <-> parent1_fittest = false)
  /\ (parent1_fittest = false -> dget Nat.eqb k2 child_genes = Some g2).
Proof.
  intros i k2 g2 E1 E2. destruct inherited as [H1 H2].
  assert (Hin : forall k g, gene_written genes1 genes2 parent1_fittest k g i ->
                  parent1_fittest = false /\ k = k2 /\ g = g2).
  { intros k g Hw. unfold gene_written in Hw. now rewrite E1, E2 in Hw. }
  assert (Hget : parent1_fittest = false -> dget Nat.eqb k2 child_genes = Some g2).
  { intro Hf. destruct (H2 i) as (k & g & Hk & Hw).
    - apply sorted_union_In. right. eapply gene_innovation_listed; eauto.
    - exists k2, g2. unfold gene_written. rewrite E1, E2. auto.
    - apply Hin in Hw. destruct Hw as (_ & -> & ->). exact Hk. }
  split; [split|exact Hget].
  - intros (k & g & Hk & Hi). destruct (H1 k g Hk) as (i' & _ & Hw).
    pose proof (gene_written_innovation _ _ _ _ _ _ Hw) as Hi'.
    rewrite Hi in Hi'. subst i'. now apply Hin in Hw.
  - intro Hf. exists k2, g2. split; [now apply Hget|].
    now apply gene_with_innovation_Some in E2.
Qed.

End CrossoverGenesResult.

Section CrossoverConnections.
Variables connections1 connections2 : list (ConnKey * Q).
Variable parent1_fittest : bool.


Lemma conn_written_innovation : forall key weight i,
  conn_written connections1 connections2 parent1_fittest key weight i -> conn_innov key = i.
Proof.
  intros key weight i. unfold conn_written.
  destruct (conn_with_innovation i connections1) as [e1|] eqn:E1;
    destruct (conn_with_innovation i connections2) as [e2|] eqn:E2;
    try (apply conn_with_innovation_Some in E1; destruct E1 as [_ E1]);
    try (apply conn_with_innovation_Some in E2; destruct E2 as [_ E2]);
    intuition (subst; auto).
Qed.

Lemma conn_written_key : forall key weight weight' i i',
  conn_written connections1 connections2 parent1_fittest key weight i -> conn_written connections1 connections2 parent1_fittest key weight' i' -> i = i'.
Proof.
  intros key weight weight' i i' H H'.
  apply conn_written_innovation in H. apply conn_written_innovation in H'. congruence.
Qed.

Lemma conn_key_rebuilt : forall (e : ConnKey * Q) i,
  conn_innov (fst e) = i -> (conn_in (fst e), conn_out (fst e), i) = fst e.
Proof. intros [[[a b] n] wt] i. simpl. unfold conn_innov. simpl. now intros ->. Qed.

Lemma crossover_connection_cases : forall i child w,
  (fst (crossover_connection connections1 connections2 parent1_fittest i child w) = child
   /\ forall key weight, ~ conn_written connections1 connections2 parent1_fittest key weight i)
  \/ (exists key weight, conn_written connections1 connections2 parent1_fittest key weight i
        /\ fst (crossover_connection connections1 connections2 parent1_fittest i child w)
           = dset conn_key_eqb key weight child).
Proof.
  intros i child w. unfold crossover_connection, conn_written.
  destruct (conn_with_innovation i connections1) as [e1|] eqn:E1;
    destruct (conn_with_innovation i connections2) as [e2|] eqn:E2;
    try (apply conn_with_innovation_Some in E1; destruct E1 as [_ E1]);
    try (apply conn_with_innovation_Some in E2; destruct E2 as [_ E2]).
  - right. rewrite bind_eq.
    destruct (Qlt_bool (fst (random_random w)) (1 # 2)).
    + exists (fst e1), (snd e1). split; [left; now destruct e1|].
      rewrite <- (conn_key_rebuilt e1 i E1). now destruct e1.
    + exists (fst e2), (snd e2). split; [right; now destruct e2|].
      rewrite <- (conn_key_rebuilt e2 i E2). now destruct e2.
  - destruct parent1_fittest.
    + right. exists (fst e1), (snd e1). split; [split; [reflexivity|now destruct e1]|reflexivity].
    + left. split; [reflexivity|]. intros k g (Hf & _). discriminate.
  - destruct parent1_fittest.
    + left. split; [reflexivity|]. intros k g (Hf & _). discriminate.
    + right. exists (fst e2), (snd e2). split; [split; [reflexivity|now destruct e2]|reflexivity].
  - left. split; [reflexivity|]. tauto.
Qed.

Lemma crossover_connections_inherited : forall w,
  inherited_so_far conn_key_eqb (conn_written connections1 connections2 parent1_fittest)
    (sorted_union (connection_innovation_numbers connections1)
                  (connection_innovation_numbers connections2))
    (fst (for_each
            (sorted_union (connection_innovation_numbers connections1)
                          (connection_innovation_numbers connections2))
            (crossover_connection connections1 connections2 parent1_fittest) [] w)).
Proof.
  intro w. apply inherited_all.
  - exact conn_key_eqb_spec.
  - exact conn_written_key.
  - exact crossover_connection_cases.
  - apply sorted_union_NoDup.
Qed.

Variable child_connections : list (ConnKey * Q).
Hypothesis inherited :
  inherited_so_far conn_key_eqb (conn_written connections1 connections2 parent1_fittest)
    (sorted_union (connection_innovation_numbers connections1)
                  (connection_innovation_numbers connections2))
    child_connections.

Lemma conn_innovation_listed : forall i e (cs : list (ConnKey * Q)),
  conn_with_innovation i cs = Some e -> In i (connection_innovation_numbers cs).
Proof.
  intros i e cs H. apply conn_with_innovation_Some in H. destruct H as [Hin <-].
  unfold connection_innovation_numbers, dkeys. rewrite map_map.
  change (conn_innov (fst e)) with ((fun x : ConnKey * Q => conn_innov (fst x)) e).
  now apply in_map.
Qed.

Lemma child_conn_in_both : forall i e1 e2,
  conn_with_innovation i connections1 = Some e1 ->
  conn_with_innovation i connections2 = Some e2 ->
  dget conn_key_eqb (fst e1) child_connections = Some (snd e1)
  \/ dget conn_key_eqb (fst e2) child_connections = Some (snd e2).
Proof.
  intros i e1 e2 E1 E2. destruct inherited as [_ H2].
  destruct (H2 i) as (k & g & Hk & Hw).
  - apply sorted_union_In. left. eapply conn_innovation_listed; eauto.
  - exists (fst e1), (snd e1). unfold conn_written. rewrite E1, E2. left. now destruct e1.
  - unfold conn_written in Hw. rewrite E1, E2 in Hw.
    destruct Hw as [<-|<-]; auto.
Qed.

Lemma child_conn_only_in_1 : forall i e1,
  conn_with_innovation i connections1 = Some e1 ->
  conn_with_innovation i connections2 = None ->
  ((exists key weight, dget conn_key_eqb key child_connections = Some weight
                       /\ conn_innov key = i)
   <-> parent1_fittest = true)
  /\ (parent1_fittest = true ->
      dget conn_key_eqb (fst e1) child_connections = Some (snd e1)).
Proof.
  intros i e1 E1 E2. destruct inherited as [H1 H2].
  assert (Hin : forall k g, conn_written connections1 connections2 parent1_fittest k g i -> parent1_fittest = true /\ (k, g) = e1).
  { intros k g Hw. unfold conn_written in Hw. now rewrite E1, E2 in Hw. }
  assert (Hget : parent1_fittest = true ->
                 dget conn_key_eqb (fst e1) child_connections = Some (snd e1)).
  { intro Hf. destruct (H2 i) as (k & g & Hk & Hw).
    - apply sorted_union_In. left. eapply conn_innovation_listed; eauto.
    - exists (fst e1), (snd e1). unfold conn_written. rewrite E1, E2.
      split; [exact Hf|now destruct e1].
    - apply Hin in Hw. destruct Hw as (_ & <-). exact Hk. }
  split; [split|exact Hget].
  - intros (k & g & Hk & Hi). destruct (H1 k g Hk) as (i' & _ & Hw).
    pose proof (conn_written_innovation _ _ _ Hw) as Hi'.
    rewrite Hi in Hi'. subst i'. now apply Hin in Hw.
  - intro Hf. exists (fst e1), (snd e1). split; [now apply Hget|].
    now apply conn_with_innovation_Some in E1.
Qed.

Lemma child_conn_only_in_2 : forall i e2,
  conn_with_innovation i connections1 = None ->
  conn_with_innovation i connections2 = Some e2 ->
  ((exists key weight, dget conn_key_eqb key child_connections = Some weight
                       /\ conn_innov key = i)
   <-> parent1_fittest = false)
  /\ (parent1_fittest = false ->
      dget conn_key_eqb (fst e2) child_connections = Some (snd e2)).
Proof.
  intros i e2 E1 E2. destruct inherited as [H1 H2].
  assert (Hin : forall k g, conn_written connections1 connections2 parent1_fittest k g i -> parent1_fittest = false /\ (k, g) = e2).
  { intros k g Hw. unfold conn_written in Hw. now rewrite E1, E2 in Hw. }
  assert (Hget : parent1_fittest = false ->
                 dget conn_key_eqb (fst e2) child_connections = Some (snd e2)).
  { intro Hf. destruct (H2 i) as (k & g & Hk & Hw).
    - apply sorted_union_In. right. eapply conn_innovation_listed; eauto.
    - exists (fst e2), (snd e2). unfold conn_written. rewrite E1, E2.
      split; [exact Hf|now destruct e2].
    - apply Hin in Hw. destruct Hw as (_ & <-). exact Hk. }
  split; [split|exact Hget].
  - intros (k & g & Hk & Hi). destruct (H1 k g Hk) as (i' & _ & Hw).
    pose proof (conn_written_innovation _ _ _ Hw) as Hi'.
    rewrite Hi in Hi'. subst i'. now apply Hin in Hw.
  - intro Hf. exists (fst e2), (snd e2). split; [now apply Hget|].
    now apply conn_with_innovation_Some in E2.
Qed.

End CrossoverConnections.

Lemma Qlt_bool_true : forall a b, Qlt_bool a b = true <-> (a < b)%Q.
Proof.
  intros a b. unfold Qlt_bool. rewrite negb_true_iff.
  split.
  - intro H. apply Qnot_le_lt. intro Hle. apply Qle_bool_iff in Hle. congruence.
  - intro H. destruct (Qle_bool b a) eqn:E; [|reflexivity].
    apply Qle_bool_iff in E. exfalso. exact (Qlt_not_le _ _ H E).
Qed.

Lemma Qlt_bool_false : forall a b, Qlt_bool a b = false <-> (b <= a)%Q.
Proof.
  intros a b. unfold Qlt_bool. rewrite negb_false_iff. apply Qle_bool_iff.
Qed.

(* ------------------------------------------------------------------ *)
(** * [crossover]: the draw that decides a shared innovation *)

Lemma for_each_app : forall {A S : Type} (l1 l2 : list A) (body : A -> S -> M S) s w,
  for_each (l1 ++ l2) body s w
  = for_each l2 body (fst (for_each l1 body s w)) (snd (for_each l1 body s w)).
Proof.
  induction l1 as [|x r IH]; intros l2 body s w.
  - reflexivity.
  - cbn [app for_each]. rewrite !bind_eq. apply IH.
Qed.

Lemma random_random_reals : forall w,
  rand_reals (w_rng (snd (random_random w))) = skipn 1 (rand_reals (w_rng w)).
Proof.
  intro w. unfold random_random.
  destruct (rand_reals (w_rng w)) eqn:E; cbn [snd]; [exact E|reflexivity].
Qed.

Lemma random_random_value : forall w,
  fst (random_random w) = nth 0 (rand_reals (w_rng w)) 0%Q.
Proof. intro w. unfold random_random. destruct (rand_reals (w_rng w)); reflexivity. Qed.

(** A loop whose body calls [random.random()] once for the elements that
    satisfy [shared] and not at all for the others. *)
Section DrawLoop.
Context {S : Type}.
Variable shared : nat -> bool.
Variable body : nat -> S -> M S.
Hypothesis body_reals : forall i s w,
  rand_reals (w_rng (snd (body i s w)))
  = skipn (if shared i then 1 else 0) (rand_reals (w_rng w)).

Lemma for_each_reals : forall l s w,
  rand_reals (w_rng (snd (for_each l body s w)))
  = skipn (length (filter shared l)) (rand_reals (w_rng w)).
Proof.
  induction l as [|i r IH]; intros s w.
  - reflexivity.
  - cbn [for_each filter]. rewrite bind_eq, IH, body_reals, skipn_skipn.
    destruct (shared i); cbn [length]; f_equal; lia.
Qed.

Lemma next_draw_after : forall l s w,
  fst (random_random (snd (for_each l body s w)))
  = nth (length (filter shared l)) (rand_reals (w_rng w)) 0%Q.
Proof.
  intros l s w. rewrite random_random_value, for_each_reals, nth_skipn.
  f_equal. lia.
Qed.

End DrawLoop.

(** An entry written for an innovation number is still there after the
    iterations for other numbers. *)
Section InheritStays.
Context {K V : Type}.
Variable keq : K -> K -> bool.
Hypothesis keq_spec : forall a b, keq a b = true <-> a = b.
Variable written : K -> V -> nat -> Prop.
Variable body : nat -> list (K * V) -> M (list (K * V)).
Hypothesis written_key :
  forall k v v' i i', written k v i -> written k v' i' -> i = i'.
Hypothesis body_cases : forall i child w,
  (fst (body i child w) = child /\ forall k v, ~ written k v i)
  \/ (exists k v, written k v i /\ fst (body i child w) = dset keq k v child).

Lemma written_stays : forall todo child w k v i,
  written k v i -> ~ In i todo ->
  dget keq k child = Some v ->
  dget keq k (fst (for_each todo body child w)) = Some v.
Proof.
  induction todo as [|j r IH]; intros child w k v i Hw Hni Hk.
  - exact Hk.
  - cbn [for_each]. rewrite bind_eq. apply (IH _ _ k v i Hw).
    + intro H. apply Hni. now right.
    + destruct (body_cases j child w) as [[E _]|(k' & v' & Hw' & E)]; rewrite E.
      * exact Hk.
      * rewrite (dget_dset_other keq keq_spec); [exact Hk|].
        intro Ek. subst k'. apply Hni. left.
        exact (written_key _ _ _ _ _ Hw' Hw).
Qed.

End InheritStays.

Section SharedGenes.
Variables genes1 genes2 : list (nat * GeneInfo).
Variable parent1_fittest : bool.
Hypothesis unique1 : NoDup (dkeys genes1).
Hypothesis unique2 : NoDup (dkeys genes2).
Hypothesis aligned : innovations_aligned genes1 genes2 = true.

Let shared (i : nat) : bool :=
  match gene_with_innovation i genes1, gene_with_innovation i genes2 with
  | Some _, Some _ => true
  | _, _ => false
  end.

Lemma crossover_gene_reals : forall i child w,
  rand_reals (w_rng (snd (crossover_gene genes1 genes2 parent1_fittest i child w)))
  = skipn (if shared i then 1 else 0) (rand_reals (w_rng w)).
Proof.
  intros i child w. unfold crossover_gene, shared.
  destruct (gene_with_innovation i genes1) as [[k1 g1]|];
    destruct (gene_with_innovation i genes2) as [[k2 g2]|].
  - rewrite bind_eq.
    destruct (Qlt_bool (fst (random_random w)) (1 # 2)); apply random_random_reals.
  - destruct parent1_fittest; reflexivity.
  - destruct parent1_fittest; reflexivity.
  - reflexivity.
Qed.

(** The iteration for a shared innovation number [i] reads the next draw
    and stores the gene of parent 1 when it is below 1/2, the gene of parent
    2 otherwise; the rest of the loop leaves that entry alone. *)
Lemma shared_gene_by_draw : forall done i todo w k1 g1 k2 g2,
  NoDup (done ++ i :: todo) ->
  gene_with_innovation i genes1 = Some (k1, g1) ->
  gene_with_innovation i genes2 = Some (k2, g2) ->
  let draw := nth (length (filter shared done)) (rand_reals (w_rng w)) 0%Q in
  let child_genes :=
    fst (for_each (done ++ i :: todo) (crossover_gene genes1 genes2 parent1_fittest) [] w) in
  (Qlt_bool draw (1 # 2) = true -> dget Nat.eqb k1 child_genes = Some (with_bias g1))
  /\ (Qlt_bool draw (1 # 2) = false -> dget Nat.eqb k2 child_genes = Some (with_bias g2)).
Proof.
  intros done i todo w k1 g1 k2 g2 Hnd E1 E2 draw child_genes.
  assert (Hni : ~ In i todo).
  { apply NoDup_remove_2 in Hnd. intro H. apply Hnd. apply in_or_app. now right. }
  subst child_genes. rewrite for_each_app. cbn [for_each]. rewrite bind_eq.
  pose proof (next_draw_after shared (crossover_gene genes1 genes2 parent1_fittest)
                crossover_gene_reals done [] w) as Hdraw.
  fold draw in Hdraw.
  set (cd := fst (for_each done (crossover_gene genes1 genes2 parent1_fittest) [] w)) in *.
  set (wd := snd (for_each done (crossover_gene genes1 genes2 parent1_fittest) [] w)) in *.
  assert (Hstep : fst (crossover_gene genes1 genes2 parent1_fittest i cd wd)
                  = if Qlt_bool draw (1 # 2)
                    then dset Nat.eqb k1 (with_bias g1) cd
                    else dset Nat.eqb k2 (with_bias g2) cd).
  { unfold crossover_gene. rewrite E1, E2, bind_eq, Hdraw.
    destruct (Qlt_bool draw (1 # 2)); reflexivity. }
  rewrite Hstep.
  split; intro Hd; rewrite Hd;
    apply (written_stays Nat.eqb Nat.eqb_eq
             (gene_written genes1 genes2 parent1_fittest)
             (crossover_gene genes1 genes2 parent1_fittest)
             (gene_written_key genes1 genes2 parent1_fittest unique1 unique2 aligned)
             (crossover_gene_cases genes1 genes2 parent1_fittest)
             todo _ _ _ _ i);
    try exact Hni; try apply (dget_dset_same Nat.eqb Nat.eqb_eq);
    unfold gene_written; rewrite E1, E2; [left|right]; split; reflexivity.
Qed.

End SharedGenes.

Section SharedConnections.
Variables connections1 connections2 : list (ConnKey * Q).
Variable parent1_fittest : bool.

Let shared (i : nat) : bool :=
  match conn_with_innovation i connections1, conn_with_innovation i connections2 with
  | Some _, Some _ => true
  | _, _ => false
  end.

Lemma crossover_connection_reals : forall i child w,
  rand_reals
    (w_rng (snd (crossover_connection connections1 connections2 parent1_fittest i child w)))
  = skipn (if shared i then 1 else 0) (rand_reals (w_rng w)).
Proof.
  intros i child w. unfold crossover_connection, shared.
  destruct (conn_with_innovation i connections1) as [e1|];
    destruct (conn_with_innovation i connections2) as [e2|].
  - rewrite bind_eq.
    destruct (Qlt_bool (fst (random_random w)) (1 # 2));
      [destruct e1|destruct e2]; apply random_random_reals.
  - destruct parent1_fittest; reflexivity.
  - destruct parent1_fittest; reflexivity.
  - reflexivity.
Qed.

(** The same for a shared connection: the weight of parent 1's connection
    is stored when the draw is below 1/2, that of parent 2's otherwise. *)
Lemma shared_connection_by_draw : forall done i todo w e1 e2,
  NoDup (done ++ i :: todo) ->
  conn_with_innovation i connections1 = Some e1 ->
  conn_with_innovation i connections2 = Some e2 ->
  let draw := nth (length (filter shared done)) (rand_reals (w_rng w)) 0%Q in
  let child_connections :=
    fst (for_each (done ++ i :: todo)
           (crossover_connection connections1 connections2 parent1_fittest) [] w) in
  (Qlt_bool draw (1 # 2) = true ->
   dget conn_key_eqb (fst e1) child_connections = Some (snd e1))
  /\ (Qlt_bool draw (1 # 2) = false ->
      dget conn_key_eqb (fst e2) child_connections = Some (snd e2)).
Proof.
  intros done i todo w e1 e2 Hnd E1 E2 draw child_connections.
  assert (Hni : ~ In i todo).
  { apply NoDup_remove_2 in Hnd. intro H. apply Hnd. apply in_or_app. now right. }
  subst child_connections. rewrite for_each_app. cbn [for_each]. rewrite bind_eq.
  pose proof (next_draw_after shared
                (crossover_connection connections1 connections2 parent1_fittest)
                crossover_connection_reals done [] w) as Hdraw.
  fold draw in Hdraw.
  set (body := crossover_connection connections1 connections2 parent1_fittest) in *.
  set (cd := fst (for_each done body [] w)) in *.
  set (wd := snd (for_each done body [] w)) in *.
  assert (Hstep : fst (body i cd wd)
                  = if Qlt_bool draw (1 # 2)
                    then dset conn_key_eqb (fst e1) (snd e1) cd
                    else dset conn_key_eqb (fst e2) (snd e2) cd).
  { unfold body, crossover_connection. rewrite E1, E2, bind_eq, Hdraw.
    pose proof (conn_with_innovation_Some _ _ _ E1) as [_ I1].
    pose proof (conn_with_innovation_Some _ _ _ E2) as [_ I2].
    destruct (Qlt_bool draw (1 # 2)).
    - rewrite <- (conn_key_rebuilt e1 i I1). now destruct e1.
    - rewrite <- (conn_key_rebuilt e2 i I2). now destruct e2. }
  rewrite Hstep.
  split; intro Hd; rewrite Hd;
    apply (written_stays conn_key_eqb conn_key_eqb_spec
             (conn_written connections1 connections2 parent1_fittest) body
             (conn_written_key connections1 connections2 parent1_fittest)
             (crossover_connection_cases connections1 connections2 parent1_fittest)
             todo _ _ _ _ i);
    try exact Hni; try apply (dget_dset_same conn_key_eqb conn_key_eqb_spec);
    unfold conn_written; rewrite E1, E2; [left; now destruct e1|right; now destruct e2].
Qed.

End SharedConnections.

(** ** The order of the two loops *)

Lemma natorder_leb_le : forall x y, is_true (NatOrder.leb x y) <-> x <= y.
Proof.
  induction x as [|x IH]; intros [|y]; simpl; unfold is_true in *.
  - split; auto.
  - split; [lia|auto].
  - split; [discriminate|lia].
  - rewrite IH. lia.
Qed.

Lemma sorted_le_NoDup_lt : forall l : list nat,
  StronglySorted (fun x y => is_true (NatOrder.leb x y)) l -> NoDup l ->
  StronglySorted lt l.
Proof.
  induction l as [|x r IH]; intros Hs Hnd; [constructor|].
  apply StronglySorted_inv in Hs. destruct Hs as [Hs Hall].
  inversion Hnd as [|? ? Hx Hr]; subst.
  constructor; [now apply IH|].
  rewrite Forall_forall in *. intros y Hy.
  specialize (Hall y Hy). apply natorder_leb_le in Hall.
  assert (x <> y) by (intros ->; contradiction). lia.
Qed.

Lemma sorted_union_increasing : forall a b, StronglySorted lt (sorted_union a b).
Proof.
  intros a b. apply sorted_le_NoDup_lt; [|apply sorted_union_NoDup].
  unfold sorted_union. apply NatSort.StronglySorted_sort.
  intros x y z Hxy Hyz. apply natorder_leb_le in Hxy, Hyz. apply natorder_leb_le. lia.
Qed.

Lemma increasing_split : forall (done : list nat) i todo,
  StronglySorted lt (done ++ i :: todo) ->
  Forall (fun j => j < i) done /\ Forall (fun j => i < j) todo.
Proof.
  induction done as [|x r IH]; intros i todo Hs.
  - split; [constructor|]. now apply StronglySorted_inv in Hs.
  - cbn [app] in Hs. apply StronglySorted_inv in Hs. destruct Hs as [Hs Hall].
    destruct (IH _ _ Hs) as [H1 H2]. split; [|exact H2].
    constructor; [|exact H1].
    rewrite Forall_forall in Hall. apply Hall. apply in_or_app. right. now left.
Qed.

Lemma filter_all_true : forall {A} (f : A -> bool) l,
  Forall (fun x => f x = true) l -> filter f l = l.
Proof.
  induction l as [|x r IH]; intro H; [reflexivity|].
  inversion H; subst. cbn [filter]. rewrite H2. f_equal. now apply IH.
Qed.

Lemma filter_all_false : forall {A} (f : A -> bool) l,
  Forall (fun x => f x = false) l -> filter f l = [].
Proof.
  induction l as [|x r IH]; intro H; [reflexivity|].
  inversion H; subst. cbn [filter]. rewrite H2. now apply IH.
Qed.

(** When the loop reaches [i], it has drawn once for each shared number of
    [done]: the shared numbers below [i]. *)
Lemma below_in_loop_order : forall (shared : nat -> bool) done i todo,
  StronglySorted lt (done ++ i :: todo) ->
  length (filter (fun j => Nat.ltb j i) (filter shared (done ++ i :: todo)))
  = length (filter shared done).
Proof.
  intros shared done i todo Hs. apply increasing_split in Hs. destruct Hs as [H1 H2].
  rewrite filter_app, filter_app. cbn [filter].
  rewrite (filter_all_true (fun j => Nat.ltb j i) (filter shared done)).
  2:{ rewrite Forall_forall in *. intros j Hj. apply filter_In in Hj.
      apply Nat.ltb_lt. apply H1. tauto. }
  rewrite (filter_all_false (fun j => Nat.ltb j i)
             (if shared i then i :: filter shared todo else filter shared todo)).
  - now rewrite app_nil_r.
  - rewrite Forall_forall in *. intros j Hj. apply Nat.ltb_ge.
    destruct (shared i).
    + destruct Hj as [<-|Hj]; [lia|]. apply filter_In in Hj.
      apply Nat.lt_le_incl. apply H2. tauto.
    + apply filter_In in Hj. apply Nat.lt_le_incl. apply H2. tauto.
Qed.

Lemma below_mono : forall (l : list nat) i j,
  i <= j ->
  length (filter (fun x => Nat.ltb x i) l) <= length (filter (fun x => Nat.ltb x j) l).
Proof.
  induction l as [|x r IH]; intros i j Hij; [auto|].
  cbn [filter]. specialize (IH i j Hij).
  destruct (Nat.ltb_spec x i); destruct (Nat.ltb_spec x j); cbn [length]; lia.
Qed.

(** A later shared number has more draws before it. *)
Lemma below_increases : forall (l : list nat) i j,
  i < j -> In i l ->
  length (filter (fun x => Nat.ltb x i) l) < length (filter (fun x => Nat.ltb x j) l).
Proof.
  induction l as [|x r IH]; intros i j Hij Hin; [destruct Hin|].
  cbn [filter]. destruct Hin as [->|Hin].
  - pose proof (below_mono r i j (Nat.lt_le_incl _ _ Hij)).
    destruct (Nat.ltb_spec i i); [lia|].
    destruct (Nat.ltb_spec i j); [|lia]. cbn [length]. lia.
  - specialize (IH i j Hij Hin).
    destruct (Nat.ltb_spec x i); destruct (Nat.ltb_spec x j); cbn [length]; lia.
Qed.

Lemma below_is_fewer : forall (l : list nat) i,
  In i l -> length (filter (fun x => Nat.ltb x i) l) < length l.
Proof.
  induction l as [|x r IH]; intros i Hin; [destruct Hin|].
  cbn [filter]. pose proof (filter_length_le (fun x => Nat.ltb x i) r).
  destruct Hin as [->|Hin].
  - destruct (Nat.ltb_spec i i); [lia|]. cbn [length]. lia.
  - specialize (IH i Hin). destruct (Nat.ltb_spec x i); cbn [length]; lia.
Qed.

Lemma shared_gene_listed : forall parent1 parent2 i,
  in_both_genes parent1 parent2 i = true ->
  In i (shared_gene_innovations parent1 parent2).
Proof.
  intros parent1 parent2 i H. unfold shared_gene_innovations. apply filter_In.
  split; [|exact H]. unfold in_both_genes in H.
  destruct (gene_with_innovation i (genes parent1)) as [[k g]|] eqn:E; [|discriminate].
  apply sorted_union_In. left. eapply gene_innovation_listed; eauto.
Qed.

Lemma shared_connection_listed : forall parent1 parent2 i,
  in_both_connections parent1 parent2 i = true ->
  In i (shared_connection_innovations parent1 parent2).
Proof.
  intros parent1 parent2 i H. unfold shared_connection_innovations. apply filter_In.
  split; [|exact H]. unfold in_both_connections in H.
  destruct (conn_with_innovation i (connections parent1)) as [e|] eqn:E; [|discriminate].
  apply sorted_union_In. left. eapply conn_innovation_listed; eauto.
Qed.

(** No two shared innovation numbers read the same draw. *)
Lemma draws_in_loop_order : forall parent1 parent2,
  (forall i j, i < j -> in_both_genes parent1 parent2 i = true ->
     draws_before_gene parent1 parent2 i < draws_before_gene parent1 parent2 j)
  /\ (forall i j, in_both_genes parent1 parent2 i = true ->
        draws_before_gene parent1 parent2 i < draws_before_connection parent1 parent2 j)
  /\ (forall i j, i < j -> in_both_connections parent1 parent2 i = true ->
        draws_before_connection parent1 parent2 i
        < draws_before_connection parent1 parent2 j).
Proof.
  intros parent1 parent2. unfold draws_before_gene, draws_before_connection.
  split; [|split].
  - intros i j Hij Hi. apply below_increases; [exact Hij|now apply shared_gene_listed].
  - intros i j Hi.
    pose proof (below_is_fewer _ i (shared_gene_listed _ _ _ Hi)). lia.
  - intros i j Hij Hi.
    pose proof (below_increases _ i j Hij (shared_connection_listed _ _ _ Hi)). lia.
Qed.

(** [crossover] on two evaluated parents, as its construction and its two
    loops. *)
Lemma crossover_as_loops : forall parent1 parent2 f1 f2 w,
  fitness parent1 = Some f1 ->
  fitness parent2 = Some f2 ->
  let w0 := snd (crossover_construction parent1 parent2 w) in
  let gene_loop :=
    for_each (all_gene_innovations parent1 parent2)
      (crossover_gene (genes parent1) (genes parent2) (Qlt_bool f2 f1)) [] w0 in
  let connection_loop :=
    for_each (all_connection_innovations parent1 parent2)
      (crossover_connection (connections parent1) (connections parent2) (Qlt_bool f2 f1))
      [] (snd gene_loop) in
  fst (crossover parent1 parent2 w)
  = Ok (set_next_node_id
          match fst gene_loop with
          | [] => 0
          | _ :: _ => list_max (dkeys (fst gene_loop)) + 1
          end
          (set_connections (fst connection_loop)
             (set_genes (fst gene_loop) (fst (crossover_construction parent1 parent2 w))))).
Proof.
  intros parent1 parent2 f1 f2 w Hf1 Hf2 w0 gene_loop connection_loop.
  subst w0 gene_loop connection_loop.
  unfold crossover, crossover_construction, all_gene_innovations,
    all_connection_innovations.
  rewrite Hf1, Hf2.
  repeat (rewrite bind_eq; cbv beta iota zeta). unfold ret. cbn [fst snd].
  reflexivity.
Qed.

(** C4: for two parents with a fitness, whose gene dictionaries have
    distinct keys and agree on the node id of every shared innovation
    number, [crossover] returns a child such that
    - a gene innovation present in both parents is taken from parent 1 when
      the value [random.random()] returns in its iteration is below 0.5 and
      from parent 2 otherwise, and is stored under its node id with the bias
      filled in; that value is the draw number [draws_before_gene] after the
      construction of the child, one draw for each shared innovation, in
      ascending order;
    - a gene innovation present in parent 1 only is inherited iff
      [parent1.fitness > parent2.fitness], and one present in parent 2 only
      iff not (so on a tie the genes of parent 2 are the ones inherited);
    - the same holds for the connections, by their innovation number, with
      the draws that follow those of the gene loop;
    - no two shared innovation numbers read the same draw;
    - [next_node_id] is one past the largest inherited node id, or 0 when
      no gene was inherited. *)
Theorem crossover_inherits_by_innovation :
  forall parent1 parent2 f1 f2 w,
    fitness parent1 = Some f1 ->
    fitness parent2 = Some f2 ->
    NoDup (dkeys (genes parent1)) ->
    NoDup (dkeys (genes parent2)) ->
    innovations_aligned (genes parent1) (genes parent2) = true ->
    exists child,
      fst (crossover parent1 parent2 w) = Ok child
      /\ (forall i k1 g1 k2 g2,
            gene_with_innovation i (genes parent1) = Some (k1, g1) ->
            gene_with_innovation i (genes parent2) = Some (k2, g2) ->
            ((gene_draw parent1 parent2 w i < 1 # 2)%Q ->
             dget Nat.eqb k1 (genes child) = Some (with_bias g1))
            /\ ((1 # 2 <= gene_draw parent1 parent2 w i)%Q ->
                dget Nat.eqb k2 (genes child) = Some (with_bias g2)))
      /\ (forall i k1 g1,
            gene_with_innovation i (genes parent1) = Some (k1, g1) ->
            gene_with_innovation i (genes parent2) = None ->
            (inherits_gene i child <-> (f2 < f1)%Q)
            /\ ((f2 < f1)%Q -> dget Nat.eqb k1 (genes child) = Some g1))
      /\ (forall i k2 g2,
            gene_with_innovation i (genes parent1) = None ->
            gene_with_innovation i (genes parent2) = Some (k2, g2) ->
            (inherits_gene i child <-> (f1 <= f2)%Q)
            /\ ((f1 <= f2)%Q -> dget Nat.eqb k2 (genes child) = Some g2))
      /\ (forall i e1 e2,
            conn_with_innovation i (connections parent1) = Some e1 ->
            conn_with_innovation i (connections parent2) = Some e2 ->
            ((connection_draw parent1 parent2 w i < 1 # 2)%Q ->
             dget conn_key_eqb (fst e1) (connections child) = Some (snd e1))
            /\ ((1 # 2 <= connection_draw parent1 parent2 w i)%Q ->
                dget conn_key_eqb (fst e2) (connections child) = Some (snd e2)))
      /\ (forall i e1,
            conn_with_innovation i (connections parent1) = Some e1 ->
            conn_with_innovation i (connections parent2) = None ->
            (inherits_connection i child <-> (f2 < f1)%Q)
            /\ ((f2 < f1)%Q ->
                dget conn_key_eqb (fst e1) (connections child) = Some (snd e1)))
      /\ (forall i e2,
            conn_with_innovation i (connections parent1) = None ->
            conn_with_innovation i (connections parent2) = Some e2 ->
            (inherits_connection i child <-> (f1 <= f2)%Q)
            /\ ((f1 <= f2)%Q ->
                dget conn_key_eqb (fst e2) (connections child) = Some (snd e2)))
      /\ (forall i j, i < j -> in_both_genes parent1 parent2 i = true ->
            draws_before_gene parent1 parent2 i < draws_before_gene parent1 parent2 j)
      /\ (forall i j, in_both_genes parent1 parent2 i = true ->
            draws_before_gene parent1 parent2 i
            < draws_before_connection parent1 parent2 j)
      /\ (forall i j, i < j -> in_both_connections parent1 parent2 i = true ->
            draws_before_connection parent1 parent2 i
            < draws_before_connection parent1 parent2 j)
      /\ next_node_id child
         = match genes child with
           | [] => 0
           | _ :: _ => list_max (dkeys (genes child)) + 1
           end.
Proof.
  intros parent1 parent2 f1 f2 w Hf1 Hf2 U1 U2 Al.
  pose proof (crossover_as_loops parent1 parent2 f1 f2 w Hf1 Hf2) as Hc.
  cbv zeta in Hc. rewrite Hc. clear Hc.
  eexists. split; [reflexivity|].
  cbn [genes connections next_node_id set_next_node_id set_connections set_genes].
  set (w0 := snd (crossover_construction parent1 parent2 w)).
  pose proof (crossover_genes_inherited (genes parent1) (genes parent2)
                (Qlt_bool f2 f1) U1 U2 Al w0) as HG.
  fold (all_gene_innovations parent1 parent2) in HG.
  set (gene_loop :=
         for_each (all_gene_innovations parent1 parent2)
           (crossover_gene (genes parent1) (genes parent2) (Qlt_bool f2 f1)) [] w0) in *.
  pose proof (crossover_connections_inherited (connections parent1)
                (connections parent2) (Qlt_bool f2 f1) (snd gene_loop)) as HC.
  fold (all_connection_innovations parent1 parent2) in HC.
  unfold inherits_gene, inherits_connection.
  cbn [genes connections next_node_id set_next_node_id set_connections set_genes].
  split.
  { intros i k1 g1 k2 g2 E1 E2.
    assert (Hin : In i (all_gene_innovations parent1 parent2)).
    { apply sorted_union_In. left. eapply gene_innovation_listed; eauto. }
    apply in_split in Hin. destruct Hin as (done & todo & Hsplit).
    pose proof (sorted_union_increasing (gene_innovation_numbers (genes parent1))
                  (gene_innovation_numbers (genes parent2))) as Hinc.
    fold (all_gene_innovations parent1 parent2) in Hinc.
    pose proof (sorted_union_NoDup (gene_innovation_numbers (genes parent1))
                  (gene_innovation_numbers (genes parent2))) as Hnd.
    fold (all_gene_innovations parent1 parent2) in Hnd.
    assert (Hdraw : gene_draw parent1 parent2 w i
                    = nth (length (filter (in_both_genes parent1 parent2) done))
                        (rand_reals (w_rng w0)) 0%Q).
    { unfold gene_draw, draws_before_gene, shared_gene_innovations, crossover_draws.
      fold w0. rewrite Hsplit in Hinc |- *.
      now rewrite (below_in_loop_order _ _ _ _ Hinc). }
    rewrite Hdraw. subst gene_loop. rewrite Hsplit in Hnd |- *.
    destruct (shared_gene_by_draw (genes parent1) (genes parent2) (Qlt_bool f2 f1)
                U1 U2 Al done i todo w0 k1 g1 k2 g2 Hnd E1 E2) as [Ha Hb].
    split; intro Hd; [apply Ha; now apply Qlt_bool_true|apply Hb; now apply Qlt_bool_false]. }
  split; [intros i k1 g1 E1 E2; rewrite <- Qlt_bool_true;
          exact (child_gene_only_in_1 _ _ _ _ HG i k1 g1 E1 E2)|].
  split; [intros i k2 g2 E1 E2; rewrite <- Qlt_bool_false;
          exact (child_gene_only_in_2 _ _ _ _ HG i k2 g2 E1 E2)|].
  split.
  { intros i e1 e2 E1 E2.
    assert (Hin : In i (all_connection_innovations parent1 parent2)).
    { apply sorted_union_In. left. eapply conn_innovation_listed; eauto. }
    apply in_split in Hin. destruct Hin as (done & todo & Hsplit).
    pose proof (sorted_union_increasing
                  (connection_innovation_numbers (connections parent1))
                  (connection_innovation_numbers (connections parent2))) as Hinc.
    fold (all_connection_innovations parent1 parent2) in Hinc.
    pose proof (sorted_union_NoDup
                  (connection_innovation_numbers (connections parent1))
                  (connection_innovation_numbers (connections parent2))) as Hnd.
    fold (all_connection_innovations parent1 parent2) in Hnd.
    assert (Hdraw : connection_draw parent1 parent2 w i
                    = nth (length (filter (in_both_connections parent1 parent2) done))
                        (rand_reals (w_rng (snd gene_loop))) 0%Q).
    { unfold connection_draw, draws_before_connection, shared_connection_innovations,
        shared_gene_innovations, crossover_draws.
      fold w0. subst gene_loop.
      rewrite (for_each_reals (in_both_genes parent1 parent2)
                 (crossover_gene (genes parent1) (genes parent2) (Qlt_bool f2 f1))
                 (crossover_gene_reals (genes parent1) (genes parent2) (Qlt_bool f2 f1))).
      rewrite nth_skipn. rewrite Hsplit in Hinc |- *.
      now rewrite (below_in_loop_order _ _ _ _ Hinc). }
    rewrite Hdraw. rewrite Hsplit in Hnd |- *.
    destruct (shared_connection_by_draw (connections parent1) (connections parent2)
                (Qlt_bool f2 f1) done i todo (snd gene_loop) e1 e2 Hnd E1 E2) as [Ha Hb].
    split; intro Hd; [apply Ha; now apply Qlt_bool_true|apply Hb; now apply Qlt_bool_false]. }
  split; [intros i e1 E1 E2; rewrite <- Qlt_bool_true;
          exact (child_conn_only_in_1 _ _ _ _ HC i e1 E1 E2)|].
  split; [intros i e2 E1 E2; rewrite <- Qlt_bool_false;
          exact (child_conn_only_in_2 _ _ _ _ HC i e2 E1 E2)|].
  destruct (draws_in_loop_order parent1 parent2) as (D1 & D2 & D3).
  split; [exact D1|]. split; [exact D2|]. split; [exact D3|].
  destruct (fst gene_loop); reflexivity.
Qed.

(** C4, on a tie.  [parent_a_tied] and [parent_b] have the same fitness 1,
    so neither is the fitter one.  The gene of innovation 11, which only
    parent 2 has, is inherited, and the gene of innovation 8, which only
    parent 1 has, is not; with the parents exchanged it is the other way
    round. *)
Lemma crossover_tie_inherits_from_parent2 :
  fitness parent_a_tied = Some 1%Q
  /\ fitness parent_b = Some 1%Q
  /\ gene_with_innovation 8 (genes parent_a_tied)
     = Some (5, mkGene Hidden Relu 8 (Some (0 # 2)%Q))
  /\ gene_with_innovation 8 (genes parent_b) = None
  /\ gene_with_innovation 11 (genes parent_a_tied) = None
  /\ gene_with_innovation 11 (genes parent_b)
     = Some (5, mkGene Hidden Relu 11 (Some (0 # 2)%Q))
  /\ child_gene_innovations (fst (crossover parent_a_tied parent_b (chain_world [])))
     = [1; 2; 3; 4; 11]
  /\ child_gene_innovations (fst (crossover parent_b parent_a_tied (chain_world [])))
     = [1; 2; 3; 4; 8].
Proof. vm_compute. repeat split. Qed.

(** The theorem applies to [parent_a] (fitness 2) and [parent_b_moved]
    (fitness 1) in [crossover_world].  The draws for the shared gene
    innovations 2 and 3 are 1/4 and 3/4: the child has the hidden node 1 of
    [parent_a] (bias 1/2) and the hidden node 2 of [parent_b_moved] (bias
    1).  The draw for the shared connection innovation 7 is 3/4: the child
    has the weight 5 of [parent_b_moved].  The gene 8 and the connection 9
    of the fitter [parent_a] are inherited, the gene 11 and the connection
    12 of [parent_b_moved] are not. *)
Lemma crossover_inherits_by_innovation_parents :
  fitness parent_a = Some 2%Q
  /\ fitness parent_b_moved = Some 1%Q
  /\ NoDup (dkeys (genes parent_a))
  /\ NoDup (dkeys (genes parent_b_moved))
  /\ innovations_aligned (genes parent_a) (genes parent_b_moved) = true
  /\ gene_draw parent_a parent_b_moved crossover_world 2 = (1 # 4)%Q
  /\ gene_draw parent_a parent_b_moved crossover_world 3 = (3 # 4)%Q
  /\ connection_draw parent_a parent_b_moved crossover_world 7 = (3 # 4)%Q
  /\ exists child,
       fst (crossover parent_a parent_b_moved crossover_world) = Ok child
       /\ dget Nat.eqb 1 (genes child) = Some (mkGene Hidden Relu 2 (Some (2 # 4)%Q))
       /\ dget Nat.eqb 2 (genes child) = Some (mkGene Hidden Relu 3 (Some 1%Q))
       /\ (inherits_gene 8 child <-> (1 < 2)%Q)
       /\ (inherits_gene 11 child <-> (2 <= 1)%Q)
       /\ dget conn_key_eqb (2, 3, 7) (connections child) = Some 5%Q
       /\ (inherits_connection 9 child <-> (1 < 2)%Q)
       /\ (inherits_connection 12 child <-> (2 <= 1)%Q).
Proof.
  assert (H1 : fitness parent_a = Some 2%Q) by reflexivity.
  assert (H2 : fitness parent_b_moved = Some 1%Q) by reflexivity.
  assert (U1 : NoDup (dkeys (genes parent_a))).
  { vm_compute. repeat constructor; simpl; intuition discriminate. }
  assert (U2 : NoDup (dkeys (genes parent_b_moved))).
  { vm_compute. repeat constructor; simpl; intuition discriminate. }
  assert (Al : innovations_aligned (genes parent_a) (genes parent_b_moved) = true)
    by (vm_compute; reflexivity).
  assert (D2 : gene_draw parent_a parent_b_moved crossover_world 2 = (1 # 4)%Q)
    by (vm_compute; reflexivity).
  assert (D3 : gene_draw parent_a parent_b_moved crossover_world 3 = (3 # 4)%Q)
    by (vm_compute; reflexivity).
  assert (D7 : connection_draw parent_a parent_b_moved crossover_world 7 = (3 # 4)%Q)
    by (vm_compute; reflexivity).
  assert (A2 : gene_with_innovation 2 (genes parent_a)
               = Some (1, mkGene Hidden Relu 2 (Some (2 # 4)%Q)))
    by (vm_compute; reflexivity).
  assert (B2 : gene_with_innovation 2 (genes parent_b_moved)
               = Some (1, mkGene Hidden Relu 2 (Some 1%Q)))
    by (vm_compute; reflexivity).
  assert (A3 : gene_with_innovation 3 (genes parent_a)
               = Some (2, mkGene Hidden Relu 3 (Some (2 # 4)%Q)))
    by (vm_compute; reflexivity).
  assert (B3 : gene_with_innovation 3 (genes parent_b_moved)
               = Some (2, mkGene Hidden Relu 3 (Some 1%Q)))
    by (vm_compute; reflexivity).
  assert (A8 : gene_with_innovation 8 (genes parent_a)
               = Some (5, mkGene Hidden Relu 8 (Some (0 # 2)%Q)))
    by (vm_compute; reflexivity).
  assert (B8 : gene_with_innovation 8 (genes parent_b_moved) = None)
    by (vm_compute; reflexivity).
  assert (A11 : gene_with_innovation 11 (genes parent_a) = None)
    by (vm_compute; reflexivity).
  assert (B11 : gene_with_innovation 11 (genes parent_b_moved)
                = Some (5, mkGene Hidden Relu 11 (Some (0 # 2)%Q)))
    by (vm_compute; reflexivity).
  assert (A7 : conn_with_innovation 7 (connections parent_a) = Some ((2, 3, 7), 3%Q))
    by (vm_compute; reflexivity).
  assert (B7 : conn_with_innovation 7 (connections parent_b_moved) = Some ((2, 3, 7), 5%Q))
    by (vm_compute; reflexivity).
  assert (A9 : conn_with_innovation 9 (connections parent_a) = Some ((1, 4, 9), 1%Q))
    by (vm_compute; reflexivity).
  assert (B9 : conn_with_innovation 9 (connections parent_b_moved) = None)
    by (vm_compute; reflexivity).
  assert (A12 : conn_with_innovation 12 (connections parent_a) = None)
    by (vm_compute; reflexivity).
  assert (B12 : conn_with_innovation 12 (connections parent_b_moved)
                = Some ((0, 4, 12), 1%Q))
    by (vm_compute; reflexivity).
  split; [exact H1|]. split; [exact H2|]. split; [exact U1|]. split; [exact U2|].
  split; [exact Al|]. split; [exact D2|]. split; [exact D3|]. split; [exact D7|].
  destruct (crossover_inherits_by_innovation parent_a parent_b_moved 2%Q 1%Q
              crossover_world H1 H2 U1 U2 Al)
    as (child & Hc & Hg & Hg1 & Hg2 & Hk & Hk1 & Hk2 & _).
  exists child. split; [exact Hc|].
  split.
  { destruct (Hg 2 _ _ _ _ A2 B2) as [Ha _]. apply Ha. rewrite D2. reflexivity. }
  split.
  { destruct (Hg 3 _ _ _ _ A3 B3) as [_ Hb]. apply Hb. rewrite D3. discriminate. }
  split; [exact (proj1 (Hg1 8 _ _ A8 B8))|].
  split; [exact (proj1 (Hg2 11 _ _ A11 B11))|].
  split.
  { destruct (Hk 7 _ _ A7 B7) as [_ Hb]. apply Hb. rewrite D7. discriminate. }
  split; [exact (proj1 (Hk1 9 _ A9 B9))|exact (proj1 (Hk2 12 _ A12 B12))].
Defined.

(** The child of [parent_a] and [parent_b], computed: it has the genes and
    connections of the fitter [parent_a] (the shared ones included), none of
    those only [parent_b] has, and [next_node_id] 6. *)
Example crossover_of_parents :
  match fst (crossover parent_a parent_b (chain_world [])) with
  | Ok child =>
      gene_innovation_numbers (genes child) = [1; 2; 3; 4; 8]
      /\ dkeys (genes child) = [0; 1; 2; 3; 5]
      /\ dkeys (connections child) = [(0, 1, 5); (2, 3, 7); (1, 4, 9); (4, 2, 10)]
      /\ next_node_id child = 6
  | _ => False
  end.
Proof. vm_compute. repeat split. Qed.

(* ------------------------------------------------------------------ *)
(** * [StagnationManager.update] (claim C8) *)

(** C8 (the code departs from the claim): [update] looks a species up in
    [sorted_species] under its current [best_fitness], and the list stores it
    under the value it had when it was added.  After the best fitness of
    species A has risen from 10 to 11, A is not found and is added again, so
    the second call judges A twice and ranks it twice.  With [elitism = 2]
    both protected places go to A: species B, second best of three by its
    best member (5 against 11 and 1), keeps its raw flag and is reported
    stagnant, one generation after its last improvement with
    [max_stagnation = 1]. *)
Theorem elitism_places_taken_twice :
  map snd (sorted_species (fst (fst generation_0))) = [2; 1; 0]
  /\ snd generation_0 = [(2, false); (1, false); (0, false)]
  /\ map best_member (map three_species_later [0; 1; 2]) = [Some 11%Q; Some 5%Q; Some 1%Q]
  /\ elitism (fst (fst generation_0)) = 2%Z
  /\ max_stagnation (fst (fst generation_0)) = 1%Z
  /\ tracked_species (fst (fst generation_0)) three_species_later [0; 1; 2] = [2; 1; 0; 0]
  /\ protected_species (fst (fst generation_0)) three_species_later 1
       (tracked_species (fst (fst generation_0)) three_species_later [0; 1; 2]) = [0; 0]
  /\ dget Nat.eqb 0 (snd generation_1) = Some false
  /\ dget Nat.eqb 1 (snd generation_1) = Some true
  /\ dget Nat.eqb 2 (snd generation_1) = Some true.
Proof. vm_compute. repeat split. Qed.



Lemma heap_set_same : forall heap spec s, heap_set heap spec s spec = s.
Proof. intros. unfold heap_set. now rewrite Nat.eqb_refl. Qed.

Lemma heap_set_other : forall heap spec s r, r <> spec -> heap_set heap spec s r = heap r.
Proof.
  intros heap spec s r H. unfold heap_set.
  apply Nat.eqb_neq in H. now rewrite H.
Qed.

Lemma update_historical_keeps : forall heap spec f r,
  members (update_historical_best_fitness heap spec f r) = members (heap r)
  /\ best_fitness (update_historical_best_fitness heap spec f r) = best_fitness (heap r).
Proof.
  intros heap spec f r. unfold update_historical_best_fitness, heap_set.
  destruct (Nat.eqb r spec) eqn:E; [|auto].
  apply Nat.eqb_eq in E. subst. auto.
Qed.

Section JudgeSpecies.
Variables max_stag generation : Z.

Lemma judge_species_at : forall st a,
  let st1 := judge_species max_stag generation st a in
  let flag := flag_of max_stag generation (st_last_improved st) (st_heap st) a in
  dget Nat.eqb a (st_status st1) = Some flag
  /\ st_results st1 = st_results st ++ [(a, flag)]
  /\ (refreshed (st_last_improved st) (st_heap st) a ->
      dget Nat.eqb a (st_last_improved st1) = Some generation)
  /\ (forall s, s <> a ->
        dget Nat.eqb s (st_status st1) = dget Nat.eqb s (st_status st)
        /\ dget Nat.eqb s (st_last_improved st1) = dget Nat.eqb s (st_last_improved st)
        /\ st_heap st1 s = st_heap st s)
  /\ (forall s, members (st_heap st1 s) = members (st_heap st s)
                /\ best_fitness (st_heap st1 s) = best_fitness (st_heap st s)).
Proof.
  intros st a. cbv zeta. unfold judge_species, flag_of, refreshed.
  destruct (dget Nat.eqb a (st_last_improved st)) as [last|] eqn:El.
  - unfold get_historical_best_fitness.
    destruct (Qlt_bool (historical_best_fitness (st_heap st a)) (best_fitness (st_heap st a)))
      eqn:Ei; cbn [st_status st_results st_last_improved st_heap].
    + split; [apply (dget_dset_same Nat.eqb Nat.eqb_eq)|].
      split; [reflexivity|].
      split; [intros _; apply (dget_dset_same Nat.eqb Nat.eqb_eq)|].
      split.
      * intros s Hs. rewrite !(dget_dset_other Nat.eqb Nat.eqb_eq) by exact Hs.
        split; [reflexivity|]. split; [reflexivity|].
        unfold update_historical_best_fitness. now apply heap_set_other.
      * intro s. apply update_historical_keeps.
    + split; [apply (dget_dset_same Nat.eqb Nat.eqb_eq)|].
      split; [reflexivity|].
      split; [intros [H|H]; discriminate H|].
      split.
      * intros s Hs. rewrite !(dget_dset_other Nat.eqb Nat.eqb_eq) by exact Hs. auto.
      * auto.
  - cbn [st_status st_results st_last_improved st_heap].
    split; [apply (dget_dset_same Nat.eqb Nat.eqb_eq)|].
    split; [reflexivity|].
    split; [intros _; apply (dget_dset_same Nat.eqb Nat.eqb_eq)|].
    split.
    + intros s Hs. rewrite !(dget_dset_other Nat.eqb Nat.eqb_eq) by exact Hs.
      split; [reflexivity|]. split; [reflexivity|].
      unfold update_historical_best_fitness. now apply heap_set_other.
    + intro s. apply update_historical_keeps.
Qed.

Lemma flag_of_frame : forall li1 li0 (h1 h0 : SpeciesHeap) s,
  dget Nat.eqb s li1 = dget Nat.eqb s li0 -> h1 s = h0 s ->
  flag_of max_stag generation li1 h1 s = flag_of max_stag generation li0 h0 s.
Proof. intros li1 li0 h1 h0 s Hl Hh. unfold flag_of. now rewrite Hl, Hh. Qed.

Lemma refreshed_frame : forall li1 li0 (h1 h0 : SpeciesHeap) s,
  dget Nat.eqb s li1 = dget Nat.eqb s li0 -> h1 s = h0 s ->
  refreshed li0 h0 s -> refreshed li1 h1 s.
Proof. intros li1 li0 h1 h0 s Hl Hh. unfold refreshed. now rewrite Hl, Hh. Qed.

(** The second loop over a duplicate-free list judges every species on the
    state before the loop. *)
Lemma judge_all : forall l st,
  NoDup l ->
  let st' := fold_left (judge_species max_stag generation) l st in
  st_results st'
  = st_results st
    ++ map (fun s => (s, flag_of max_stag generation (st_last_improved st) (st_heap st) s)) l
  /\ (forall s, In s l ->
        dget Nat.eqb s (st_status st')
        = Some (flag_of max_stag generation (st_last_improved st) (st_heap st) s)
        /\ (refreshed (st_last_improved st) (st_heap st) s ->
            dget Nat.eqb s (st_last_improved st') = Some generation))
  /\ (forall s, ~ In s l ->
        dget Nat.eqb s (st_status st') = dget Nat.eqb s (st_status st)
        /\ dget Nat.eqb s (st_last_improved st') = dget Nat.eqb s (st_last_improved st)
        /\ st_heap st' s = st_heap st s)
  /\ (forall s, members (st_heap st' s) = members (st_heap st s)
                /\ best_fitness (st_heap st' s) = best_fitness (st_heap st s)).
Proof.
  induction l as [|a r IH]; intros st Hnd; cbv zeta; simpl.
  - rewrite app_nil_r. repeat split; intros; try contradiction; auto.
  - inversion Hnd as [|? ? Ha Hr]; subst.
    destruct (judge_species_at st a) as (S1 & S2 & S3 & S4 & S5).
    destruct (IH (judge_species max_stag generation st a) Hr) as (R1 & R2 & R3 & R4).
    cbv zeta in *.
    assert (Hflag : forall s, In s r ->
              flag_of max_stag generation
                (st_last_improved (judge_species max_stag generation st a))
                (st_heap (judge_species max_stag generation st a)) s
              = flag_of max_stag generation (st_last_improved st) (st_heap st) s).
    { intros s Hs. assert (s <> a) by (intros ->; contradiction).
      destruct (S4 s H) as (_ & Hl & Hh). now apply flag_of_frame. }
    split; [|split; [|split]].
    + rewrite R1, S2, <- app_assoc. simpl. do 2 f_equal.
      apply map_ext_in. intros s Hs. now rewrite Hflag.
    + intros s [<-|Hs].
      * destruct (R3 a Ha) as (E1 & E2 & _). rewrite E1, E2. split; [exact S1|exact S3].
      * destruct (R2 s Hs) as (E1 & E2). rewrite E1, Hflag by exact Hs.
        split; [reflexivity|]. intro Hf. apply E2.
        assert (s <> a) by (intros ->; contradiction).
        destruct (S4 s H) as (_ & Hl & Hh). eapply refreshed_frame; eauto.
    + intros s Hs. assert (s <> a) by (intros ->; apply Hs; now left).
      assert (~ In s r) by (intro Hr'; apply Hs; now right).
      destruct (R3 s H0) as (E1 & E2 & E3). destruct (S4 s H) as (F1 & F2 & F3).
      rewrite E1, E2, E3. auto.
    + intro s. destruct (R4 s) as (E1 & E2). destruct (S5 s) as (F1 & F2).
      rewrite E1, E2. auto.
Qed.

End JudgeSpecies.

Lemma best_member_ext : forall (h1 h2 : SpeciesHeap) s,
  members (h1 s) = members (h2 s) -> best_member (h1 s) = best_member (h2 s).
Proof. intros h1 h2 s H. unfold best_member. now rewrite H. Qed.

Lemma insert_desc_ext : forall (h1 h2 : SpeciesHeap),
  (forall s, members (h1 s) = members (h2 s)) ->
  forall x l, insert_desc h1 x l = insert_desc h2 x l.
Proof.
  intros h1 h2 H x. induction l as [|y r IH]; simpl; auto.
  rewrite (best_member_ext h1 h2 (fst x)), (best_member_ext h1 h2 (fst y)), IH by apply H.
  reflexivity.
Qed.

Lemma sort_desc_ext : forall (h1 h2 : SpeciesHeap),
  (forall s, members (h1 s) = members (h2 s)) ->
  forall l, sort_desc h1 l = sort_desc h2 l.
Proof.
  intros h1 h2 H. induction l as [|x r IH]; simpl; auto.
  rewrite IH. now apply insert_desc_ext.
Qed.

Lemma insert_desc_perm : forall heap x l, Permutation (x :: l) (insert_desc heap x l).
Proof.
  intros heap x. induction l as [|y r IH]; simpl; auto.
  destruct (key_lt _ _); auto.
  eapply perm_trans; [apply perm_swap|]. now apply perm_skip.
Qed.

Lemma sort_desc_perm : forall heap l, Permutation l (sort_desc heap l).
Proof.
  intros heap. induction l as [|x r IH]; simpl; auto.
  eapply perm_trans; [apply perm_skip, IH|apply insert_desc_perm].
Qed.

Lemma sort_desc_length : forall heap l, length (sort_desc heap l) = length l.
Proof. intros. symmetry. apply Permutation_length, sort_desc_perm. Qed.

Lemma protect_all : forall (top : list (SpeciesRef * bool)) status s,
  dget Nat.eqb s (fold_left (fun status r => dset Nat.eqb (fst r) false status) top status)
  = if existsb (Nat.eqb s) (map fst top) then Some false else dget Nat.eqb s status.
Proof.
  induction top as [|x r IH]; intros status s; simpl; auto.
  rewrite IH. destruct (Nat.eqb s (fst x)) eqn:E; simpl.
  - apply Nat.eqb_eq in E. subst.
    rewrite (dget_dset_same Nat.eqb Nat.eqb_eq).
    now destruct (existsb _ _).
  - apply Nat.eqb_neq in E.
    now rewrite (dget_dset_other Nat.eqb Nat.eqb_eq).
Qed.

(** The ranking used for the protected species is a permutation of the
    judged species in which no species comes after one with a strictly
    smaller best member. *)
Lemma insert_desc_sorted : forall heap x l,
  StronglySorted (fun a b => key_lt (best_member (heap (fst a)))
                                    (best_member (heap (fst b))) = false) l ->
  (forall a b c, key_lt a b = false -> key_lt b c = false -> key_lt a c = false) ->
  StronglySorted (fun a b => key_lt (best_member (heap (fst a)))
                                    (best_member (heap (fst b))) = false)
                 (insert_desc heap x l).
Proof.
  intros heap x l Hs Htrans. induction Hs as [|y r Hr IH Hy]; simpl.
  - constructor; constructor.
  - destruct (key_lt (best_member (heap (fst x))) (best_member (heap (fst y)))) eqn:E.
    + constructor; [exact IH|].
      apply (Permutation_Forall (insert_desc_perm heap x r)).
      constructor; [|exact Hy].
      destruct (best_member (heap (fst x))) as [a|], (best_member (heap (fst y))) as [b|];
        simpl in *; try discriminate; auto.
      apply Qlt_bool_true in E. apply Qlt_bool_false. now apply Qlt_le_weak.
    + constructor; [constructor; assumption|].
      constructor; [exact E|].
      rewrite Forall_forall in *. intros z Hz. eapply Htrans; [exact E|now apply Hy].
Qed.

Lemma key_lt_false_trans : forall a b c,
  key_lt a b = false -> key_lt b c = false -> key_lt a c = false.
Proof.
  intros [a|] [b|] [c|]; simpl; intros H1 H2; try discriminate; auto.
  apply Qlt_bool_false in H1, H2. apply Qlt_bool_false. eapply Qle_trans; eauto.
Qed.

Lemma sort_desc_ranked : forall heap l,
  Permutation l (sort_desc heap l)
  /\ StronglySorted (fun a b => key_lt (best_member (heap (fst a)))
                                       (best_member (heap (fst b))) = false)
                    (sort_desc heap l).
Proof.
  intros heap l. split; [apply sort_desc_perm|].
  induction l as [|x r IH]; simpl; [constructor|].
  apply insert_desc_sorted; [exact IH|exact key_lt_false_trans].
Qed.

(* ------------------------------------------------------------------ *)
(** * [StagnationManager.update] when every species is stored once *)

Lemma StronglySorted_app_In : forall {A} (R : A -> A -> Prop) l1 l2 a b,
  StronglySorted R (l1 ++ l2) -> In a l1 -> In b l2 -> R a b.
Proof.
  intros A R l1 l2 a b. induction l1 as [|x r IH]; intros Hs Ha Hb; [destruct Ha|].
  simpl in Hs. inversion Hs as [|? ? Hs' Hx]; subst.
  destruct Ha as [<-|Ha]; [|now apply IH].
  rewrite Forall_forall in Hx. apply Hx. apply in_or_app. now right.
Qed.

Lemma StronglySorted_app_l : forall {A} (R : A -> A -> Prop) l1 l2,
  StronglySorted R (l1 ++ l2) -> StronglySorted R l1.
Proof.
  intros A R l1 l2. induction l1 as [|x r IH]; intro Hs; [constructor|].
  simpl in Hs. inversion Hs as [|? ? Hs' Hx]; subst.
  constructor; [now apply IH|].
  rewrite Forall_forall in *. intros z Hz. apply Hx. apply in_or_app. now left.
Qed.

(** ** The best member of a species *)

Lemma py_max_cases : forall a b,
  (py_max a b = a \/ py_max a b = b) /\ (a <= py_max a b)%Q /\ (b <= py_max a b)%Q.
Proof.
  intros a b. unfold py_max. destruct (Qlt_bool a b) eqn:E.
  - apply Qlt_bool_true in E. repeat split; auto using Qlt_le_weak, Qle_refl.
  - apply Qlt_bool_false in E. repeat split; auto using Qle_refl.
Qed.

Lemma fold_py_max : forall r f,
  (fold_left py_max r f = f \/ In (fold_left py_max r f) r)
  /\ (f <= fold_left py_max r f)%Q
  /\ (forall x, In x r -> (x <= fold_left py_max r f)%Q).
Proof.
  induction r as [|y r IH]; intro f; cbn [fold_left].
  - repeat split; auto using Qle_refl. intros x [].
  - destruct (IH (py_max f y)) as (H1 & H2 & H3).
    destruct (py_max_cases f y) as (Hc & Hf & Hy).
    repeat split.
    + destruct H1 as [H1|H1]; [|right; now right].
      rewrite H1. destruct Hc as [->| ->]; [now left|right; now left].
    + eapply Qle_trans; eauto.
    + intros x [<-|Hx]; [eapply Qle_trans; eauto|now apply H3].
Qed.

(** [max(g.fitness for g in members)] is the fitness of a member and no
    member has a larger one. *)
Lemma best_member_is_max : forall s m,
  best_member s = Some m ->
  In m (members s) /\ forall f, In f (members s) -> (f <= m)%Q.
Proof.
  intros s m. unfold best_member. destruct (members s) as [|f r]; [discriminate|].
  intro H. injection H as <-. destruct (fold_py_max r f) as (H1 & H2 & H3).
  split.
  - destruct H1 as [->|H1]; [now left|now right].
  - intros x [<-|Hx]; auto.
Qed.

Lemma best_member_none : forall s, best_member s = None -> members s = [].
Proof. intro s. unfold best_member. now destruct (members s). Qed.

(** What the order of the sorted results means for two species. *)
Lemma key_lt_false_ranks : forall (heap : SpeciesHeap) a b,
  key_lt (best_member (heap a)) (best_member (heap b)) = false ->
  ranks_not_below heap a b.
Proof.
  intros heap a b H fb Hfb.
  destruct (best_member (heap b)) as [mb|] eqn:Eb.
  2:{ apply best_member_none in Eb. rewrite Eb in Hfb. destruct Hfb. }
  destruct (best_member (heap a)) as [ma|] eqn:Ea; [|discriminate H].
  cbn [key_lt] in H. apply Qlt_bool_false in H.
  apply best_member_is_max in Ea, Eb. destruct Ea as [Ia _], Eb as [_ Mb].
  exists ma. split; [exact Ia|]. eapply Qle_trans; [apply Mb; exact Hfb|exact H].
Qed.

(** ** The protected species *)

Lemma protected_species_ranked : forall mgr heap generation tracked,
  NoDup tracked ->
  let protected := protected_species mgr heap generation tracked in
  length protected = Z.to_nat (Z.min (elitism mgr) (Z.of_nat (length tracked)))
  /\ NoDup protected
  /\ (forall p, In p protected -> In p tracked)
  /\ (forall p u, In p protected -> In u tracked -> ~ In u protected ->
        ranks_not_below heap p u).
Proof.
  intros mgr heap generation tracked Hnd. cbv zeta. unfold protected_species.
  set (L := map (fun s => (s, raw_stagnant mgr heap generation s)) tracked).
  set (k := Z.to_nat (Z.min (elitism mgr) (Z.of_nat (length tracked)))).
  destruct (sort_desc_ranked heap L) as [Hperm Hsorted].
  set (sorted := sort_desc heap L) in *.
  assert (HL : map fst L = tracked).
  { unfold L. rewrite map_map. cbn [fst]. apply map_id. }
  assert (Hperm' : Permutation tracked (map fst sorted)).
  { rewrite <- HL. now apply Permutation_map. }
  assert (Hsplit : sorted = firstn k sorted ++ skipn k sorted)
    by (symmetry; apply firstn_skipn).
  assert (Hnd' : NoDup (map fst (firstn k sorted) ++ map fst (skipn k sorted))).
  { rewrite <- map_app, <- Hsplit. eapply Permutation_NoDup; eauto. }
  split; [|split; [|split]].
  - rewrite length_map, length_firstn.
    assert (length sorted = length tracked).
    { unfold sorted. rewrite sort_desc_length. unfold L. apply length_map. }
    unfold k in *. lia.
  - eapply NoDup_app_remove_r. exact Hnd'.
  - intros p Hp. apply (Permutation_in _ (Permutation_sym Hperm')).
    rewrite Hsplit, map_app. apply in_or_app. now left.
  - intros p u Hp Hu Hnu.
    apply (Permutation_in _ Hperm') in Hu. rewrite Hsplit, map_app in Hu.
    apply in_app_or in Hu. destruct Hu as [Hu|Hu]; [contradiction|].
    apply in_map_iff in Hp. destruct Hp as (a & <- & Ha).
    apply in_map_iff in Hu. destruct Hu as (b & <- & Hb).
    apply key_lt_false_ranks. rewrite Hsplit in Hsorted.
    exact (StronglySorted_app_In _ _ _ a b Hsorted Ha Hb).
Qed.

(** ** The keys of [sorted_species] after the first loop *)

Lemma sl_add_In : forall key spec l e,
  In e (sl_add key spec l) <-> e = (key, spec) \/ In e l.
Proof.
  intros key spec l e. induction l as [|x r IH]; cbn [sl_add].
  - simpl. intuition.
  - destruct (Qle_bool (fst x) key); simpl; rewrite ?IH; intuition.
Qed.

Lemma sl_remove_keeps : forall key spec l e,
  In e l -> Qeq_bool (fst e) key && Nat.eqb (snd e) spec = false ->
  In e (sl_remove key spec l).
Proof.
  intros key spec l e Hin Hne. induction l as [|x r IH]; [destruct Hin|].
  cbn [sl_remove]. destruct Hin as [->|Hin].
  - match goal with
    | |- In _ (if ?c then _ else _) => replace c with false by (symmetry; exact Hne)
    end.
    now left.
  - match goal with |- In _ (if ?c then _ else _) => destruct c end; [exact Hin|].
    right. now apply IH.
Qed.

Lemma track_species_adds : forall heap l spec,
  In (best_fitness (heap spec), spec) (track_species heap l spec).
Proof.
  intros heap l spec. unfold track_species.
  destruct (sl_contains _ _ _); apply sl_add_In; now left.
Qed.

Lemma track_species_keeps : forall heap l spec e,
  In e l ->
  snd e <> spec \/ Qeq_bool (fst e) (best_fitness (heap (snd e))) = false ->
  In e (track_species heap l spec).
Proof.
  intros heap l spec e Hin Hne. unfold track_species.
  destruct (sl_contains _ _ _); apply sl_add_In; right; [|exact Hin].
  apply sl_remove_keeps; [exact Hin|].
  apply andb_false_iff. destruct (Nat.eq_dec (snd e) spec) as [E|E].
  - left. destruct Hne as [Hne|Hne]; [contradiction|]. subst spec. exact Hne.
  - right. now apply Nat.eqb_neq.
Qed.

(** An element stored under a key that is not its current best fitness
    stays where it is. *)
Lemma track_keeps_stale : forall heap species_list l e,
  In e l -> Qeq_bool (fst e) (best_fitness (heap (snd e))) = false ->
  In e (fold_left (track_species heap) species_list l).
Proof.
  intros heap species_list. induction species_list as [|s r IH]; intros l e Hin Hst.
  - exact Hin.
  - cbn [fold_left]. apply IH; [|exact Hst]. apply track_species_keeps; auto.
Qed.

(** A listed species is stored under its current best fitness. *)
Lemma track_stores_current : forall heap species_list l spec,
  In (best_fitness (heap spec), spec) l \/ In spec species_list ->
  In (best_fitness (heap spec), spec) (fold_left (track_species heap) species_list l).
Proof.
  intros heap species_list. induction species_list as [|s r IH]; intros l spec H.
  - destruct H as [H|[]]. exact H.
  - cbn [fold_left]. apply IH.
    destruct (Nat.eq_dec s spec) as [->|Hne].
    + left. apply track_species_adds.
    + destruct H as [H|[H|H]]; [left|contradiction|now right].
      apply track_species_keeps; [exact H|]. left. cbn [snd]. congruence.
Qed.

Lemma NoDup_map_agree : forall {A B} (f : A -> B) l a b,
  NoDup (map f l) -> In a l -> In b l -> f a = f b -> a = b.
Proof.
  intros A B f l a b. induction l as [|x r IH]; intros Hnd Ha Hb Hf; [destruct Ha|].
  cbn [map] in Hnd. inversion Hnd as [|? ? Hx Hr]; subst.
  destruct Ha as [->|Ha], Hb as [->|Hb]; auto.
  - exfalso. apply Hx. rewrite Hf. now apply in_map.
  - exfalso. apply Hx. rewrite <- Hf. now apply in_map.
Qed.

Lemma stored_once_under_current_key : forall mgr heap species_list spec key,
  NoDup (tracked_species mgr heap species_list) ->
  In spec species_list ->
  In (key, spec) (sorted_species mgr) ->
  (key == best_fitness (heap spec))%Q.
Proof.
  intros mgr heap species_list spec key Hnd Hin Hst. unfold tracked_species in Hnd.
  destruct (Qeq_bool key (best_fitness (heap spec))) eqn:E;
    [now apply Qeq_bool_iff in E|].
  exfalso.
  pose proof (track_keeps_stale heap species_list _ (key, spec) Hst E) as H1.
  pose proof (track_stores_current heap species_list (sorted_species mgr) spec
                (or_intror Hin)) as H2.
  pose proof (NoDup_map_agree snd _ _ _ Hnd H1 H2 eq_refl) as Heq.
  injection Heq as Hk. rewrite Hk in E.
  rewrite (proj2 (Qeq_bool_iff _ _) (Qeq_refl _)) in E. discriminate.
Qed.

(** The species judged are the listed ones and those already stored. *)
Lemma sl_remove_In : forall key spec l e, In e (sl_remove key spec l) -> In e l.
Proof.
  intros key spec l e. induction l as [|x r IH]; cbn [sl_remove]; [auto|].
  match goal with |- In _ (if ?c then _ else _) -> _ => destruct c end; simpl; intuition.
Qed.

Lemma tracked_origin : forall heap species_list l e,
  In e (fold_left (track_species heap) species_list l) ->
  In e l \/ In (snd e) species_list.
Proof.
  intros heap species_list. induction species_list as [|s r IH]; intros l e H.
  - now left.
  - cbn [fold_left] in H. apply IH in H. destruct H as [H|H]; [|right; now right].
    unfold track_species in H.
    destruct (sl_contains _ _ _); apply sl_add_In in H; destruct H as [->|H];
      try (right; now left); left; [now apply sl_remove_In in H|exact H].
Qed.

(** X1: [update] when every species is stored once in [sorted_species]
    after the first loop (the species judged, [tracked]).
    - The protected species are [min(elitism, n)] of the [n] species judged,
      and each of them ranks not below every species judged that is not
      protected: no member of the latter is fitter than every member of the
      former.
    - Every listed species is judged, and a species judged is listed or was
      stored before the call.  A listed species that was stored before the
      call was stored under its current [best_fitness] (otherwise it would
      be stored twice).
    - A species judged is reported non-stagnant if it is protected, and
      otherwise gets its raw flag: false when it is seen for the first time
      or its [best_fitness] exceeds its historical best, else
      [generation - last_improved >= max_stagnation]; the last-improved
      generation of a new or improved species is set to [generation]. *)
Theorem update_flags_when_tracked_once : forall mgr heap species_list generation,
  let tracked := tracked_species mgr heap species_list in
  let protected := protected_species mgr heap generation tracked in
  let result := update mgr heap species_list generation in
  NoDup tracked ->
  (length protected = Z.to_nat (Z.min (elitism mgr) (Z.of_nat (length tracked)))
   /\ NoDup protected
   /\ (forall p, In p protected -> In p tracked)
   /\ (forall p u, In p protected -> In u tracked -> ~ In u protected ->
         ranks_not_below heap p u))
  /\ (forall spec, In spec species_list -> In spec tracked)
  /\ (forall spec, In spec tracked ->
        In spec species_list \/ In spec (map snd (sorted_species mgr)))
  /\ (forall spec key, In spec species_list -> In (key, spec) (sorted_species mgr) ->
        (key == best_fitness (heap spec))%Q)
  /\ forall spec, In spec tracked ->
    dget Nat.eqb spec (snd result)
    = Some (if existsb (Nat.eqb spec) protected then false
            else raw_stagnant mgr heap generation spec)
    /\ (dget Nat.eqb spec (species_last_improved mgr) = None ->
        raw_stagnant mgr heap generation spec = false
        /\ dget Nat.eqb spec (species_last_improved (fst (fst result))) = Some generation)
    /\ (forall last,
          dget Nat.eqb spec (species_last_improved mgr) = Some last ->
          ((historical_best_fitness (heap spec) < best_fitness (heap spec))%Q ->
           raw_stagnant mgr heap generation spec = false
           /\ dget Nat.eqb spec (species_last_improved (fst (fst result))) = Some generation)
          /\ ((best_fitness (heap spec) <= historical_best_fitness (heap spec))%Q ->
              (raw_stagnant mgr heap generation spec = true
               <-> (max_stagnation mgr <= generation - last)%Z))).
Proof.
  intros mgr heap species_list generation. cbv zeta.
  intros Hnd.
  split; [exact (protected_species_ranked mgr heap generation _ Hnd)|].
  split.
  { intros spec Hin. unfold tracked_species.
    apply in_map_iff. exists (best_fitness (heap spec), spec). split; [reflexivity|].
    apply track_stores_current. now right. }
  split.
  { intros spec Hin. unfold tracked_species in Hin.
    apply in_map_iff in Hin. destruct Hin as (e & <- & He).
    apply tracked_origin in He. destruct He as [He|He]; [right|now left].
    now apply in_map. }
  split.
  { intros spec key. now apply stored_once_under_current_key. }
  intros spec Hin.
  unfold update, tracked_species in *.
  set (tracked := fold_left (track_species heap) species_list (sorted_species mgr)) in *.
  destruct (judge_all (max_stagnation mgr) generation (map snd tracked)
              (mkStagnating (species_last_improved mgr) heap [] []) Hnd)
    as (R1 & R2 & _ & R4).
  cbv zeta in R1, R2, R4. cbn [st_results st_last_improved st_heap st_status] in R1, R2, R4.
  set (st := fold_left (judge_species (max_stagnation mgr) generation) (map snd tracked)
               (mkStagnating (species_last_improved mgr) heap [] [])) in *.
  destruct (R2 spec Hin) as (Hflag & Hrefresh).
  cbn [fst snd species_last_improved].
  assert (Hraw : flag_of (max_stagnation mgr) generation (species_last_improved mgr) heap spec
                 = raw_stagnant mgr heap generation spec) by reflexivity.
  split; [|split].
  - rewrite protect_all, Hflag, Hraw. simpl in R1. rewrite R1.
    unfold protected_species.
    rewrite (sort_desc_ext (st_heap st) heap) by (intro s; apply R4).
    rewrite sort_desc_length, !length_map.
    unfold raw_stagnant, flag_of.
    match goal with |- (if ?b then _ else _) = _ => destruct b end; reflexivity.
  - intro Hnew. split.
    + unfold raw_stagnant. now rewrite Hnew.
    + apply Hrefresh. now left.
  - intros last Hlast. split.
    + intro Hlt. apply Qlt_bool_true in Hlt. split.
      * unfold raw_stagnant. now rewrite Hlast, Hlt.
      * apply Hrefresh. now right.
    + intro Hle. apply Qlt_bool_false in Hle.
      unfold raw_stagnant. rewrite Hlast, Hle. apply Z.leb_le.
Qed.

(** The theorem at generation 1 of the three species, nothing having
    changed since generation 0, with [max_stagnation = 1] and [elitism = 2].
    Each species is stored once and none is new or improved, so the raw flag
    of all three is true.  A and B are protected and reported non-stagnant;
    C is reported stagnant. *)
Lemma update_flags_when_tracked_once_generation_1 :
  NoDup (tracked_species (fst (fst generation_0)) (snd (fst generation_0)) [0; 1; 2])
  /\ protected_species (fst (fst generation_0)) (snd (fst generation_0)) 1
       (tracked_species (fst (fst generation_0)) (snd (fst generation_0)) [0; 1; 2])
     = [0; 1]
  /\ map (raw_stagnant (fst (fst generation_0)) (snd (fst generation_0)) 1) [0; 1; 2]
     = [true; true; true]
  /\ dget Nat.eqb 0 (snd generation_1_unchanged) = Some false
  /\ dget Nat.eqb 1 (snd generation_1_unchanged) = Some false
  /\ dget Nat.eqb 2 (snd generation_1_unchanged) = Some true
  /\ ranks_not_below (snd (fst generation_0)) 1 2.
Proof.
  assert (Hnd : NoDup (tracked_species (fst (fst generation_0)) (snd (fst generation_0))
                         [0; 1; 2])).
  { vm_compute. repeat constructor; simpl; intuition discriminate. }
  assert (Hp : protected_species (fst (fst generation_0)) (snd (fst generation_0)) 1
                 (tracked_species (fst (fst generation_0)) (snd (fst generation_0))
                    [0; 1; 2])
               = [0; 1]) by (vm_compute; reflexivity).
  assert (Hr : map (raw_stagnant (fst (fst generation_0)) (snd (fst generation_0)) 1)
                 [0; 1; 2]
               = [true; true; true]) by (vm_compute; reflexivity).
  assert (Ht : tracked_species (fst (fst generation_0)) (snd (fst generation_0)) [0; 1; 2]
               = [2; 1; 0]) by (vm_compute; reflexivity).
  destruct (update_flags_when_tracked_once (fst (fst generation_0))
              (snd (fst generation_0)) [0; 1; 2] 1%Z Hnd)
    as ((_ & _ & _ & Hrank) & _ & _ & _ & Hflags).
  fold generation_1_unchanged in Hflags. rewrite Hp in Hflags, Hrank.
  assert (R2 : raw_stagnant (fst (fst generation_0)) (snd (fst generation_0)) 1 2 = true)
    by (vm_compute; reflexivity).
  split; [exact Hnd|]. split; [exact Hp|]. split; [exact Hr|].
  split.
  { destruct (Hflags 0) as [H _]; [rewrite Ht; simpl; auto|]. exact H. }
  split.
  { destruct (Hflags 1) as [H _]; [rewrite Ht; simpl; auto|]. exact H. }
  split.
  { destruct (Hflags 2) as [H _]; [rewrite Ht; simpl; auto|].
    rewrite H. cbn [existsb Nat.eqb orb]. now rewrite R2. }
  apply Hrank; [simpl; auto|rewrite Ht; simpl; auto|].
  simpl. intuition discriminate.
Defined.

(* ------------------------------------------------------------------ *)
(** * The genome the constructor builds *)

Section PyDictMore.
Context {K V : Type}.
Variable keq : K -> K -> bool.
Hypothesis keq_spec : forall a b, keq a b = true <-> a = b.

Lemma dget_not_key : forall k (d : list (K * V)), ~ In k (dkeys d) -> dget keq k d = None.
Proof.
  intros k d H. destruct (dget keq k d) as [v|] eqn:E; [|reflexivity].
  exfalso. apply H. apply (dget_Some_In keq keq_spec) in E.
  unfold dkeys. change k with (fst (k, v)). now apply in_map.
Qed.

Lemma dset_fresh : forall k v (d : list (K * V)),
  dget keq k d = None -> dset keq k v d = d ++ [(k, v)].
Proof.
  intros k v d. induction d as [|[k' v'] r IH]; simpl; [reflexivity|].
  destruct (keq k k'); [discriminate|]. intro H. now rewrite IH.
Qed.

Lemma dset_length : forall k v (d : list (K * V)), length (dset keq k v d) <= S (length d).
Proof.
  intros k v d. induction d as [|[k' v'] r IH]; simpl; [lia|].
  destruct (keq k k'); simpl; lia.
Qed.

Lemma dkeys_dset_In : forall k k' v (d : list (K * V)),
  In k' (dkeys (dset keq k v d)) -> k' = k \/ In k' (dkeys d).
Proof.
  intros k k' v d. rewrite dkeys_dset. destruct (dmem keq k d); [now right|].
  intro H. apply in_app_or in H. destruct H as [H|[H|[]]]; auto.
Qed.

Lemma dkeys_dset_mono : forall k k' v (d : list (K * V)),
  In k' (dkeys d) -> In k' (dkeys (dset keq k v d)).
Proof.
  intros k k' v d H. rewrite dkeys_dset. destruct (dmem keq k d); [exact H|].
  apply in_or_app. now left.
Qed.

Lemma dkeys_dset_new : forall k v (d : list (K * V)), In k (dkeys (dset keq k v d)).
Proof.
  intros k v d. destruct (dget_dset_same keq keq_spec k v d).
  pose proof (dget_dset_same keq keq_spec k v d) as H.
  apply (dget_Some_In keq keq_spec) in H.
  unfold dkeys. change k with (fst (k, v)). now apply in_map.
Qed.

End PyDictMore.

Lemma not_In_seq_end : forall n, ~ In n (seq 0 n).
Proof. intros n H. apply in_seq in H. lia. Qed.

Lemma init_input_node_stores : stores_gene input_gene false init_input_node.
Proof.
  intros g w. unfold init_input_node. rewrite bind_eq. unfold ret. cbn [fst snd].
  eexists. split; [reflexivity|]. unfold input_gene.
  cbn [gi_type gi_activation gi_bias gi_innovation genes connections fitness output_nodes
       set_next_node_id set_genes].
  rewrite app_nil_r. repeat split.
Qed.

Lemma init_hidden_node_stores : stores_gene hidden_gene false init_hidden_node.
Proof.
  intros g w. unfold init_hidden_node. rewrite !bind_eq. unfold ret. cbn [fst snd].
  eexists. split; [reflexivity|]. unfold hidden_gene.
  cbn [gi_type gi_activation gi_bias gi_innovation genes connections fitness output_nodes
       set_next_node_id set_genes].
  rewrite app_nil_r. repeat split; eauto.
  apply random_choice_In. discriminate.
Qed.

Lemma init_output_node_stores : stores_gene output_gene true init_output_node.
Proof.
  intros g w. unfold init_output_node. rewrite !bind_eq. unfold ret. cbn [fst snd].
  eexists. split; [reflexivity|]. unfold output_gene.
  cbn [gi_type gi_activation gi_bias gi_innovation genes connections fitness output_nodes
       set_next_node_id set_genes set_output_nodes].
  repeat split; eauto.
Qed.

(** A node loop of the constructor appends one block of genes. *)
Lemma for_range_stores : forall shape listed b,
  node_body b -> stores_gene shape listed b ->
  forall n g w base,
    dkeys (genes g) = seq 0 (next_node_id g) ->
    next_innovation_number (w_im w) = base + next_node_id g ->
    exists new,
      genes (fst (for_range n b g w)) = genes g ++ new
      /\ gene_block shape base (next_node_id g) n new
      /\ connections (fst (for_range n b g w)) = connections g
      /\ fitness (fst (for_range n b g w)) = fitness g
      /\ output_nodes (fst (for_range n b g w))
         = output_nodes g ++ (if listed then seq (next_node_id g) n else []).
Proof.
  intros shape listed b Hb Hs. induction n as [|n IH]; intros g w base Hk Hc.
  - exists []. simpl. rewrite !app_nil_r. repeat split; auto.
    destruct listed; now rewrite ?app_nil_r.
  - cbn [for_range]. rewrite bind_eq.
    destruct (Hb g w) as (Hn & _ & Him).
    destruct (Hs g w) as (gi & Hg & Hshape & Hinn & Hconn & Hfit & Hout).
    assert (Hfresh : genes (fst (b g w)) = genes g ++ [(next_node_id g, gi)]).
    { rewrite Hg. apply dset_fresh. apply (dget_not_key Nat.eqb Nat.eqb_eq).
      rewrite Hk. apply not_In_seq_end. }
    destruct (IH (fst (b g w)) (snd (b g w)) base) as (new & G & (Bk & Bf) & C & F & O).
    { rewrite Hfresh, Hn. unfold dkeys in *. rewrite map_app, Hk, seq_S.
      reflexivity. }
    { rewrite Him, Hn. simpl. lia. }
    exists ((next_node_id g, gi) :: new).
    rewrite G, Hfresh, <- app_assoc. split; [reflexivity|]. split; [split|].
    + simpl. rewrite Bk, Hn. reflexivity.
    + constructor; [|exact Bf]. simpl. split; [exact Hshape|]. lia.
    + repeat split; try congruence.
      rewrite O, Hout, Hn. destruct listed; rewrite <- app_assoc; reflexivity.
Qed.

(** One iteration of the connection loop leaves the nodes alone and adds
    at most one connection, from [i] to a node that is no input. *)
Lemma init_connection_shape : forall i g w,
  genes (fst (init_connection i g w)) = genes g
  /\ output_nodes (fst (init_connection i g w)) = output_nodes g
  /\ next_node_id (fst (init_connection i g w)) = next_node_id g
  /\ fitness (fst (init_connection i g w)) = fitness g
  /\ (connections (fst (init_connection i g w)) = connections g
      \/ exists out n wt go,
           connections (fst (init_connection i g w))
           = dset conn_key_eqb (i, out, n) wt (connections g)
           /\ dget Nat.eqb out (genes g) = Some go
           /\ is_type Input go = false
           /\ i <> out).
Proof.
  intros i g w. unfold init_connection. rewrite bind_eq.
  set (out_node := fst (random_choice 0 (dkeys (genes g)) w)).
  set (w1 := snd (random_choice 0 (dkeys (genes g)) w)).
  destruct (dget Nat.eqb i (genes g)) as [gi|]; [|unfold ret; cbn; auto 6].
  destruct (dget Nat.eqb out_node (genes g)) as [go|] eqn:Eo; [|unfold ret; cbn; auto 6].
  destruct (negb (is_type Output gi) && negb (is_type Input go) && negb (i =? out_node))
    eqn:E; [|unfold ret; cbn; auto 6].
  rewrite !bind_eq. unfold ret. cbn [fst snd genes output_nodes next_node_id fitness
                                      connections set_connections].
  repeat split. right.
  apply andb_true_iff in E. destruct E as [E E3].
  apply andb_true_iff in E. destruct E as [E1 E2].
  apply negb_true_iff in E2, E3. apply Nat.eqb_neq in E3.
  eexists _, _, _, go. repeat split; auto.
Qed.

Lemma for_each_init_connection_shape : forall xs g w,
  let g' := fst (for_each xs init_connection g w) in
  genes g' = genes g
  /\ output_nodes g' = output_nodes g
  /\ next_node_id g' = next_node_id g
  /\ fitness g' = fitness g
  /\ length (connections g') <= length (connections g) + length xs
  /\ (forall k, In k (dkeys (connections g')) ->
        In k (dkeys (connections g))
        \/ (In (conn_in k) xs
            /\ conn_in k <> conn_out k
            /\ exists go, dget Nat.eqb (conn_out k) (genes g) = Some go
                          /\ is_type Input go = false)).
Proof.
  induction xs as [|x xs IH]; intros g w; cbv zeta.
  - simpl. repeat split; auto. lia.
  - cbn [for_each]. rewrite bind_eq.
    destruct (init_connection_shape x g w) as (G1 & O1 & N1 & F1 & C1).
    specialize (IH (fst (init_connection x g w)) (snd (init_connection x g w))).
    cbv zeta in IH. destruct IH as (G2 & O2 & N2 & F2 & L2 & K2).
    repeat split; try congruence.
    + destruct C1 as [C1|(out & n & wt & go & C1 & _)]; rewrite C1 in L2.
      * simpl. lia.
      * pose proof (dset_length conn_key_eqb (x, out, n) wt (connections g)). simpl. lia.
    + intros k Hk. destruct (K2 k Hk) as [Hin|(Hin & Hne & go & Hgo & Ht)].
      * destruct C1 as [C1|(out & n & wt & go & C1 & Hgo & Ht & Hne)]; rewrite C1 in Hin.
        -- now left.
        -- apply dkeys_dset_In in Hin. destruct Hin as [->|Hin]; [|now left].
           right. cbn. split; [now left|]. split; [exact Hne|]. eauto.
      * right. split; [now right|]. split; [exact Hne|].
        exists go. rewrite <- G1. auto.
Qed.

Lemma gene_block_In : forall shape base start n new k gi,
  gene_block shape base start n new -> In (k, gi) new ->
  start <= k < start + n /\ shape gi /\ gi_innovation gi = base + k.
Proof.
  intros shape base start n new k gi [Hk Hf] Hin. split.
  - apply in_seq. rewrite <- Hk. unfold dkeys. change k with (fst (k, gi)). now apply in_map.
  - rewrite Forall_forall in Hf. exact (Hf _ Hin).
Qed.

Lemma gene_block_length : forall shape base start n new,
  gene_block shape base start n new -> length new = n.
Proof.
  intros shape base start n new [Hk _].
  rewrite <- (length_map fst new). unfold dkeys in Hk. now rewrite Hk, length_seq.
Qed.

(** The constructor: three blocks of genes under the ids 0, 1, 2, ... (input,
    hidden and output nodes, in this order), the output ids listed in
    [output_nodes], and connections that leave an input or hidden node, enter
    a hidden or output node and are no loops, at most one per input and
    hidden node. *)
Lemma genome_init_layers : forall gid num_inputs num_outputs initial_hidden_nodes w,
  let g := fst (genome_init gid num_inputs num_outputs initial_hidden_nodes w) in
  let base := next_innovation_number (w_im w) in
  exists ins hids outs,
    genes g = ins ++ hids ++ outs
    /\ gene_block input_gene base 0 num_inputs ins
    /\ gene_block hidden_gene base num_inputs initial_hidden_nodes hids
    /\ gene_block output_gene base (num_inputs + initial_hidden_nodes) num_outputs outs
    /\ output_nodes g = seq (num_inputs + initial_hidden_nodes) num_outputs
    /\ next_node_id g = num_inputs + initial_hidden_nodes + num_outputs
    /\ fitness g = None
    /\ length (connections g) <= num_inputs + initial_hidden_nodes
    /\ Forall (initial_connection num_inputs initial_hidden_nodes num_outputs)
              (dkeys (connections g)).
Proof.
  intros gid ni no nh w. cbv zeta. unfold genome_init. rewrite !bind_eq.
  set (g0 := mkGenome gid [] [] 0 None []).
  destruct (for_range_node_body _ init_input_node_body ni g0 w) as (N1 & _ & M1).
  destruct (for_range_stores _ _ _ init_input_node_body init_input_node_stores ni g0 w
              (next_innovation_number (w_im w)))
    as (ins & G1 & B1 & C1 & F1 & O1); [reflexivity|simpl; lia|].
  set (r1 := for_range ni init_input_node g0 w) in *.
  simpl in N1, G1, B1, C1, F1, O1, M1.
  assert (K1 : dkeys (genes (fst r1)) = seq 0 (next_node_id (fst r1))).
  { rewrite G1, N1. apply B1. }
  assert (I1 : next_innovation_number (w_im (snd r1))
               = next_innovation_number (w_im w) + next_node_id (fst r1)).
  { rewrite M1, register_genes_counter, N1. reflexivity. }
  destruct (for_range_node_body _ init_hidden_node_body nh (fst r1) (snd r1)) as (N2 & _ & M2).
  destruct (for_range_stores _ _ _ init_hidden_node_body init_hidden_node_stores nh
              (fst r1) (snd r1) (next_innovation_number (w_im w)) K1 I1)
    as (hids & G2 & B2 & C2 & F2 & O2).
  set (r2 := for_range nh init_hidden_node (fst r1) (snd r1)) in *.
  rewrite N1 in N2, B2, M2. rewrite G1 in G2. cbv iota in O2. rewrite app_nil_r in O2.
  set (g2 := set_output_nodes [] (fst r2)).
  assert (K2 : dkeys (genes g2) = seq 0 (next_node_id g2)).
  { unfold g2. cbn [genes next_node_id set_output_nodes]. rewrite G2, N2.
    unfold dkeys. rewrite map_app. destruct B1 as [B1 _], B2 as [B2 _].
    unfold dkeys in B1, B2. rewrite B1, B2. now rewrite seq_app. }
  assert (I2 : next_innovation_number (w_im (snd r2))
               = next_innovation_number (w_im w) + next_node_id g2).
  { unfold g2. cbn [next_node_id set_output_nodes].
    rewrite M2, register_genes_counter, I1, N1, N2. lia. }
  destruct (for_range_node_body _ init_output_node_body no g2 (snd r2)) as (N3 & _ & _).
  destruct (for_range_stores _ _ _ init_output_node_body init_output_node_stores no
              g2 (snd r2) (next_innovation_number (w_im w)) K2 I2)
    as (outs & G3 & B3 & C3 & F3 & O3).
  set (r3 := for_range no init_output_node g2 (snd r2)) in *.
  unfold g2 in N3, G3, B3, C3, F3, O3.
  cbn [genes next_node_id connections fitness output_nodes set_output_nodes] in N3, G3, B3, C3, F3, O3.
  rewrite N2 in N3, B3, O3. rewrite G2 in G3. simpl in O3.
  destruct (for_each_init_connection_shape (seq 0 (ni + nh)) (fst r3) (snd r3))
    as (G4 & O4 & N4 & F4 & L4 & K4).
  set (r4 := for_each (seq 0 (ni + nh)) init_connection (fst r3) (snd r3)) in *.
  exists ins, hids, outs.
  split; [rewrite G4, G3; now rewrite app_assoc|].
  split; [exact B1|]. split; [exact B2|]. split; [exact B3|].
  split; [congruence|]. split; [congruence|]. split; [congruence|].
  split.
  - rewrite C3, C2, C1 in L4. rewrite length_seq in L4. simpl in L4. exact L4.
  - apply Forall_forall. intros k Hk.
    destruct (K4 k Hk) as [Hin|(Hin & Hne & go & Hgo & Ht)].
    + rewrite C3, C2, C1 in Hin. destruct Hin.
    + apply in_seq in Hin. unfold initial_connection.
      split; [lia|]. split; [|exact Hne].
      apply (dget_Some_In Nat.eqb Nat.eqb_eq) in Hgo. rewrite G3 in Hgo.
      apply in_app_or in Hgo. destruct Hgo as [Hgo|Hgo].
      * apply in_app_or in Hgo. destruct Hgo as [Hgo|Hgo].
        -- destruct (gene_block_In _ _ _ _ _ _ _ B1 Hgo) as (_ & (Hty & _) & _).
           unfold is_type in Ht. rewrite Hty in Ht. discriminate.
        -- destruct (gene_block_In _ _ _ _ _ _ _ B2 Hgo) as (Hr & _). lia.
      * destruct (gene_block_In _ _ _ _ _ _ _ B3 Hgo) as (Hr & _). lia.
Qed.

Lemma filter_all : forall {A} (f : A -> bool) l,
  (forall x, In x l -> f x = true) -> filter f l = l.
Proof.
  intros A f l. induction l as [|a r IH]; intro H; simpl; [reflexivity|].
  rewrite (H a (or_introl eq_refl)). f_equal. apply IH. intros x Hx. apply H. now right.
Qed.

Lemma filter_none : forall {A} (f : A -> bool) l,
  (forall x, In x l -> f x = false) -> filter f l = [].
Proof.
  intros A f l. induction l as [|a r IH]; intro H; simpl; [reflexivity|].
  rewrite (H a (or_introl eq_refl)). apply IH. intros x Hx. apply H. now right.
Qed.

Lemma gene_block_types : forall shape t base start n new,
  (forall gi, shape gi -> gi_type gi = t) ->
  gene_block shape base start n new ->
  forall t', filter (fun e => is_type t' (snd e)) new
             = if node_type_eqb t t' then new else [].
Proof.
  intros shape t base start n new Hshape [_ Hf] t'. rewrite Forall_forall in Hf.
  destruct (node_type_eqb t t') eqn:E.
  - apply filter_all. intros e He. unfold is_type.
    rewrite (Hshape _ (proj1 (Hf e He))). exact E.
  - apply filter_none. intros e He. unfold is_type.
    rewrite (Hshape _ (proj1 (Hf e He))). exact E.
Qed.

Lemma inputs_lead_app : forall ins rest,
  (forall e, In e ins -> is_type Input (snd e) = true) ->
  (forall e, In e rest -> is_type Input (snd e) = false) ->
  inputs_lead (ins ++ rest) = true.
Proof.
  induction ins as [|a r IH]; intros rest Hi Hr; simpl.
  - destruct rest as [|b rest]; simpl; [reflexivity|].
    rewrite (Hr b (or_introl eq_refl)). apply forallb_forall.
    intros x Hx. rewrite (Hr x (or_intror Hx)). reflexivity.
  - rewrite (Hi a (or_introl eq_refl)). apply IH; auto.
    intros e He. apply Hi. now right.
Qed.

(** The counts and the order of the genes of a new genome. *)
Lemma genome_init_counts : forall gid num_inputs num_outputs initial_hidden_nodes w,
  let g := fst (genome_init gid num_inputs num_outputs initial_hidden_nodes w) in
  get_num_inputs g = num_inputs
  /\ get_num_hidden_nodes g = initial_hidden_nodes
  /\ get_num_outputs g = num_outputs
  /\ length (filter (fun e => is_type Output (snd e)) (genes g)) = num_outputs
  /\ inputs_lead (genes g) = true.
Proof.
  intros gid ni no nh w. cbv zeta.
  destruct (genome_init_layers gid ni no nh w)
    as (ins & hids & outs & G & B1 & B2 & B3 & O & _).
  cbv zeta in G, B1, B2, B3, O.
  assert (T1 := gene_block_types input_gene Input _ _ _ _ (fun gi H => proj1 H) B1).
  assert (T2 := gene_block_types hidden_gene Hidden _ _ _ _ (fun gi H => proj1 H) B2).
  assert (T3 := gene_block_types output_gene Output _ _ _ _ (fun gi H => proj1 H) B3).
  unfold get_num_inputs, get_num_hidden_nodes, get_num_outputs.
  rewrite G, O, !filter_app, !T1, !T2, !T3. simpl.
  rewrite ?app_nil_r, ?length_app. simpl.
  rewrite ?(gene_block_length _ _ _ _ _ B1), ?(gene_block_length _ _ _ _ _ B2),
    ?(gene_block_length _ _ _ _ _ B3), ?length_seq.
  repeat split; try lia.
  apply inputs_lead_app.
  - intros e He. destruct B1 as [_ Hf]. rewrite Forall_forall in Hf.
    unfold is_type. now rewrite (proj1 (proj1 (Hf e He))).
  - intros e He. apply in_app_or in He. destruct He as [He|He].
    + destruct B2 as [_ Hf]. rewrite Forall_forall in Hf.
      unfold is_type. now rewrite (proj1 (proj1 (Hf e He))).
    + destruct B3 as [_ Hf]. rewrite Forall_forall in Hf.
      unfold is_type. now rewrite (proj1 (proj1 (Hf e He))).
Qed.

(** X2: the genome [FeedforwardGenome(genome_id, num_inputs, num_outputs,
    manager, initial_hidden_nodes)] builds.  Its genes are, in dictionary
    order, the input nodes 0 .. num_inputs - 1 (3-tuples without bias), then
    the hidden nodes, then the output nodes (both with a bias), and the node
    of id [i] carries the innovation number [base + i], where [base] is the
    manager's counter at the call.  [output_nodes] lists the output ids,
    [next_node_id] is the number of nodes, and there are at most
    [num_inputs + initial_hidden_nodes] connections, each from an input or
    hidden node to a different hidden or output node. *)
Theorem constructor_lays_out_nodes :
  forall gid num_inputs num_outputs initial_hidden_nodes w,
    let g := fst (genome_init gid num_inputs num_outputs initial_hidden_nodes w) in
    let base := next_innovation_number (w_im w) in
    (exists ins hids outs,
       genes g = ins ++ hids ++ outs
       /\ gene_block input_gene base 0 num_inputs ins
       /\ gene_block hidden_gene base num_inputs initial_hidden_nodes hids
       /\ gene_block output_gene base (num_inputs + initial_hidden_nodes) num_outputs outs)
    /\ output_nodes g = seq (num_inputs + initial_hidden_nodes) num_outputs
    /\ next_node_id g = num_inputs + initial_hidden_nodes + num_outputs
    /\ fitness g = None
    /\ get_num_inputs g = num_inputs
    /\ get_num_hidden_nodes g = initial_hidden_nodes
    /\ get_num_outputs g = num_outputs
    /\ length (connections g) <= num_inputs + initial_hidden_nodes
    /\ Forall (initial_connection num_inputs initial_hidden_nodes num_outputs)
              (dkeys (connections g)).
Proof.
  intros gid ni no nh w. cbv zeta.
  destruct (genome_init_layers gid ni no nh w)
    as (ins & hids & outs & G & B1 & B2 & B3 & O & N & F & L & C).
  destruct (genome_init_counts gid ni no nh w) as (C1 & C2 & C3 & _).
  split; [exists ins, hids, outs; auto|]. auto 10.
Qed.

Section NewGenomeActivates.
Variables torch_exp torch_tanh : Q -> Q.

(** X3: [activate] on a genome fresh from the constructor.  It raises
    [ValueError] when the number of inputs differs from [num_inputs], and
    otherwise returns [num_outputs] values: the lookup [inputs[index]] of
    every input node is in range. *)
Theorem new_genome_activates :
  forall gid num_inputs num_outputs initial_hidden_nodes w inputs,
    let g := fst (genome_init gid num_inputs num_outputs initial_hidden_nodes w) in
    (length inputs <> num_inputs -> activate torch_exp torch_tanh g inputs = ValueError)
    /\ (length inputs = num_inputs ->
        exists vs, activate torch_exp torch_tanh g inputs = Ok vs
                   /\ length vs = num_outputs).
Proof.
  intros gid ni no nh w inputs. cbv zeta.
  destruct (genome_init_counts gid ni no nh w) as (C1 & _ & C3 & _ & Hlead).
  split.
  - intro Hne. apply activate_ValueError_iff. now rewrite C1.
  - intro Hlen. rewrite <- C1 in Hlen.
    destruct (activate_returns torch_exp torch_tanh _ inputs Hlen Hlead) as (nv & _ & Hact).
    eexists. split; [exact Hact|]. rewrite length_map. exact C3.
Qed.

End NewGenomeActivates.

(** X3 at a genome with two inputs, three hidden nodes (all relu) and one
    output. *)
Lemma new_genome_activates_example :
  let g := fst (genome_init 0 2 1 3 (mkWorld (mkRng [0; 0; 0; 5; 3; 4; 5; 5] []) new_manager)) in
  length [1%Q; 2%Q] = 2
  /\ exists vs, activate torch_not_called torch_not_called g [1%Q; 2%Q] = Ok vs
                /\ length vs = 1.
Proof.
  cbv zeta. split; [reflexivity|].
  exact (proj2 (new_genome_activates torch_not_called torch_not_called 0 2 1 3
                  (mkWorld (mkRng [0; 0; 0; 5; 3; 4; 5; 5] []) new_manager) [1%Q; 2%Q]) eq_refl).
Defined.

(* ------------------------------------------------------------------ *)
(** * What the structural mutations and the pruning passes keep *)

Lemma filter_filter : forall {A} (f g : A -> bool) l,
  filter f (filter g l) = filter (fun x => g x && f x) l.
Proof.
  intros A f g l. induction l as [|a r IH]; simpl; [reflexivity|].
  destruct (g a); simpl; [destruct (f a)|]; now rewrite IH.
Qed.

Section PyDictDelete.
Context {K V : Type}.
Variable keq : K -> K -> bool.
Hypothesis keq_spec : forall a b, keq a b = true <-> a = b.

(** Popping a list of keys one after the other. *)
Lemma fold_ddel : forall ks (d : list (K * V)),
  fold_left (fun c k => ddel keq k c) ks d
  = filter (fun e => negb (existsb (fun k => keq k (fst e)) ks)) d.
Proof.
  induction ks as [|k ks IH]; intro d; simpl.
  - symmetry. apply filter_all. reflexivity.
  - rewrite IH. unfold ddel. rewrite filter_filter.
    apply filter_ext. intro e. now rewrite negb_orb.
Qed.

Lemma existsb_keq_In : forall k ks, existsb (fun k' => keq k' k) ks = true <-> In k ks.
Proof.
  intros k ks. rewrite existsb_exists. split.
  - intros (x & Hx & E). apply keq_spec in E. now subst.
  - intro H. exists k. split; [exact H|]. now apply keq_refl.
Qed.

Lemma existsb_keq_filter : forall p k ks,
  In k ks -> existsb (fun k' => keq k' k) (filter p ks) = p k.
Proof.
  intros p k ks Hin. destruct (p k) eqn:E.
  - apply existsb_keq_In. apply filter_In. auto.
  - destruct (existsb (fun k' => keq k' k) (filter p ks)) eqn:E'; [|reflexivity].
    apply existsb_keq_In in E'. apply filter_In in E'. destruct E' as [_ E']. congruence.
Qed.

Lemma dmem_In : forall k (d : list (K * V)), dmem keq k d = true <-> In k (dkeys d).
Proof.
  intros k d. unfold dmem. split.
  - destruct (dget keq k d) as [v|] eqn:E; [|discriminate]. intros _.
    apply (dget_Some_In keq keq_spec) in E.
    unfold dkeys. change k with (fst (k, v)). now apply in_map.
  - intro H. destruct (dget_In_key keq keq_spec k d H) as [v ->]. reflexivity.
Qed.

Lemma dkeys_ddel_In : forall k k' (d : list (K * V)),
  In k' (dkeys (ddel keq k d)) <-> In k' (dkeys d) /\ k' <> k.
Proof.
  intros k k' d. unfold dkeys, ddel. rewrite !in_map_iff. split.
  - intros (e & <- & He). apply filter_In in He. destruct He as [He Hk]. split; [eauto|].
    intro E. rewrite E, (keq_refl keq keq_spec) in Hk. discriminate.
  - intros [(e & <- & He) Hne]. exists e. split; [reflexivity|].
    apply filter_In. split; [exact He|].
    destruct (keq k (fst e)) eqn:E; [|reflexivity].
    apply keq_spec in E. congruence.
Qed.

(** A key popped and stored again: the same keys, the same values. *)
Lemma dkeys_reinsert_In : forall k v k' (d : list (K * V)),
  In k (dkeys d) ->
  (In k' (dkeys (dset keq k v (ddel keq k d))) <-> In k' (dkeys d)).
Proof.
  intros k v k' d Hk. split.
  - intro H. apply (dkeys_dset_In keq) in H. destruct H as [->|H]; [exact Hk|].
    now apply dkeys_ddel_In in H.
  - intro H. destruct (keq k' k) eqn:E.
    + apply keq_spec in E. subst. apply (dkeys_dset_new keq keq_spec).
    + apply dkeys_dset_mono. apply dkeys_ddel_In. split; [exact H|].
      intros ->. rewrite (keq_refl keq keq_spec) in E. discriminate.
Qed.

Lemma dget_reinsert : forall k v k' (d : list (K * V)),
  dget keq k d = Some v ->
  dget keq k' (dset keq k v (ddel keq k d)) = dget keq k' d.
Proof.
  intros k v k' d Hk. destruct (keq k' k) eqn:E.
  - apply keq_spec in E. subst. now rewrite (dget_dset_same keq keq_spec).
  - assert (k' <> k) by (intros ->; rewrite (keq_refl keq keq_spec) in E; discriminate).
    rewrite (dget_dset_other keq keq_spec), (dget_ddel_other keq keq_spec); auto.
Qed.

End PyDictDelete.

(* ------------------------------------------------------------------ *)
(** ** [random.shuffle] permutes *)

Lemma list_set_length : forall {A} i (v : A) l, length (list_set i v l) = length l.
Proof.
  intros A i v l. revert i. induction l as [|a r IH]; intros [|i]; simpl; auto.
Qed.

Lemma nth_error_list_set : forall {A} i (v : A) l n,
  nth_error (list_set i v l) n
  = if Nat.eqb n i && Nat.ltb i (length l) then Some v else nth_error l n.
Proof.
  intros A i v l. revert i. induction l as [|a r IH]; intros i n.
  - destruct i; simpl; rewrite andb_false_r; reflexivity.
  - destruct i as [|i]; destruct n as [|n]; simpl; try reflexivity.
    rewrite IH. reflexivity.
Qed.

Lemma list_swap_perm : forall {A} i j (l : list A), Permutation l (list_swap i j l).
Proof.
  intros A i j l. unfold list_swap.
  destruct (nth_error l i) as [a|] eqn:Ei; [|reflexivity].
  destruct (nth_error l j) as [b|] eqn:Ej; [|reflexivity].
  assert (Hi : i < length l) by (apply nth_error_Some; congruence).
  assert (Hj : j < length l) by (apply nth_error_Some; congruence).
  apply Permutation_nth_error. split.
  - now rewrite !list_set_length.
  - exists (fun n => if Nat.eqb n j then i else if Nat.eqb n i then j else n). split.
    + intros x y. destruct (Nat.eqb_spec x j), (Nat.eqb_spec x i),
        (Nat.eqb_spec y j), (Nat.eqb_spec y i); lia.
    + intro n. rewrite !nth_error_list_set, !list_set_length.
      apply Nat.ltb_lt in Hi, Hj. rewrite Hi, Hj, !andb_true_r.
      destruct (Nat.eqb_spec n j); [congruence|].
      destruct (Nat.eqb_spec n i); congruence.
Qed.

Lemma shuffle_from_perm : forall {A} i (x : list A) w,
  Permutation x (fst (shuffle_from i x w)).
Proof.
  intros A. induction i as [|i IH]; intros x w; simpl; [reflexivity|].
  rewrite bind_eq. etransitivity; [apply (list_swap_perm (S i) (fst (randbelow (S (S i)) w)))|].
  apply IH.
Qed.

Lemma random_shuffle_perm : forall {A} (x : list A) w,
  Permutation x (fst (random_shuffle x w)).
Proof. intros. apply shuffle_from_perm. Qed.

Lemma shuffle_from_im : forall {A} i (x : list A) w,
  w_im (snd (shuffle_from i x w)) = w_im w.
Proof.
  intros A. induction i as [|i IH]; intros x w; simpl; [reflexivity|].
  rewrite bind_eq, IH. apply randbelow_im.
Qed.

Lemma random_shuffle_im : forall {A} (x : list A) w,
  w_im (snd (random_shuffle x w)) = w_im w.
Proof. intros. apply shuffle_from_im. Qed.

(* ------------------------------------------------------------------ *)
(** ** [mutate_add_connection] *)


(** What [mutate_add_connection] does: nothing, or one new connection at
    the end of the dictionary. *)
Lemma mutate_add_connection_cases : forall possible_in_nodes possible_out_nodes g w,
  let r := mutate_add_connection possible_in_nodes possible_out_nodes g w in
  (fst r = g /\ w_im (snd r) = w_im w)
  \/ exists in_node out_node wt,
       In in_node possible_in_nodes
       /\ In out_node possible_out_nodes
       /\ in_node < out_node
       /\ (forall k, In k (dkeys (connections g)) ->
             (conn_in k, conn_out k) <> (in_node, out_node))
       /\ fst r = set_connections
                    (connections g
                     ++ [((in_node, out_node, next_innovation_number (w_im w)), wt)]) g
       /\ w_im (snd r)
          = snd (create_innovation "connection" in_node (Some out_node) None (w_im w)).
Proof.
  intros pin pout g w. cbv zeta. unfold mutate_add_connection.
  destruct pin as [|i0 pin']; [left; split; reflexivity|].
  destruct pout as [|o0 pout']; [left; split; reflexivity|].
  rewrite !bind_eq.
  set (r1 := random_choice i0 (i0 :: pin') w).
  set (r2 := random_choice o0 (o0 :: pout') (snd r1)).
  assert (H1 : In (fst r1) (i0 :: pin')) by (apply random_choice_In; discriminate).
  assert (H2 : In (fst r2) (o0 :: pout')) by (apply random_choice_In; discriminate).
  assert (W2 : w_im (snd r2) = w_im w).
  { unfold r2. rewrite random_choice_im. apply random_choice_im. }
  destruct (negb (fst r1 =? fst r2)
            && negb (existsb (fun k => (conn_in k =? fst r1) && (conn_out k =? fst r2))
                             (dkeys (connections g)))
            && (fst r1 <? fst r2)) eqn:E.
  2:{ left. unfold ret. cbn [fst snd]. split; [reflexivity|exact W2]. }
  apply andb_true_iff in E. destruct E as [E E3].
  apply andb_true_iff in E. destruct E as [_ E2].
  apply Nat.ltb_lt in E3. apply negb_true_iff in E2.
  assert (Hnew : forall k, In k (dkeys (connections g)) ->
                   (conn_in k, conn_out k) <> (fst r1, fst r2)).
  { intros k Hk [= Ha Hb].
    assert (existsb (fun k => (conn_in k =? fst r1) && (conn_out k =? fst r2))
                    (dkeys (connections g)) = true); [|congruence].
    apply existsb_exists. exists k. split; [exact Hk|].
    rewrite Ha, Hb, !Nat.eqb_refl. reflexivity. }
  right. rewrite !bind_eq. unfold ret. cbn [fst snd].
  rewrite im_create_innovation_val, W2.
  assert (Hfresh : dget conn_key_eqb (fst r1, fst r2, next_innovation_number (w_im w))
                     (connections g) = None).
  { apply (dget_not_key conn_key_eqb conn_key_eqb_spec). intro Hk.
    exact (Hnew _ Hk eq_refl). }
  unfold add_connection. unfold dmem. rewrite Hfresh.
  rewrite !bind_eq. unfold ret. cbn [fst snd].
  rewrite (dset_fresh conn_key_eqb _ _ _ Hfresh).
  eexists (fst r1), (fst r2), _.
  split; [exact H1|]. split; [exact H2|]. split; [exact E3|]. split; [exact Hnew|].
  split; [reflexivity|].
  rewrite random_uniform_im, im_create_innovation_im, W2. reflexivity.
Qed.

(* ------------------------------------------------------------------ *)
(** ** [mutate_eliminate_node] *)

Lemma eliminated_connections : forall node_id (conns : list (ConnKey * Q)),
  fold_left (fun c k => ddel conn_key_eqb k c)
    (filter (fun k => Nat.eqb (conn_out k) node_id) (dkeys conns)
     ++ filter (fun k => Nat.eqb (conn_in k) node_id) (dkeys conns))
    conns
  = filter (fun e => negb (Nat.eqb (conn_in (fst e)) node_id)
                     && negb (Nat.eqb (conn_out (fst e)) node_id)) conns.
Proof.
  intros node_id conns. rewrite fold_ddel. apply filter_ext_in. intros e He.
  assert (Hk : In (fst e) (dkeys conns)) by (unfold dkeys; now apply in_map).
  rewrite existsb_app.
  rewrite !(existsb_keq_filter conn_key_eqb conn_key_eqb_spec) by exact Hk.
  rewrite negb_orb. apply andb_comm.
Qed.

(** What [mutate_eliminate_node] does when there is a hidden node. *)
Lemma mutate_eliminate_node_cases : forall g w,
  nodes_of_type Hidden g <> [] ->
  exists node_id,
    In node_id (nodes_of_type Hidden g)
    /\ fst (mutate_eliminate_node g w)
       = set_genes (ddel Nat.eqb node_id (genes g))
           (set_connections
              (filter (fun e => negb (Nat.eqb (conn_in (fst e)) node_id)
                                && negb (Nat.eqb (conn_out (fst e)) node_id))
                      (connections g)) g).
Proof.
  intros g w Hne. unfold mutate_eliminate_node.
  destruct (nodes_of_type Hidden g) as [|h hs] eqn:Eh; [congruence|].
  rewrite bind_eq.
  pose proof (random_shuffle_perm (h :: hs) w) as Hp.
  destruct (fst (random_shuffle (h :: hs) w)) as [|node_id rest].
  - apply Permutation_length in Hp. discriminate.
  - exists node_id. split.
    + eapply Permutation_in; [apply Permutation_sym; exact Hp|]. now left.
    + unfold ret. cbn [fst]. rewrite eliminated_connections. reflexivity.
Qed.

(* ------------------------------------------------------------------ *)
(** ** [prune_orphan_nodes] *)

Lemma orphan_has_no_connection : forall (conns : list (ConnKey * Q)) orphan,
  is_orphan conns orphan = true ->
  filter (fun e => negb (Nat.eqb (conn_in (fst e)) orphan)
                   && negb (Nat.eqb (conn_out (fst e)) orphan)) conns = conns.
Proof.
  intros conns orphan H. apply filter_all. intros e He.
  unfold is_orphan in H. apply andb_true_iff in H. destruct H as [H1 H2].
  apply negb_true_iff in H1, H2.
  assert (Hk : In (fst e) (dkeys conns)) by (unfold dkeys; now apply in_map).
  destruct (Nat.eqb (conn_in (fst e)) orphan) eqn:E1.
  - assert (existsb (fun k => Nat.eqb (conn_in k) orphan) (dkeys conns) = true); [|congruence].
    apply existsb_exists. eauto.
  - destruct (Nat.eqb (conn_out (fst e)) orphan) eqn:E2; [|reflexivity].
    assert (existsb (fun k => Nat.eqb (conn_out k) orphan) (dkeys conns) = true); [|congruence].
    apply existsb_exists. eauto.
Qed.

Lemma prune_fold : forall orphans g,
  (forall o, In o orphans -> is_orphan (connections g) o = true) ->
  fold_left
    (fun g orphan =>
       set_connections
         (filter (fun e => negb (Nat.eqb (conn_in (fst e)) orphan)
                           && negb (Nat.eqb (conn_out (fst e)) orphan))
                 (connections g))
         (set_genes (ddel Nat.eqb orphan (genes g)) g))
    orphans g
  = set_genes (fold_left (fun c k => ddel Nat.eqb k c) orphans (genes g)) g.
Proof.
  induction orphans as [|o r IH]; intros g H; simpl.
  - now destruct g.
  - rewrite IH.
    + cbn [genes connections set_connections set_genes].
      rewrite (orphan_has_no_connection _ _ (H o (or_introl eq_refl))).
      now destruct g.
    + intros o' Ho'. cbn [connections set_connections].
      rewrite (orphan_has_no_connection _ _ (H o (or_introl eq_refl))).
      apply H. now right.
Qed.

(** [prune_orphan_nodes] deletes the genes without any connection and
    nothing else. *)
Lemma prune_orphan_nodes_spec : forall g,
  prune_orphan_nodes g
  = set_genes (filter (fun e => negb (is_orphan (connections g) (fst e))) (genes g)) g.
Proof.
  intro g. unfold prune_orphan_nodes. rewrite prune_fold.
  - f_equal. rewrite fold_ddel. apply filter_ext_in. intros e He. f_equal.
    apply (existsb_keq_filter Nat.eqb Nat.eqb_eq).
    unfold dkeys. now apply in_map.
  - intros o Ho. apply filter_In in Ho. tauto.
Qed.

(* ------------------------------------------------------------------ *)
(** ** [mutate_eliminate_connection] *)

Lemma hidden_bridged_spec : forall g,
  hidden_bridged g = true
  <-> forall h, In h (nodes_of_type Hidden g) ->
        (exists k, In k (dkeys (connections g)) /\ conn_out k = h)
        /\ (exists k, In k (dkeys (connections g)) /\ conn_in k = h).
Proof.
  intro g. unfold hidden_bridged. rewrite forallb_forall.
  split; intros H h Hh; specialize (H h Hh).
  - apply andb_true_iff in H. destruct H as [H1 H2].
    apply existsb_exists in H1, H2.
    destruct H1 as (k1 & K1 & E1), H2 as (k2 & K2 & E2).
    apply Nat.eqb_eq in E1, E2. split; eauto.
  - destruct H as [(k1 & K1 & E1) (k2 & K2 & E2)].
    apply andb_true_iff. split; apply existsb_exists.
    + exists k1. split; [exact K1|]. now apply Nat.eqb_eq.
    + exists k2. split; [exact K2|]. now apply Nat.eqb_eq.
Qed.

Lemma hidden_gene_lookup : forall g h,
  NoDup (dkeys (genes g)) -> In h (nodes_of_type Hidden g) ->
  exists gi, dget Nat.eqb h (genes g) = Some gi /\ is_type Hidden gi = true.
Proof.
  intros g h Hnd Hh. unfold nodes_of_type in Hh. apply in_map_iff in Hh.
  destruct Hh as ([k gi] & <- & He). apply filter_In in He. destruct He as [He Ht].
  exists gi. split; [|exact Ht]. now apply (In_dget_NoDup Nat.eqb Nat.eqb_eq).
Qed.

Lemma NoDup_dkeys_filter : forall {V} (f : nat * V -> bool) (d : list (nat * V)),
  NoDup (dkeys d) -> NoDup (dkeys (filter f d)).
Proof.
  intros V f d. unfold dkeys. induction d as [|e r IH]; simpl; intro H; [constructor|].
  inversion H as [|? ? Hn Hr]; subst.
  destruct (f e); simpl; [constructor|]; auto.
  intro Hin. apply Hn. apply in_map_iff in Hin. destruct Hin as (x & Hx & Hf).
  apply filter_In in Hf. apply in_map_iff. exists x. tauto.
Qed.

(** The loop of [mutate_eliminate_connection] keeps every hidden node
    bridged, creates no connection and changes no weight. *)
Lemma eliminate_connection_loop_spec : forall candidates g,
  NoDup (dkeys (genes g)) ->
  hidden_bridged g = true ->
  let g' := eliminate_connection_loop candidates g in
  hidden_bridged g' = true
  /\ NoDup (dkeys (genes g'))
  /\ (forall k wt, dget conn_key_eqb k (connections g') = Some wt ->
                   dget conn_key_eqb k (connections g) = Some wt)
  /\ (forall k gi, dget Nat.eqb k (genes g') = Some gi -> dget Nat.eqb k (genes g) = Some gi)
  /\ output_nodes g' = output_nodes g
  /\ next_node_id g' = next_node_id g
  /\ fitness g' = fitness g
  /\ genome_id g' = genome_id g.
Proof.
  induction candidates as [|[[[in_node out_node] innov] wt0] rest IH]; intros g Hnd Hb; cbv zeta.
  - simpl. auto 10.
  - cbn [eliminate_connection_loop].
    destruct (dget Nat.eqb in_node (genes g)) as [gin|] eqn:Ein; [|now apply IH].
    destruct (dget Nat.eqb out_node (genes g)) as [gout|] eqn:Eout; [|now apply IH].
    destruct (dget conn_key_eqb (in_node, out_node, innov) (connections g))
      as [backup_weight|] eqn:Ek; [|now apply IH].
    set (key := (in_node, out_node, innov)) in *.
    set (conns := ddel conn_key_eqb key (connections g)).
    cbv zeta.
    match goal with |- context [if ?c then _ else _] => destruct c eqn:Ec end.
    + (* reverted *)
      set (g1 := set_connections (dset conn_key_eqb key backup_weight conns) g).
      assert (Hkey : In key (dkeys (connections g))).
      { apply (dmem_In conn_key_eqb conn_key_eqb_spec). unfold dmem. now rewrite Ek. }
      assert (Hb1 : hidden_bridged g1 = true).
      { apply hidden_bridged_spec. intros h Hh.
        destruct (proj1 (hidden_bridged_spec g) Hb h Hh) as [(k1 & K1 & E1) (k2 & K2 & E2)].
        split; [exists k1|exists k2]; (split; [|assumption]);
          unfold g1, conns; cbn [connections set_connections];
          now apply (dkeys_reinsert_In conn_key_eqb conn_key_eqb_spec). }
      specialize (IH g1 Hnd Hb1). cbv zeta in IH.
      destruct IH as (I1 & I2 & I3 & I4 & I5 & I6 & I7 & I8).
      repeat split; auto.
      intros k wt Hk. specialize (I3 k wt Hk).
      unfold g1, conns in I3. cbn [connections set_connections] in I3.
      now rewrite (dget_reinsert conn_key_eqb conn_key_eqb_spec) in I3.
    + (* removed *)
      rewrite prune_orphan_nodes_spec. cbn [connections set_connections genes set_genes
        output_nodes next_node_id fitness genome_id].
      apply orb_false_iff in Ec. destruct Ec as [Ec1 Ec2].
      assert (Hb1 : forall h, In h (nodes_of_type Hidden g) ->
                (exists k, In k (dkeys conns) /\ conn_out k = h)
                /\ (exists k, In k (dkeys conns) /\ conn_in k = h)).
      { intros h Hh.
        destruct (proj1 (hidden_bridged_spec g) Hb h Hh) as [(k1 & K1 & E1) (k2 & K2 & E2)].
        destruct (hidden_gene_lookup g h Hnd Hh) as (gi & Hgi & Hty).
        split.
        - destruct (conn_key_eqb k1 key) eqn:E.
          + apply conn_key_eqb_spec in E. subst k1. cbn in E1. subst h.
            assert (gout = gi) by congruence. subst gout. rewrite Hty in Ec2.
            simpl in Ec2. apply negb_false_iff in Ec2. apply existsb_exists in Ec2.
            destruct Ec2 as (k & Hk & Hc). apply andb_true_iff in Hc.
            destruct Hc as [_ Hc]. apply Nat.eqb_eq in Hc.
            exists k. split; [exact Hk|congruence].
          + exists k1. split; [|exact E1]. apply (dkeys_ddel_In conn_key_eqb conn_key_eqb_spec).
            split; [exact K1|]. intros ->.
            rewrite (keq_refl conn_key_eqb conn_key_eqb_spec) in E. discriminate.
        - destruct (conn_key_eqb k2 key) eqn:E.
          + apply conn_key_eqb_spec in E. subst k2. cbn in E2. subst h.
            assert (gin = gi) by congruence. subst gin. rewrite Hty in Ec1.
            simpl in Ec1. apply negb_false_iff in Ec1. apply existsb_exists in Ec1.
            destruct Ec1 as (k & Hk & Hc). apply andb_true_iff in Hc.
            destruct Hc as [_ Hc]. apply Nat.eqb_eq in Hc.
            exists k. split; [exact Hk|congruence].
          + exists k2. split; [|exact E2]. apply (dkeys_ddel_In conn_key_eqb conn_key_eqb_spec).
            split; [exact K2|]. intros ->.
            rewrite (keq_refl conn_key_eqb conn_key_eqb_spec) in E. discriminate. }
      split; [|split; [|split; [|split]]].
      * apply hidden_bridged_spec. cbn [connections set_connections set_genes].
        intros h Hh. apply Hb1.
        unfold nodes_of_type in *. cbn [genes set_genes set_connections] in Hh.
        apply in_map_iff in Hh. destruct Hh as (e & <- & He).
        apply filter_In in He. destruct He as [He Ht]. apply filter_In in He.
        apply in_map. apply filter_In. tauto.
      * now apply NoDup_dkeys_filter.
      * intros k wt Hk. destruct (conn_key_eqb k key) eqn:E.
        -- apply conn_key_eqb_spec in E. subst k. unfold conns in Hk.
           now rewrite (dget_ddel_same conn_key_eqb) in Hk.
        -- unfold conns in Hk.
           rewrite (dget_ddel_other conn_key_eqb conn_key_eqb_spec) in Hk; [exact Hk|].
           intros ->. rewrite (keq_refl conn_key_eqb conn_key_eqb_spec) in E. discriminate.
      * intros k gi Hk. apply (dget_Some_In Nat.eqb Nat.eqb_eq) in Hk.
        apply filter_In in Hk. destruct Hk as [Hk _].
        now apply (In_dget_NoDup Nat.eqb Nat.eqb_eq).
      * auto.
Qed.

(* ------------------------------------------------------------------ *)
(** ** [prune_disconnected_inputs] *)

Lemma prune_disconnected_inputs_loop : forall g,
  prune_disconnected_inputs g
  = for_each (nodes_of_type Input g)
             (reconnect_input (map conn_in (dkeys (connections g)))) g.
Proof. reflexivity. Qed.

Lemma add_connection_frame : forall i o wt n g w,
  output_nodes (snd (fst (add_connection i o wt n g w))) = output_nodes g
  /\ fitness (snd (fst (add_connection i o wt n g w))) = fitness g
  /\ genome_id (snd (fst (add_connection i o wt n g w))) = genome_id g.
Proof.
  intros i o wt n g w. unfold add_connection.
  destruct (dmem conn_key_eqb (i, o, n) (connections g)); [now unfold ret|].
  rewrite bind_eq. unfold ret. cbn. auto.
Qed.

Lemma reconnect_input_step : forall sources x g w,
  (exists e, In e (genes g)
             /\ (is_type Hidden (snd e) || is_type Output (snd e)) = true) ->
  let g' := fst (reconnect_input sources x g w) in
  genes g' = genes g
  /\ output_nodes g' = output_nodes g
  /\ next_node_id g' = next_node_id g
  /\ fitness g' = fitness g
  /\ genome_id g' = genome_id g
  /\ (forall k, dmem conn_key_eqb k (connections g) = true ->
                dmem conn_key_eqb k (connections g') = true)
  /\ (existsb (Nat.eqb x) sources = false ->
      exists k, dmem conn_key_eqb k (connections g') = true /\ conn_in k = x).
Proof.
  intros sources x g w Ht. cbv zeta. unfold reconnect_input.
  destruct (existsb (Nat.eqb x) sources) eqn:Es.
  - unfold ret. cbn [fst]. repeat split; auto. discriminate.
  - destruct (map fst (filter (fun e => is_type Hidden (snd e) || is_type Output (snd e))
                              (genes g))) as [|t0 ts] eqn:Et.
    + exfalso. destruct Ht as (e & He & Hty).
      assert (Hin : In (fst e) (map fst (filter (fun e => is_type Hidden (snd e)
                                    || is_type Output (snd e)) (genes g)))).
      { apply in_map. apply filter_In. auto. }
      rewrite Et in Hin. destruct Hin.
    + rewrite !bind_eq. unfold ret. cbn [fst snd].
      match goal with
      | |- context [add_connection ?a ?b ?c ?d ?e ?f] =>
          destruct (add_connection_spec a b c d e f) as (A1 & A2 & A3 & A4);
          destruct (add_connection_frame a b c d e f) as (A5 & A6 & A7);
          set (rc := add_connection a b c d e f) in *
      end.
      cbv zeta in A1, A2, A3, A4.
      repeat split; auto. intros _. eexists. split; [exact A3|reflexivity].
Qed.

Lemma reconnect_loop : forall sources inputs g w,
  (exists e, In e (genes g)
             /\ (is_type Hidden (snd e) || is_type Output (snd e)) = true) ->
  let g' := fst (for_each inputs (reconnect_input sources) g w) in
  genes g' = genes g
  /\ output_nodes g' = output_nodes g
  /\ next_node_id g' = next_node_id g
  /\ fitness g' = fitness g
  /\ genome_id g' = genome_id g
  /\ (forall k, dmem conn_key_eqb k (connections g) = true ->
                dmem conn_key_eqb k (connections g') = true)
  /\ (forall i, In i inputs -> existsb (Nat.eqb i) sources = false ->
        exists k, dmem conn_key_eqb k (connections g') = true /\ conn_in k = i).
Proof.
  intros sources. induction inputs as [|x xs IH]; intros g w Ht; cbv zeta.
  - simpl. repeat split; auto. intros i [].
  - cbn [for_each]. rewrite bind_eq.
    destruct (reconnect_input_step sources x g w Ht) as (S1 & S2 & S3 & S4 & S5 & S6 & S7).
    set (r := reconnect_input sources x g w) in *.
    specialize (IH (fst r) (snd r)). cbv zeta in IH.
    destruct IH as (I1 & I2 & I3 & I4 & I5 & I6 & I7); [now rewrite S1|].
    split; [congruence|]. split; [congruence|]. split; [congruence|].
    split; [congruence|]. split; [congruence|]. split.
    + intros k Hk. auto.
    + intros i [->|Hi] Hs.
      * destruct (S7 Hs) as (k & Hk & Hc). exists k. auto.
      * auto.
Qed.

(* ------------------------------------------------------------------ *)
(** ** The properties *)


(** X5: with at least one hidden node, [mutate_eliminate_node] deletes the
    gene of exactly one hidden node and every connection that enters or
    leaves it; all other genes and connections, [output_nodes] and
    [next_node_id] stay as they were. *)
Theorem mutate_eliminate_node_removes_a_hidden_node : forall g w,
  nodes_of_type Hidden g <> [] ->
  let g' := fst (mutate_eliminate_node g w) in
  exists node_id,
    In node_id (nodes_of_type Hidden g)
    /\ dget Nat.eqb node_id (genes g') = None
    /\ (forall id, id <> node_id -> dget Nat.eqb id (genes g') = dget Nat.eqb id (genes g))
    /\ connections g'
       = filter (fun e => negb (Nat.eqb (conn_in (fst e)) node_id)
                          && negb (Nat.eqb (conn_out (fst e)) node_id))
                (connections g)
    /\ (forall k, In k (dkeys (connections g')) ->
          conn_in k <> node_id /\ conn_out k <> node_id)
    /\ output_nodes g' = output_nodes g
    /\ next_node_id g' = next_node_id g.
Proof.
  intros g w Hne. cbv zeta.
  destruct (mutate_eliminate_node_cases g w Hne) as (node_id & Hin & ->).
  exists node_id. cbn [genes connections output_nodes next_node_id set_genes set_connections].
  split; [exact Hin|]. split; [apply (dget_ddel_same Nat.eqb)|].
  split; [intros id Hid; now apply (dget_ddel_other Nat.eqb Nat.eqb_eq)|].
  split; [reflexivity|]. split; [|split; reflexivity].
  intros k Hk. unfold dkeys in Hk. apply in_map_iff in Hk. destruct Hk as (e & <- & He).
  apply filter_In in He. destruct He as [_ He].
  apply andb_true_iff in He. destruct He as [H1 H2].
  apply negb_true_iff in H1, H2. apply Nat.eqb_neq in H1, H2. auto.
Qed.

(** X5 at the chain genome 0 -> 1 -> 2 -> 3: a hidden node goes, with its
    connections. *)
Lemma mutate_eliminate_node_removes_a_hidden_node_chain :
  nodes_of_type Hidden chain_genome = [1; 2]
  /\ exists node_id,
       In node_id (nodes_of_type Hidden chain_genome)
       /\ dget Nat.eqb node_id
            (genes (fst (mutate_eliminate_node chain_genome (chain_world [0])))) = None.
Proof.
  split; [vm_compute; reflexivity|].
  assert (Hne : nodes_of_type Hidden chain_genome <> []) by (vm_compute; discriminate).
  destruct (mutate_eliminate_node_removes_a_hidden_node chain_genome (chain_world [0]) Hne)
    as (node_id & H1 & H2 & _).
  exists node_id. split; [exact H1|exact H2].
Defined.

(** X6: [prune_orphan_nodes] removes no connection; it deletes from [genes]
    exactly the nodes that no connection enters or leaves, so every gene it
    keeps has a connection, and a second call changes nothing.
    [output_nodes] and [next_node_id] are not touched. *)
Theorem prune_orphan_nodes_drops_isolated_genes_only : forall g,
  let g' := prune_orphan_nodes g in
  connections g' = connections g
  /\ genes g' = filter (fun e => negb (is_orphan (connections g) (fst e))) (genes g)
  /\ output_nodes g' = output_nodes g
  /\ next_node_id g' = next_node_id g
  /\ (forall id, In id (dkeys (genes g')) -> is_orphan (connections g') id = false)
  /\ prune_orphan_nodes g' = g'.
Proof.
  intro g. cbv zeta. rewrite !prune_orphan_nodes_spec.
  cbn [genes connections output_nodes next_node_id set_genes].
  repeat split.
  - intros id Hid. unfold dkeys in Hid. apply in_map_iff in Hid.
    destruct Hid as (e & <- & He). apply filter_In in He.
    now apply negb_true_iff.
  - unfold set_genes at 2 3. cbn [genes connections]. unfold set_genes. cbn. f_equal.
    rewrite filter_filter. apply filter_ext. intro e. apply andb_diag.
Qed.

(** X7: [mutate_eliminate_connection] keeps every hidden node bridged: if
    each hidden node has an incoming and an outgoing connection before the
    call, each hidden node that is left has both after it.  It creates no
    connection and changes no weight, and the genes it keeps are unchanged. *)
Theorem mutate_eliminate_connection_keeps_hidden_nodes_bridged : forall g w,
  NoDup (dkeys (genes g)) ->
  hidden_bridged g = true ->
  let g' := fst (mutate_eliminate_connection g w) in
  hidden_bridged g' = true
  /\ (forall k wt, dget conn_key_eqb k (connections g') = Some wt ->
                   dget conn_key_eqb k (connections g) = Some wt)
  /\ (forall id gi, dget Nat.eqb id (genes g') = Some gi ->
                    dget Nat.eqb id (genes g) = Some gi)
  /\ output_nodes g' = output_nodes g
  /\ next_node_id g' = next_node_id g.
Proof.
  intros g w Hnd Hb. cbv zeta. unfold mutate_eliminate_connection.
  rewrite bind_eq. unfold ret. cbn [fst].
  destruct (eliminate_connection_loop_spec (fst (random_shuffle (connections g) w)) g Hnd Hb)
    as (H1 & _ & H3 & H4 & H5 & H6 & _).
  auto.
Qed.

(** X7 at a genome with the connections 0 -> 2, 1 -> 3 and 2 -> 3 (node 2
    hidden): the call removes 1 -> 3, the only connection whose removal
    leaves the hidden node bridged. *)
Lemma mutate_eliminate_connection_keeps_hidden_nodes_bridged_example :
  let w := mkWorld (mkRng [] []) new_manager in
  dkeys (genes bridge_genome) = [0; 1; 2; 3]
  /\ hidden_bridged bridge_genome = true
  /\ hidden_bridged (fst (mutate_eliminate_connection bridge_genome w)) = true
  /\ dkeys (connections (fst (mutate_eliminate_connection bridge_genome w)))
     = [(0, 2, 5); (2, 3, 7)].
Proof.
  cbv zeta.
  assert (Hnd : NoDup (dkeys (genes bridge_genome))).
  { vm_compute. repeat (constructor; [simpl; intuition lia|]). constructor. }
  assert (Hb : hidden_bridged bridge_genome = true) by reflexivity.
  split; [reflexivity|]. split; [exact Hb|]. split; [|reflexivity].
  exact (proj1 (mutate_eliminate_connection_keeps_hidden_nodes_bridged bridge_genome
                  (mkWorld (mkRng [] []) new_manager) Hnd Hb)).
Defined.

(** X8: when the genome has a hidden or an output gene,
    [prune_disconnected_inputs] leaves every input node with an outgoing
    connection.  It keeps the genes and every connection there was. *)
Theorem prune_disconnected_inputs_connects_every_input : forall g w,
  (exists e, In e (genes g)
             /\ (is_type Hidden (snd e) || is_type Output (snd e)) = true) ->
  let g' := fst (prune_disconnected_inputs g w) in
  genes g' = genes g
  /\ output_nodes g' = output_nodes g
  /\ next_node_id g' = next_node_id g
  /\ (forall k, dmem conn_key_eqb k (connections g) = true ->
                dmem conn_key_eqb k (connections g') = true)
  /\ (forall i, In i (nodes_of_type Input g) ->
        exists k, dmem conn_key_eqb k (connections g') = true /\ conn_in k = i).
Proof.
  intros g w Ht. cbv zeta. rewrite prune_disconnected_inputs_loop.
  destruct (reconnect_loop (map conn_in (dkeys (connections g))) (nodes_of_type Input g) g w Ht)
    as (H1 & H2 & H3 & _ & _ & H6 & H7).
  repeat split; auto.
  intros i Hi.
  destruct (existsb (Nat.eqb i) (map conn_in (dkeys (connections g)))) eqn:E.
  - apply existsb_exists in E. destruct E as (x & Hx & Ex). apply Nat.eqb_eq in Ex. subst x.
    apply in_map_iff in Hx. destruct Hx as (k & Hk & Hin).
    exists k. split; [|exact Hk]. apply H6.
    now apply (dmem_In conn_key_eqb conn_key_eqb_spec).
  - now apply H7.
Qed.

(** X8 at [lonely_genome], whose only input node has no connection: the
    call connects it to the output node. *)
Lemma prune_disconnected_inputs_connects_every_input_lonely :
  let w := mkWorld (mkRng [] []) (w_im (snd lonely_construction)) in
  nodes_of_type Input lonely_genome = [0]
  /\ connections lonely_genome = []
  /\ (exists k, dmem conn_key_eqb k
                  (connections (fst (prune_disconnected_inputs lonely_genome w))) = true
                /\ conn_in k = 0)
  /\ dkeys (connections (fst (prune_disconnected_inputs lonely_genome w))) = [(0, 1, 3)].
Proof.
  cbv zeta. split; [reflexivity|]. split; [reflexivity|]. split; [|reflexivity].
  assert (Ht : exists e, In e (genes lonely_genome)
                 /\ (is_type Hidden (snd e) || is_type Output (snd e)) = true).
  { eexists. split; [right; left; reflexivity|reflexivity]. }
  destruct (prune_disconnected_inputs_connects_every_input lonely_genome
              (mkWorld (mkRng [] []) (w_im (snd lonely_construction))) Ht)
    as (_ & _ & _ & _ & H).
  apply H. now left.
Defined.

(* ------------------------------------------------------------------ *)
(** * [mutate_weights], [mutate_biases] and [mutate] *)

Lemma drawn_from_refl : forall w, drawn_from w w.
Proof. intros w x H. exact H. Qed.

Lemma drawn_from_trans : forall w1 w2 w3,
  drawn_from w1 w2 -> drawn_from w2 w3 -> drawn_from w1 w3.
Proof. intros w1 w2 w3 H1 H2 x H. auto. Qed.

Lemma random_random_drawn : forall w,
  drawn w (fst (random_random w)) /\ drawn_from w (snd (random_random w)).
Proof.
  intro w. unfold random_random, drawn_from, drawn.
  destruct (rand_reals (w_rng w)) as [|x t] eqn:E; cbn [fst snd w_rng rand_reals].
  - split; [now left|]. intros x H. now rewrite E in H.
  - split; [right; now left|]. intros y [Hy|Hy]; [now left|right; now right].
Qed.

Lemma random_uniform_drawn : forall a b w,
  (exists x, drawn w x /\ fst (random_uniform a b w) = (a + (b - a) * x)%Q)
  /\ drawn_from w (snd (random_uniform a b w)).
Proof.
  intros a b w. unfold random_uniform. rewrite bind_eq. unfold ret. cbn [fst snd].
  destruct (random_random_drawn w) as [H1 H2]. split; [eauto|exact H2].
Qed.



(* ------------------------------------------------------------------ *)
(** ** [mutate_weights] *)

Lemma dkeys_dset_bound : forall {K V} (keq : K -> K -> bool) k v v' (d : list (K * V)),
  dget keq k d = Some v -> dkeys (dset keq k v' d) = dkeys d.
Proof.
  intros K V keq k v v' d H. rewrite dkeys_dset. unfold dmem. now rewrite H.
Qed.

Lemma mutate_weight_step : forall rate power connection conns w,
  let r := mutate_weight rate power connection conns w in
  dkeys (fst r) = dkeys conns
  /\ (forall k, k <> connection -> dget conn_key_eqb k (fst r) = dget conn_key_eqb k conns)
  /\ (forall v, dget conn_key_eqb connection conns = Some v ->
        exists v', dget conn_key_eqb connection (fst r) = Some v'
                   /\ (v' = v \/ perturbed w power v v'))
  /\ w_im (snd r) = w_im w
  /\ drawn_from w (snd r).
Proof.
  intros rate power connection conns w. cbv zeta. unfold mutate_weight.
  rewrite bind_eq.
  destruct (random_random_drawn w) as [_ D1].
  pose proof (random_random_im w) as I1.
  set (w1 := snd (random_random w)) in *.
  destruct (Qlt_bool (fst (random_random w)) rate).
  2:{ unfold ret. cbn [fst snd]. repeat split; eauto. }
  destruct (dget conn_key_eqb connection conns) as [weight|] eqn:E.
  2:{ unfold ret. cbn [fst snd]. repeat split; auto. discriminate. }
  rewrite bind_eq. unfold ret. cbn [fst snd].
  destruct (random_uniform_drawn (- power) power w1) as [(x & Hx & Ex) D2].
  pose proof (random_uniform_im (- power) power w1) as I2.
  split; [now apply (dkeys_dset_bound conn_key_eqb) with weight|].
  split; [intros k Hk; now apply (dget_dset_other conn_key_eqb conn_key_eqb_spec)|].
  split.
  - intros v [= <-]. eexists. split; [apply (dget_dset_same conn_key_eqb conn_key_eqb_spec)|].
    right. exists x. split; [now apply D1|]. now rewrite Ex.
  - split; [congruence|]. eapply drawn_from_trans; eassumption.
Qed.


Lemma mutate_weight_loop_frame : forall rate power ks conns w,
  let r := for_each ks (mutate_weight rate power) conns w in
  dkeys (fst r) = dkeys conns
  /\ w_im (snd r) = w_im w
  /\ drawn_from w (snd r).
Proof.
  intros rate power. induction ks as [|x xs IH]; intros conns w; cbv zeta.
  - simpl. repeat split. apply drawn_from_refl.
  - cbn [for_each]. rewrite bind_eq.
    destruct (mutate_weight_step rate power x conns w) as (S1 & _ & _ & S4 & S5).
    set (r1 := mutate_weight rate power x conns w) in *.
    destruct (IH (fst r1) (snd r1)) as (I1 & I2 & I3).
    split; [congruence|]. split; [congruence|]. eapply drawn_from_trans; eassumption.
Qed.

Lemma mutate_weights_frame : forall rate power g w,
  let r := mutate_weights rate power g w in
  fst r = set_connections (connections (fst r)) g
  /\ dkeys (connections (fst r)) = dkeys (connections g)
  /\ w_im (snd r) = w_im w
  /\ drawn_from w (snd r).
Proof.
  intros rate power g w. cbv zeta. unfold mutate_weights. rewrite bind_eq.
  unfold ret. cbn [fst snd connections set_connections].
  destruct (mutate_weight_loop_frame rate power (dkeys (connections g)) (connections g) w)
    as (H1 & H2 & H3).
  auto.
Qed.

(* ------------------------------------------------------------------ *)
(** ** [mutate_biases] *)









(* ------------------------------------------------------------------ *)
(** ** [mutate] *)

Lemma keeps_identity_refl : forall g, keeps_identity 0 g g.
Proof. intro g. unfold keeps_identity. repeat split; lia. Qed.

Lemma issues_at_most_refl : forall m m', m' = m -> issues_at_most 0 m m'.
Proof. intros m m' ->. unfold issues_at_most. repeat split; lia. Qed.

Lemma mutate_bias_im : forall rate power item gs w,
  w_im (snd (mutate_bias rate power item gs w)) = w_im w.
Proof.
  intros rate power [node_id gi] gs w. unfold mutate_bias.
  destruct (negb (is_type Input gi)); [|reflexivity].
  destruct (gi_bias gi); [|reflexivity].
  rewrite bind_eq. destruct (Qlt_bool _ _).
  - rewrite bind_eq. unfold ret. cbn [snd]. rewrite random_uniform_im. apply random_random_im.
  - unfold ret. cbn [snd]. apply random_random_im.
Qed.

Lemma mutate_weights_bounded : forall rate power, bounded_mutation 0 0 (mutate_weights rate power).
Proof.
  intros rate power g w.
  destruct (mutate_weights_frame rate power g w) as (F1 & _ & F3 & _).
  split; [|now apply issues_at_most_refl].
  rewrite F1. unfold keeps_identity. cbn. repeat split; lia.
Qed.

Lemma mutate_biases_bounded : forall rate power, bounded_mutation 0 0 (mutate_biases rate power).
Proof.
  intros rate power g w. unfold mutate_biases. rewrite bind_eq. unfold ret. cbn [fst snd].
  split.
  - unfold keeps_identity. cbn. repeat split; lia.
  - apply issues_at_most_refl. apply for_each_im_preserved. intros. apply mutate_bias_im.
Qed.

Lemma add_node_frame : forall t a n g w,
  output_nodes (snd (fst (add_node t a n g w))) = output_nodes g
  /\ fitness (snd (fst (add_node t a n g w))) = fitness g
  /\ genome_id (snd (fst (add_node t a n g w))) = genome_id g.
Proof.
  intros t a n g w. unfold add_node. rewrite bind_eq. unfold ret. cbn. auto.
Qed.

Lemma mutate_add_node_bounded : bounded_mutation 2 3 mutate_add_node.
Proof.
  intros g w. unfold mutate_add_node.
  destruct (connections g) as [|[k0 wt0] cs] eqn:Ec.
  { unfold ret. cbn [fst snd]. unfold keeps_identity, issues_at_most. repeat split; lia. }
  rewrite bind_eq.
  pose proof (random_choice_im k0 (dkeys ((k0, wt0) :: cs)) w) as Hw1.
  set (chosen := fst (random_choice k0 (dkeys ((k0, wt0) :: cs)) w)) in *.
  set (w1 := snd (random_choice k0 (dkeys ((k0, wt0) :: cs)) w)) in *.
  destruct (dget conn_key_eqb chosen ((k0, wt0) :: cs)) as [weight|].
  2:{ unfold ret. cbn [fst snd]. rewrite Hw1.
      unfold keeps_identity, issues_at_most. repeat split; lia. }
  clearbody chosen w1. destruct chosen as [[a b] n].
  cbv beta iota zeta. repeat (rewrite bind_eq; cbv beta iota zeta).
  unfold ret. cbn [fst snd].
  replace (next_node_id (set_connections
             (ddel conn_key_eqb (a, b, n) ((k0, wt0) :: cs)) g))
    with (next_node_id g) by reflexivity.
  set (g1 := set_next_node_id (S (next_node_id g))
               (set_connections (ddel conn_key_eqb (a, b, n) ((k0, wt0) :: cs)) g)).
  set (wA := snd (im_create_innovation "gene" (next_node_id g) None w1)).
  set (iA := fst (im_create_innovation "gene" (next_node_id g) None w1)).
  assert (HwA : w_im wA = snd (create_innovation "gene" (next_node_id g) None None (w_im w1)))
    by reflexivity.
  set (wB := snd (random_choice Relu [Relu; Sigmoid; Tanh] wA)).
  assert (HwB : w_im wB = w_im wA) by apply random_choice_im.
  set (act := fst (random_choice Relu [Relu; Sigmoid; Tanh] wA)).
  destruct (add_node_spec Hidden act iA g1 wB) as (N2 & _).
  destruct (add_node_frame Hidden act iA g1 wB) as (O2 & F2 & I2).
  pose proof (add_node_im Hidden act iA g1 wB) as HwC.
  set (rN := add_node Hidden act iA g1 wB) in *.
  set (wD := snd (im_create_innovation "connection" a (Some (next_node_id g)) (snd rN))).
  set (iD := fst (im_create_innovation "connection" a (Some (next_node_id g)) (snd rN))).
  assert (HwD : w_im wD
                = snd (create_innovation "connection" a (Some (next_node_id g)) None
                         (w_im (snd rN)))) by reflexivity.
  destruct (add_connection_spec a (next_node_id g) (Some 1%Q) iD (snd (fst rN)) wD)
    as (_ & N3 & _).
  destruct (add_connection_frame a (next_node_id g) (Some 1%Q) iD (snd (fst rN)) wD)
    as (O3 & F3 & I3).
  pose proof (add_connection_im a (next_node_id g) (Some 1%Q) iD (snd (fst rN)) wD) as HwE.
  set (rC := add_connection a (next_node_id g) (Some 1%Q) iD (snd (fst rN)) wD) in *.
  set (wF := snd (im_create_innovation "connection" (next_node_id g) (Some b) (snd rC))).
  set (iF := fst (im_create_innovation "connection" (next_node_id g) (Some b) (snd rC))).
  assert (HwF : w_im wF
                = snd (create_innovation "connection" (next_node_id g) (Some b) None
                         (w_im (snd rC)))) by reflexivity.
  destruct (add_connection_spec (next_node_id g) b (Some weight) iF (snd (fst rC)) wF)
    as (_ & N4 & _).
  destruct (add_connection_frame (next_node_id g) b (Some weight) iF (snd (fst rC)) wF)
    as (O4 & F4 & I4).
  pose proof (add_connection_im (next_node_id g) b (Some weight) iF (snd (fst rC)) wF) as HwG.
  set (rF := add_connection (next_node_id g) b (Some weight) iF (snd (fst rC)) wF) in *.
  cbv zeta in N2, N3, N4.
  unfold g1 in N2, O2, F2, I2.
  cbn [next_node_id output_nodes fitness genome_id set_next_node_id set_connections]
    in N2, O2, F2, I2.
  split.
  - unfold keeps_identity. rewrite I4, I3, I2, F4, F3, F2, O4, O3, O2, N4, N3, N2.
    repeat split; lia.
  - unfold issues_at_most. rewrite HwG, HwF, HwE, HwD, HwC, HwB, HwA, Hw1. cbn.
    repeat split; lia.
Qed.

Lemma mutate_add_connection_bounded :
  bounded_mutation 0 1
    (fun g => mutate_add_connection (nodes_not_of_type Output g) (nodes_not_of_type Input g) g).
Proof.
  intros g w. cbv beta.
  destruct (mutate_add_connection_cases (nodes_not_of_type Output g)
              (nodes_not_of_type Input g) g w)
    as [[-> ->]|(i & o & wt & _ & _ & _ & _ & -> & ->)].
  - unfold keeps_identity, issues_at_most. repeat split; lia.
  - unfold keeps_identity, issues_at_most. cbn. repeat split; lia.
Qed.

Lemma mutate_eliminate_node_bounded : bounded_mutation 0 0 mutate_eliminate_node.
Proof.
  intros g w. split.
  - destruct (nodes_of_type Hidden g) as [|h hs] eqn:Eh.
    + unfold mutate_eliminate_node. rewrite Eh. apply keeps_identity_refl.
    + destruct (mutate_eliminate_node_cases g w) as (node_id & _ & ->); [congruence|].
      unfold keeps_identity. cbn. repeat split; lia.
  - apply issues_at_most_refl. unfold mutate_eliminate_node.
    destruct (nodes_of_type Hidden g) as [|h hs]; [reflexivity|].
    rewrite bind_eq.
    pose proof (random_shuffle_im (h :: hs) w) as H.
    destruct (fst (random_shuffle (h :: hs) w)); unfold ret; cbn [snd]; exact H.
Qed.

Lemma eliminate_connection_loop_frame : forall candidates g,
  keeps_identity 0 g (eliminate_connection_loop candidates g).
Proof.
  induction candidates as [|[[[in_node out_node] innov] wt0] rest IH]; intro g.
  - apply keeps_identity_refl.
  - cbn [eliminate_connection_loop].
    destruct (dget Nat.eqb in_node (genes g)); [|apply IH].
    destruct (dget Nat.eqb out_node (genes g)); [|apply IH].
    destruct (dget conn_key_eqb (in_node, out_node, innov) (connections g)); [|apply IH].
    cbv zeta. match goal with |- context [if ?c then _ else _] => destruct c end.
    + match goal with |- keeps_identity 0 g (eliminate_connection_loop rest ?g1) =>
        specialize (IH g1) end.
      unfold keeps_identity in *. cbn in IH. exact IH.
    + rewrite prune_orphan_nodes_spec. unfold keeps_identity. cbn. repeat split; lia.
Qed.

Lemma mutate_eliminate_connection_bounded : bounded_mutation 0 0 mutate_eliminate_connection.
Proof.
  intros g w. unfold mutate_eliminate_connection. rewrite bind_eq. unfold ret. cbn [fst snd].
  split; [apply eliminate_connection_loop_frame|].
  apply issues_at_most_refl. apply random_shuffle_im.
Qed.

(** A mutation behind its test. *)
Lemma gated_mutation : forall n k c, bounded_mutation n k c ->
  forall (test : bool) g w,
    keeps_identity n g (fst ((if test then c g else ret g) w))
    /\ issues_at_most k (w_im w) (w_im (snd ((if test then c g else ret g) w))).
Proof.
  intros n k c Hc test g w. destruct test; [apply Hc|].
  unfold ret. cbn [fst snd]. unfold keeps_identity, issues_at_most. repeat split; lia.
Qed.

Lemma draw_in_unit : forall w,
  unit_draws w ->
  (0 <= fst (random_random w))%Q /\ unit_draws (snd (random_random w)).
Proof.
  intros w Hu. unfold random_random, unit_draws in *.
  destruct (rand_reals (w_rng w)) as [|x t] eqn:E; cbn [fst snd w_rng rand_reals].
  - split; [apply Qle_refl|]. rewrite E. constructor.
  - inversion Hu as [|? ? [H0 _] Ht]; subst. split; assumption.
Qed.

Lemma Qlt_bool_nonpos : forall x rate, (rate <= 0)%Q -> (0 <= x)%Q -> Qlt_bool x rate = false.
Proof.
  intros x rate Hr Hx. unfold Qlt_bool. apply negb_false_iff. apply Qle_bool_iff. lra.
Qed.

Lemma ret_fst : forall {A} (a : A) w, fst (ret a w) = a.
Proof. reflexivity. Qed.

Lemma ret_snd : forall {A} (a : A) w, snd (ret a w) = w.
Proof. reflexivity. Qed.

(** The frame of [mutate], whatever the rates and the draws. *)
Lemma mutate_bounded : forall genome mutation_rate weight_mutation_rate add_node_rate
    add_connection_rate eliminate_node_rate eliminate_connection_rate w,
  let r := mutate genome mutation_rate weight_mutation_rate add_node_rate
             add_connection_rate eliminate_node_rate eliminate_connection_rate w in
  keeps_identity 2 genome (fst r) /\ issues_at_most 4 (w_im w) (w_im (snd r)).
Proof.
  intros genome mr wr anr acr enr ecr w. cbv zeta. unfold mutate.
  repeat (rewrite bind_eq; cbv beta).
  pose proof (random_random_im w) as R1.
  set (w1 := snd (random_random w)) in *.
  destruct (gated_mutation _ _ _ (mutate_weights_bounded (1 # 2) (1 # 5))
              (Qlt_bool (fst (random_random w)) wr && truthy (connections genome))
              genome w1) as [K1 I1].
  set (r1 := (if Qlt_bool (fst (random_random w)) wr && truthy (connections genome)
              then mutate_weights (1 # 2) (1 # 5) genome else ret genome) w1) in *.
  pose proof (random_random_im (snd r1)) as R2.
  set (w2 := snd (random_random (snd r1))) in *.
  destruct (gated_mutation _ _ _ (mutate_biases_bounded (1 # 2) (1 # 5))
              (Qlt_bool (fst (random_random (snd r1))) mr) (fst r1) w2) as [K2 I2].
  set (r2 := (if Qlt_bool (fst (random_random (snd r1))) mr
              then mutate_biases (1 # 2) (1 # 5) (fst r1) else ret (fst r1)) w2) in *.
  pose proof (random_random_im (snd r2)) as R3.
  set (w3 := snd (random_random (snd r2))) in *.
  destruct (gated_mutation _ _ _ mutate_add_node_bounded
              (Qlt_bool (fst (random_random (snd r2))) anr && truthy (connections (fst r2)))
              (fst r2) w3) as [K3 I3].
  set (r3 := (if Qlt_bool (fst (random_random (snd r2))) anr && truthy (connections (fst r2))
              then mutate_add_node (fst r2) else ret (fst r2)) w3) in *.
  pose proof (random_random_im (snd r3)) as R4.
  set (w4 := snd (random_random (snd r3))) in *.
  destruct (gated_mutation _ _ _ mutate_add_connection_bounded
              (Qlt_bool (fst (random_random (snd r3))) acr
               && Nat.leb 2 (length (genes (fst r3))))
              (fst r3) w4) as [K4 I4].
  cbv beta in K4, I4.
  set (r4 := (if Qlt_bool (fst (random_random (snd r3))) acr
                 && Nat.leb 2 (length (genes (fst r3)))
              then mutate_add_connection (nodes_not_of_type Output (fst r3))
                     (nodes_not_of_type Input (fst r3)) (fst r3)
              else ret (fst r3)) w4) in *.
  pose proof (random_random_im (snd r4)) as R5.
  set (w5 := snd (random_random (snd r4))) in *.
  destruct (gated_mutation _ _ _ mutate_eliminate_node_bounded
              (Qlt_bool (fst (random_random (snd r4))) enr
               && Nat.ltb 0 (get_num_hidden_nodes (fst r4)))
              (fst r4) w5) as [K5 I5].
  set (r5 := (if Qlt_bool (fst (random_random (snd r4))) enr
                 && Nat.ltb 0 (get_num_hidden_nodes (fst r4))
              then mutate_eliminate_node (fst r4) else ret (fst r4)) w5) in *.
  pose proof (random_random_im (snd r5)) as R6.
  set (w6 := snd (random_random (snd r5))) in *.
  destruct (gated_mutation _ _ _ mutate_eliminate_connection_bounded
              (Qlt_bool (fst (random_random (snd r5))) ecr && truthy (connections (fst r5)))
              (fst r5) w6) as [K6 I6].
  set (r6 := (if Qlt_bool (fst (random_random (snd r5))) ecr && truthy (connections (fst r5))
              then mutate_eliminate_connection (fst r5) else ret (fst r5)) w6) in *.
  unfold keeps_identity, issues_at_most in *.
  rewrite R1 in I1. rewrite R2 in I2. rewrite R3 in I3. rewrite R4 in I4.
  rewrite R5 in I5. rewrite R6 in I6.
  destruct K1 as (A1 & B1 & C1 & D1), K2 as (A2 & B2 & C2 & D2), K3 as (A3 & B3 & C3 & D3),
    K4 as (A4 & B4 & C4 & D4), K5 as (A5 & B5 & C5 & D5), K6 as (A6 & B6 & C6 & D6).
  destruct I1 as (E1 & F1), I2 as (E2 & F2), I3 as (E3 & F3), I4 as (E4 & F4),
    I5 as (E5 & F5), I6 as (E6 & F6).
  repeat split; try congruence; lia.
Qed.

(** With every rate at 0 or below no test succeeds. *)
Lemma mutate_with_zero_rates : forall genome mutation_rate weight_mutation_rate add_node_rate
    add_connection_rate eliminate_node_rate eliminate_connection_rate w,
  unit_draws w ->
  (mutation_rate <= 0)%Q -> (weight_mutation_rate <= 0)%Q -> (add_node_rate <= 0)%Q ->
  (add_connection_rate <= 0)%Q -> (eliminate_node_rate <= 0)%Q ->
  (eliminate_connection_rate <= 0)%Q ->
  fst (mutate genome mutation_rate weight_mutation_rate add_node_rate
         add_connection_rate eliminate_node_rate eliminate_connection_rate w) = genome.
Proof.
  intros genome mr wr anr acr enr ecr w Hu H1 H2 H3 H4 H5 H6. unfold mutate.
  destruct (draw_in_unit w Hu) as [X1 U1].
  rewrite bind_eq. cbv beta. rewrite (Qlt_bool_nonpos _ _ H2 X1). cbn [andb].
  rewrite bind_eq. cbv beta. rewrite ?ret_fst, ?ret_snd.
  destruct (draw_in_unit _ U1) as [X2 U2].
  rewrite bind_eq. cbv beta. rewrite (Qlt_bool_nonpos _ _ H1 X2).
  rewrite bind_eq. cbv beta. rewrite ?ret_fst, ?ret_snd.
  destruct (draw_in_unit _ U2) as [X3 U3].
  rewrite bind_eq. cbv beta. rewrite (Qlt_bool_nonpos _ _ H3 X3). cbn [andb].
  rewrite bind_eq. cbv beta. rewrite ?ret_fst, ?ret_snd.
  destruct (draw_in_unit _ U3) as [X4 U4].
  rewrite bind_eq. cbv beta. rewrite (Qlt_bool_nonpos _ _ H4 X4). cbn [andb].
  rewrite bind_eq. cbv beta. rewrite ?ret_fst, ?ret_snd.
  destruct (draw_in_unit _ U4) as [X5 U5].
  rewrite bind_eq. cbv beta. rewrite (Qlt_bool_nonpos _ _ H5 X5). cbn [andb].
  rewrite bind_eq. cbv beta. rewrite ?ret_fst, ?ret_snd.
  destruct (draw_in_unit _ U5) as [X6 U6].
  rewrite bind_eq. cbv beta. rewrite (Qlt_bool_nonpos _ _ H6 X6). cbn [andb].
  reflexivity.
Qed.

(** X11: [mutate] never changes the id, the fitness or [output_nodes] of
    the genome; [next_node_id] grows by at most 2, the manager issues at
    most 4 innovation numbers and no genome id.  With every rate at 0 (and
    draws of [random.random()] in [0, 1]) the genome comes back unchanged. *)
Theorem mutate_keeps_identity : forall genome mutation_rate weight_mutation_rate
    add_node_rate add_connection_rate eliminate_node_rate eliminate_connection_rate w,
  let r := mutate genome mutation_rate weight_mutation_rate add_node_rate
             add_connection_rate eliminate_node_rate eliminate_connection_rate w in
  genome_id (fst r) = genome_id genome
  /\ fitness (fst r) = fitness genome
  /\ output_nodes (fst r) = output_nodes genome
  /\ next_node_id genome <= next_node_id (fst r) <= next_node_id genome + 2
  /\ next_genome_id_counter (w_im (snd r)) = next_genome_id_counter (w_im w)
  /\ next_innovation_number (w_im w) <= next_innovation_number (w_im (snd r))
     <= next_innovation_number (w_im w) + 4
  /\ (unit_draws w ->
      (mutation_rate <= 0)%Q -> (weight_mutation_rate <= 0)%Q -> (add_node_rate <= 0)%Q ->
      (add_connection_rate <= 0)%Q -> (eliminate_node_rate <= 0)%Q ->
      (eliminate_connection_rate <= 0)%Q ->
      fst r = genome).
Proof.
  intros genome mr wr anr acr enr ecr w. cbv zeta.
  destruct (mutate_bounded genome mr wr anr acr enr ecr w) as [(A & B & C & D) (E & F)].
  split; [exact A|]. split; [exact B|]. split; [exact C|]. split; [exact D|].
  split; [exact E|]. split; [exact F|].
  intros. now apply mutate_with_zero_rates.
Qed.

(* ------------------------------------------------------------------ *)
(** * The child of [crossover] and the constructor *)

Lemma In_le_list_max : forall x l, In x l -> x <= list_max l.
Proof.
  intros x l H. pose proof (proj1 (list_max_le l (list_max l)) (Nat.le_refl _)) as F.
  rewrite Forall_forall in F. now apply F.
Qed.

(** X12: [crossover] raises [TypeError] (and touches nothing) when a parent
    has no fitness.  Otherwise the child is an object the constructor built
    for the numbers of input and output genes of parent 1 and the default 8
    hidden nodes, whose genes and connections are then replaced: it has the
    id the manager issued, no fitness, the constructor's
    [output_nodes = [ni + 8, ..., ni + 8 + no - 1]] whatever the ids of the
    parents' output nodes, and a [next_node_id] above all its node ids; the
    constructor run took [ni + 8 + no] innovation numbers for nodes that are
    dropped, and up to [ni + 8] more for their connections. *)
Theorem crossover_child_comes_from_constructor : forall parent1 parent2 w,
  let r := crossover parent1 parent2 w in
  let ni := length (filter (fun e => is_type Input (snd e)) (genes parent1)) in
  let no := length (filter (fun e => is_type Output (snd e)) (genes parent1)) in
  (fitness parent1 = None \/ fitness parent2 = None -> r = (TypeError, w))
  /\ (forall f1 f2, fitness parent1 = Some f1 -> fitness parent2 = Some f2 ->
        exists child,
          fst r = Ok child
          /\ genome_id child = next_genome_id_counter (w_im w)
          /\ fitness child = None
          /\ output_nodes child = seq (ni + 8) no
          /\ (forall id, In id (dkeys (genes child)) -> id < next_node_id child)
          /\ exists k, k <= ni + 8
               /\ next_innovation_number (w_im (snd r))
                  = next_innovation_number (w_im w) + (ni + 8 + no) + k).
Proof.
  intros p1 p2 w. cbv zeta. split.
  - unfold crossover. intros [H|H]; rewrite H; [reflexivity|].
    destruct (fitness p1); reflexivity.
  - intros f1 f2 H1 H2. unfold crossover. rewrite H1, H2.
    repeat (rewrite bind_eq; cbv beta iota zeta). unfold ret. cbn [fst snd].
    eexists. split; [reflexivity|].
    cbn [genome_id fitness output_nodes genes next_node_id
         set_next_node_id set_connections set_genes].
    rewrite (for_each_im_preserved _ (crossover_connection_im _ _ _)).
    rewrite (for_each_im_preserved _ (crossover_gene_im _ _ _)).
    cbn [im_increment_genome_id snd w_im increment_genome_id next_innovation_number].
    match goal with
    | |- context [genome_init ?a ?b ?c ?d ?w0] =>
        destruct (genome_init_spec a b c d w0) as (Hid & _ & (k & Hk & Hn) & _);
        destruct (genome_init_layers a b c d w0)
          as (_ & _ & _ & _ & _ & _ & _ & Ho & _ & Hf & _);
        set (r := genome_init a b c d w0) in *
    end.
    cbv zeta in Hid, Hn, Ho, Hf. cbn [fst snd im_next_genome_id next_genome_id w_im
      next_innovation_number] in Hid, Hn.
    split; [exact Hid|]. split; [exact Hf|]. split; [exact Ho|]. split.
    + intros id Hin.
      match goal with
      | |- _ < match ?cg with [] => _ | _ :: _ => _ end => destruct cg as [|e cg'] eqn:E
      end; [destruct Hin|].
      apply In_le_list_max in Hin. lia.
    + exists k. split; [exact Hk|]. rewrite Hn. lia.
Qed.

(** X12 at [parent_a] and [parent_b], which have one input and one output
    gene: the child lists the output node 9, and no gene of it has that
    id. *)
Lemma crossover_child_comes_from_constructor_parents :
  fitness parent_a = Some 2%Q
  /\ fitness parent_b = Some 1%Q
  /\ output_nodes parent_a = [3]
  /\ exists child,
       fst (crossover parent_a parent_b (chain_world [])) = Ok child
       /\ output_nodes child
          = seq (length (filter (fun e => is_type Input (snd e)) (genes parent_a)) + 8)
                (length (filter (fun e => is_type Output (snd e)) (genes parent_a))).
Proof.
  assert (H1 : fitness parent_a = Some 2%Q) by reflexivity.
  assert (H2 : fitness parent_b = Some 1%Q) by reflexivity.
  split; [exact H1|]. split; [exact H2|]. split; [vm_compute; reflexivity|].
  destruct (proj2 (crossover_child_comes_from_constructor parent_a parent_b (chain_world []))
              2%Q 1%Q H1 H2) as (child & Hc & _ & _ & Ho & _).
  exists child. split; [exact Hc|exact Ho].
Defined.

(* ------------------------------------------------------------------ *)
(** * The compatibility distance as a distance *)

Lemma fold_left_ext_in : forall {A B} (f g : A -> B -> A) l a,
  (forall a x, In x l -> f a x = g a x) -> fold_left f l a = fold_left g l a.
Proof.
  intros A B f g l. induction l as [|x r IH]; intros a H; simpl; [reflexivity|].
  rewrite H by now left. apply IH. intros a' y Hy. apply H. now right.
Qed.

Lemma distance_gene_step_sym : forall numbers1 numbers2 max1 max2 c i,
  distance_gene_step numbers1 numbers2 max1 max2 c i
  = distance_gene_step numbers2 numbers1 max2 max1 c i.
Proof.
  intros. unfold distance_gene_step. rewrite (Nat.min_comm max1 max2).
  destruct (existsb (Nat.eqb i) numbers1), (existsb (Nat.eqb i) numbers2); reflexivity.
Qed.

(** The two counters the distance reads. *)
Lemma distance_connection_step_sym : forall connections1 connections2 max1 max2 c c' i,
  excess c = excess c' -> disjoint c = disjoint c' ->
  let a := distance_connection_step connections1 connections2 max1 max2 c i in
  let b := distance_connection_step connections2 connections1 max2 max1 c' i in
  excess a = excess b /\ disjoint a = disjoint b.
Proof.
  intros cs1 cs2 max1 max2 c c' i He Hd. cbv zeta. unfold distance_connection_step.
  rewrite (Nat.min_comm max1 max2).
  destruct (filter (fun k => Nat.eqb (conn_innov k) i) (dkeys cs1)) as [|k1 l1];
    destruct (filter (fun k => Nat.eqb (conn_innov k) i) (dkeys cs2)) as [|k2 l2];
    try (destruct (Nat.ltb (Nat.min max2 max1) i); cbn; split; congruence);
    try (split; assumption).
  destruct (dget conn_key_eqb k1 cs1), (dget conn_key_eqb k2 cs2); cbn; split; assumption.
Qed.

Lemma distance_connection_fold_sym : forall connections1 connections2 max1 max2 l c c',
  excess c = excess c' -> disjoint c = disjoint c' ->
  let a := fold_left (distance_connection_step connections1 connections2 max1 max2) l c in
  let b := fold_left (distance_connection_step connections2 connections1 max2 max1) l c' in
  excess a = excess b /\ disjoint a = disjoint b.
Proof.
  intros cs1 cs2 max1 max2. induction l as [|i r IH]; intros c c' He Hd; cbv zeta.
  - simpl. auto.
  - simpl. destruct (distance_connection_step_sym cs1 cs2 max1 max2 c c' i He Hd) as [E D].
    now apply IH.
Qed.

Lemma distance_counters_sym : forall genes1 genes2 connections1 connections2,
  let a := distance_counters genes1 genes2 connections1 connections2 in
  let b := distance_counters genes2 genes1 connections2 connections1 in
  excess a = excess b /\ disjoint a = disjoint b.
Proof.
  intros gs1 gs2 cs1 cs2. cbv zeta. unfold distance_counters. cbv zeta.
  rewrite (Nat.max_comm (list_max (connection_innovation_numbers cs1))).
  apply distance_connection_fold_sym.
  - rewrite (Nat.max_comm (list_max (gene_innovation_numbers gs1))).
    f_equal. apply fold_left_ext_in. intros. apply distance_gene_step_sym.
  - rewrite (Nat.max_comm (list_max (gene_innovation_numbers gs1))).
    f_equal. apply fold_left_ext_in. intros. apply distance_gene_step_sym.
Qed.

Lemma distance_N_sym : forall genes1 genes2 connections1 connections2,
  distance_N genes1 genes2 connections1 connections2
  = distance_N genes2 genes1 connections2 connections1.
Proof.
  intros. unfold distance_N.
  replace (Nat.max (Nat.max (Nat.max (length genes2) (length genes1)) (length connections2))
                   (length connections1))
    with (Nat.max (Nat.max (Nat.max (length genes1) (length genes2)) (length connections1))
                  (length connections2)) by lia.
  reflexivity.
Qed.

(** X13: the compatibility distance is symmetric: the species of
    representative [a] is as far from the genome [b] as the species of
    representative [b] is from [a], for all coefficients; and so
    [is_compatible] gives the same answer both ways. *)
Theorem compatibility_distance_is_symmetric : forall a b c1 c2 c3 threshold,
  calculate_compatibility_distance a b c1 c2 c3
  = calculate_compatibility_distance b a c1 c2 c3
  /\ is_compatible a b threshold = is_compatible b a threshold.
Proof.
  assert (H : forall a b c1 c2 c3,
            calculate_compatibility_distance a b c1 c2 c3
            = calculate_compatibility_distance b a c1 c2 c3).
  { intros a b c1 c2 c3. unfold calculate_compatibility_distance. cbv zeta.
    destruct (distance_counters_sym (genes a) (genes b) (connections a) (connections b))
      as [E D].
    rewrite E, D, (distance_N_sym (genes a) (genes b)). reflexivity. }
  intros a b c1 c2 c3 threshold. split; [apply H|].
  unfold is_compatible. now rewrite H.
Qed.

Lemma distance_gene_step_self : forall numbers max c i,
  distance_gene_step numbers numbers max max c i = c.
Proof.
  intros. unfold distance_gene_step.
  destruct (existsb (Nat.eqb i) numbers); reflexivity.
Qed.

Lemma distance_connection_fold_self : forall conns max l c,
  let a := fold_left (distance_connection_step conns conns max max) l c in
  excess a = excess c /\ disjoint a = disjoint c.
Proof.
  intros conns max. induction l as [|i r IH]; intro c; cbv zeta; simpl; [auto|].
  destruct (IH (distance_connection_step conns conns max max c i)) as [E D].
  rewrite E, D. unfold distance_connection_step.
  destruct (filter (fun k => Nat.eqb (conn_innov k) i) (dkeys conns)) as [|k l]; [auto|].
  destruct (dget conn_key_eqb k conns); auto.
Qed.

(** X14: a genome is at distance 0 from itself (the value is a fraction
    equal to 0), whatever the coefficients, so it is compatible with the
    species it represents for every threshold that is not negative. *)
Theorem genome_is_compatible_with_itself : forall g c1 c2 c3 threshold,
  (calculate_compatibility_distance g g c1 c2 c3 == 0)%Q
  /\ ((0 <= threshold)%Q -> is_compatible g g threshold = true).
Proof.
  assert (H : forall g c1 c2 c3, (calculate_compatibility_distance g g c1 c2 c3 == 0)%Q).
  { intros g c1 c2 c3. unfold calculate_compatibility_distance. cbv zeta.
    unfold distance_counters. cbv zeta.
    destruct (distance_connection_fold_self (connections g)
                (list_max (connection_innovation_numbers (connections g)))
                (seq 1 (Nat.max (list_max (connection_innovation_numbers (connections g)))
                                (list_max (connection_innovation_numbers (connections g)))))
                (fold_left
                   (distance_gene_step (gene_innovation_numbers (genes g))
                      (gene_innovation_numbers (genes g))
                      (list_max (gene_innovation_numbers (genes g)))
                      (list_max (gene_innovation_numbers (genes g))))
                   (seq 1 (Nat.max (list_max (gene_innovation_numbers (genes g)))
                                   (list_max (gene_innovation_numbers (genes g)))))
                   (mkCounters 0 0 0%Q 0))) as [E D].
    cbv zeta in E, D. rewrite E, D.
    assert (F : fold_left
                  (distance_gene_step (gene_innovation_numbers (genes g))
                     (gene_innovation_numbers (genes g))
                     (list_max (gene_innovation_numbers (genes g)))
                     (list_max (gene_innovation_numbers (genes g))))
                  (seq 1 (Nat.max (list_max (gene_innovation_numbers (genes g)))
                                  (list_max (gene_innovation_numbers (genes g)))))
                  (mkCounters 0 0 0%Q 0) = mkCounters 0 0 0%Q 0).
    { generalize (seq 1 (Nat.max (list_max (gene_innovation_numbers (genes g)))
                                 (list_max (gene_innovation_numbers (genes g))))).
      intro l. induction l as [|i r IH]; simpl; [reflexivity|].
      now rewrite distance_gene_step_self. }
    rewrite F. cbn [excess disjoint]. unfold Qnat, Qdiv. cbn [Z.of_nat inject_Z]. ring. }
  intros g c1 c2 c3 threshold. split; [apply H|].
  intro Ht. unfold is_compatible. apply Qle_bool_iff. rewrite H. exact Ht.
Qed.

(** X14 at the chain genome and the threshold 3. *)
Lemma genome_is_compatible_with_itself_chain :
  (0 <= 3)%Q /\ is_compatible chain_genome chain_genome 3 = true.
Proof.
  assert (H : (0 <= 3)%Q) by (cbv; discriminate).
  split; [exact H|].
  exact (proj2 (genome_is_compatible_with_itself chain_genome 1 1 1 3) H).
Defined.

(* ------------------------------------------------------------------ *)
(** * Sorting, [Population] and [Species] *)

Section SortedReverse.
Context {A : Type}.
Variable lt : A -> A -> bool.

Lemma insert_reverse_perm : forall x l, Permutation (x :: l) (insert_reverse lt x l).
Proof.
  intros x l. induction l as [|y r IH]; simpl; [reflexivity|].
  destruct (lt x y); [|reflexivity].
  etransitivity; [apply perm_swap|]. now constructor.
Qed.

Lemma sorted_reverse_perm : forall l, Permutation l (sorted_reverse lt l).
Proof.
  induction l as [|x r IH]; simpl; [reflexivity|].
  etransitivity; [|apply insert_reverse_perm]. now constructor.
Qed.

Lemma sorted_reverse_length : forall l, length (sorted_reverse lt l) = length l.
Proof. intro l. symmetry. apply Permutation_length, sorted_reverse_perm. Qed.

(** The comparison is a strict weak order on the elements that satisfy
    [P]. *)
Variable P : A -> Prop.
Hypothesis lt_asym : forall a b, P a -> P b -> lt a b = true -> lt b a = false.
Hypothesis lt_negtrans : forall a b c, P a -> P b -> P c ->
  lt a b = false -> lt b c = false -> lt a c = false.

Lemma insert_reverse_sorted : forall x l,
  P x -> Forall P l ->
  StronglySorted (fun a b => lt a b = false) l ->
  StronglySorted (fun a b => lt a b = false) (insert_reverse lt x l).
Proof.
  intros x l Hx. induction l as [|y r IH]; intros HP Hs; simpl.
  - repeat constructor.
  - inversion HP as [|? ? Hy Hr]; subst. inversion Hs as [|? ? Hs' Hy']; subst.
    destruct (lt x y) eqn:E.
    + constructor; [now apply IH|].
      apply Forall_forall. intros z Hz.
      apply (Permutation_in _ (Permutation_sym (insert_reverse_perm x r))) in Hz.
      destruct Hz as [<-|Hz]; [now apply lt_asym|].
      rewrite Forall_forall in Hy'. now apply Hy'.
    + constructor; [exact Hs|]. constructor; [exact E|].
      apply Forall_forall. intros z Hz.
      rewrite Forall_forall in Hy', Hr.
      apply (lt_negtrans x y z); auto.
Qed.

Lemma sorted_reverse_sorted : forall l,
  Forall P l -> StronglySorted (fun a b => lt a b = false) (sorted_reverse lt l).
Proof.
  induction l as [|x r IH]; intro HP; simpl; [constructor|].
  inversion HP as [|? ? Hx Hr]; subst.
  apply insert_reverse_sorted; auto.
  apply Forall_forall. intros z Hz.
  apply (Permutation_in _ (Permutation_sym (sorted_reverse_perm r))) in Hz.
  rewrite Forall_forall in Hr. now apply Hr.
Qed.

End SortedReverse.

(* ------------------------------------------------------------------ *)
(** ** [Population.create_initial_population] *)

Lemma create_initial_genome_population_spec : forall ni no nh w,
  let r := create_initial_genome_population ni no nh w in
  genome_id (fst r) = next_genome_id_counter (w_im w)
  /\ next_genome_id_counter (w_im (snd r)) = next_genome_id_counter (w_im w) + 2
  /\ get_num_inputs (fst r) = ni
  /\ get_num_hidden_nodes (fst r) = nh
  /\ get_num_outputs (fst r) = no
  /\ fitness (fst r) = None.
Proof.
  intros ni no nh w. cbv zeta. unfold create_initial_genome_population.
  rewrite !bind_eq. unfold ret. cbn [fst snd].
  cbn [im_increment_genome_id snd w_im increment_genome_id next_genome_id_counter].
  match goal with
  | |- context [genome_init ?a ?b ?c ?d ?w0] =>
      destruct (genome_init_spec a b c d w0) as (Hid & Hc & _);
      destruct (genome_init_counts a b c d w0) as (C1 & C2 & C3 & _);
      destruct (genome_init_layers a b c d w0)
        as (_ & _ & _ & _ & _ & _ & _ & _ & _ & Hf & _)
  end.
  cbv zeta in Hid, Hc, C1, C2, C3, Hf.
  rewrite Hid, Hc. cbn. repeat split; auto; lia.
Qed.

Lemma create_initial_population_loop : forall ni no nh n p w,
  let body := fun p =>
       genome <- create_initial_genome_population ni no nh ;;
       ret (mkPopulation (population_size p) (population p ++ [genome])) in
  let r := for_range n body p w in
  exists new,
    population (fst r) = population p ++ new
    /\ population_size (fst r) = population_size p
    /\ map genome_id new
       = map (fun k => next_genome_id_counter (w_im w) + 2 * k) (seq 0 n)
    /\ Forall (fun g => get_num_inputs g = ni /\ get_num_hidden_nodes g = nh
                        /\ get_num_outputs g = no /\ fitness g = None) new
    /\ next_genome_id_counter (w_im (snd r)) = next_genome_id_counter (w_im w) + 2 * n.
Proof.
  intros ni no nh. induction n as [|n IH]; intros p w; cbv zeta.
  - exists []. simpl. rewrite app_nil_r. repeat split; auto; try lia.
  - cbn [for_range]. rewrite !bind_eq. cbv beta. rewrite !ret_fst, !ret_snd.
    destruct (create_initial_genome_population_spec ni no nh w)
      as (Hid & Hc & C1 & C2 & C3 & Hf).
    set (r1 := create_initial_genome_population ni no nh w) in *.
    specialize (IH (mkPopulation (population_size p) (population p ++ [fst r1])) (snd r1)).
    cbv zeta in IH. destruct IH as (new & I1 & I2 & I3 & I4 & I5).
    exists (fst r1 :: new). cbn [population population_size] in I1, I2.
    rewrite I1, I2, I5, Hc, <- app_assoc. split; [reflexivity|]. split; [reflexivity|].
    split; [|split].
    + cbn [map seq]. rewrite Hid, Nat.mul_0_r, Nat.add_0_r. f_equal.
      rewrite I3, Hc, <- seq_shift, map_map. apply map_ext. intro k. lia.
    + constructor; auto.
    + lia.
Qed.

(* ------------------------------------------------------------------ *)
(** ** [Population] *)

Lemma NoDup_map_injective : forall {A B} (f : A -> B) l,
  (forall a b, f a = f b -> a = b) -> NoDup l -> NoDup (map f l).
Proof.
  intros A B f l Hf Hnd. induction Hnd as [|x r Hx Hr IH]; cbn [map]; constructor; auto.
  intro Hin. apply in_map_iff in Hin. destruct Hin as (y & Hy & Hin).
  apply Hf in Hy. now subst y.
Qed.

Lemma NoDup_spaced_ids : forall c n, NoDup (map (fun k => c + 2 * k) (seq 0 n)).
Proof.
  intros c n. apply NoDup_map_injective; [|apply seq_NoDup].
  intros a b H. lia.
Qed.

(** X15: [create_initial_population] appends [population_size] genomes to
    [population], each built by the constructor for the given numbers of
    nodes and without fitness.  Their ids are [c, c + 2, c + 4, ...], [c]
    being the manager's genome counter at the call, so they differ from one
    another; the counter ends at [c + 2 * population_size]. *)
Theorem create_initial_population_appends_fresh_genomes :
  forall num_inputs num_outputs initial_hidden_nodes p w,
    let r := create_initial_population num_inputs num_outputs initial_hidden_nodes p w in
    let c := next_genome_id_counter (w_im w) in
    exists new,
      population (fst r) = population p ++ new
      /\ population_size (fst r) = population_size p
      /\ map genome_id new = map (fun k => c + 2 * k) (seq 0 (population_size p))
      /\ NoDup (map genome_id new)
      /\ Forall (fun g => get_num_inputs g = num_inputs
                          /\ get_num_hidden_nodes g = initial_hidden_nodes
                          /\ get_num_outputs g = num_outputs
                          /\ fitness g = None) new
      /\ next_genome_id_counter (w_im (snd r)) = c + 2 * population_size p.
Proof.
  intros ni no nh p w. cbv zeta.
  destruct (create_initial_population_loop ni no nh (population_size p) p w)
    as (new & H1 & H2 & H3 & H4 & H5).
  exists new. unfold create_initial_population.
  split; [exact H1|]. split; [exact H2|]. split; [exact H3|].
  split; [rewrite H3; apply NoDup_spaced_ids|]. split; [exact H4|exact H5].
Qed.

(** *** [select_genomes] *)

Lemma fitness_lt_asym : forall a b,
  fitness a <> None -> fitness b <> None ->
  fitness_lt a b = true -> fitness_lt b a = false.
Proof.
  intros a b Ha Hb. unfold fitness_lt.
  destruct (fitness a) as [x|]; [|congruence]. destruct (fitness b) as [y|]; [|congruence].
  intro H. apply Qlt_bool_true in H. apply Qlt_bool_false. now apply Qlt_le_weak.
Qed.

Lemma fitness_lt_negtrans : forall a b c,
  fitness a <> None -> fitness b <> None -> fitness c <> None ->
  fitness_lt a b = false -> fitness_lt b c = false -> fitness_lt a c = false.
Proof.
  intros a b c Ha Hb Hc. unfold fitness_lt.
  destruct (fitness a) as [x|]; [|congruence]. destruct (fitness b) as [y|]; [|congruence].
  destruct (fitness c) as [z|]; [|congruence].
  intros H1 H2. apply Qlt_bool_false in H1, H2. apply Qlt_bool_false.
  eapply Qle_trans; eauto.
Qed.

Lemma existsb_unevaluated : forall l,
  existsb unevaluated l = true <-> exists g, In g l /\ fitness g = None.
Proof.
  intro l. rewrite existsb_exists. unfold unevaluated.
  split; intros (g & Hin & Hg); exists g; split; auto.
  - now destruct (fitness g).
  - now rewrite Hg.
Qed.

Lemma existsb_unevaluated_false : forall l,
  existsb unevaluated l = false -> Forall (fun g => fitness g <> None) l.
Proof.
  intros l H. apply Forall_forall. intros g Hin Hg.
  assert (existsb unevaluated l = true) by (apply existsb_unevaluated; eauto).
  congruence.
Qed.

Lemma StronglySorted_weaken : forall {A} (R R' : A -> A -> Prop) l,
  (forall a b, In a l -> In b l -> R a b -> R' a b) ->
  StronglySorted R l -> StronglySorted R' l.
Proof.
  intros A R R' l H Hs. induction Hs as [|x r Hr IH Hx]; constructor.
  - apply IH. intros a b Ha Hb. apply H; now right.
  - rewrite Forall_forall in *. intros y Hy. apply H; [now left|now right|now apply Hx].
Qed.

Lemma StronglySorted_firstn : forall {A} (R : A -> A -> Prop) n l,
  StronglySorted R l -> StronglySorted R (firstn n l).
Proof.
  intros A R n l Hs. rewrite <- (firstn_skipn n l) in Hs.
  now apply StronglySorted_app_l in Hs.
Qed.

(** A list of at most one genome, or of evaluated genomes, sorted with
    [key=fitness, reverse=True]: no genome comes after one with a strictly
    smaller fitness. *)
Lemma sorted_population_ranked : forall l,
  length l <= 1 \/ Forall (fun g => fitness g <> None) l ->
  StronglySorted (fun a b => fitness_lt a b = false) (sorted_reverse fitness_lt l).
Proof.
  intros l [Hlen|Hall].
  - destruct l as [|x [|y r]]; simpl in *; try lia; repeat constructor.
  - apply (sorted_reverse_sorted fitness_lt (fun g => fitness g <> None)); auto.
    + apply fitness_lt_asym.
    + apply fitness_lt_negtrans.
Qed.

Lemma fitness_lt_false_le : forall a b fa fb,
  fitness_lt a b = false -> fitness a = Some fa -> fitness b = Some fb -> (fb <= fa)%Q.
Proof.
  intros a b fa fb H Ha Hb. unfold fitness_lt in H. rewrite Ha, Hb in H.
  now apply Qlt_bool_false.
Qed.

Lemma select_genomes_cases : forall p,
  (select_genomes p = TypeError
   /\ 2 <= length (population p)
   /\ exists g, In g (population p) /\ fitness g = None)
  \/ (select_genomes p
      = Ok (firstn (Nat.max 1 (population_size p / 5))
                   (sorted_reverse fitness_lt (population p)))
      /\ (length (population p) <= 1
          \/ Forall (fun g => fitness g <> None) (population p))).
Proof.
  intro p. unfold select_genomes.
  destruct (Nat.leb 2 (length (population p))) eqn:E1;
    [destruct (existsb unevaluated (population p)) eqn:E2|].
  - left. cbn [andb]. split; [reflexivity|]. split; [now apply Nat.leb_le|].
    now apply existsb_unevaluated.
  - right. cbn [andb]. split; [reflexivity|]. right. now apply existsb_unevaluated_false.
  - right. cbn [andb]. split; [reflexivity|]. left. apply Nat.leb_gt in E1. lia.
Qed.

(** X16: [select_genomes] raises [TypeError] exactly when the population has
    two or more genomes and one of them has no fitness.  Otherwise it
    returns [max(1, population_size // 5)] genomes (all of them when the
    population has fewer), in descending order of fitness, and no genome it
    leaves out is fitter than one it returns. *)
Theorem select_genomes_takes_the_fittest : forall p,
  (select_genomes p = TypeError
   <-> 2 <= length (population p) /\ exists g, In g (population p) /\ fitness g = None)
  /\ forall selected, select_genomes p = Ok selected ->
       length selected
       = Nat.min (Nat.max 1 (population_size p / 5)) (length (population p))
       /\ StronglySorted
            (fun a b => forall fa fb, fitness a = Some fa -> fitness b = Some fb ->
                                      (fb <= fa)%Q)
            selected
       /\ exists rest,
            Permutation (population p) (selected ++ rest)
            /\ forall g h fg fh, In g selected -> In h rest ->
                 fitness g = Some fg -> fitness h = Some fh -> (fh <= fg)%Q.
Proof.
  intro p. destruct (select_genomes_cases p) as [(E & Hlen & Hex)|(E & Hok)].
  - split; [split; auto|]. intros selected H. rewrite E in H. discriminate H.
  - split.
    + split; [intro H; rewrite E in H; discriminate H|].
      intros (Hlen & g & Hin & Hg). exfalso. destruct Hok as [Hok|Hok]; [lia|].
      rewrite Forall_forall in Hok. now apply (Hok g Hin).
    + intros selected H. rewrite E in H. injection H as <-.
      pose proof (sorted_population_ranked _ Hok) as Hs.
      set (sorted := sorted_reverse fitness_lt (population p)) in *.
      set (k := Nat.max 1 (population_size p / 5)).
      split; [|split].
      * rewrite length_firstn. unfold sorted. now rewrite sorted_reverse_length.
      * apply (StronglySorted_weaken (fun a b => fitness_lt a b = false)).
        -- intros a b _ _ Hab fa fb. now apply fitness_lt_false_le.
        -- now apply StronglySorted_firstn.
      * exists (skipn k sorted). split.
        -- rewrite firstn_skipn. apply sorted_reverse_perm.
        -- intros g h fg fh Hg Hh. apply fitness_lt_false_le.
           rewrite <- (firstn_skipn k sorted) in Hs.
           exact (StronglySorted_app_In _ _ _ g h Hs Hg Hh).
Qed.

(** X16 at [two_parents]: the one genome selected is [parent_a], the
    fitter of the two. *)
Lemma select_genomes_takes_the_fittest_two_parents :
  select_genomes two_parents = Ok [parent_a]
  /\ length [parent_a] = Nat.min (Nat.max 1 (population_size two_parents / 5))
                                 (length (population two_parents)).
Proof.
  assert (H : select_genomes two_parents = Ok [parent_a]) by (vm_compute; reflexivity).
  split; [exact H|].
  exact (proj1 (proj2 (select_genomes_takes_the_fittest two_parents) _ H)).
Defined.

(** *** [reproduce_and_mutate] with the module's [crossover] and [mutate] *)

Lemma crossover_child_identity : forall parent1 parent2 f1 f2 w,
  fitness parent1 = Some f1 ->
  fitness parent2 = Some f2 ->
  exists child,
    fst (crossover parent1 parent2 w) = Ok child
    /\ genome_id child = next_genome_id_counter (w_im w)
    /\ fitness child = None.
Proof.
  intros parent1 parent2 f1 f2 w H1 H2.
  pose proof (crossover_as_loops parent1 parent2 f1 f2 w H1 H2) as Hc.
  cbv zeta in Hc. rewrite Hc. eexists. split; [reflexivity|].
  cbn [genome_id fitness set_next_node_id set_connections set_genes].
  destruct (create_initial_genome_population_spec
              (length (filter (fun e => is_type Input (snd e)) (genes parent1)))
              (length (filter (fun e => is_type Output (snd e)) (genes parent1))) 8 w)
    as (Hid & _ & _ & _ & _ & Hf).
  split; [exact Hid|exact Hf].
Qed.

(** Each turn of the loop appends one child without fitness, whose id is
    the manager's genome counter, and advances that counter by 2. *)
Lemma reproduce_loop_spec : forall fuel selected mr bmr bmp new_population w,
  selected <> [] ->
  Forall (fun g => fitness g <> None) selected ->
  let r := reproduce_loop crossover mutate_with_defaults fuel selected mr bmr bmp
             new_population w in
  exists children,
    fst r = Ok (new_population ++ children)
    /\ map genome_id children
       = map (fun k => next_genome_id_counter (w_im w) + 2 * k) (seq 0 fuel)
    /\ Forall (fun g => fitness g = None) children
    /\ next_genome_id_counter (w_im (snd r)) = next_genome_id_counter (w_im w) + 2 * fuel.
Proof.
  induction fuel as [|fuel IH]; intros selected mr bmr bmp newp w Hne Hall; cbv zeta.
  - exists []. cbn [reproduce_loop]. rewrite ret_fst, ret_snd, app_nil_r.
    repeat split; auto; lia.
  - destruct selected as [|g0 rest]; [congruence|].
    cbn [reproduce_loop]. rewrite bind_eq. cbv beta.
    set (c1 := random_choice g0 (g0 :: rest) w).
    rewrite bind_eq. cbv beta.
    set (c2 := random_choice g0 (g0 :: rest) (snd c1)).
    rewrite bind_eq. cbv beta.
    assert (H1 : In (fst c1) (g0 :: rest)) by (apply random_choice_In; discriminate).
    assert (H2 : In (fst c2) (g0 :: rest)) by (apply random_choice_In; discriminate).
    assert (Hw : w_im (snd c2) = w_im w)
      by (unfold c2, c1; now rewrite !random_choice_im).
    pose proof Hall as Hall'. rewrite Forall_forall in Hall'.
    destruct (fitness (fst c1)) as [f1|] eqn:F1; [|exfalso; now apply (Hall' _ H1)].
    destruct (fitness (fst c2)) as [f2|] eqn:F2; [|exfalso; now apply (Hall' _ H2)].
    destruct (crossover_child_identity (fst c1) (fst c2) f1 f2 (snd c2) F1 F2)
      as (child & Hc & Hid & Hf).
    pose proof (crossover_genome_counter (fst c1) (fst c2) (snd c2)) as Hcount.
    rewrite F1, F2 in Hcount.
    set (x := crossover (fst c1) (fst c2) (snd c2)) in *.
    rewrite Hc. cbv beta iota.
    rewrite bind_eq. cbv beta.
    destruct (mutate_bounded child mr (1 # 5) (3 # 10) (3 # 10) (1 # 5) (1 # 5) (snd x))
      as [(M1 & M2 & _) (M3 & _)].
    fold (mutate_with_defaults child mr) in M1, M2, M3.
    set (m := mutate_with_defaults child mr (snd x)) in *.
    rewrite bind_eq. cbv beta.
    destruct (mutate_biases_bounded bmr bmp (fst m) (snd m)) as [(B1 & B2 & _) (B3 & _)].
    set (b := mutate_biases bmr bmp (fst m) (snd m)) in *.
    destruct (IH (g0 :: rest) mr bmr bmp (newp ++ [fst b]) (snd b) Hne Hall)
      as (children & I1 & I2 & I3 & I4).
    exists (fst b :: children). rewrite I1, <- app_assoc.
    assert (Hcb : next_genome_id_counter (w_im (snd b))
                  = next_genome_id_counter (w_im w) + 2)
      by (rewrite B3, M3, Hcount, Hw; reflexivity).
    split; [reflexivity|]. split; [|split].
    + cbn [map seq]. f_equal; [rewrite B1, M1, Hid, Hw; lia|].
      rewrite I2, Hcb, <- seq_shift, map_map. apply map_ext. intro k. lia.
    + constructor; [now rewrite B2, M2|exact I3].
    + rewrite I4, Hcb. lia.
Qed.

(** X17: [reproduce_and_mutate] with the module's [crossover] and [mutate].
    It raises what [select_genomes] raises, and [IndexError] when the
    population is empty and a genome is wanted.  On a population of
    evaluated genomes it puts the selected genomes first, as they are, and
    fills up with [population_size - len(selected)] children, where
    [population_size] is the argument; the attribute of that name keeps its
    value.  The children have no fitness, so a second call raises
    [TypeError] unless they are evaluated first; their ids are
    [c, c + 2, ...], [c] being the manager's genome counter at the call. *)
Theorem reproduce_and_mutate_keeps_the_selected :
  forall size mutation_rate bias_mutation_rate bias_mutation_power p w,
    let r := reproduce_and_mutate crossover mutate_with_defaults size mutation_rate
               bias_mutation_rate bias_mutation_power p w in
    let c := next_genome_id_counter (w_im w) in
    (select_genomes p = TypeError -> r = (TypeError, w))
    /\ (population p = [] -> 0 < size -> fst r = IndexError)
    /\ (population p <> [] -> Forall (fun g => fitness g <> None) (population p) ->
        exists selected children,
          select_genomes p = Ok selected
          /\ selected <> []
          /\ fst r = Ok (mkPopulation (population_size p) (selected ++ children))
          /\ length children = size - length selected
          /\ map genome_id children
             = map (fun k => c + 2 * k) (seq 0 (size - length selected))
          /\ Forall (fun g => fitness g = None) children
          /\ next_genome_id_counter (w_im (snd r)) = c + 2 * (size - length selected)
          /\ (children <> [] ->
              select_genomes (mkPopulation (population_size p) (selected ++ children))
              = TypeError)).
Proof.
  intros size mr bmr bmp p w. cbv zeta. unfold reproduce_and_mutate.
  split; [|split].
  - intro H. rewrite H. reflexivity.
  - intros Hp Hsize. unfold select_genomes. rewrite Hp. cbn [length Nat.leb andb].
    cbn [sorted_reverse firstn]. rewrite firstn_nil. rewrite bind_eq.
    cbn [length]. rewrite Nat.sub_0_r.
    destruct size as [|size]; [lia|]. reflexivity.
  - intros Hp Hall.
    destruct (select_genomes_cases p) as [(_ & _ & g & Hin & Hg)|(E & _)].
    { exfalso. rewrite Forall_forall in Hall. now apply (Hall g Hin). }
    set (selected := firstn (Nat.max 1 (population_size p / 5))
                       (sorted_reverse fitness_lt (population p))) in *.
    assert (Hsub : forall g, In g selected -> In g (population p)).
    { intros g Hg. unfold selected in Hg.
      apply (Permutation_in _ (Permutation_sym (sorted_reverse_perm fitness_lt _))).
      rewrite <- (firstn_skipn (Nat.max 1 (population_size p / 5))).
      apply in_or_app. now left. }
    assert (Hne : selected <> []).
    { unfold selected. intro H. apply (f_equal (@length _)) in H.
      rewrite length_firstn, sorted_reverse_length in H. cbn [length] in H.
      destruct (population p); [congruence|cbn [length] in H; lia]. }
    assert (Hsel : Forall (fun g => fitness g <> None) selected).
    { rewrite Forall_forall in *. intros g Hg. apply Hall. now apply Hsub. }
    rewrite E. rewrite bind_eq.
    destruct (reproduce_loop_spec (size - length selected) selected mr bmr bmp selected w
                Hne Hsel) as (children & R1 & R2 & R3 & R4).
    set (loop := reproduce_loop crossover mutate_with_defaults (size - length selected)
                   selected mr bmr bmp selected w) in *.
    rewrite R1. cbv beta iota. rewrite ret_fst, ret_snd.
    exists selected, children.
    split; [reflexivity|]. split; [exact Hne|]. split; [reflexivity|].
    split; [rewrite <- (length_map genome_id), R2, length_map; apply length_seq|].
    split; [exact R2|]. split; [exact R3|]. split; [exact R4|].
    intro Hch. destruct (select_genomes_cases
                           (mkPopulation (population_size p) (selected ++ children)))
      as [(E' & _)|(_ & [Hlen|Hev])]; [exact E'| |]; exfalso; cbn [population] in *.
    + rewrite length_app in Hlen.
      destruct selected; [congruence|]. destruct children; [congruence|].
      cbn [length] in Hlen. lia.
    + destruct children as [|ch rest]; [congruence|].
      apply Forall_app in Hev. destruct Hev as [_ Hev].
      inversion Hev as [|? ? Hc _]; subst. inversion R3 as [|? ? Hn _]; subst.
      contradiction.
Qed.

(** X17 at [two_parents] for a population of three: [parent_a] is kept and
    two children of [parent_a] with itself follow, with the ids 0 and 2. *)
Lemma reproduce_and_mutate_keeps_the_selected_two_parents :
  population two_parents = [parent_b; parent_a]
  /\ next_genome_id_counter (w_im (chain_world [])) = 0
  /\ exists children,
       fst (reproduce_and_mutate crossover mutate_with_defaults 3 (3 # 10) (3 # 10) (3 # 10)
              two_parents (chain_world []))
       = Ok (mkPopulation 2 (parent_a :: children))
       /\ map genome_id children = [0; 2]
       /\ Forall (fun g => fitness g = None) children.
Proof.
  assert (Hp : population two_parents = [parent_b; parent_a]) by reflexivity.
  assert (Hc : next_genome_id_counter (w_im (chain_world [])) = 0)
    by (vm_compute; reflexivity).
  assert (Hs : select_genomes two_parents = Ok [parent_a]) by (vm_compute; reflexivity).
  split; [exact Hp|]. split; [exact Hc|].
  destruct (proj2 (proj2 (reproduce_and_mutate_keeps_the_selected 3 (3 # 10) (3 # 10)
                            (3 # 10) two_parents (chain_world []))))
    as (selected & children & E & _ & R & _ & Hid & Hf & _).
  - rewrite Hp. discriminate.
  - rewrite Hp. repeat constructor; vm_compute; discriminate.
  - rewrite Hs in E. injection E as <-. exists children.
    rewrite Hc in Hid. split; [exact R|]. split; [exact Hid|exact Hf].
Defined.

(* ------------------------------------------------------------------ *)
(** ** [Species] *)

Section SpeciesFacts.
Variable fitness_of : SpeciesClass.GenomeRef -> option Q.

(** The loop of [adjust_fitnesses]: it raises at the first member without
    fitness; otherwise every genome of the list is bound to its share and
    the other keys keep their binding. *)
Lemma adjust_loop_spec : forall species_size genomes adjusted,
  ((exists g, In g genomes /\ fitness_of g = None)
   /\ SpeciesClass.adjust_loop fitness_of species_size genomes adjusted = TypeError)
  \/ (Forall (fun g => fitness_of g <> None) genomes
      /\ exists result,
           SpeciesClass.adjust_loop fitness_of species_size genomes adjusted = Ok result
           /\ (forall g f, In g genomes -> fitness_of g = Some f ->
                 dget Nat.eqb g result = Some (f / Qnat species_size)%Q)
           /\ (forall g, ~ In g genomes -> dget Nat.eqb g result = dget Nat.eqb g adjusted)).
Proof.
  intros n. induction genomes as [|x r IH]; intro adjusted.
  - right. split; [constructor|]. exists adjusted. cbn [SpeciesClass.adjust_loop].
    split; [reflexivity|]. split; [intros g f []|reflexivity].
  - cbn [SpeciesClass.adjust_loop]. destruct (fitness_of x) as [fx|] eqn:Fx.
    + destruct (IH (dset Nat.eqb x (fx / Qnat n)%Q adjusted))
        as [((g & Hin & Hg) & E)|(Hall & result & E & H1 & H2)].
      * left. split; [exists g; split; [now right|exact Hg]|exact E].
      * right. split; [constructor; [congruence|exact Hall]|].
        exists result. split; [exact E|]. split.
        -- intros g f Hin Hf. destruct (in_dec Nat.eq_dec g r) as [Hr|Hr].
           ++ now apply H1.
           ++ destruct Hin as [<-|Hin]; [|contradiction].
              rewrite (H2 x Hr), (dget_dset_same Nat.eqb Nat.eqb_eq). congruence.
        -- intros g Hn. rewrite H2 by (intro; apply Hn; now right).
           apply (dget_dset_other Nat.eqb Nat.eqb_eq). intros ->. apply Hn. now left.
    + left. split; [exists x; split; [now left|exact Fx]|reflexivity].
Qed.

(** X18: [adjust_fitnesses] raises [TypeError] exactly when a member has no
    fitness.  Otherwise [get_adjusted_fitness] gives, for every member, its
    fitness divided by the number of members, and for a genome that is no
    member its fitness as it is, whatever [adjusted_fitnesses] held before;
    the other attributes of the species are not touched. *)
Theorem adjust_fitnesses_shares_fitness : forall s,
  (SpeciesClass.adjust_fitnesses fitness_of s = TypeError
   <-> exists g, In g (SpeciesClass.members s) /\ fitness_of g = None)
  /\ forall s', SpeciesClass.adjust_fitnesses fitness_of s = Ok s' ->
       SpeciesClass.representative_genome s' = SpeciesClass.representative_genome s
       /\ SpeciesClass.members s' = SpeciesClass.members s
       /\ SpeciesClass.best_fitness s' = SpeciesClass.best_fitness s
       /\ SpeciesClass.last_improved s' = SpeciesClass.last_improved s
       /\ SpeciesClass.historical_best_fitness s' = SpeciesClass.historical_best_fitness s
       /\ (forall g f, In g (SpeciesClass.members s) -> fitness_of g = Some f ->
             SpeciesClass.get_adjusted_fitness fitness_of s' g
             = Some (f / Qnat (length (SpeciesClass.members s)))%Q)
       /\ (forall g, ~ In g (SpeciesClass.members s) ->
             SpeciesClass.get_adjusted_fitness fitness_of s' g = fitness_of g).
Proof.
  intro s. unfold SpeciesClass.adjust_fitnesses.
  destruct (adjust_loop_spec (length (SpeciesClass.members s)) (SpeciesClass.members s) [])
    as [(Hex & E)|(Hall & result & E & H1 & H2)]; rewrite E.
  - split; [split; auto|]. intros s' H. discriminate H.
  - split.
    + split; [intro H; discriminate H|].
      intros (g & Hin & Hg). exfalso. rewrite Forall_forall in Hall. now apply (Hall g Hin).
    + intros s' H. injection H as <-. cbn.
      repeat (split; [reflexivity|]).
      unfold SpeciesClass.get_adjusted_fitness. cbn [SpeciesClass.adjusted_fitnesses].
      split.
      * intros g f Hin Hf. now rewrite (H1 g f Hin Hf).
      * intros g Hn. now rewrite (H2 g Hn).
Qed.

Lemma member_lt_asym : forall a b,
  fitness_of a <> None -> fitness_of b <> None ->
  SpeciesClass.member_lt fitness_of a b = true ->
  SpeciesClass.member_lt fitness_of b a = false.
Proof.
  intros a b Ha Hb. unfold SpeciesClass.member_lt.
  destruct (fitness_of a) as [x|]; [|congruence].
  destruct (fitness_of b) as [y|]; [|congruence].
  intro H. apply Qlt_bool_true in H. apply Qlt_bool_false. now apply Qlt_le_weak.
Qed.

Lemma member_lt_negtrans : forall a b c,
  fitness_of a <> None -> fitness_of b <> None -> fitness_of c <> None ->
  SpeciesClass.member_lt fitness_of a b = false ->
  SpeciesClass.member_lt fitness_of b c = false ->
  SpeciesClass.member_lt fitness_of a c = false.
Proof.
  intros a b c Ha Hb Hc. unfold SpeciesClass.member_lt.
  destruct (fitness_of a) as [x|]; [|congruence].
  destruct (fitness_of b) as [y|]; [|congruence].
  destruct (fitness_of c) as [z|]; [|congruence].
  intros H1 H2. apply Qlt_bool_false in H1, H2. apply Qlt_bool_false.
  eapply Qle_trans; eauto.
Qed.

Lemma existsb_member_unevaluated : forall l,
  existsb (SpeciesClass.member_unevaluated fitness_of) l = true
  <-> exists g, In g l /\ fitness_of g = None.
Proof.
  intro l. rewrite existsb_exists. unfold SpeciesClass.member_unevaluated.
  split; intros (g & Hin & Hg); exists g; split; auto.
  - now destruct (fitness_of g).
  - now rewrite Hg.
Qed.

Lemma sorted_members_ranked : forall l,
  length l <= 1 \/ Forall (fun g => fitness_of g <> None) l ->
  StronglySorted (fun a b => SpeciesClass.member_lt fitness_of a b = false)
                 (sorted_reverse (SpeciesClass.member_lt fitness_of) l).
Proof.
  intros l [Hlen|Hall].
  - destruct l as [|x [|y r]]; simpl in *; try lia; repeat constructor.
  - apply (sorted_reverse_sorted (SpeciesClass.member_lt fitness_of)
             (fun g => fitness_of g <> None)); auto.
    + apply member_lt_asym.
    + apply member_lt_negtrans.
Qed.

(** X19: [clear] leaves a species without members as it is, and raises
    [TypeError] exactly when there are two or more members and one of them
    has no fitness.  Otherwise the new representative is a member with the
    largest fitness, it is the only member left, and the other attributes
    ([best_fitness] among them) keep their values. *)
Theorem clear_keeps_the_fittest_member : forall s,
  (SpeciesClass.members s = [] -> SpeciesClass.clear fitness_of s = Ok s)
  /\ (SpeciesClass.clear fitness_of s = TypeError
      <-> 2 <= length (SpeciesClass.members s)
          /\ exists g, In g (SpeciesClass.members s) /\ fitness_of g = None)
  /\ forall s', SpeciesClass.clear fitness_of s = Ok s' ->
       SpeciesClass.members s <> [] ->
       In (SpeciesClass.representative_genome s') (SpeciesClass.members s)
       /\ SpeciesClass.members s' = [SpeciesClass.representative_genome s']
       /\ (forall g fg fb, In g (SpeciesClass.members s) ->
             fitness_of g = Some fg ->
             fitness_of (SpeciesClass.representative_genome s') = Some fb ->
             (fg <= fb)%Q)
       /\ SpeciesClass.adjusted_fitnesses s' = SpeciesClass.adjusted_fitnesses s
       /\ SpeciesClass.best_fitness s' = SpeciesClass.best_fitness s
       /\ SpeciesClass.last_improved s' = SpeciesClass.last_improved s
       /\ SpeciesClass.historical_best_fitness s' = SpeciesClass.historical_best_fitness s.
Proof.
  intro s. unfold SpeciesClass.clear.
  destruct (SpeciesClass.members s) as [|m0 ms] eqn:Em.
  { split; [reflexivity|]. split.
    - split; [intro H; discriminate H|]. intros [H _]. cbn [length] in H. lia.
    - intros s' _ H. congruence. }
  split; [intro H; discriminate H|].
  set (l := m0 :: ms) in *.
  destruct (Nat.leb 2 (length l)) eqn:E1;
    [destruct (existsb (SpeciesClass.member_unevaluated fitness_of) l) eqn:E2|];
    cbn [andb].
  - split; [|intros s' H; discriminate H].
    split; [intros _|reflexivity].
    split; [now apply Nat.leb_le|now apply existsb_member_unevaluated].
  - assert (Hall : Forall (fun g => fitness_of g <> None) l).
    { apply Forall_forall. intros g Hin Hg.
      assert (existsb (SpeciesClass.member_unevaluated fitness_of) l = true)
        by (apply existsb_member_unevaluated; eauto).
      congruence. }
    pose proof (sorted_members_ranked l (or_intror Hall)) as Hs.
    pose proof (sorted_reverse_perm (SpeciesClass.member_lt fitness_of) l) as Hperm.
    destruct (sorted_reverse (SpeciesClass.member_lt fitness_of) l) as [|best rest] eqn:Es.
    { apply Permutation_length in Hperm. unfold l in Hperm. cbn [length] in Hperm. lia. }
    split.
    + split; [intro H; discriminate H|].
      intros (_ & g & Hin & Hg). exfalso. rewrite Forall_forall in Hall.
      now apply (Hall g Hin).
    + intros s' H _. injection H as <-. cbn.
      split; [apply (Permutation_in _ (Permutation_sym Hperm)); now left|].
      split; [reflexivity|]. split; [|repeat split].
      intros g fg fb Hin Hg Hb.
      apply (Permutation_in _ Hperm) in Hin. destruct Hin as [<-|Hin].
      * rewrite Hg in Hb. injection Hb as <-. apply Qle_refl.
      * apply StronglySorted_inv in Hs. destruct Hs as [_ Hs].
        rewrite Forall_forall in Hs. specialize (Hs g Hin).
        unfold SpeciesClass.member_lt in Hs. rewrite Hb, Hg in Hs.
        now apply Qlt_bool_false.
  - apply Nat.leb_gt in E1.
    assert (Hms : ms = []) by (destruct ms; [reflexivity|unfold l in E1; cbn [length] in E1; lia]).
    subst ms. unfold l. cbn [sorted_reverse insert_reverse].
    split.
    + split; [intro H; discriminate H|]. intros [H _]. cbn [length] in H. lia.
    + intros s' H _. injection H as <-. cbn.
      split; [now left|]. split; [reflexivity|]. split; [|repeat split].
      intros g fg fb [<-|[]] Hg Hb. rewrite Hg in Hb. injection Hb as <-. apply Qle_refl.
Qed.

End SpeciesFacts.

(** X18 at the species of the members 0, 1 and 2, whose fitness is 3, 6 and
    3: the adjusted fitness of the member 1 is 6 / 3, and the genome 3,
    which is no member and has no fitness, has none. *)
Lemma adjust_fitnesses_shares_fitness_three_members :
  exists s',
    SpeciesClass.adjust_fitnesses member_fitness three_members = Ok s'
    /\ SpeciesClass.members three_members = [0; 1; 2]
    /\ SpeciesClass.get_adjusted_fitness member_fitness s' 1 = Some (6 / Qnat 3)%Q
    /\ SpeciesClass.get_adjusted_fitness member_fitness s' 3 = None.
Proof.
  destruct (SpeciesClass.adjust_fitnesses member_fitness three_members) as [s'| | |] eqn:E;
    try (vm_compute in E; discriminate E).
  exists s'. split; [reflexivity|]. split; [reflexivity|].
  destruct (proj2 (adjust_fitnesses_shares_fitness member_fitness three_members) s' E)
    as (_ & _ & _ & _ & _ & H1 & H2).
  split.
  - apply (H1 1 6%Q); [simpl; auto|reflexivity].
  - rewrite (H2 3); [reflexivity|]. simpl. intuition discriminate.
Defined.

(** X19 at the same species: the member 1, of fitness 6, becomes the
    representative and the only member. *)
Lemma clear_keeps_the_fittest_member_three_members :
  exists s',
    SpeciesClass.clear member_fitness three_members = Ok s'
    /\ SpeciesClass.representative_genome three_members = 0
    /\ SpeciesClass.representative_genome s' = 1
    /\ SpeciesClass.members s' = [SpeciesClass.representative_genome s'].
Proof.
  destruct (SpeciesClass.clear member_fitness three_members) as [s'| | |] eqn:E;
    try (vm_compute in E; discriminate E).
  exists s'. split; [reflexivity|]. split; [reflexivity|].
  destruct (proj2 (proj2 (clear_keeps_the_fittest_member member_fitness three_members)) s' E)
    as (_ & Hm & _); [discriminate|].
  split; [|exact Hm].
  vm_compute in E. injection E as <-. reflexivity.
Defined.

(** *** [update_best_fitness] *)

(** X20: [update_best_fitness(fitness)] on a species whose two fitness
    attributes are numbers.  With [fitness <= best_fitness] it returns and
    changes nothing.  With a larger fitness it sets [best_fitness] to it and
    [historical_best_fitness] to the larger of the two, and then reads the
    global [current_generation]: if no such global is defined the call
    raises [NameError] with the two attributes already assigned and
    [last_improved] as it was; otherwise [last_improved] becomes that
    generation.  In every case neither attribute decreases, and if
    [historical_best_fitness] was not below [best_fitness] before the call
    it is not below it afterwards. *)
Theorem update_best_fitness_keeps_history_above :
  forall current_generation fitness s best historical,
    SpeciesClass.best_fitness s = Some best ->
    SpeciesClass.historical_best_fitness s = Some historical ->
    let outcome := SpeciesClass.update_best_fitness current_generation fitness s in
    let s' := species_after outcome in
    ((fitness <= best)%Q -> outcome = SpeciesClass.Returns s)
    /\ ((best < fitness)%Q ->
        SpeciesClass.best_fitness s' = Some fitness
        /\ SpeciesClass.historical_best_fitness s' = Some (py_max historical fitness)
        /\ (current_generation = None ->
            outcome = SpeciesClass.RaisesNameError s'
            /\ SpeciesClass.last_improved s' = SpeciesClass.last_improved s)
        /\ (forall generation, current_generation = Some generation ->
              outcome = SpeciesClass.Returns s'
              /\ SpeciesClass.last_improved s' = generation))
    /\ (exists best' historical',
          SpeciesClass.best_fitness s' = Some best'
          /\ SpeciesClass.historical_best_fitness s' = Some historical'
          /\ (best <= best')%Q
          /\ (historical <= historical')%Q
          /\ ((best <= historical)%Q -> (best' <= historical')%Q))
    /\ SpeciesClass.representative_genome s' = SpeciesClass.representative_genome s
    /\ SpeciesClass.members s' = SpeciesClass.members s
    /\ SpeciesClass.adjusted_fitnesses s' = SpeciesClass.adjusted_fitnesses s.
Proof.
  intros cg fitness s best historical Hb Hh. cbv zeta.
  unfold SpeciesClass.update_best_fitness. rewrite Hb, Hh.
  destruct (py_max_cases historical fitness) as (_ & Hm1 & Hm2).
  destruct (Qlt_bool best fitness) eqn:E.
  - apply Qlt_bool_true in E.
    split; [intro Hle; exfalso; exact (Qlt_not_le _ _ E Hle)|].
    destruct cg as [generation|]; cbn.
    + split.
      { intros _. split; [reflexivity|]. split; [reflexivity|].
        split; [intro H; discriminate H|]. intros g H. injection H as <-. split; reflexivity. }
      split; [|repeat split].
      exists fitness, (py_max historical fitness).
      repeat split; auto using Qlt_le_weak.
    + split.
      { intros _. split; [reflexivity|]. split; [reflexivity|].
        split; [intros _; split; reflexivity|]. intros g H. discriminate H. }
      split; [|repeat split].
      exists fitness, (py_max historical fitness).
      repeat split; auto using Qlt_le_weak.
  - apply Qlt_bool_false in E. cbn [species_after].
    split; [reflexivity|].
    split; [intro Hlt; exfalso; exact (Qlt_not_le _ _ Hlt E)|].
    split; [|repeat split].
    exists best, historical. repeat split; auto using Qle_refl.
Qed.

(** X20 at the species of the members 0, 1 and 2, whose [best_fitness] and
    [historical_best_fitness] are 3, when the fitness 6 is reported and no
    global [current_generation] is defined: the call raises [NameError],
    both attributes are 6 and [last_improved] is still 0. *)
Lemma update_best_fitness_keeps_history_above_three_members :
  SpeciesClass.best_fitness three_members = Some 3%Q
  /\ SpeciesClass.historical_best_fitness three_members = Some 3%Q
  /\ (3 < 6)%Q
  /\ exists s',
       SpeciesClass.update_best_fitness None 6%Q three_members
       = SpeciesClass.RaisesNameError s'
       /\ SpeciesClass.best_fitness s' = Some 6%Q
       /\ SpeciesClass.last_improved s' = 0.
Proof.
  assert (Hb : SpeciesClass.best_fitness three_members = Some 3%Q) by reflexivity.
  assert (Hh : SpeciesClass.historical_best_fitness three_members = Some 3%Q)
    by reflexivity.
  assert (Hlt : (3 < 6)%Q) by reflexivity.
  split; [exact Hb|]. split; [exact Hh|]. split; [exact Hlt|].
  destruct (update_best_fitness_keeps_history_above None 6%Q three_members 3%Q 3%Q Hb Hh)
    as (_ & H & _).
  destruct (H Hlt) as (H1 & _ & H3 & _). destruct (H3 eq_refl) as [H4 H5].
  eexists. split; [exact H4|]. split; [exact H1|exact H5].
Defined.

(* ------------------------------------------------------------------ *)
(** * [ConnectionMatrix] *)

Import ConnectionMatrix.

(** ** The set of nodes *)

Lemma in_set_In : forall x s, in_set x s = true <-> In x s.
Proof.
  intros x s. unfold in_set. rewrite existsb_exists. split.
  - intros (y & Hy & E). apply Nat.eqb_eq in E. now subst.
  - intro H. exists x. split; [exact H|apply Nat.eqb_refl].
Qed.

Lemma in_set_false : forall x s, in_set x s = false <-> ~ In x s.
Proof.
  intros x s. rewrite <- in_set_In. destruct (in_set x s); split; congruence.
Qed.

Lemma sorted_set_In : forall x s, In x (sorted_set s) <-> In x s.
Proof.
  intros x s. unfold sorted_set. rewrite <- (nodup_In Nat.eq_dec s x).
  split; apply Permutation_in; [apply Permutation_sym|]; apply NatSort.Permuted_sort.
Qed.

Lemma sorted_set_NoDup : forall s, NoDup (sorted_set s).
Proof.
  intro s. unfold sorted_set.
  eapply Permutation_NoDup; [apply NatSort.Permuted_sort|apply NoDup_nodup].
Qed.

(** Two lists with the same elements give the same sorted list. *)
Lemma sorted_increasing : forall s, StronglySorted lt (sorted_set s).
Proof.
  intro s. apply sorted_le_NoDup_lt; [|apply sorted_set_NoDup].
  unfold sorted_set. apply NatSort.StronglySorted_sort.
  intros x y z Hxy Hyz. apply natorder_leb_le in Hxy, Hyz. apply natorder_leb_le. lia.
Qed.

Lemma increasing_head_least : forall x (r : list nat) y,
  StronglySorted lt (x :: r) -> In y (x :: r) -> x <= y.
Proof.
  intros x r y Hs [<-|Hy]; [lia|].
  apply StronglySorted_inv in Hs. destruct Hs as [_ Hs].
  rewrite Forall_forall in Hs. specialize (Hs y Hy). lia.
Qed.

Lemma increasing_unique : forall l1 l2 : list nat,
  StronglySorted lt l1 -> StronglySorted lt l2 ->
  (forall x, In x l1 <-> In x l2) -> l1 = l2.
Proof.
  induction l1 as [|x r IH]; intros l2 H1 H2 Heq.
  - destruct l2 as [|y r2]; [reflexivity|]. exfalso. apply (Heq y). now left.
  - destruct l2 as [|y r2]; [exfalso; apply (Heq x); now left|].
    assert (x = y).
    { pose proof (increasing_head_least x r y H1 (proj2 (Heq y) (or_introl eq_refl))).
      pose proof (increasing_head_least y r2 x H2 (proj1 (Heq x) (or_introl eq_refl))).
      lia. }
    subst y. f_equal.
    pose proof (StronglySorted_inv H1) as [S1 F1].
    pose proof (StronglySorted_inv H2) as [S2 F2].
    rewrite Forall_forall in F1, F2.
    apply IH; auto. intro z. split; intro Hz.
    + destruct (proj1 (Heq z) (or_intror Hz)) as [<-|H]; [|exact H].
      specialize (F1 _ Hz). lia.
    + destruct (proj2 (Heq z) (or_intror Hz)) as [<-|H]; [|exact H].
      specialize (F2 _ Hz). lia.
Qed.

Lemma sorted_set_ext : forall s1 s2,
  (forall x, In x s1 <-> In x s2) -> sorted_set s1 = sorted_set s2.
Proof.
  intros s1 s2 H. apply increasing_unique; try apply sorted_increasing.
  intro x. now rewrite !sorted_set_In.
Qed.

Lemma set_add_In : forall x y s, In y (set_add x s) <-> y = x \/ In y s.
Proof.
  intros x y s. unfold set_add. destruct (in_set x s) eqn:E.
  - apply in_set_In in E. split; [auto|]. intros [->|H]; auto.
  - rewrite in_app_iff. simpl. intuition.
Qed.

Lemma set_remove_In : forall x y s, In y (set_remove x s) <-> y <> x /\ In y s.
Proof.
  intros x y s. unfold set_remove. rewrite filter_In, negb_true_iff, Nat.eqb_neq. tauto.
Qed.

(** ** The numbering of the nodes *)

Lemma number_nodes : forall (ns : list nat) start d1 d2,
  NoDup ns ->
  (forall x, In x ns -> dget Nat.eqb x d1 = None) ->
  (forall i, start <= i -> dget Nat.eqb i d2 = None) ->
  fold_left (fun maps item => number_node item maps)
            (combine (seq start (length ns)) ns) (d1, d2)
  = (d1 ++ combine ns (seq start (length ns)), d2 ++ combine (seq start (length ns)) ns).
Proof.
  induction ns as [|x r IH]; intros start d1 d2 Hnd H1 H2.
  - simpl. now rewrite !app_nil_r.
  - inversion Hnd as [|? ? Hx Hr]; subst. cbn [length seq combine fold_left number_node fst snd].
    rewrite (dset_fresh Nat.eqb x start d1) by (apply H1; now left).
    rewrite (dset_fresh Nat.eqb start x d2) by (apply H2; lia).
    rewrite IH; auto.
    + now rewrite <- !app_assoc.
    + intros y Hy. assert (y <> x) by (intros ->; contradiction).
      destruct (dget Nat.eqb y (d1 ++ [(x, start)])) as [v|] eqn:E; [|reflexivity].
      exfalso. apply (dget_Some_In Nat.eqb Nat.eqb_eq) in E.
      apply in_app_or in E. destruct E as [E|[E|[]]]; [|congruence].
      pose proof (H1 y (or_intror Hy)) as Hn.
      apply (dget_None_not_key Nat.eqb Nat.eqb_eq) in Hn. apply Hn.
      unfold dkeys. change y with (fst (y, v)). now apply in_map.
    + intros i Hi.
      destruct (dget Nat.eqb i (d2 ++ [(start, x)])) as [v|] eqn:E; [|reflexivity].
      exfalso. apply (dget_Some_In Nat.eqb Nat.eqb_eq) in E.
      apply in_app_or in E. destruct E as [E|[E|[]]]; [|injection E; lia].
      assert (Hn : dget Nat.eqb i d2 = None) by (apply H2; lia).
      apply (dget_None_not_key Nat.eqb Nat.eqb_eq) in Hn. apply Hn.
      unfold dkeys. change i with (fst (i, v)). now apply in_map.
Qed.

Lemma dget_index_to_node : forall (ns : list nat) start i,
  dget Nat.eqb i (combine (seq start (length ns)) ns)
  = if Nat.leb start i then nth_error ns (i - start) else None.
Proof.
  induction ns as [|x r IH]; intros start i.
  - simpl. destruct (Nat.leb start i); [now destruct (i - start)|reflexivity].
  - cbn [length seq combine dget]. destruct (Nat.eqb i start) eqn:E.
    + apply Nat.eqb_eq in E. subst. rewrite Nat.leb_refl, Nat.sub_diag. reflexivity.
    + apply Nat.eqb_neq in E. rewrite IH.
      destruct (Nat.leb_spec start i), (Nat.leb_spec (S start) i); try lia; [|reflexivity].
      replace (i - start) with (S (i - S start)) by lia. reflexivity.
Qed.

Lemma dget_node_to_index : forall (ns : list nat) start x i,
  NoDup ns ->
  (dget Nat.eqb x (combine ns (seq start (length ns))) = Some i
   <-> start <= i /\ nth_error ns (i - start) = Some x).
Proof.
  induction ns as [|y r IH]; intros start x i Hnd.
  - simpl. split; [discriminate|]. intros [_ H]. now destruct (i - start).
  - inversion Hnd as [|? ? Hy Hr]; subst. cbn [length seq combine dget].
    destruct (Nat.eqb x y) eqn:E.
    + apply Nat.eqb_eq in E. subst y. split.
      * intros [= <-]. rewrite Nat.sub_diag. auto.
      * intros [Hle Hn]. destruct (i - start) as [|k] eqn:Ek; [f_equal; lia|].
        exfalso. apply Hy. cbn [nth_error] in Hn. now apply nth_error_In in Hn.
    + apply Nat.eqb_neq in E. rewrite (IH (S start) x i Hr). split.
      * intros [Hle Hn]. split; [lia|].
        replace (i - start) with (S (i - S start)) by lia. exact Hn.
      * intros [Hle Hn]. destruct (i - start) as [|k] eqn:Ek.
        -- cbn [nth_error] in Hn. congruence.
        -- split; [lia|]. replace (i - S start) with k by lia. exact Hn.
Qed.

(** ** The array *)

Lemma square_row : forall n a i,
  square n a -> i < n -> exists row, nth_error a i = Some row /\ length row = n.
Proof.
  intros n a i [Hl Hr] Hi. destruct (nth_error a i) as [row|] eqn:E.
  - exists row. split; [reflexivity|]. rewrite Forall_forall in Hr.
    apply Hr. now apply nth_error_In in E.
  - apply nth_error_None in E. lia.
Qed.

Lemma cell_in_range : forall n a i j,
  square n a -> i < n -> j < n -> exists v, cell a i j = Return v.
Proof.
  intros n a i j Hs Hi Hj. destruct (square_row n a i Hs Hi) as (row & E & Hl).
  unfold cell. rewrite E. destruct (nth_error row j) as [v|] eqn:Ej; [eauto|].
  apply nth_error_None in Ej. lia.
Qed.

Lemma cell_out_of_range : forall n a i j,
  square n a -> n <= i \/ n <= j -> cell a i j = RaiseIndexError.
Proof.
  intros n a i j [Hl Hr] H. unfold cell. destruct (nth_error a i) as [row|] eqn:E.
  - assert (length row = n).
    { rewrite Forall_forall in Hr. apply Hr. now apply nth_error_In in E. }
    assert (i < n) by (rewrite <- Hl; apply nth_error_Some; congruence).
    destruct (nth_error row j) as [v|] eqn:Ej; [|reflexivity].
    assert (j < length row) by (apply nth_error_Some; congruence). lia.
  - reflexivity.
Qed.

Lemma zeros_square : forall n, square n (zeros n).
Proof.
  intro n. unfold zeros, square. rewrite repeat_length. split; [reflexivity|].
  apply Forall_forall. intros row H. apply repeat_spec in H. subst. apply repeat_length.
Qed.

Lemma cell_zeros : forall n i j, i < n -> j < n -> cell (zeros n) i j = Return false.
Proof.
  intros n i j Hi Hj. unfold cell, zeros.
  rewrite (nth_error_repeat _ Hi), (nth_error_repeat _ Hj). reflexivity.
Qed.

Lemma Forall_list_set : forall {A} (P : A -> Prop) i v l,
  Forall P l -> P v -> Forall P (list_set i v l).
Proof.
  intros A P i v l. revert i. induction l as [|x r IH]; intros i Hl Hv; [destruct i; constructor|].
  inversion Hl; subst. destruct i; simpl; constructor; auto.
Qed.

Lemma set_cell_spec : forall n a i j v,
  square n a -> i < n -> j < n ->
  exists a',
    set_cell a i j v = Return a'
    /\ square n a'
    /\ forall i' j', cell a' i' j'
                     = if Nat.eqb i' i && Nat.eqb j' j then Return v else cell a i' j'.
Proof.
  intros n a i j v Hs Hi Hj. destruct (square_row n a i Hs Hi) as (row & E & Hl).
  destruct Hs as [Ha Hr]. unfold set_cell. rewrite E.
  assert (Hlt : Nat.ltb j (length row) = true) by (apply Nat.ltb_lt; lia).
  rewrite Hlt. eexists. split; [reflexivity|]. split.
  - split; [now rewrite list_set_length|].
    apply Forall_list_set; [exact Hr|]. now rewrite list_set_length.
  - intros i' j'. unfold cell. rewrite nth_error_list_set.
    assert (Hia : Nat.ltb i (length a) = true) by (apply Nat.ltb_lt; lia).
    rewrite Hia, andb_true_r. destruct (Nat.eqb i' i) eqn:Ei; cbn [andb]; [|reflexivity].
    apply Nat.eqb_eq in Ei. subst i'. rewrite E, nth_error_list_set, Hlt, andb_true_r.
    now destruct (Nat.eqb j' j).
Qed.

Lemma set_row_spec : forall n a i v,
  square n a -> i < n ->
  exists a',
    set_row a i v = Return a'
    /\ square n a'
    /\ forall i' j', i' < n -> j' < n ->
         cell a' i' j' = if Nat.eqb i' i then Return v else cell a i' j'.
Proof.
  intros n a i v Hs Hi. destruct (square_row n a i Hs Hi) as (row & E & Hl).
  destruct Hs as [Ha Hr]. unfold set_row. rewrite E.
  eexists. split; [reflexivity|]. split.
  - split; [now rewrite list_set_length|].
    apply Forall_list_set; [exact Hr|]. rewrite repeat_length. exact Hl.
  - intros i' j' Hi' Hj'. unfold cell. rewrite nth_error_list_set.
    assert (Hia : Nat.ltb i (length a) = true) by (apply Nat.ltb_lt; lia).
    rewrite Hia, andb_true_r. destruct (Nat.eqb i' i); [|reflexivity].
    rewrite nth_error_repeat by lia. reflexivity.
Qed.

Lemma set_column_spec : forall n a j v,
  square n a -> j < n ->
  exists a',
    set_column a j v = Return a'
    /\ square n a'
    /\ forall i' j', i' < n -> j' < n ->
         cell a' i' j' = if Nat.eqb j' j then Return v else cell a i' j'.
Proof.
  intros n a j v Hs Hj. unfold set_column.
  assert (Hc : n_columns a = n).
  { destruct (square_row n a 0 Hs) as (row & E & Hl); [lia|].
    destruct a as [|r0 a']; [discriminate E|]. injection E as ->. exact Hl. }
  rewrite Hc. assert (Hlt : Nat.ltb j n = true) by (now apply Nat.ltb_lt).
  rewrite Hlt. eexists. split; [reflexivity|]. split.
  - destruct Hs as [Ha Hr]. split; [now rewrite length_map|].
    apply Forall_forall. intros row H. apply in_map_iff in H. destruct H as (r0 & <- & Hin).
    rewrite list_set_length. rewrite Forall_forall in Hr. now apply Hr.
  - intros i' j' Hi' Hj'. destruct (square_row n a i' Hs Hi') as (row & E & Hl).
    unfold cell. rewrite nth_error_map, E. cbn [option_map].
    rewrite nth_error_list_set. rewrite Hl, Hlt, andb_true_r.
    now destruct (Nat.eqb j' j).
Qed.

(** ** Loops that may raise *)

Lemma for_each_result_suffix : forall {A S} (body : A -> S -> Result S)
    (I : list A -> S -> Prop) (xs todo done : list A) s,
  xs = done ++ todo ->
  I done s ->
  (forall done x rest s, xs = done ++ x :: rest -> I done s ->
     exists s', body x s = Return s' /\ I (done ++ [x]) s') ->
  exists s', for_each_result todo body s = Return s' /\ I xs s'.
Proof.
  intros A S body I xs todo. induction todo as [|x r IH]; intros done s Hxs Hi Hstep.
  - rewrite app_nil_r in Hxs. subst. exists s. split; [reflexivity|exact Hi].
  - destruct (Hstep done x r s Hxs Hi) as (s1 & E & H1).
    cbn [for_each_result]. rewrite E. cbn [and_then].
    apply (IH (done ++ [x])); [rewrite <- app_assoc; exact Hxs|exact H1|exact Hstep].
Qed.

Lemma for_each_result_inv : forall {A S} (body : A -> S -> Result S)
    (I : list A -> S -> Prop) (xs : list A) s,
  I [] s ->
  (forall done x rest s, xs = done ++ x :: rest -> I done s ->
     exists s', body x s = Return s' /\ I (done ++ [x]) s') ->
  exists s', for_each_result xs body s = Return s' /\ I xs s'.
Proof.
  intros A S body I xs s Hi Hstep.
  now apply (for_each_result_suffix body I xs xs [] s).
Qed.

Lemma for_each_result_ext : forall {A S} (body1 body2 : A -> S -> Result S) xs s,
  (forall x s, body1 x s = body2 x s) ->
  for_each_result xs body1 s = for_each_result xs body2 s.
Proof.
  intros A S body1 body2 xs. induction xs as [|x r IH]; intros s H; [reflexivity|].
  cbn [for_each_result]. rewrite H. destruct (body2 x s); cbn [and_then]; auto.
Qed.

Lemma and_then_assoc : forall {A B C} (r : Result A) (f : A -> Result B) (g : B -> Result C),
  and_then (and_then r f) g = and_then r (fun a => and_then (f a) g).
Proof. intros A B C r f g. now destruct r. Qed.

Lemma seq_split_lt : forall n (done : list nat) x rest,
  seq 0 n = done ++ x :: rest -> x < n.
Proof.
  intros n done x rest H. assert (In x (seq 0 n)) by (rewrite H; apply in_or_app; right; now left).
  apply in_seq in H0. lia.
Qed.

(** ** [reindexar_nodos] *)

Lemma carried_ext : forall m nuevo n (P Q : nat -> nat -> Prop) a,
  (forall o d, P o d <-> Q o d) -> carried m nuevo n P a -> carried m nuevo n Q a.
Proof.
  intros m nuevo n P Q a H [Hs Hc]. split; [exact Hs|].
  intros i j Hi Hj. rewrite (Hc i j Hi Hj).
  split; intros (o & d & x & y & Hp & Hr); exists o, d, x, y; (split; [now apply H|exact Hr]).
Qed.

Section Reindexar.
Variable m : t.
Let n0 := length (matriz m).
Let ns := sorted_set (nodos m).
Let n := length ns.
Let nuevo := combine ns (seq 0 n).

Hypothesis old_square : square n0 (matriz m).
Hypothesis old_nodes : forall o d,
  o < n0 -> d < n0 -> cell (matriz m) o d = Return true ->
  exists x y, dget Nat.eqb o (indice_a_nodo m) = Some x
              /\ dget Nat.eqb d (indice_a_nodo m) = Some y
              /\ In x (nodos m) /\ In y (nodos m).

Lemma new_index : forall x, In x (nodos m) -> exists i, i < n /\ dget Nat.eqb x nuevo = Some i.
Proof.
  intros x Hx. apply sorted_set_In in Hx. apply In_nth_error in Hx.
  destruct Hx as (i & Hi). exists i.
  fold ns in Hi.
  assert (i < n) by (apply nth_error_Some; rewrite Hi; discriminate).
  split; [assumption|]. apply (dget_node_to_index ns 0 x i (sorted_set_NoDup _)).
  rewrite Nat.sub_0_r. split; [lia|exact Hi].
Qed.

Lemma carry_over_step : forall (P : nat -> nat -> Prop) o d a,
  o < n0 -> d < n0 ->
  carried m nuevo n P a ->
  exists a',
    carry_over m nuevo o d a = Return a'
    /\ carried m nuevo n (fun o' d' => P o' d' \/ (o' = o /\ d' = d)) a'.
Proof.
  intros P o d a Ho Hd [Hs Hc]. unfold carry_over.
  destruct (cell_in_range n0 (matriz m) o d old_square Ho Hd) as ([|] & Ec);
    rewrite Ec; cbn [and_then].
  - destruct (old_nodes o d Ho Hd Ec) as (x & y & Ex & Ey & Hx & Hy).
    unfold lookup. rewrite Ex, Ey. cbn [and_then].
    destruct (new_index x Hx) as (i & Hi & Ei). destruct (new_index y Hy) as (j & Hj & Ej).
    rewrite Ei, Ej. cbn [and_then].
    destruct (set_cell_spec n a i j true Hs Hi Hj) as (a' & E & Hs' & Hc').
    exists a'. split; [exact E|]. split; [exact Hs'|].
    intros i' j' Hi' Hj'. rewrite Hc'.
    destruct (Nat.eqb i' i && Nat.eqb j' j) eqn:Eij.
    + apply andb_true_iff in Eij. destruct Eij as [E1 E2].
      apply Nat.eqb_eq in E1, E2. subst i' j'.
      split; [intros _|reflexivity].
      exists o, d, x, y. repeat split; auto.
    + rewrite (Hc i' j' Hi' Hj').
      split; intros (o' & d' & x' & y' & Hp & Hr).
      * exists o', d', x', y'. split; [now left|exact Hr].
      * destruct Hp as [Hp|[-> ->]]; [exists o', d', x', y'; split; assumption|].
        exfalso. destruct Hr as (_ & Ex' & Ey' & Ei' & Ej').
        rewrite Ex in Ex'. injection Ex' as <-. rewrite Ey in Ey'. injection Ey' as <-.
        rewrite Ei in Ei'. injection Ei' as <-. rewrite Ej in Ej'. injection Ej' as <-.
        rewrite !Nat.eqb_refl in Eij. discriminate.
  - exists a. split; [reflexivity|]. split; [exact Hs|].
    intros i j Hi Hj. rewrite (Hc i j Hi Hj).
    split; intros (o' & d' & x' & y' & Hp & Hr).
    + exists o', d', x', y'. split; [now left|exact Hr].
    + destruct Hp as [Hp|[-> ->]]; [exists o', d', x', y'; split; assumption|].
      exfalso. destruct Hr as (Ht & _). rewrite Ec in Ht. discriminate.
Qed.

Lemma carry_over_row : forall (P : nat -> nat -> Prop) o a,
  o < n0 ->
  carried m nuevo n P a ->
  exists a',
    for_each_result (seq 0 n0) (carry_over m nuevo o) a = Return a'
    /\ carried m nuevo n (fun o' d' => P o' d' \/ (o' = o /\ d' < n0)) a'.
Proof.
  intros P o a Ho Hc.
  destruct (for_each_result_inv (carry_over m nuevo o)
              (fun done a' => carried m nuevo n
                                (fun o' d' => P o' d' \/ (o' = o /\ In d' done)) a')
              (seq 0 n0) a) as (a' & E & H).
  - apply (carried_ext m nuevo n P); [|exact Hc]. intros o' d'. simpl. tauto.
  - intros done d rest a1 Hsplit H1.
    destruct (carry_over_step _ o d a1 Ho (seq_split_lt _ _ _ _ Hsplit) H1) as (a2 & E2 & H2).
    exists a2. split; [exact E2|].
    eapply carried_ext; [|exact H2]. intros o' d'. cbv beta. rewrite in_app_iff. simpl.
    intuition (subst; auto).
  - exists a'. split; [exact E|].
    eapply carried_ext; [|exact H]. intros o' d'. cbv beta. rewrite in_seq. intuition lia.
Qed.

Lemma carry_over_all :
  exists a',
    for_each_result (seq 0 n0)
      (fun o => for_each_result (seq 0 n0) (carry_over m nuevo o)) (zeros n)
    = Return a'
    /\ carried m nuevo n (fun o d => o < n0 /\ d < n0) a'.
Proof.
  destruct (for_each_result_inv
              (fun o => for_each_result (seq 0 n0) (carry_over m nuevo o))
              (fun done a' => carried m nuevo n (fun o' d' => In o' done /\ d' < n0) a')
              (seq 0 n0) (zeros n)) as (a' & E & H).
  - split; [apply zeros_square|]. intros i j Hi Hj. rewrite (cell_zeros n i j Hi Hj).
    split; [discriminate|]. intros (o & d & x & y & [[] _] & _).
  - intros done o rest a1 Hsplit H1.
    destruct (carry_over_row _ o a1 (seq_split_lt _ _ _ _ Hsplit) H1) as (a2 & E2 & H2).
    exists a2. split; [exact E2|].
    eapply carried_ext; [|exact H2]. intros o' d'. cbv beta. rewrite in_app_iff. simpl.
    intuition (subst; auto).
  - exists a'. split; [exact E|].
    eapply carried_ext; [|exact H]. intros o' d'. cbv beta. rewrite in_seq. intuition lia.
Qed.

End Reindexar.

(** ** What a consistent matrix stores *)

Lemma lookup_consistent : forall m x,
  consistent m -> In x (nodos m) ->
  exists i, i < length (sorted_set (nodos m))
            /\ nth_error (sorted_set (nodos m)) i = Some x
            /\ lookup x (nodo_a_indice m) = Return i.
Proof.
  intros m x (_ & Hn & _) Hx. apply sorted_set_In in Hx. apply In_nth_error in Hx.
  destruct Hx as (i & Hi). exists i.
  assert (i < length (sorted_set (nodos m))) by (apply nth_error_Some; rewrite Hi; discriminate).
  split; [assumption|]. split; [exact Hi|].
  unfold lookup. rewrite Hn.
  rewrite (proj2 (dget_node_to_index _ 0 x i (sorted_set_NoDup _))); [reflexivity|].
  rewrite Nat.sub_0_r. split; [lia|exact Hi].
Qed.

Lemma existe_conexion_outside : forall m a b,
  ~ (In a (nodos m) /\ In b (nodos m)) -> existe_conexion a b m = Return false.
Proof.
  intros m a b H. unfold existe_conexion.
  destruct (in_set a (nodos m)) eqn:Ea; [|reflexivity].
  destruct (in_set b (nodos m)) eqn:Eb; [|reflexivity].
  exfalso. apply H. split; now apply in_set_In.
Qed.

Lemma existe_conexion_inside : forall m a b,
  consistent m -> In a (nodos m) -> In b (nodos m) ->
  exists i j,
    i < length (sorted_set (nodos m)) /\ j < length (sorted_set (nodos m))
    /\ nth_error (sorted_set (nodos m)) i = Some a
    /\ nth_error (sorted_set (nodos m)) j = Some b
    /\ existe_conexion a b m = cell (matriz m) i j.
Proof.
  intros m a b Hc Ha Hb.
  destruct (lookup_consistent m a Hc Ha) as (i & Hi & Ni & Li).
  destruct (lookup_consistent m b Hc Hb) as (j & Hj & Nj & Lj).
  exists i, j. repeat (split; [assumption|]).
  unfold existe_conexion.
  rewrite (proj2 (in_set_In a _) Ha), (proj2 (in_set_In b _) Hb). cbn [negb orb].
  rewrite Li, Lj. reflexivity.
Qed.

(** On a consistent matrix [existe_conexion] returns. *)
Lemma existe_conexion_returns : forall m a b,
  consistent m -> exists v, existe_conexion a b m = Return v.
Proof.
  intros m a b Hc.
  destruct (in_dec Nat.eq_dec a (nodos m)) as [Ha|Ha];
    [destruct (in_dec Nat.eq_dec b (nodos m)) as [Hb|Hb]|].
  - destruct (existe_conexion_inside m a b Hc Ha Hb) as (i & j & Hi & Hj & _ & _ & E).
    rewrite E. destruct Hc as (Hs & _). exact (cell_in_range _ _ i j Hs Hi Hj).
  - exists false. apply existe_conexion_outside. tauto.
  - exists false. apply existe_conexion_outside. tauto.
Qed.

Lemma nth_error_injective : forall (l : list nat) i j x,
  NoDup l -> nth_error l i = Some x -> nth_error l j = Some x -> i = j.
Proof.
  intros l i j x Hnd Hi Hj.
  apply (proj1 (NoDup_nth_error l) Hnd); [|congruence].
  apply nth_error_Some. rewrite Hi. discriminate.
Qed.

(** Two results of [existe_conexion] that are [True] for the same pairs. *)
Lemma same_connections : forall m m',
  consistent m -> consistent m' ->
  (forall a b, connected m' a b <-> connected m a b) ->
  forall a b, existe_conexion a b m' = existe_conexion a b m.
Proof.
  intros m m' Hc Hc' H a b. specialize (H a b). unfold connected in H.
  destruct (existe_conexion_returns m a b Hc) as (v & E).
  destruct (existe_conexion_returns m' a b Hc') as (v' & E').
  rewrite E, E' in *. destruct v, v'; try reflexivity.
  - destruct H as [_ H]. specialize (H eq_refl). discriminate.
  - destruct H as [H _]. specialize (H eq_refl). discriminate.
Qed.

(** [reindexar_nodos] on a square array whose connections join nodes of
    the set: it returns a consistent matrix with the same nodes, in which
    two nodes are connected iff the old array connected their old
    indices. *)
Lemma reindexar_nodos_spec : forall m,
  square (length (matriz m)) (matriz m) ->
  (forall o d,
     o < length (matriz m) -> d < length (matriz m) ->
     cell (matriz m) o d = Return true ->
     exists x y, dget Nat.eqb o (indice_a_nodo m) = Some x
                 /\ dget Nat.eqb d (indice_a_nodo m) = Some y
                 /\ In x (nodos m) /\ In y (nodos m)) ->
  exists m',
    reindexar_nodos m = Return m'
    /\ consistent m'
    /\ nodos m' = nodos m
    /\ forall a b,
         connected m' a b
         <-> exists o d,
               cell (matriz m) o d = Return true
               /\ dget Nat.eqb o (indice_a_nodo m) = Some a
               /\ dget Nat.eqb d (indice_a_nodo m) = Some b.
Proof.
  intros m Hsq Hold.
  destruct (carry_over_all m Hsq Hold) as (a' & E & Hs & Hc).
  unfold reindexar_nodos. cbv zeta.
  pose proof (number_nodes (sorted_set (nodos m)) 0 [] [] (sorted_set_NoDup _)
                (fun _ _ => eq_refl) (fun _ _ => eq_refl)) as Hmaps.
  cbn [app] in Hmaps. rewrite Hmaps. cbn [fst snd]. rewrite E. cbn [and_then].
  eexists. split; [reflexivity|].
  set (ns := sorted_set (nodos m)) in *. set (n := length ns) in *.
  assert (Hcons : consistent (mk a' (combine ns (seq 0 n)) (combine (seq 0 n) ns) n (nodos m))).
  { unfold consistent. cbn. fold ns. fold n. repeat split; auto; apply Hs. }
  split; [exact Hcons|]. split; [reflexivity|].
  intros a b. unfold connected. split.
  - intro H.
    destruct (in_dec Nat.eq_dec a (nodos m)) as [Ha|Ha];
      [destruct (in_dec Nat.eq_dec b (nodos m)) as [Hb|Hb]|];
      try (rewrite existe_conexion_outside in H by (cbn; tauto); discriminate H).
    destruct (existe_conexion_inside _ a b Hcons Ha Hb) as (i & j & Hi & Hj & Ni & Nj & Ex).
    cbn [nodos matriz] in Hi, Hj, Ni, Nj, Ex. fold ns in Hi, Hj, Ni, Nj. fold n in Hi, Hj.
    rewrite Ex in H. apply (Hc i j Hi Hj) in H.
    destruct H as (o & d & x & y & _ & Ht & Ho & Hd & Hx & Hy).
    apply (dget_node_to_index ns 0 x i (sorted_set_NoDup _)) in Hx.
    apply (dget_node_to_index ns 0 y j (sorted_set_NoDup _)) in Hy.
    rewrite Nat.sub_0_r in Hx, Hy. destruct Hx as [_ Hx], Hy as [_ Hy].
    assert (x = a) by congruence. assert (y = b) by congruence. subst x y.
    exists o, d. auto.
  - intros (o & d & Ht & Ho & Hd).
    assert (Hol : o < length (matriz m) /\ d < length (matriz m)).
    { destruct (Nat.lt_ge_cases o (length (matriz m))) as [H1|H1];
        [destruct (Nat.lt_ge_cases d (length (matriz m))) as [H2|H2]; [auto|]|];
        rewrite (cell_out_of_range _ _ o d Hsq) in Ht by auto; discriminate Ht. }
    destruct Hol as [Hol Hdl].
    destruct (Hold o d Hol Hdl Ht) as (x & y & Ho' & Hd' & Ha & Hb).
    assert (x = a) by congruence. assert (y = b) by congruence. subst x y.
    destruct (existe_conexion_inside _ a b Hcons Ha Hb) as (i & j & Hi & Hj & Ni & Nj & Ex).
    cbn [nodos matriz] in Hi, Hj, Ni, Nj, Ex. fold ns in Hi, Hj, Ni, Nj. fold n in Hi, Hj.
    rewrite Ex. apply (Hc i j Hi Hj). exists o, d, a, b.
    repeat split; auto;
      apply (dget_node_to_index ns 0 _ _ (sorted_set_NoDup _)); rewrite Nat.sub_0_r;
      (split; [lia|assumption]).
Qed.

Lemma consistent_square : forall m,
  consistent m -> square (length (matriz m)) (matriz m).
Proof. intros m ((Hl & Hr) & _). rewrite Hl. now split. Qed.

Lemma consistent_length : forall m,
  consistent m -> length (matriz m) = length (sorted_set (nodos m)).
Proof. intros m ((Hl & _) & _). exact Hl. Qed.

Lemma consistent_node_at : forall m o,
  consistent m ->
  dget Nat.eqb o (indice_a_nodo m) = nth_error (sorted_set (nodos m)) o.
Proof.
  intros m o (_ & _ & Hi & _). rewrite Hi, dget_index_to_node. cbn [Nat.leb].
  now rewrite Nat.sub_0_r.
Qed.

Lemma connected_consistent : forall m a b,
  consistent m ->
  (connected m a b
   <-> exists o d,
         cell (matriz m) o d = Return true
         /\ dget Nat.eqb o (indice_a_nodo m) = Some a
         /\ dget Nat.eqb d (indice_a_nodo m) = Some b).
Proof.
  intros m a b Hc. unfold connected. split.
  - intro H.
    destruct (in_dec Nat.eq_dec a (nodos m)) as [Ha|Ha];
      [destruct (in_dec Nat.eq_dec b (nodos m)) as [Hb|Hb]|];
      try (rewrite existe_conexion_outside in H by tauto; discriminate H).
    destruct (existe_conexion_inside m a b Hc Ha Hb) as (i & j & _ & _ & Ni & Nj & Ex).
    exists i, j. rewrite !consistent_node_at by assumption. rewrite <- Ex. auto.
  - intros (o & d & Ht & Ho & Hd). rewrite consistent_node_at in Ho, Hd by assumption.
    assert (Ha : In a (nodos m)) by (apply sorted_set_In; eapply nth_error_In; eauto).
    assert (Hb : In b (nodos m)) by (apply sorted_set_In; eapply nth_error_In; eauto).
    destruct (existe_conexion_inside m a b Hc Ha Hb) as (i & j & _ & _ & Ni & Nj & Ex).
    rewrite (nth_error_injective _ i o a (sorted_set_NoDup _) Ni Ho) in Ex.
    rewrite (nth_error_injective _ j d b (sorted_set_NoDup _) Nj Hd) in Ex.
    now rewrite Ex.
Qed.

Lemma consistent_init : consistent init.
Proof. unfold consistent, init, square. cbn. repeat split; constructor. Qed.

(** ** [agregar_nodo] *)

Lemma agregar_nodo_spec : forall x m,
  consistent m ->
  exists m',
    agregar_nodo x m = Return m'
    /\ consistent m'
    /\ (forall y, In y (nodos m') <-> y = x \/ In y (nodos m))
    /\ forall a b, existe_conexion a b m' = existe_conexion a b m.
Proof.
  intros x m Hc. unfold agregar_nodo. destruct (in_set x (nodos m)) eqn:Ex; cbn [negb].
  { apply in_set_In in Ex. exists m. split; [reflexivity|]. split; [exact Hc|].
    split; [|reflexivity]. intro y. split; [auto|]. intros [->|H]; auto. }
  pose proof (consistent_square m Hc) as Hsq.
  pose proof (consistent_length m Hc) as Hlen.
  assert (Hsig : siguiente_indice m = length (matriz m)).
  { destruct Hc as (_ & _ & _ & Hs). now rewrite Hs, Hlen. }
  set (m1 := mk (matriz m) (dset Nat.eqb x (siguiente_indice m) (nodo_a_indice m))
                (dset Nat.eqb (siguiente_indice m) x (indice_a_nodo m))
                (siguiente_indice m + 1) (set_add x (nodos m))).
  assert (Hat : forall o, o < length (matriz m) ->
                  dget Nat.eqb o (indice_a_nodo m1) = dget Nat.eqb o (indice_a_nodo m)).
  { intros o Ho. unfold m1. cbn [indice_a_nodo].
    apply (dget_dset_other Nat.eqb Nat.eqb_eq). lia. }
  assert (Hin : forall o d, cell (matriz m) o d = Return true ->
                  o < length (matriz m) /\ d < length (matriz m)).
  { intros o d Ht.
    destruct (Nat.lt_ge_cases o (length (matriz m))) as [H1|H1];
      [destruct (Nat.lt_ge_cases d (length (matriz m))) as [H2|H2]; [auto|]|];
      rewrite (cell_out_of_range _ _ o d Hsq) in Ht by auto; discriminate Ht. }
  destruct (reindexar_nodos_spec m1) as (m' & E & Hc' & Hn & Hconn).
  - exact Hsq.
  - intros o d Ho Hd Ht. cbn [matriz m1] in Ho, Hd, Ht.
    rewrite !Hat by assumption. rewrite !consistent_node_at by assumption.
    rewrite Hlen in Ho, Hd.
    destruct (nth_error (sorted_set (nodos m)) o) as [a|] eqn:Ea;
      [|apply nth_error_None in Ea; lia].
    destruct (nth_error (sorted_set (nodos m)) d) as [b|] eqn:Eb;
      [|apply nth_error_None in Eb; lia].
    exists a, b. split; [reflexivity|]. split; [reflexivity|].
    cbn [nodos m1]. rewrite !set_add_In.
    split; right; apply sorted_set_In; eapply nth_error_In; eauto.
  - exists m'. split; [exact E|]. split; [exact Hc'|]. split.
    + intro y. rewrite Hn. apply set_add_In.
    + apply same_connections; auto. intros a b.
      rewrite Hconn, (connected_consistent m a b Hc). cbn [matriz m1].
      split; intros (o & d & Ht & Ho & Hd); exists o, d;
        destruct (Hin o d Ht) as [H1 H2];
        rewrite !Hat in * by assumption; auto.
Qed.

(** ** [agregar_conexion] *)

Lemma set_matriz_consistent : forall m a,
  consistent m -> square (length (sorted_set (nodos m))) a -> consistent (set_matriz a m).
Proof.
  intros m a (_ & H2 & H3 & H4) Hs. unfold consistent, set_matriz. cbn. auto.
Qed.

Lemma agregar_conexion_spec : forall a b m,
  consistent m ->
  exists m',
    agregar_conexion a b m = Return m'
    /\ consistent m'
    /\ nodos m' = nodos m
    /\ forall x y,
         existe_conexion x y m'
         = if Nat.eqb x a && Nat.eqb y b && in_set a (nodos m) && in_set b (nodos m)
           then Return true else existe_conexion x y m.
Proof.
  intros a b m Hc. unfold agregar_conexion.
  destruct (in_set a (nodos m)) eqn:Ea; [destruct (in_set b (nodos m)) eqn:Eb|]; cbn [andb].
  2,3: exists m; split; [reflexivity|]; split; [exact Hc|]; split; [reflexivity|];
       intros x y; rewrite ?andb_false_r; reflexivity.
  apply in_set_In in Ea, Eb.
  destruct (lookup_consistent m a Hc Ea) as (i & Hi & Ni & Li).
  destruct (lookup_consistent m b Hc Eb) as (j & Hj & Nj & Lj).
  rewrite Li, Lj. cbn [and_then].
  destruct (set_cell_spec _ (matriz m) i j true (proj1 Hc) Hi Hj) as (a' & E & Hs & Hcell).
  rewrite E. cbn [and_then]. eexists. split; [reflexivity|].
  pose proof (set_matriz_consistent m a' Hc Hs) as Hc'.
  split; [exact Hc'|]. split; [reflexivity|].
  intros x y. rewrite !andb_true_r.
  destruct (in_dec Nat.eq_dec x (nodos m)) as [Hx|Hx];
    [destruct (in_dec Nat.eq_dec y (nodos m)) as [Hy|Hy]|].
  - destruct (existe_conexion_inside _ x y Hc' Hx Hy) as (i' & j' & _ & _ & Ni' & Nj' & Ex').
    destruct (existe_conexion_inside m x y Hc Hx Hy) as (i2 & j2 & _ & _ & Ni2 & Nj2 & Ex2).
    cbn [nodos matriz set_matriz] in Ni', Nj', Ex'.
    rewrite (nth_error_injective _ i2 i' x (sorted_set_NoDup _) Ni2 Ni') in Ex2.
    rewrite (nth_error_injective _ j2 j' y (sorted_set_NoDup _) Nj2 Nj') in Ex2.
    rewrite Ex', Ex2, Hcell.
    destruct (Nat.eqb_spec x a) as [Exa|Exa]; destruct (Nat.eqb_spec y b) as [Eyb|Eyb];
      cbn [andb]; subst.
    + rewrite (nth_error_injective _ i' i a (sorted_set_NoDup _) Ni' Ni).
      rewrite (nth_error_injective _ j' j b (sorted_set_NoDup _) Nj' Nj).
      now rewrite !Nat.eqb_refl.
    + destruct (Nat.eqb j' j) eqn:Ej; [|now rewrite andb_false_r].
      apply Nat.eqb_eq in Ej. subst j'. congruence.
    + destruct (Nat.eqb i' i) eqn:Ei; [|reflexivity].
      apply Nat.eqb_eq in Ei. subst i'. congruence.
    + destruct (Nat.eqb i' i) eqn:Ei; [|reflexivity].
      apply Nat.eqb_eq in Ei. subst i'. congruence.
  - rewrite !existe_conexion_outside by (cbn; tauto).
    destruct (Nat.eqb x a && Nat.eqb y b) eqn:Exy; [|reflexivity].
    apply andb_true_iff in Exy. destruct Exy as [_ Exy]. apply Nat.eqb_eq in Exy.
    subst. contradiction.
  - rewrite !existe_conexion_outside by (cbn; tauto).
    destruct (Nat.eqb x a && Nat.eqb y b) eqn:Exy; [|reflexivity].
    apply andb_true_iff in Exy. destruct Exy as [Exy _]. apply Nat.eqb_eq in Exy.
    subst. contradiction.
Qed.

(** ** [eliminar_conexiones_nodo] and [eliminar_nodo] *)

Lemma eliminar_conexiones_nodo_spec : forall x m,
  consistent m ->
  (~ In x (nodos m) -> eliminar_conexiones_nodo x m = RaiseIndexError)
  /\ (In x (nodos m) ->
      exists m',
        eliminar_conexiones_nodo x m = Return m'
        /\ consistent m'
        /\ nodos m' = nodos m
        /\ forall a b,
             existe_conexion a b m'
             = if Nat.eqb a x || Nat.eqb b x then Return false else existe_conexion a b m).
Proof.
  intros x m Hc. unfold eliminar_conexiones_nodo. split.
  - intro Hx. apply in_set_false in Hx. now rewrite Hx.
  - intro Hx. rewrite (proj2 (in_set_In x _) Hx). cbn [negb].
    destruct (lookup_consistent m x Hc Hx) as (i & Hi & Ni & Li).
    rewrite Li. cbn [and_then].
    destruct (set_row_spec _ (matriz m) i false (proj1 Hc) Hi) as (a1 & E1 & S1 & C1).
    rewrite E1. cbn [and_then].
    destruct (set_column_spec _ a1 i false S1 Hi) as (a2 & E2 & S2 & C2).
    rewrite E2. cbn [and_then]. eexists. split; [reflexivity|].
    pose proof (set_matriz_consistent m a2 Hc S2) as Hc'.
    split; [exact Hc'|]. split; [reflexivity|].
    intros a b.
    destruct (in_dec Nat.eq_dec a (nodos m)) as [Ha|Ha];
      [destruct (in_dec Nat.eq_dec b (nodos m)) as [Hb|Hb]|].
    + destruct (existe_conexion_inside _ a b Hc' Ha Hb)
        as (i' & j' & Hi' & Hj' & Ni' & Nj' & Ex').
      destruct (existe_conexion_inside m a b Hc Ha Hb) as (i2 & j2 & _ & _ & Ni2 & Nj2 & Ex2).
      cbn [nodos matriz set_matriz] in Hi', Hj', Ni', Nj', Ex'.
      rewrite (nth_error_injective _ i2 i' a (sorted_set_NoDup _) Ni2 Ni') in Ex2.
      rewrite (nth_error_injective _ j2 j' b (sorted_set_NoDup _) Nj2 Nj') in Ex2.
      rewrite Ex', Ex2, (C2 i' j' Hi' Hj'), (C1 i' j' Hi' Hj').
      destruct (Nat.eqb_spec a x) as [Eax|Eax]; destruct (Nat.eqb_spec b x) as [Ebx|Ebx];
        cbn [orb]; subst.
      * rewrite (nth_error_injective _ j' i x (sorted_set_NoDup _) Nj' Ni).
        now rewrite Nat.eqb_refl.
      * rewrite (nth_error_injective _ i' i x (sorted_set_NoDup _) Ni' Ni).
        rewrite Nat.eqb_refl. now destruct (Nat.eqb j' i).
      * rewrite (nth_error_injective _ j' i x (sorted_set_NoDup _) Nj' Ni).
        now rewrite Nat.eqb_refl.
      * destruct (Nat.eqb_spec j' i) as [->|_]; [congruence|].
        destruct (Nat.eqb_spec i' i) as [->|_]; [congruence|reflexivity].
    + rewrite !existe_conexion_outside by (cbn; tauto).
      now destruct (Nat.eqb a x || Nat.eqb b x).
    + rewrite !existe_conexion_outside by (cbn; tauto).
      now destruct (Nat.eqb a x || Nat.eqb b x).
Qed.

Lemma set_len_one : forall s x y,
  set_len s = 1 -> In x s -> In y s -> y = x.
Proof.
  intros s x y H Hx Hy. unfold set_len in H.
  apply (nodup_In Nat.eq_dec) in Hx, Hy.
  destruct (nodup Nat.eq_dec s) as [|z [|z' r]]; try discriminate H.
  destruct Hx as [<-|[]], Hy as [<-|[]]. reflexivity.
Qed.

Lemma eliminar_nodo_spec : forall x m,
  consistent m ->
  exists m',
    eliminar_nodo x m = Return m'
    /\ consistent m'
    /\ (forall y, In y (nodos m') <-> y <> x /\ In y (nodos m))
    /\ forall a b,
         existe_conexion a b m'
         = if Nat.eqb a x || Nat.eqb b x then Return false else existe_conexion a b m.
Proof.
  intros x m Hc. unfold eliminar_nodo. destruct (in_set x (nodos m)) eqn:Ex.
  2:{ apply in_set_false in Ex. exists m. split; [reflexivity|]. split; [exact Hc|]. split.
      - intro y. split; [|tauto]. intro Hy. split; [|exact Hy]. intros ->. contradiction.
      - intros a b.
        destruct (Nat.eqb_spec a x) as [->|_]; [apply existe_conexion_outside; tauto|].
        destruct (Nat.eqb_spec b x) as [->|_]; [apply existe_conexion_outside; tauto|].
        reflexivity. }
  apply in_set_In in Ex. destruct (Nat.eqb_spec (set_len (nodos m)) 1) as [Hone|Hmore].
  { exists init. split; [reflexivity|]. split; [exact consistent_init|]. split.
    - intro y. cbn. split; [tauto|]. intros [Hne Hy]. apply Hne.
      exact (set_len_one _ x y Hone Ex Hy).
    - intros a b. rewrite (existe_conexion_outside init) by (cbn; tauto).
      destruct (Nat.eqb_spec a x) as [->|Ha]; [reflexivity|].
      destruct (Nat.eqb_spec b x) as [->|Hb]; [reflexivity|]. cbn [orb].
      symmetry. apply existe_conexion_outside. intros [Ha' _]. apply Ha.
      exact (set_len_one _ x a Hone Ex Ha'). }
  destruct (proj2 (eliminar_conexiones_nodo_spec x m Hc) Ex) as (m2 & E2 & Hc2 & Hn2 & Hx2).
  rewrite E2. cbn [and_then].
  set (m3 := mk (matriz m2) (nodo_a_indice m2) (indice_a_nodo m2) (siguiente_indice m2)
                (set_remove x (nodos m2))).
  destruct (reindexar_nodos_spec m3) as (m' & E & Hc' & Hn & Hconn).
  - exact (consistent_square m2 Hc2).
  - intros o d Ho Hd Ht. cbn [matriz indice_a_nodo nodos m3] in *.
    rewrite (consistent_length m2 Hc2) in Ho, Hd.
    rewrite !consistent_node_at by assumption.
    destruct (nth_error (sorted_set (nodos m2)) o) as [a|] eqn:Ea;
      [|apply nth_error_None in Ea; lia].
    destruct (nth_error (sorted_set (nodos m2)) d) as [b|] eqn:Eb;
      [|apply nth_error_None in Eb; lia].
    exists a, b. split; [reflexivity|]. split; [reflexivity|].
    assert (Hab : connected m2 a b).
    { apply (connected_consistent m2 a b Hc2). exists o, d.
      rewrite !consistent_node_at by assumption. auto. }
    unfold connected in Hab. rewrite Hx2 in Hab.
    destruct (Nat.eqb_spec a x) as [|Hax]; [discriminate Hab|].
    destruct (Nat.eqb_spec b x) as [|Hbx]; [discriminate Hab|].
    rewrite !set_remove_In.
    repeat split; auto; apply sorted_set_In; eapply nth_error_In; eauto.
  - exists m'. split; [exact E|]. split; [exact Hc'|]. split.
    + intro y. rewrite Hn. cbn [nodos m3]. rewrite Hn2. apply set_remove_In.
    + intros a b. rewrite <- Hx2. apply same_connections; auto.
      intros a' b'. rewrite Hconn. cbn [matriz indice_a_nodo m3].
      symmetry. apply connected_consistent. exact Hc2.
Qed.

(** ** [conexiones_entrantes] and [conexiones_salientes] *)

Section IterationFacts.
Variable iteration_order : list nat -> list nat.
Hypothesis visits_each_once :
  forall s, Permutation (iteration_order s) (nodup Nat.eq_dec s).

Lemma visited_In : forall s x, In x (iteration_order s) <-> In x s.
Proof.
  intros s x. rewrite <- (nodup_In Nat.eq_dec s x).
  split; apply Permutation_in; [|apply Permutation_sym]; apply visits_each_once.
Qed.

Lemma visited_NoDup : forall s, NoDup (iteration_order s).
Proof.
  intro s. eapply Permutation_NoDup; [apply Permutation_sym, visits_each_once|].
  apply NoDup_nodup.
Qed.

(** A loop that appends the visited nodes for which a test returns
    [True]. *)
Lemma collect_loop : forall (test : nat -> Result bool) (xs : list nat),
  (forall x, In x xs -> exists v, test x = Return v) ->
  exists l,
    for_each_result xs
      (fun x acc => and_then (test x) (fun v => Return (if v then acc ++ [x] else acc))) []
    = Return l
    /\ (forall x, In x l <-> In x xs /\ test x = Return true)
    /\ (NoDup xs -> NoDup l).
Proof.
  intros test xs Hret.
  destruct (for_each_result_inv
              (fun x acc => and_then (test x) (fun v => Return (if v then acc ++ [x] else acc)))
              (fun done acc =>
                 (forall x, In x acc <-> In x done /\ test x = Return true)
                 /\ (NoDup done -> NoDup acc))
              xs []) as (l & E & H).
  - split; [|auto]. intro x. simpl. tauto.
  - intros done x rest acc Hsplit [H1 H2].
    destruct (Hret x) as (v & Ev); [rewrite Hsplit; apply in_or_app; right; now left|].
    rewrite Ev. cbn [and_then]. eexists. split; [reflexivity|]. split.
    + intro y. destruct v.
      * rewrite !in_app_iff, H1. simpl. split.
        -- intros [[Hy Ht]|[<-|[]]]; auto.
        -- intros [[Hy|[<-|[]]] Ht]; auto.
      * rewrite in_app_iff, H1. simpl. split.
        -- intros [Hy Ht]. auto.
        -- intros [[Hy|[<-|[]]] Ht]; [auto|congruence].
    + intro Hnd. apply NoDup_remove in Hnd. rewrite app_nil_r in Hnd.
      destruct Hnd as [Hnd Hx]. specialize (H2 Hnd). destruct v; [|exact H2].
      apply NoDup_app; [exact H2|repeat constructor; simpl; tauto|].
      intros y Hy [<-|[]]. apply Hx. now apply H1.
  - exists l. split; [exact E|exact H].
Qed.

Lemma conexiones_entrantes_spec : forall x m,
  consistent m ->
  exists l,
    conexiones_entrantes iteration_order x m = Return l
    /\ (forall a, In a l <-> connected m a x)
    /\ NoDup l.
Proof.
  intros x m Hc. unfold conexiones_entrantes.
  destruct (in_set x (nodos m)) eqn:Ex; cbn [negb].
  2:{ apply in_set_false in Ex. exists []. split; [reflexivity|]. split; [|constructor].
      intro a. unfold connected. rewrite existe_conexion_outside by tauto.
      simpl. split; [tauto|discriminate]. }
  apply in_set_In in Ex.
  destruct (lookup_consistent m x Hc Ex) as (i & Hi & Ni & Li).
  rewrite Li. cbn [and_then].
  assert (Htest : forall a, In a (nodos m) ->
            and_then (lookup a (nodo_a_indice m)) (fun k => cell (matriz m) k i)
            = existe_conexion a x m).
  { intros a Ha. unfold existe_conexion.
    rewrite (proj2 (in_set_In a _) Ha), (proj2 (in_set_In x _) Ex). cbn [negb orb].
    rewrite Li. destruct (lookup a (nodo_a_indice m)); reflexivity. }
  destruct (collect_loop
              (fun a => and_then (lookup a (nodo_a_indice m)) (fun k => cell (matriz m) k i))
              (iteration_order (nodos m))) as (l & E & H1 & H2).
  { intros a Ha. apply (proj1 (visited_In _ _)) in Ha. rewrite (Htest a Ha).
    now apply existe_conexion_returns. }
  exists l. split.
  - rewrite <- E. apply for_each_result_ext. intros a acc. now rewrite and_then_assoc.
  - split; [|apply H2, visited_NoDup].
    intro a. rewrite H1, visited_In. unfold connected. split.
    + intros [Ha Ht]. now rewrite <- (Htest a Ha).
    + intro Ht. assert (Ha : In a (nodos m)).
      { destruct (in_dec Nat.eq_dec a (nodos m)); [assumption|].
        rewrite existe_conexion_outside in Ht by tauto. discriminate Ht. }
      split; [exact Ha|]. now rewrite (Htest a Ha).
Qed.

End IterationFacts.

Section MoreIterationFacts.
Variable iteration_order : list nat -> list nat.
Hypothesis visits_each_once :
  forall s, Permutation (iteration_order s) (nodup Nat.eq_dec s).

Lemma conexiones_salientes_spec : forall x m,
  consistent m ->
  exists l,
    conexiones_salientes iteration_order x m = Return l
    /\ (forall b, In b l <-> connected m x b)
    /\ NoDup l.
Proof.
  intros x m Hc. unfold conexiones_salientes.
  destruct (in_set x (nodos m)) eqn:Ex; cbn [negb].
  2:{ apply in_set_false in Ex. exists []. split; [reflexivity|]. split; [|constructor].
      intro b. unfold connected. rewrite existe_conexion_outside by tauto.
      simpl. split; [tauto|discriminate]. }
  apply in_set_In in Ex.
  destruct (lookup_consistent m x Hc Ex) as (i & Hi & Ni & Li).
  rewrite Li. cbn [and_then].
  assert (Htest : forall b, In b (nodos m) ->
            and_then (lookup b (nodo_a_indice m)) (fun k => cell (matriz m) i k)
            = existe_conexion x b m).
  { intros b Hb. unfold existe_conexion.
    rewrite (proj2 (in_set_In b _) Hb), (proj2 (in_set_In x _) Ex). cbn [negb orb].
    rewrite Li. reflexivity. }
  destruct (collect_loop
              (fun b => and_then (lookup b (nodo_a_indice m)) (fun k => cell (matriz m) i k))
              (iteration_order (nodos m))) as (l & E & H1 & H2).
  { intros b Hb. apply (proj1 (visited_In iteration_order visits_each_once _ _)) in Hb.
    rewrite (Htest b Hb). now apply existe_conexion_returns. }
  exists l. split.
  - rewrite <- E. apply for_each_result_ext. intros b acc. now rewrite and_then_assoc.
  - split; [|apply H2, (visited_NoDup iteration_order visits_each_once)].
    intro b. rewrite H1, (visited_In iteration_order visits_each_once). unfold connected.
    split.
    + intros [Hb Ht]. now rewrite <- (Htest b Hb).
    + intro Ht. assert (Hb : In b (nodos m)).
      { destruct (in_dec Nat.eq_dec b (nodos m)); [assumption|].
        rewrite existe_conexion_outside in Ht by tauto. discriminate Ht. }
      split; [exact Hb|]. now rewrite (Htest b Hb).
Qed.

End MoreIterationFacts.

(** ** [modificar_conexiones_nodo] *)

Lemma dget_last : forall (d : list (nat * bool)) k k' v,
  dget Nat.eqb k (d ++ [(k', v)])
  = match dget Nat.eqb k d with
    | Some x => Some x
    | None => if Nat.eqb k k' then Some v else None
    end.
Proof.
  induction d as [|[k0 v0] r IH]; intros k k' v; cbn [app dget]; [reflexivity|].
  destruct (Nat.eqb k k0); [reflexivity|apply IH].
Qed.

Lemma dget_fresh_key : forall (done : list (nat * bool)) c v rest,
  NoDup (dkeys (done ++ (c, v) :: rest)) -> dget Nat.eqb c done = None.
Proof.
  intros done c v rest H. apply (dget_not_key Nat.eqb Nat.eqb_eq).
  unfold dkeys in *. rewrite map_app in H. cbn [map fst] in H.
  apply NoDup_remove_2 in H. intro Hin. apply H. apply in_or_app. now left.
Qed.

Section Modificar.
Variable m : t.
Hypothesis m_consistent : consistent m.
Let ns := sorted_set (nodos m).
Let n := length ns.
Variable i : nat.
Hypothesis i_lt : i < n.

Lemma modificar_entrantes_loop : forall items a0,
  NoDup (dkeys items) -> square n a0 ->
  exists a',
    for_each_result items (modificar_entrante m i) a0 = Return a'
    /\ square n a'
    /\ forall k j c, k < n -> j < n -> nth_error ns k = Some c ->
         cell a' k j
         = if Nat.eqb j i
           then match dget Nat.eqb c items with
                | Some v => Return v
                | None => cell a0 k j
                end
           else cell a0 k j.
Proof.
  intros items a0 Hnd Hs0.
  destruct (for_each_result_inv (modificar_entrante m i)
              (fun done a' =>
                 square n a'
                 /\ forall k j c, k < n -> j < n -> nth_error ns k = Some c ->
                      cell a' k j
                      = if Nat.eqb j i
                        then match dget Nat.eqb c done with
                             | Some v => Return v
                             | None => cell a0 k j
                             end
                        else cell a0 k j)
              items a0) as (a' & E & H).
  - split; [exact Hs0|]. intros k j c _ _ _. cbn [dget]. now destruct (Nat.eqb j i).
  - intros done [c v] rest a1 Hsplit [Hs1 H1]. rewrite Hsplit in Hnd.
    pose proof (dget_fresh_key done c v rest Hnd) as Hfresh.
    unfold modificar_entrante. destruct (in_set c (nodos m)) eqn:Ec.
    + apply in_set_In in Ec.
      destruct (lookup_consistent m c m_consistent Ec) as (kc & Hkc & Nkc & Lkc).
      rewrite Lkc. cbn [and_then].
      destruct (set_cell_spec n a1 kc i v Hs1 Hkc i_lt) as (a2 & E2 & Hs2 & C2).
      exists a2. split; [exact E2|]. split; [exact Hs2|].
      intros k j c' Hk Hj Nk. rewrite C2, dget_last, (H1 k j c' Hk Hj Nk).
      destruct (Nat.eqb_spec k kc) as [->|Hne]; cbn [andb].
      * assert (c' = c) by (fold ns in Nkc; congruence). subst c'.
        rewrite Hfresh, Nat.eqb_refl. destruct (Nat.eqb j i); reflexivity.
      * destruct (Nat.eqb j i); [|reflexivity].
        destruct (dget Nat.eqb c' done); [reflexivity|].
        destruct (Nat.eqb_spec c' c) as [->|_]; [|reflexivity].
        exfalso. apply Hne.
        exact (nth_error_injective ns k kc c (sorted_set_NoDup _) Nk Nkc).
    + apply in_set_false in Ec. exists a1. split; [reflexivity|]. split; [exact Hs1|].
      intros k j c' Hk Hj Nk. rewrite dget_last, (H1 k j c' Hk Hj Nk).
      destruct (Nat.eqb j i); [|reflexivity].
      destruct (dget Nat.eqb c' done); [reflexivity|].
      destruct (Nat.eqb_spec c' c) as [->|_]; [|reflexivity].
      exfalso. apply Ec. apply sorted_set_In. eapply nth_error_In; eauto.
  - exists a'. split; [exact E|exact H].
Qed.

Lemma modificar_salientes_loop : forall items a0,
  NoDup (dkeys items) -> square n a0 ->
  exists a',
    for_each_result items (modificar_saliente m i) a0 = Return a'
    /\ square n a'
    /\ forall k j c, k < n -> j < n -> nth_error ns j = Some c ->
         cell a' k j
         = if Nat.eqb k i
           then match dget Nat.eqb c items with
                | Some v => Return v
                | None => cell a0 k j
                end
           else cell a0 k j.
Proof.
  intros items a0 Hnd Hs0.
  destruct (for_each_result_inv (modificar_saliente m i)
              (fun done a' =>
                 square n a'
                 /\ forall k j c, k < n -> j < n -> nth_error ns j = Some c ->
                      cell a' k j
                      = if Nat.eqb k i
                        then match dget Nat.eqb c done with
                             | Some v => Return v
                             | None => cell a0 k j
                             end
                        else cell a0 k j)
              items a0) as (a' & E & H).
  - split; [exact Hs0|]. intros k j c _ _ _. cbn [dget]. now destruct (Nat.eqb k i).
  - intros done [c v] rest a1 Hsplit [Hs1 H1]. rewrite Hsplit in Hnd.
    pose proof (dget_fresh_key done c v rest Hnd) as Hfresh.
    unfold modificar_saliente. destruct (in_set c (nodos m)) eqn:Ec.
    + apply in_set_In in Ec.
      destruct (lookup_consistent m c m_consistent Ec) as (kc & Hkc & Nkc & Lkc).
      rewrite Lkc. cbn [and_then].
      destruct (set_cell_spec n a1 i kc v Hs1 i_lt Hkc) as (a2 & E2 & Hs2 & C2).
      exists a2. split; [exact E2|]. split; [exact Hs2|].
      intros k j c' Hk Hj Nj. rewrite C2, dget_last, (H1 k j c' Hk Hj Nj).
      destruct (Nat.eqb_spec j kc) as [->|Hne]; rewrite ?andb_true_r, ?andb_false_r.
      * assert (c' = c) by (fold ns in Nkc; congruence). subst c'.
        rewrite Hfresh, Nat.eqb_refl. destruct (Nat.eqb k i); reflexivity.
      * destruct (Nat.eqb k i); [|reflexivity].
        destruct (dget Nat.eqb c' done); [reflexivity|].
        destruct (Nat.eqb_spec c' c) as [->|_]; [|reflexivity].
        exfalso. apply Hne.
        exact (nth_error_injective ns j kc c (sorted_set_NoDup _) Nj Nkc).
    + apply in_set_false in Ec. exists a1. split; [reflexivity|]. split; [exact Hs1|].
      intros k j c' Hk Hj Nj. rewrite dget_last, (H1 k j c' Hk Hj Nj).
      destruct (Nat.eqb k i); [|reflexivity].
      destruct (dget Nat.eqb c' done); [reflexivity|].
      destruct (Nat.eqb_spec c' c) as [->|_]; [|reflexivity].
      exfalso. apply Ec. apply sorted_set_In. eapply nth_error_In; eauto.
  - exists a'. split; [exact E|exact H].
Qed.

End Modificar.

Lemma existe_conexion_at : forall m a b ia ib,
  consistent m ->
  nth_error (sorted_set (nodos m)) ia = Some a ->
  nth_error (sorted_set (nodos m)) ib = Some b ->
  existe_conexion a b m = cell (matriz m) ia ib.
Proof.
  intros m a b ia ib Hc Na Nb.
  assert (Ha : In a (nodos m)) by (apply sorted_set_In; eapply nth_error_In; eauto).
  assert (Hb : In b (nodos m)) by (apply sorted_set_In; eapply nth_error_In; eauto).
  destruct (existe_conexion_inside m a b Hc Ha Hb) as (i & j & _ & _ & Ni & Nj & E).
  rewrite (nth_error_injective _ i ia a (sorted_set_NoDup _) Ni Na) in E.
  now rewrite (nth_error_injective _ j ib b (sorted_set_NoDup _) Nj Nb) in E.
Qed.



Lemma modificar_conexiones_nodo_spec : forall x entrantes salientes m,
  consistent m -> In x (nodos m) ->
  NoDup (dkeys entrantes) -> NoDup (dkeys salientes) ->
  exists m',
    modificar_conexiones_nodo x entrantes salientes m = Return m'
    /\ consistent m'
    /\ nodos m' = nodos m
    /\ (forall a b, a <> x -> b <> x -> existe_conexion a b m' = existe_conexion a b m)
    /\ (forall a, a <> x -> In a (nodos m) ->
          existe_conexion a x m'
          = match dget Nat.eqb a entrantes with
            | Some v => Return v
            | None => existe_conexion a x m
            end)
    /\ (forall b, b <> x -> In b (nodos m) ->
          existe_conexion x b m'
          = match dget Nat.eqb b salientes with
            | Some v => Return v
            | None => existe_conexion x b m
            end)
    /\ existe_conexion x x m'
       = match dget Nat.eqb x salientes with
         | Some v => Return v
         | None => match dget Nat.eqb x entrantes with
                   | Some v => Return v
                   | None => existe_conexion x x m
                   end
         end.
Proof.
  intros x ent sal m Hc Ex Hne Hns. unfold modificar_conexiones_nodo.
  rewrite (proj2 (in_set_In x _) Ex).
  destruct (lookup_consistent m x Hc Ex) as (i & Hi & Ni & Li).
  rewrite Li. cbn [and_then].
  destruct (modificar_entrantes_loop m Hc i Hi ent (matriz m) Hne (proj1 Hc))
    as (a1 & E1 & S1 & C1).
  rewrite E1. cbn [and_then].
  destruct (modificar_salientes_loop m Hc i Hi sal a1 Hns S1) as (a2 & E2 & S2 & C2).
  rewrite E2. cbn [and_then]. eexists. split; [reflexivity|].
  pose proof (set_matriz_consistent m a2 Hc S2) as Hc'.
  split; [exact Hc'|]. split; [reflexivity|].
  set (ns := sorted_set (nodos m)) in *.
  assert (Hidx : forall a, In a (nodos m) ->
            exists ia, ia < length ns /\ nth_error ns ia = Some a /\ (ia = i <-> a = x)).
  { intros a Ha. destruct (lookup_consistent m a Hc Ha) as (ia & Hia & Nia & _).
    exists ia. split; [exact Hia|]. split; [exact Nia|]. split.
    - intros ->. fold ns in Nia. congruence.
    - intros ->. exact (nth_error_injective ns ia i x (sorted_set_NoDup _) Nia Ni). }
  assert (Hcell : forall a b ia ib,
            nth_error ns ia = Some a -> nth_error ns ib = Some b ->
            ia < length ns -> ib < length ns ->
            existe_conexion a b (set_matriz a2 m)
            = if Nat.eqb ia i
              then match dget Nat.eqb b sal with
                   | Some v => Return v
                   | None =>
                       if Nat.eqb ib i
                       then match dget Nat.eqb a ent with
                            | Some v => Return v
                            | None => existe_conexion a b m
                            end
                       else existe_conexion a b m
                   end
              else if Nat.eqb ib i
                   then match dget Nat.eqb a ent with
                        | Some v => Return v
                        | None => existe_conexion a b m
                        end
                   else existe_conexion a b m).
  { intros a b ia ib Na Nb Hia Hib.
    rewrite (existe_conexion_at (set_matriz a2 m) a b ia ib Hc' Na Nb).
    rewrite (existe_conexion_at m a b ia ib Hc Na Nb).
    cbn [matriz set_matriz].
    rewrite (C2 ia ib b Hia Hib Nb), (C1 ia ib a Hia Hib Na). reflexivity. }
  split; [|split; [|split]].
  - intros a b Ha Hb.
    destruct (in_dec Nat.eq_dec a (nodos m)) as [Hia|Hia];
      [destruct (in_dec Nat.eq_dec b (nodos m)) as [Hib|Hib]|];
      try (rewrite !existe_conexion_outside by (cbn; tauto); reflexivity).
    destruct (Hidx a Hia) as (ia & Lia & Nia & Eia).
    destruct (Hidx b Hib) as (ib & Lib & Nib & Eib).
    rewrite (Hcell a b ia ib Nia Nib Lia Lib).
    destruct (Nat.eqb_spec ia i) as [H|_]; [apply Eia in H; contradiction|].
    destruct (Nat.eqb_spec ib i) as [H|_]; [apply Eib in H; contradiction|]. reflexivity.
  - intros a Ha Hia. destruct (Hidx a Hia) as (ia & Lia & Nia & Eia).
    rewrite (Hcell a x ia i Nia Ni Lia Hi).
    destruct (Nat.eqb_spec ia i) as [H|_]; [apply Eia in H; contradiction|].
    now rewrite Nat.eqb_refl.
  - intros b Hb Hib. destruct (Hidx b Hib) as (ib & Lib & Nib & Eib).
    rewrite (Hcell x b i ib Ni Nib Hi Lib). rewrite Nat.eqb_refl.
    destruct (Nat.eqb_spec ib i) as [H|_]; [apply Eib in H; contradiction|]. reflexivity.
  - rewrite (Hcell x x i i Ni Ni Hi Hi). now rewrite Nat.eqb_refl.
Qed.

(** ** Histories of calls *)



Lemma consistent_three_nodes : consistent three_nodes.
Proof.
  unfold consistent, square. vm_compute. repeat split; repeat constructor.
Qed.

(** ** The properties of the class *)



(** X22: [agregar_nodo] on a consistent matrix returns a consistent matrix
    whose nodes are the old ones and the new one, and [existe_conexion]
    answers as before for every pair: the renumbering loses no connection
    and the new node has none.  For a node that is there already nothing
    changes. *)
Theorem agregar_nodo_keeps_connections : forall x m,
  consistent m ->
  exists m',
    agregar_nodo x m = Return m'
    /\ consistent m'
    /\ (forall y, In y (nodos m') <-> y = x \/ In y (nodos m))
    /\ (forall a b, existe_conexion a b m' = existe_conexion a b m)
    /\ (~ In x (nodos m) ->
        forall b, existe_conexion x b m' = Return false
                  /\ existe_conexion b x m' = Return false)
    /\ (In x (nodos m) -> m' = m).
Proof.
  intros x m Hc. destruct (agregar_nodo_spec x m Hc) as (m' & E & Hc' & Hn & Hsame).
  exists m'. split; [exact E|]. split; [exact Hc'|]. split; [exact Hn|].
  split; [exact Hsame|]. split.
  - intros Hx b. rewrite !Hsame. split; apply existe_conexion_outside; tauto.
  - intro Hx. unfold agregar_nodo in E. rewrite (proj2 (in_set_In x _) Hx) in E.
    cbn [negb] in E. now injection E.
Qed.

(** X22 at [three_nodes] and the new node 0: every node moves up by one
    index and the connections 1 -> 3 and 3 -> 2 are still there. *)
Lemma agregar_nodo_keeps_connections_three_nodes :
  consistent three_nodes
  /\ exists m',
       agregar_nodo 0 three_nodes = Return m'
       /\ nodo_a_indice m' = [(0, 0); (1, 1); (2, 2); (3, 3)]
       /\ existe_conexion 1 3 three_nodes = Return true
       /\ existe_conexion 1 3 m' = Return true
       /\ existe_conexion 0 3 m' = Return false.
Proof.
  split; [exact consistent_three_nodes|].
  destruct (agregar_nodo_keeps_connections 0 three_nodes consistent_three_nodes)
    as (m' & E & _ & _ & Hsame & Hnew & _).
  exists m'. split; [exact E|].
  assert (H13 : existe_conexion 1 3 three_nodes = Return true) by (vm_compute; reflexivity).
  split; [vm_compute in E; injection E as <-; reflexivity|].
  split; [exact H13|]. split; [now rewrite Hsame|].
  apply Hnew. vm_compute. intuition discriminate.
Defined.

(** X23: [agregar_conexion(a, b)] on a consistent matrix.  When both nodes
    are there, [existe_conexion(a, b)] is [True] afterwards and every other
    pair answers as before; when one is missing nothing changes.  The nodes
    stay the same. *)
Theorem agregar_conexion_then_existe_conexion : forall a b m,
  consistent m ->
  exists m',
    agregar_conexion a b m = Return m'
    /\ consistent m'
    /\ nodos m' = nodos m
    /\ (In a (nodos m) -> In b (nodos m) -> existe_conexion a b m' = Return true)
    /\ (forall x y, (x, y) <> (a, b) -> existe_conexion x y m' = existe_conexion x y m)
    /\ (~ (In a (nodos m) /\ In b (nodos m)) -> m' = m).
Proof.
  intros a b m Hc. destruct (agregar_conexion_spec a b m Hc) as (m' & E & Hc' & Hn & Hx).
  exists m'. split; [exact E|]. split; [exact Hc'|]. split; [exact Hn|]. split; [|split].
  - intros Ha Hb. rewrite Hx, !Nat.eqb_refl.
    now rewrite (proj2 (in_set_In a _) Ha), (proj2 (in_set_In b _) Hb).
  - intros x y Hne. rewrite Hx.
    destruct (Nat.eqb_spec x a) as [->|_]; [|reflexivity].
    destruct (Nat.eqb_spec y b) as [->|_]; [congruence|reflexivity].
  - intro Hout. unfold agregar_conexion in E.
    destruct (in_set a (nodos m)) eqn:Ea; [destruct (in_set b (nodos m)) eqn:Eb|];
      cbn [andb] in E; try (now injection E).
    exfalso. apply Hout. split; now apply in_set_In.
Qed.

(** X23 at [three_nodes] and the connection 2 -> 1. *)
Lemma agregar_conexion_then_existe_conexion_three_nodes :
  consistent three_nodes
  /\ existe_conexion 2 1 three_nodes = Return false
  /\ exists m',
       agregar_conexion 2 1 three_nodes = Return m'
       /\ existe_conexion 2 1 m' = Return true
       /\ existe_conexion 1 2 m' = Return false.
Proof.
  split; [exact consistent_three_nodes|]. split; [vm_compute; reflexivity|].
  destruct (agregar_conexion_then_existe_conexion 2 1 three_nodes consistent_three_nodes)
    as (m' & E & _ & _ & Hab & Hother & _).
  exists m'. split; [exact E|]. split.
  - apply Hab; vm_compute; auto.
  - rewrite Hother by discriminate. vm_compute. reflexivity.
Defined.

(** X24: [eliminar_conexiones_nodo] on a consistent matrix raises
    [IndexError] for a node that is not there.  Otherwise it keeps the
    nodes, removes every connection that enters or leaves the node, and
    leaves the other connections as they were. *)
Theorem eliminar_conexiones_nodo_isolates_the_node : forall x m,
  consistent m ->
  (~ In x (nodos m) -> eliminar_conexiones_nodo x m = RaiseIndexError)
  /\ (In x (nodos m) ->
      exists m',
        eliminar_conexiones_nodo x m = Return m'
        /\ consistent m'
        /\ nodos m' = nodos m
        /\ (forall b, existe_conexion x b m' = Return false
                      /\ existe_conexion b x m' = Return false)
        /\ (forall a b, a <> x -> b <> x ->
              existe_conexion a b m' = existe_conexion a b m)).
Proof.
  intros x m Hc. destruct (eliminar_conexiones_nodo_spec x m Hc) as [Hout Hin].
  split; [exact Hout|]. intro Hx. destruct (Hin Hx) as (m' & E & Hc' & Hn & Hex).
  exists m'. split; [exact E|]. split; [exact Hc'|]. split; [exact Hn|]. split.
  - intro b. rewrite !Hex, Nat.eqb_refl. cbn [orb]. now rewrite orb_true_r.
  - intros a b Ha Hb. rewrite Hex.
    destruct (Nat.eqb_spec a x) as [|_]; [contradiction|].
    destruct (Nat.eqb_spec b x) as [|_]; [contradiction|]. reflexivity.
Qed.

(** X24 at [three_nodes]: the node 3 loses 1 -> 3 and 3 -> 2, and the node
    7 is not there. *)
Lemma eliminar_conexiones_nodo_isolates_the_node_three_nodes :
  consistent three_nodes
  /\ eliminar_conexiones_nodo 7 three_nodes = RaiseIndexError
  /\ existe_conexion 1 3 three_nodes = Return true
  /\ exists m',
       eliminar_conexiones_nodo 3 three_nodes = Return m'
       /\ existe_conexion 1 3 m' = Return false
       /\ existe_conexion 3 2 m' = Return false.
Proof.
  destruct (eliminar_conexiones_nodo_isolates_the_node 7 three_nodes consistent_three_nodes)
    as [Hout _].
  destruct (eliminar_conexiones_nodo_isolates_the_node 3 three_nodes consistent_three_nodes)
    as [_ Hin].
  split; [exact consistent_three_nodes|].
  split; [apply Hout; vm_compute; intuition discriminate|].
  split; [vm_compute; reflexivity|].
  destruct Hin as (m' & E & _ & _ & Hiso & _); [vm_compute; auto|].
  exists m'. split; [exact E|]. split; [apply (Hiso 1)|apply (Hiso 2)].
Defined.

(** X25: [eliminar_nodo] on a consistent matrix returns a consistent matrix
    without the node (the other nodes are renumbered), in which every
    connection between the remaining nodes is as it was; a node added again
    later has no connection.  For a node that is not there nothing
    changes. *)
Theorem eliminar_nodo_keeps_the_other_connections : forall x m,
  consistent m ->
  exists m',
    eliminar_nodo x m = Return m'
    /\ consistent m'
    /\ (forall y, In y (nodos m') <-> y <> x /\ In y (nodos m))
    /\ (forall a b, a <> x -> b <> x ->
          existe_conexion a b m' = existe_conexion a b m)
    /\ (forall b, existe_conexion x b m' = Return false
                  /\ existe_conexion b x m' = Return false)
    /\ (~ In x (nodos m) -> m' = m)
    /\ (exists m'', agregar_nodo x m' = Return m''
                    /\ forall b, existe_conexion x b m'' = Return false
                                 /\ existe_conexion b x m'' = Return false).
Proof.
  intros x m Hc. destruct (eliminar_nodo_spec x m Hc) as (m' & E & Hc' & Hn & Hex).
  exists m'. split; [exact E|]. split; [exact Hc'|]. split; [exact Hn|].
  assert (Hiso : forall b, existe_conexion x b m' = Return false
                           /\ existe_conexion b x m' = Return false).
  { intro b. rewrite !Hex, Nat.eqb_refl. cbn [orb]. now rewrite orb_true_r. }
  split; [|split; [exact Hiso|split]].
  - intros a b Ha Hb. rewrite Hex.
    destruct (Nat.eqb_spec a x) as [|_]; [contradiction|].
    destruct (Nat.eqb_spec b x) as [|_]; [contradiction|]. reflexivity.
  - intro Hx. unfold eliminar_nodo in E. apply in_set_false in Hx. rewrite Hx in E.
    now injection E.
  - destruct (agregar_nodo_spec x m' Hc') as (m'' & E' & _ & _ & Hsame).
    exists m''. split; [exact E'|]. intro b. rewrite !Hsame. apply Hiso.
Qed.

(** X25 at [three_nodes]: without the node 1 the nodes 2 and 3 have the
    indices 0 and 1, and 3 -> 2 is still there. *)
Lemma eliminar_nodo_keeps_the_other_connections_three_nodes :
  consistent three_nodes
  /\ exists m',
       eliminar_nodo 1 three_nodes = Return m'
       /\ nodo_a_indice m' = [(2, 0); (3, 1)]
       /\ existe_conexion 3 2 three_nodes = Return true
       /\ existe_conexion 3 2 m' = Return true
       /\ existe_conexion 1 3 m' = Return false.
Proof.
  split; [exact consistent_three_nodes|].
  destruct (eliminar_nodo_keeps_the_other_connections 1 three_nodes consistent_three_nodes)
    as (m' & E & _ & _ & Hsame & Hiso & _).
  exists m'. split; [exact E|].
  assert (H32 : existe_conexion 3 2 three_nodes = Return true) by (vm_compute; reflexivity).
  split; [vm_compute in E; injection E as <-; reflexivity|].
  split; [exact H32|]. split; [rewrite Hsame by discriminate; exact H32|].
  apply (Hiso 3).
Defined.

(** X26: on a consistent matrix, whatever the order in which a set is
    iterated, [conexiones_entrantes(x)] returns each node [a] with
    [existe_conexion(a, x)] once and no other, and [conexiones_salientes(x)]
    each node [b] with [existe_conexion(x, b)]; so [a] is among the incoming
    nodes of [b] iff [b] is among the outgoing nodes of [a]. *)
Theorem conexiones_list_the_connected_nodes :
  forall (iteration_order : list nat -> list nat),
    (forall s, Permutation (iteration_order s) (nodup Nat.eq_dec s)) ->
    forall m, consistent m ->
      (forall x, exists entrantes salientes,
         conexiones_entrantes iteration_order x m = Return entrantes
         /\ conexiones_salientes iteration_order x m = Return salientes
         /\ NoDup entrantes /\ NoDup salientes
         /\ (forall a, In a entrantes <-> existe_conexion a x m = Return true)
         /\ (forall b, In b salientes <-> existe_conexion x b m = Return true))
      /\ (forall a b entrantes salientes,
            conexiones_entrantes iteration_order b m = Return entrantes ->
            conexiones_salientes iteration_order a m = Return salientes ->
            (In a entrantes <-> In b salientes)).
Proof.
  intros order Horder m Hc. split.
  - intro x.
    destruct (conexiones_entrantes_spec order Horder x m Hc) as (le & Ee & He & Hne).
    destruct (conexiones_salientes_spec order Horder x m Hc) as (ls & Es & Hs & Hns).
    exists le, ls. repeat split; auto; try apply He; try apply Hs.
  - intros a b le ls Ee Es.
    destruct (conexiones_entrantes_spec order Horder b m Hc) as (le' & Ee' & He & _).
    destruct (conexiones_salientes_spec order Horder a m Hc) as (ls' & Es' & Hs & _).
    rewrite Ee in Ee'. injection Ee' as <-. rewrite Es in Es'. injection Es' as <-.
    now rewrite He, Hs.
Qed.

(** X26 at [three_nodes], iterated in the order of insertion: the node 3
    has the incoming node 1 and the outgoing node 2. *)
Lemma conexiones_list_the_connected_nodes_three_nodes :
  consistent three_nodes
  /\ conexiones_entrantes insertion_order 3 three_nodes = Return [1]
  /\ conexiones_salientes insertion_order 3 three_nodes = Return [2]
  /\ (In 1 [1] <-> existe_conexion 1 3 three_nodes = Return true).
Proof.
  assert (Horder : forall s, Permutation (insertion_order s) (nodup Nat.eq_dec s))
    by (intro s; apply Permutation_refl).
  destruct (proj1 (conexiones_list_the_connected_nodes insertion_order Horder three_nodes
                     consistent_three_nodes) 3)
    as (le & ls & Ee & Es & _ & _ & He & _).
  split; [exact consistent_three_nodes|].
  assert (El : le = [1]) by (vm_compute in Ee; now injection Ee).
  assert (Els : ls = [2]) by (vm_compute in Es; now injection Es).
  subst le ls. split; [exact Ee|]. split; [exact Es|]. apply He.
Defined.

(** X27: [modificar_conexiones_nodo(x, entrantes, salientes)] on a
    consistent matrix that holds [x].  The connection from a node [a] of the
    matrix to [x] becomes what [entrantes] says for [a], the connection from
    [x] to a node [b] what [salientes] says for [b], and stays as it was when
    the dictionary has no such key; for the loop from [x] to [x],
    [salientes] is applied last.  Connections that do not touch [x], and the
    nodes, stay as they were. *)
Theorem modificar_conexiones_nodo_sets_the_listed_connections :
  forall x entrantes salientes m,
    consistent m -> In x (nodos m) ->
    NoDup (dkeys entrantes) -> NoDup (dkeys salientes) ->
    exists m',
      modificar_conexiones_nodo x entrantes salientes m = Return m'
      /\ consistent m'
      /\ nodos m' = nodos m
      /\ (forall a b, a <> x -> b <> x -> existe_conexion a b m' = existe_conexion a b m)
      /\ (forall a v, a <> x -> In a (nodos m) -> dget Nat.eqb a entrantes = Some v ->
            existe_conexion a x m' = Return v)
      /\ (forall a, a <> x -> dget Nat.eqb a entrantes = None ->
            existe_conexion a x m' = existe_conexion a x m)
      /\ (forall b v, b <> x -> In b (nodos m) -> dget Nat.eqb b salientes = Some v ->
            existe_conexion x b m' = Return v)
      /\ (forall b, b <> x -> dget Nat.eqb b salientes = None ->
            existe_conexion x b m' = existe_conexion x b m)
      /\ existe_conexion x x m'
         = match dget Nat.eqb x salientes with
           | Some v => Return v
           | None => match dget Nat.eqb x entrantes with
                     | Some v => Return v
                     | None => existe_conexion x x m
                     end
           end.
Proof.
  intros x ent sal m Hc Hx Hne Hns.
  destruct (modificar_conexiones_nodo_spec x ent sal m Hc Hx Hne Hns)
    as (m' & E & Hc' & Hn & Hframe & Hent & Hsal & Hloop).
  exists m'. split; [exact E|]. split; [exact Hc'|]. split; [exact Hn|].
  split; [exact Hframe|]. split; [|split; [|split; [|split]]].
  - intros a v Ha Hin Hv. now rewrite (Hent a Ha Hin), Hv.
  - intros a Ha Hv. destruct (in_dec Nat.eq_dec a (nodos m)) as [Hin|Hin].
    + now rewrite (Hent a Ha Hin), Hv.
    + rewrite !existe_conexion_outside by (rewrite ?Hn; tauto). reflexivity.
  - intros b v Hb Hin Hv. now rewrite (Hsal b Hb Hin), Hv.
  - intros b Hb Hv. destruct (in_dec Nat.eq_dec b (nodos m)) as [Hin|Hin].
    + now rewrite (Hsal b Hb Hin), Hv.
    + rewrite !existe_conexion_outside by (rewrite ?Hn; tauto). reflexivity.
  - exact Hloop.
Qed.

(** X27 at [three_nodes] and the node 3, with [{1: False, 2: True}] for
    the incoming and [{2: False}] for the outgoing connections: 1 -> 3 and
    3 -> 2 go, 2 -> 3 comes. *)
Lemma modificar_conexiones_nodo_sets_the_listed_connections_three_nodes :
  consistent three_nodes
  /\ existe_conexion 1 3 three_nodes = Return true
  /\ exists m',
       modificar_conexiones_nodo 3 [(1, false); (2, true)] [(2, false)] three_nodes
       = Return m'
       /\ existe_conexion 1 3 m' = Return false
       /\ existe_conexion 2 3 m' = Return true
       /\ existe_conexion 3 2 m' = Return false.
Proof.
  split; [exact consistent_three_nodes|]. split; [vm_compute; reflexivity|].
  destruct (modificar_conexiones_nodo_sets_the_listed_connections 3
              [(1, false); (2, true)] [(2, false)] three_nodes consistent_three_nodes)
    as (m' & E & _ & _ & _ & Hent & _ & Hsal & _).
  - vm_compute. auto.
  - repeat constructor; simpl; intuition discriminate.
  - repeat constructor; simpl; intuition discriminate.
  - exists m'. split; [exact E|].
    split; [apply Hent; [discriminate|vm_compute; auto|reflexivity]|].
    split; [apply Hent; [discriminate|vm_compute; auto|reflexivity]|].
    apply Hsal; [discriminate|vm_compute; auto|reflexivity].
Defined.
